(* ===== verification/_CoqProject ===== *)
-Q . S2P
Prelude.v
Effects.v
CacheAside.v
RedisCache.v
Encoding.v
Sha2.v
OAuthUtils.v
OAuthState.v
OAuthManager.v
OAuthHandler.v
OAuthOIDC.v
GoChan.v
RmqConfig.v
RmqEvents.v
RmqRun.v
RmqPool.v
RmqClient.v
RmqTopology.v
RmqReconnect.v
RmqProducer.v
RmqConsumer.v
RmqBatch.v
KafkaClient.v
KafkaMessaging.v
DbClient.v
CryptoUtil.v
I18n.v
AppLog.v
