(* ===== verification/Prelude.v ===== *)
(** * Ghost: a verification library for the Go modules of the repository

    The repository is a collection of infrastructure modules for Go services:
    a cache-aside layer over Redis ([src/cache]), OAuth2/OIDC login
    ([src/oauth2]), a reconnecting RabbitMQ client with producers and
    consumers ([src/rabbitmq]), a Kafka client ([src/kafka]), a PostgreSQL
    client ([src/db]), password hashing and digests ([src/cryptoutil]),
    translations ([src/i18n]) and logging ([src/logger]).  The modules do not
    call each other; each mediates between an application and a service it
    does not control.  What makes them correct is therefore stated for every
    behaviour of that service, of the application's callbacks, of the clock
    and of the scheduler.

    ** How the code is modelled

    - A Go function that talks to its environment is a [prog] (file [Effects]):
      a tree of calls and of what is done with each possible answer.  Calls are
      the constructors of one event type per module ([asideE], [managerE],
      [rmqE], [consumeE], [dbE], [i18nE], ...): library calls, the clock,
      [select] statements (answered by the case that was ready), callbacks
      (which may fail or panic), atomic accesses to shared state.  Functions
      without effects are plain Rocq functions.
    - The same definition is used in all of these ways: run on a concrete
      environment ([run], [mrun], executable); all its traces ([exec]);
      conformance to a protocol automaton for every environment ([conforms]);
      executions over a memory whose calls may block, partial ([wp]) and total
      ([total], nothing blocks) correctness; interleavings of goroutines over
      a shared memory ([pool_step]), with [go] statements ([go_step]).
    - Go values: an [error] is a sentinel, a value of a library's error type or
      the result of [fmt.Errorf] with the errors it wraps ([errors_Is],
      [errors_As]); [(T, error)] is [result T]; a call ends with an [outcome]
      (a value, a panic, or fuel that did not suffice); [int] and
      [time.Duration] are integers with the 64-bit wrap-around ([wrap64])
      written out where arithmetic is done; maps are [gmap]s, and locations of
      a heap where the code mutates a map that others hold (AMQP argument
      tables); Go channels are [GoChan.gochan].

    ** Files

    - [Prelude]: errors, results, integers, time, shared lemmas, the [ghost]
      hint database.  [Effects]: the programs above and their logics.
    - [CacheAside] ([cache/client.go], [cache/cache_aside.go]) is proved
      against an interface of the cache, a typeclass of laws, which
      [RedisCache] ([cache/redis_cache.go]) implements over any client that
      obeys the documented Redis commands.
      C1-C7: the contract of one call, mutual exclusion and its limits, miss
      and hit behaviour, termination, refinement.
    - [Encoding], [Sha2]: hexadecimal and base64url with decoders, SHA-256 and
      SHA-512, used by [OAuthUtils] ([oauth2/utils.go], C8) and [CryptoUtil]
      ([cryptoutil/*.go], C39: which scrypt parameters are accepted and used).
    - [OAuthState] ([oauth2/state.go], C9-C10: refinement of an abstract map
      with expiry), [OAuthManager] ([oauth2/manager.go], [provider.go], C11-C15:
      callback protocol, single use, and what concurrency does to it),
      [OAuthHandler] ([oauth2/handler.go], C16-C17), [OAuthOIDC]
      ([oauth2/oidc_google.go], C18-C19).
    - [GoChan], [RmqConfig] ([rabbitmq/config.go]), [RmqEvents] (the client's
      memory and calls), [RmqRun] (concrete brokers), [RmqPool]
      ([rabbitmq/pool.go], C22), [RmqClient] and [RmqReconnect]
      ([rabbitmq/client.go], C20-C21 and C26-C28: connecting, closing,
      exponential backoff, one reconnection at a time in every interleaving, and
      an interleaving of [Close] with a reconnection that leaks connections),
      [RmqTopology] ([rabbitmq/topology.go], C23-C25: replay of the cached
      topology, its invariant, where dead letters go), [RmqProducer]
      ([rabbitmq/producer.go], C29-C30: what has been sent and confirmed when a
      publish or a batch returns), [RmqConsumer] and [RmqBatch]
      ([rabbitmq/consumer.go], C31-C33: every delivery settled exactly once).
    - [KafkaClient] ([kafka/config.go], [kafka/client.go], C34) and
      [KafkaMessaging] ([kafka/producer.go], [consumer.go], [health.go],
      C35-C36: dead-letter records, at-least-once consumption of the records of
      polls without errors, and what happens to the others).
    - [DbClient] ([db/*.go], C37-C38: atomic transactions, query deadlines),
      [I18n] ([i18n/*.go], C40: the localizer cache under concurrency),
      [AppLog] ([logger/*.go]).

    ** Fuel

    Loops that the environment can keep going for ever ([select] loops,
    consumers, reconnection, spinning on a compare-and-swap) take fuel, and
    [OutOfFuel] is a result of its own.  C5 shows that 14 rounds are enough for
    every call of [GetOrSet]; C20 and C21 give fuel by the size of the pool, and
    are total: nothing blocks and no fuel is missing.  The theorems on consumers
    (C32, C33, C36) hold for every amount of fuel and describe also the run that
    is still going on; C36 bounds the turns by the polls.  C22 shows a loop for
    which no fuel is enough.  All other functions are total.

    ** What is assumed

    Library calls may answer anything unless a theorem says otherwise.  Named
    hypotheses state documented behaviour, or a side condition that the
    comment on the theorem gives:
    - C2: the lock entry does not expire while the caller that set it is still
      before its release (an orphaned lock may expire at any time); C3: the
      cache calls of this run do not fail and [fn] leaves the cache alone;
      C4: the first call was not a fallback of the spin-wait;
    - C3, C4, C6: the laws of the cache, and of the Redis commands they come
      from; both allow every call to fail;
    - C5: a clock that does not run backwards and timers that are not early;
    - C9, C35: an order of map iteration that is a permutation;
    - C25: topic keys without wildcards match themselves only;
    - C26, second part: intervals below 2^62 ns, which [config.go] does not
      enforce (the first part holds for all, the third shows the overflow);
    - C32: a context whose [Err] is not nil once [Done] is closed, needed only
      for the result not to be nil; C36: a context that stays ended;
    - C37: transactions as the database documents them, without other
      clients' transactions in between;
    - C39: [N] is a 64-bit integer.
    Each is instantiated by a concrete function or run in a witness.

    ** What is not modelled

    Log lines and tracing spans (they carry no state of the modules), the inside
    of libraries (amqp091-go, franz-go, go-redis, go-oidc, lib/pq,
    go-i18n, bcrypt, scrypt), the HTTP server around the OAuth2 handler, JSON
    itself (encoding and decoding are calls), and the constructors that only
    store their arguments ([NewProducer], [NewTopologyManager] and the like).
    A panic of the application's handler is modelled for the cache, OAuth2,
    RabbitMQ and transactions; the Kafka handler is taken to return.  Mutexes
    that guard one access are folded into that access; the read-write lock of
    the localizer cache is modelled as a lock.  Error texts are lower-cased as
    ASCII in [DbClient].

    ** Possible extensions

    Exclusive ownership of pooled AMQP channels across concurrent publishers;
    a liveness statement for reconnection (a broker that comes back is found);
    publish and consume composed over one broker; the classification of
    database errors through [WithTransaction]. *)

From stdpp Require Import base gmap strings list fin_maps relations.
From Stdlib Require Import ZArith Lia.

Open Scope Z_scope.

(** ** Notations and automation *)

Declare Scope go_scope.
Delimit Scope go_scope with go.
Create HintDb ghost.

(** Linear arithmetic with division and remainder by constants. *)
Ltac dlia := Z.to_euclidean_division_equations; lia.

(** ** Go errors

    An [error] is a value of one of the concrete types the repository meets:
    a package level [errors.New] variable (its identity is the variable, so
    two sentinels are the same exactly when their qualified names are), a
    value of a library's concrete error type (met through [errors.As]), or a
    value built with [fmt.Errorf], which records its text and the operands
    of its [%w] verbs ([%v] operands only contribute text). *)

Record sentinel := MkSentinel { sentinel_var : string; sentinel_text : string }.

Inductive error : Type :=
| Sentinel (v : sentinel)
| Typed (type code text : string)
| Errorf (text : string) (wrapped : list error).

(** The [Error()] method. *)
Definition error_text (e : error) : string :=
  match e with
  | Sentinel v => sentinel_text v
  | Typed _ _ t => t
  | Errorf t _ => t
  end.

(** [errors.Is(err, target)] for a sentinel target: the target is somewhere
    in the tree of wrapped errors. *)
Fixpoint errors_Is (e : error) (target : sentinel) : bool :=
  match e with
  | Sentinel v => String.eqb (sentinel_var v) (sentinel_var target)
  | Typed _ _ _ => false
  | Errorf _ ws => existsb (fun w => errors_Is w target) ws
  end.

(** [errors.As(err, &x)] for a concrete type: the first value of that type
    in a pre-order walk; what the repository reads of it is its code. *)
Fixpoint errors_As (type : string) (e : error) : option string :=
  match e with
  | Sentinel _ => None
  | Typed t c _ => if String.eqb t type then Some c else None
  | Errorf _ ws =>
      (fix first (l : list error) : option string :=
         match l with
         | [] => None
         | w :: l' => match errors_As type w with
                      | Some c => Some c
                      | None => first l'
                      end
         end) ws
  end.

(** [fmt.Errorf(prefix ++ "%w", e)] *)
Definition wrap (prefix : string) (e : error) : error :=
  Errorf (prefix +:+ error_text e) [e].

(** [fmt.Errorf("%w: %v", v, e)]: only the sentinel is wrapped. *)
Definition wrap_sentinel (v : sentinel) (e : error) : error :=
  Errorf (sentinel_text v +:+ ": " +:+ error_text e) [Sentinel v].

(** [errors.New(text)] or [fmt.Errorf(text)] with no operand: a fresh value. *)
Definition new_error (text : string) : error := Errorf text [].

Definition context_Canceled : sentinel :=
  MkSentinel "context.Canceled" "context canceled".
Definition context_DeadlineExceeded : sentinel :=
  MkSentinel "context.DeadlineExceeded" "context deadline exceeded".

(** Results of Go functions that return [(T, error)]; a function that returns
    only an [error] returns an [option error], [None] being [nil]. *)
Inductive result (A : Type) : Type :=
| Ok (a : A)
| Err (e : error).
Arguments Ok {A} a.
Arguments Err {A} e.

Definition is_ok {A} (r : result A) : bool :=
  match r with Ok _ => true | Err _ => false end.

(** How a Go call ends: it returns, it panics, or the fuel given to the model
    of a loop was not enough to tell (the theorems on such loops show that
    this case does not arise). *)
Inductive outcome (A : Type) : Type :=
| Return (a : A)
| Panic (v : string)
| OutOfFuel.
Arguments Return {A} a.
Arguments Panic {A} v.
Arguments OutOfFuel {A}.

(** ** Machine integers and time

    [int], [int64] and [time.Duration] are 64-bit two's complement integers;
    instants are integers counting nanoseconds. *)

Definition wrap64 (z : Z) : Z := (z + 2 ^ 63) mod 2 ^ 64 - 2 ^ 63.

Definition in_int64 (z : Z) : Prop := - 2 ^ 63 <= z < 2 ^ 63.

Definition Nanosecond : Z := 1.
Definition Millisecond : Z := 1000000.
Definition Second : Z := 1000 * Millisecond.
Definition Minute : Z := 60 * Second.

(** [t.After(u)] and [t.Before(u)] *)
Definition After (t u : Z) : bool := u <? t.
Definition Before (t u : Z) : bool := t <? u.

Lemma wrap64_id z : in_int64 z -> wrap64 z = z.
Proof. unfold in_int64, wrap64. intros H. rewrite Z.mod_small; lia. Qed.

Lemma wrap64_range z : in_int64 (wrap64 z).
Proof.
  unfold in_int64, wrap64.
  pose proof (Z.mod_pos_bound (z + 2 ^ 63) (2 ^ 64)). lia.
Qed.

(** ** Strings and lists *)

Lemma string_length_app (s t : string) :
  String.length (s +:+ t) = (String.length s + String.length t)%nat.
Proof. induction s as [|c s IH]; simpl; [done|]. by rewrite IH. Qed.

(** Appending something makes a different string: the keys, topics and queue
    names derived by a suffix are never the original ones. *)
Lemma append_ne (s t : string) : t <> "" -> s +:+ t <> s.
Proof.
  intros Ht H. apply (f_equal String.length) in H.
  rewrite string_length_app in H. destruct t; [done|]. simpl in H. lia.
Qed.
#[export] Hint Resolve append_ne : ghost.

(** Validation written as a sequence of early returns succeeds exactly when
    every guard is false. *)
Lemma if_error_None {A} (b : bool) (e : A) (r : option A) :
  (if b then Some e else r) = None <-> b = false /\ r = None.
Proof. destruct b; split; [done|by intros [? _]|done|by intros [_ ?]]. Qed.
