(* ===== verification/Effects.v ===== *)
(** * Effects: Go functions as programs over external calls

    A function that talks to its environment (a broker, Redis, the clock, a
    user callback, state shared with other goroutines) is a [prog]: a tree
    whose nodes are the calls it makes and whose branches are the answers
    the environment may give.  One definition per Go function then has

    - an execution against a concrete environment ([run], executable),
    - its set of traces, for every environment ([exec]),
    - conformance to a protocol on its calls, for every environment
      ([conforms]),
    - interleavings with other goroutines over a shared state
      ([pool_step]). *)

From stdpp Require Import base list relations option.
From Stdlib Require Import Lia.
From S2P Require Import Prelude.

Local Open Scope nat_scope.

Inductive prog (E : Type -> Type) (A : Type) : Type :=
| Ret (a : A)
| Vis {X : Type} (e : E X) (k : X -> prog E A).
Arguments Ret {E A} a.
Arguments Vis {E A X} e k.

(** One call. *)
Definition call {E : Type -> Type} {X : Type} (e : E X) : prog E X := Vis e Ret.

Fixpoint prog_bind {E A B} (f : A -> prog E B) (p : prog E A) : prog E B :=
  match p with
  | Ret a => f a
  | Vis e k => Vis e (fun x => prog_bind f (k x))
  end.

Notation "'let*' x ':=' c 'in' k" := (prog_bind (fun x => k) c)
  (at level 10, x binder, k at level 200,
   format "'[v' 'let*'  x  ':='  c  'in' '/' k ']'") : go_scope.
Notation "c ;;; k" := (prog_bind (fun _ => k) c)
  (at level 100, right associativity) : go_scope.

(** Replace the calls of a program by programs over other calls. *)
Fixpoint interp {E F A} (h : forall X, E X -> prog F X) (p : prog E A) : prog F A :=
  match p with
  | Ret a => Ret a
  | Vis e k => prog_bind (fun x => interp h (k x)) (h _ e)
  end.

(** ** Executions *)

(** One call together with its answer. *)
Inductive obs (E : Type -> Type) : Type :=
| Obs {X : Type} (e : E X) (x : X).
Arguments Obs {E X} e x.

(** [exec p t a]: in some environment, [p] makes the calls of [t], gets the
    answers of [t], and ends with [a]. *)
Fixpoint exec {E A} (p : prog E A) (t : list (obs E)) (a : A) : Prop :=
  match p with
  | Ret b => t = [] /\ a = b
  | Vis e k => exists x t', t = Obs e x :: t' /\ exec (k x) t' a
  end.

(** Run against an environment that is a function of a state. *)
Fixpoint run {E S A} (h : forall X, E X -> S -> X * S) (p : prog E A) (s : S)
  : A * S * list (obs E) :=
  match p with
  | Ret a => (a, s, [])
  | Vis e k =>
      let '(x, s1) := h _ e s in
      let '(a, s2, t) := run h (k x) s1 in
      (a, s2, Obs e x :: t)
  end.

Definition run_result {E S A} h (p : prog E A) (s : S) : A := (run h p s).1.1.
Definition run_state {E S A} h (p : prog E A) (s : S) : S := (run h p s).1.2.
Definition run_trace {E S A} h (p : prog E A) (s : S) : list (obs E) := (run h p s).2.

Lemma run_exec {E S A} h (p : prog E A) (s : S) :
  exec p (run_trace h p s) (run_result h p s).
Proof.
  unfold run_trace, run_result. revert s.
  induction p as [a|X e k IH]; intros s; simpl; [done|].
  destruct (h X e s) as [x s1]. specialize (IH x s1).
  destruct (run h (k x) s1) as [[a s2] t]. simpl in *. eauto.
Qed.

Lemma run_bind {E S A B} h (f : A -> prog E B) (p : prog E A) (s : S) :
  run h (prog_bind f p) s =
  let '(a, s1, t1) := run h p s in
  let '(b, s2, t2) := run h (f a) s1 in (b, s2, t1 ++ t2).
Proof.
  revert s. induction p as [a|X e k IH]; intros s; simpl.
  - by destruct (run h (f a) s) as [[b s2] t2].
  - destruct (h X e s) as [x s1]. rewrite IH.
    destruct (run h (k x) s1) as [[a s2] t1].
    by destruct (run h (f a) s2) as [[b s3] t2].
Qed.

Lemma exec_bind {E A B} (f : A -> prog E B) (p : prog E A) t b :
  exec (prog_bind f p) t b <->
  exists a t1 t2, t = t1 ++ t2 /\ exec p t1 a /\ exec (f a) t2 b.
Proof.
  revert t. induction p as [a|X e k IH]; intros t; simpl; split.
  - intros H. by exists a, [], t.
  - intros (a' & t1 & t2 & -> & [-> ->] & H). done.
  - intros (x & t' & -> & (a & t1 & t2 & -> & H1 & H2)%IH).
    exists a, (Obs e x :: t1), t2. eauto 10.
  - intros (a & t1 & t2 & -> & (x & t' & -> & H1) & H2).
    exists x, (t' ++ t2). split; [done|]. apply IH. eauto 10.
Qed.

(** The number of calls of a trace that satisfy a test. *)
Definition calls {E} (f : obs E -> bool) (t : list (obs E)) : nat :=
  length (List.filter f t).

Lemma calls_cons {E} (f : obs E -> bool) o t :
  calls f (o :: t) = (if f o then 1 else 0) + calls f t.
Proof. unfold calls. simpl. by destruct (f o). Qed.

Lemma calls_app {E} (f : obs E -> bool) t1 t2 : calls f (t1 ++ t2) = calls f t1 + calls f t2.
Proof. unfold calls. by rewrite List.filter_app, length_app. Qed.

(** [runs h p s Q]: running [p] from [s] ends with a result, a state and a
    trace that satisfy [Q]. *)
Definition runs {E S A} (h : forall X, E X -> S -> X * S) (p : prog E A) (s : S)
    (Q : A -> S -> list (obs E) -> Prop) : Prop :=
  let '(a, s', t) := run h p s in Q a s' t.

Lemma runs_ret {E S A} h (a : A) (s : S) (Q : A -> S -> list (obs E) -> Prop) :
  Q a s [] -> runs h (Ret a) s Q.
Proof. done. Qed.

Lemma runs_vis {E S A X} h (e : E X) (k : X -> prog E A) (s : S) Q :
  (forall x s1, h X e s = (x, s1) -> runs h (k x) s1 (fun a s' t => Q a s' (Obs e x :: t))) ->
  runs h (Vis e k) s Q.
Proof.
  unfold runs. simpl. intros H. destruct (h X e s) as [x s1].
  specialize (H x s1 eq_refl). by destruct (run h (k x) s1) as [[a s'] t].
Qed.

Lemma runs_bind {E S A B} h (f : A -> prog E B) (p : prog E A) (s : S) Q :
  runs h p s (fun a s1 t1 => runs h (f a) s1 (fun b s2 t2 => Q b s2 (t1 ++ t2))) ->
  runs h (prog_bind f p) s Q.
Proof.
  unfold runs. rewrite run_bind. destruct (run h p s) as [[a s1] t1].
  by destruct (run h (f a) s1) as [[b s2] t2].
Qed.

Lemma runs_mono {E S A} h (p : prog E A) (s : S) (Q1 Q2 : A -> S -> list (obs E) -> Prop) :
  (forall a s' t, Q1 a s' t -> Q2 a s' t) -> runs h p s Q1 -> runs h p s Q2.
Proof. unfold runs. destruct (run h p s) as [[a s'] t]. auto. Qed.

(** ** Protocols

    A protocol is a deterministic automaton on calls and their answers:
    [delta q e x] is its state after the call [e] answered by [x], and
    [None] when [e] is not allowed in [q]. *)

Section protocol.
Context {E : Type -> Type} {Q : Type}.
Variable delta : forall X, Q -> E X -> X -> option Q.

(** Whatever the environment answers, [p] started in [q] only makes allowed
    calls, and ends in a state that [final] accepts with its result. *)
Fixpoint conforms {A} (final : Q -> A -> Prop) (q : Q) (p : prog E A) : Prop :=
  match p with
  | Ret a => final q a
  | Vis e k => forall x,
      match delta _ q e x with
      | Some q' => conforms final q' (k x)
      | None => False
      end
  end.

(** The protocol's state after a trace. *)
Fixpoint after (q : Q) (t : list (obs E)) : option Q :=
  match t with
  | [] => Some q
  | Obs e x :: t' =>
      match delta _ q e x with
      | Some q' => after q' t'
      | None => None
      end
  end.

Lemma conforms_exec {A} (final : Q -> A -> Prop) q (p : prog E A) t a :
  conforms final q p -> exec p t a ->
  exists q', after q t = Some q' /\ final q' a.
Proof.
  revert q t. induction p as [b|X e k IH]; intros q t; simpl.
  - intros Hf [-> ->]. eauto.
  - intros Hc (x & t' & -> & Hx). simpl. specialize (Hc x).
    destruct (delta _ q e x) as [q'|]; [eauto|done].
Qed.

Lemma after_app q t1 t2 :
  after q (t1 ++ t2) = match after q t1 with Some q1 => after q1 t2 | None => None end.
Proof using.
  revert q. induction t1 as [|[X e x] t1 IH]; intros q; simpl; [done|].
  destruct (delta X q e x); [apply IH|done].
Qed.

(** What every step keeps holds after every trace. *)
Lemma after_invariant (I : Q -> list (obs E) -> Prop) q0 t q :
  I q0 [] ->
  (forall X q t (e : E X) x q', I q t -> delta X q e x = Some q' -> I q' (t ++ [Obs e x])) ->
  after q0 t = Some q -> I q t.
Proof using.
  intros H0 Hs. revert q. induction t as [|[X e x] t IH] using rev_ind; intros q.
  - by intros [= <-].
  - rewrite after_app. destruct (after q0 t) as [q1|] eqn:Ha; [|done]. simpl.
    destruct (delta X q1 e x) as [q'|] eqn:Hd; [|done]. intros [= <-].
    by eapply Hs; [apply IH|].
Qed.

Lemma conforms_bind {A B} (final : Q -> B -> Prop) q (f : A -> prog E B) p :
  conforms (fun q' a => conforms final q' (f a)) q p ->
  conforms final q (prog_bind f p).
Proof.
  revert q. induction p as [a|X e k IH]; intros q; simpl; [done|].
  intros Hc x. specialize (Hc x).
  destruct (delta _ q e x) as [q'|]; [eauto|done].
Qed.

Lemma conforms_mono {A} (f1 f2 : Q -> A -> Prop) q p :
  (forall q' a, f1 q' a -> f2 q' a) -> conforms f1 q p -> conforms f2 q p.
Proof.
  intros Hf. revert q. induction p as [a|X e k IH]; intros q; simpl; [eauto|].
  intros Hc x. specialize (Hc x).
  destruct (delta _ q e x) as [q'|]; [eauto|done].
Qed.

End protocol.
#[export] Hint Resolve conforms_bind : ghost.

(** ** Programs restricted to some calls *)

Section only.
Context {E : Type -> Type}.

(** Whatever the environment answers, [p] only makes calls that [P] allows. *)
Fixpoint only {A} (P : forall X, E X -> bool) (p : prog E A) : Prop :=
  match p with
  | Ret _ => True
  | Vis e k => P _ e = true /\ forall x, only P (k x)
  end.

Lemma only_bind {A B} P (f : A -> prog E B) (p : prog E A) :
  only P p -> (forall a, only P (f a)) -> only P (prog_bind f p).
Proof. intros Hp Hf. induction p as [a|X e k IH]; simpl in *; naive_solver. Qed.

Lemma only_mono {A} (P1 P2 : forall X, E X -> bool) (p : prog E A) :
  (forall X e, P1 X e = true -> P2 X e = true) -> only P1 p -> only P2 p.
Proof. intros HP. induction p as [a|X e k IH]; simpl; naive_solver. Qed.

Lemma only_exec {A} P (p : prog E A) t a :
  only P p -> exec p t a -> Forall (fun o => match o with Obs e _ => P _ e = true end) t.
Proof.
  revert t. induction p as [b|X e k IH]; intros t; simpl.
  - by intros _ [-> ->].
  - intros [He Hk] (x & t' & -> & Hx). constructor; [done|]. by eapply IH.
Qed.

(** Calls that leave a protocol's state alone do so together. *)
Lemma conforms_only {A Q} P (delta : forall X, Q -> E X -> X -> option Q)
    (final : Q -> A -> Prop) q (p : prog E A) :
  (forall X (e : E X) x, P X e = true -> delta X q e x = Some q) ->
  (forall a, final q a) -> only P p -> conforms delta final q p.
Proof.
  intros HP Hf. induction p as [a|X e k IH]; simpl; [done|].
  intros [He Hk] x. rewrite (HP X e x He). by apply IH.
Qed.
End only.

(** ** Goroutines

    A configuration has the programs of the goroutines that are still
    running (by index), the shared state, and the history of calls with the
    goroutine that made each.  One step is one call of one goroutine, which
    the shared state answers atomically, or a step of the environment (time
    passing, keys expiring). *)

Section goroutines.
Context {E : Type -> Type} {S A : Type}.
Variable answer : forall X, nat -> E X -> S -> X -> S -> Prop.
Variable env : S -> S -> Prop.

Record config := Config {
  threads : list (prog E A);
  shared : S;
  history : list (nat * obs E)
}.

Inductive pool_step : config -> config -> Prop :=
| step_call i X (e : E X) k x ps s s' h :
    ps !! i = Some (Vis e k) ->
    answer X i e s x s' ->
    pool_step (Config ps s h) (Config (<[i := k x]> ps) s' (h ++ [(i, Obs e x)]))
| step_env ps s s' h :
    env s s' ->
    pool_step (Config ps s h) (Config ps s' h).

Context {Q : Type}.
Variable delta : forall X, Q -> E X -> X -> option Q.
Variable final : Q -> A -> Prop.
Variable J : S -> list (nat * obs E) -> list Q -> Prop.

Hypothesis J_call : forall X i (e : E X) x s s' h qs q q',
  J s h qs -> qs !! i = Some q -> delta X q e x = Some q' ->
  answer X i e s x s' -> J s' (h ++ [(i, Obs e x)]) (<[i := q']> qs).
Hypothesis J_env : forall s s' h qs, J s h qs -> env s s' -> J s' h qs.

Definition pool_inv (c : config) : Prop :=
  exists qs, Forall2 (conforms delta final) qs (threads c) /\
             J (shared c) (history c) qs.

Lemma pool_step_inv c c' : pool_inv c -> pool_step c c' -> pool_inv c'.
Proof using J_call J_env.
  intros (qs & Hqs & HJ) Hstep. destruct Hstep as [i X e k x ps s s' h Hi Ha|ps s s' h He];
    simpl in *.
  - destruct (Forall2_lookup_r _ _ _ _ _ Hqs Hi) as (q & Hq & Hc).
    specialize (Hc x). destruct (delta X q e x) as [q'|] eqn:Hd; [|done].
    exists (<[i := q']> qs). split; simpl; [by apply Forall2_insert|eauto].
  - exists qs. eauto.
Qed.

(** Every configuration reachable from conforming goroutines satisfies the
    shared invariant, for some protocol states of the goroutines. *)
Lemma pool_invariant c c' : pool_inv c -> rtc pool_step c c' -> pool_inv c'.
Proof using J_call J_env.
  intros Hi Hr. induction Hr; [done|]. eauto using pool_step_inv.
Qed.
End goroutines.
Arguments config : clear implicits.

(** Fewer answers, fewer interleavings. *)
Lemma pool_step_mono {E S A} (answer1 answer2 : forall X, nat -> E X -> S -> X -> S -> Prop)
    (env1 env2 : S -> S -> Prop) (c c' : config E S A) :
  (forall X i e s x s', answer1 X i e s x s' -> answer2 X i e s x s') ->
  (forall s s', env1 s s' -> env2 s s') ->
  rtc (pool_step answer1 env1) c c' -> rtc (pool_step answer2 env2) c c'.
Proof.
  intros Ha He. apply rtc_subrel. intros c1 c2 Hs. destruct Hs.
  - eapply step_call; eauto.
  - eapply step_env; eauto.
Qed.

(** ** Executable schedules

    When the shared state answers by a function and the environment's steps
    are labelled, a schedule (which goroutine or which environment step goes
    next) can be run; what it reaches is reachable. *)

Section schedule.
Context {E : Type -> Type} {S A D : Type}.
Variable h : forall X, E X -> S -> X * S.
Variable tick : D -> S -> S.

Definition fun_answer (X : Type) (i : nat) (e : E X) (s : S) (x : X) (s' : S) : Prop :=
  h X e s = (x, s').
Definition fun_env (s s' : S) : Prop := exists d, s' = tick d s.

Definition sched_step (a : nat + D) (c : config E S A) : config E S A :=
  match a with
  | inl i =>
      match threads c !! i with
      | Some (Vis e k) =>
          let '(x, s') := h _ e (shared c) in
          Config (<[i := k x]> (threads c)) s' (history c ++ [(i, Obs e x)])
      | _ => c
      end
  | inr d => Config (threads c) (tick d (shared c)) (history c)
  end.

Definition run_sched (l : list (nat + D)) (c : config E S A) : config E S A :=
  fold_left (fun c a => sched_step a c) l c.

Lemma sched_step_reach a c :
  rtc (pool_step fun_answer fun_env) c (sched_step a c).
Proof.
  destruct c as [ps s hist], a as [i|d]; simpl.
  - destruct (ps !! i) as [[b|X e k]|] eqn:Hi; [done| |done].
    destruct (h X e s) as [x s'] eqn:Hh.
    apply rtc_once. econstructor; [done|]. exact Hh.
  - apply rtc_once. apply step_env. by exists d.
Qed.

Lemma run_sched_reach l c :
  rtc (pool_step fun_answer fun_env) c (run_sched l c).
Proof.
  unfold run_sched. revert c. induction l as [|a l IH]; intros c; simpl; [done|].
  etrans; [apply sched_step_reach|apply IH].
Qed.
End schedule.

(** ** Calls that may panic

    [let! x := c in k] runs [c] and goes on with its result; a panic of [c]
    (or running out of fuel) ends the function there. *)
Definition try_bind {E A B} (f : A -> prog E (outcome B)) (p : prog E (outcome A))
  : prog E (outcome B) :=
  prog_bind (fun o => match o with
                      | Return a => f a
                      | Panic v => Ret (Panic v)
                      | OutOfFuel => Ret OutOfFuel
                      end) p.

Lemma only_try {E A B} P (f : A -> prog E (outcome B)) (p : prog E (outcome A)) :
  only P p -> (forall a, only P (f a)) -> only P (try_bind f p).
Proof. intros Hp Hf. apply only_bind; [done|]. by intros [a|v|]. Qed.
#[export] Hint Resolve only_bind only_try : ghost.

Notation "'let!' x ':=' c 'in' k" := (try_bind (fun x => k) c)
  (at level 10, x binder, k at level 200,
   format "'[v' 'let!'  x  ':='  c  'in' '/' k ']'") : go_scope.

(** ** Executions over a shared memory

    [answer X e s x s']: in the memory [s] the call [e] can be answered by
    [x], leaving the memory [s'].  A call with no answer blocks. *)

Section memory.
Context {E : Type -> Type} {S : Type}.
Variable answer : forall X, E X -> S -> X -> S -> Prop.

(** [mexec p s t a s']: alone on the memory [s], [p] can make the calls of
    [t] and end with [a] and the memory [s']. *)
Fixpoint mexec {A} (p : prog E A) (s : S) (t : list (obs E)) (a : A) (s' : S) : Prop :=
  match p with
  | Ret b => t = [] /\ a = b /\ s' = s
  | Vis e k => exists x s1 t', t = Obs e x :: t' /\ answer _ e s x s1 /\ mexec (k x) s1 t' a s'
  end.

(** Every execution of [p] from [s] ends in [Q]. *)
Fixpoint wp {A} (p : prog E A) (s : S) (Q : A -> S -> list (obs E) -> Prop) : Prop :=
  match p with
  | Ret a => Q a s []
  | Vis e k => forall x s1, answer _ e s x s1 -> wp (k x) s1 (fun a s' t => Q a s' (Obs e x :: t))
  end.

(** Moreover no execution of [p] from [s] blocks. *)
Fixpoint total {A} (p : prog E A) (s : S) (Q : A -> S -> list (obs E) -> Prop) : Prop :=
  match p with
  | Ret a => Q a s []
  | Vis e k => (exists x s1, answer _ e s x s1) /\
               forall x s1, answer _ e s x s1 -> total (k x) s1 (fun a s' t => Q a s' (Obs e x :: t))
  end.

Lemma wp_mexec {A} (p : prog E A) s Q :
  wp p s Q <-> forall t a s', mexec p s t a s' -> Q a s' t.
Proof using.
  revert s Q. induction p as [a|X e k IH]; intros s Q; simpl; split.
  - intros HQ t b s' (-> & -> & ->). done.
  - intros H. by apply H.
  - intros H t a s' (x & s1 & t' & -> & Ha & Hx).
    specialize (H x s1 Ha). by apply (proj1 (IH x s1 _) H).
  - intros H x s1 Ha. apply IH. intros t a s' Hx. apply H. eauto 10.
Qed.

Lemma mexec_exec {A} (p : prog E A) s t a s' : mexec p s t a s' -> exec p t a.
Proof using.
  revert s t. induction p as [b|X e k IH]; intros s t; simpl; [naive_solver|].
  intros (x & s1 & t' & -> & _ & Hx). eauto.
Qed.

Lemma wp_mono {A} (p : prog E A) s (Q1 Q2 : A -> S -> list (obs E) -> Prop) :
  (forall a s' t, Q1 a s' t -> Q2 a s' t) -> wp p s Q1 -> wp p s Q2.
Proof using. intros HQ. rewrite !wp_mexec. eauto. Qed.

Lemma wp_bind {A B} (f : A -> prog E B) (p : prog E A) s Q :
  wp p s (fun a s1 t1 => wp (f a) s1 (fun b s2 t2 => Q b s2 (t1 ++ t2))) ->
  wp (prog_bind f p) s Q.
Proof using.
  revert s Q. induction p as [a|X e k IH]; intros s Q; simpl; [done|].
  intros H x s1 Ha. apply IH. exact (H x s1 Ha).
Qed.

Lemma total_wp {A} (p : prog E A) s Q : total p s Q -> wp p s Q.
Proof using.
  revert s Q. induction p as [a|X e k IH]; intros s Q; simpl; [done|].
  intros [_ H] x s1 Ha. apply IH, H, Ha.
Qed.

Lemma total_ret {A} (a : A) s (Q : A -> S -> list (obs E) -> Prop) :
  Q a s [] -> total (Ret a) s Q.
Proof using. done. Qed.

Lemma total_and {A} (p : prog E A) s (Q1 Q2 : A -> S -> list (obs E) -> Prop) :
  total p s Q1 -> wp p s Q2 -> total p s (fun a s' t => Q1 a s' t /\ Q2 a s' t).
Proof using.
  revert s Q1 Q2. induction p as [a|X e k IH]; intros s Q1 Q2; simpl; [done|].
  intros [He H1] H2. split; [done|]. intros x s1 Ha. apply IH; [by apply H1|by apply H2].
Qed.

(** A property of the memory that every allowed call keeps is kept by a
    program that only makes allowed calls. *)
Lemma wp_only {A} (P : forall X, E X -> bool) (I : S -> Prop) (p : prog E A) s :
  (forall X (e : E X) x s s', P X e = true -> answer X e s x s' -> I s -> I s') ->
  only P p -> I s -> wp p s (fun _ s' _ => I s').
Proof using.
  intros Hk. revert s. induction p as [a|X e k IH]; intros s; simpl; [done|].
  intros [He Hc] Hs x s1 Ha. eapply IH; [apply Hc|]. by eapply Hk.
Qed.

Lemma total_mono {A} (p : prog E A) s (Q1 Q2 : A -> S -> list (obs E) -> Prop) :
  (forall a s' t, Q1 a s' t -> Q2 a s' t) -> total p s Q1 -> total p s Q2.
Proof using.
  revert s Q1 Q2. induction p as [a|X e k IH]; intros s Q1 Q2 HQ; simpl; [apply HQ|].
  intros [He H]. split; [done|]. intros x s1 Ha. eapply IH; [|apply H, Ha]. simpl. eauto.
Qed.

Lemma total_bind {A B} (f : A -> prog E B) (p : prog E A) s Q :
  total p s (fun a s1 t1 => total (f a) s1 (fun b s2 t2 => Q b s2 (t1 ++ t2))) ->
  total (prog_bind f p) s Q.
Proof using.
  revert s Q. induction p as [a|X e k IH]; intros s Q; simpl; [done|].
  intros [He H]. split; [done|]. intros x s1 Ha. apply IH. exact (H x s1 Ha).
Qed.

(** A program that never blocks has an execution, and it ends in [Q]. *)
Lemma total_mexec {A} (p : prog E A) s Q :
  total p s Q -> exists t a s', mexec p s t a s' /\ Q a s' t.
Proof using.
  revert s Q. induction p as [a|X e k IH]; intros s Q; simpl; [eauto 10|].
  intros [(x & s1 & Ha) H]. destruct (IH x s1 _ (H x s1 Ha)) as (t & a & s' & Hx & HQ).
  exists (Obs e x :: t), a, s'. split; [|done]. exists x, s1, t. eauto.
Qed.
End memory.

(** ** Running over a memory

    When the answers are a partial function of the memory ([None] while the
    call blocks), executions can be computed. *)

Section mrun.
Context {E : Type -> Type} {S : Type}.
Variable h : forall X, E X -> S -> option (X * S).

Fixpoint mrun {A} (p : prog E A) (s : S) : option (A * S * list (obs E)) :=
  match p with
  | Ret a => Some (a, s, [])
  | Vis e k =>
      match h _ e s with
      | Some (x, s1) =>
          match mrun (k x) s1 with
          | Some (a, s2, t) => Some (a, s2, Obs e x :: t)
          | None => None
          end
      | None => None
      end
  end.

Variable answer : forall X, E X -> S -> X -> S -> Prop.
Hypothesis h_sound : forall X (e : E X) s x s', h X e s = Some (x, s') -> answer X e s x s'.

Lemma mrun_mexec {A} (p : prog E A) s a s' t :
  mrun p s = Some (a, s', t) -> mexec answer p s t a s'.
Proof using h_sound.
  revert s t. induction p as [b|X e k IH]; intros s t; simpl; [by intros [= -> -> <-]|].
  destruct (h X e s) as [[x s1]|] eqn:Hh; [|done].
  destruct (mrun (k x) s1) as [[[a2 s2] t2]|] eqn:Hr; [|done].
  intros [= -> -> <-]. exists x, s1, t2. eauto.
Qed.
End mrun.

Lemma mrun_exec {E S A} (h : forall X, E X -> S -> option (X * S)) (p : prog E A) s a s' t :
  mrun h p s = Some (a, s', t) -> exec p t a.
Proof.
  intros Hr. eapply mexec_exec, (mrun_mexec h (fun _ _ _ _ _ => True)); [done|exact Hr].
Qed.

(** ** Goroutines that start goroutines

    As above, but a call may be a [go] statement: [spawn] gives the
    programs a call starts. *)

Section spawning.
Context {E : Type -> Type} {S A : Type}.
Variable answer : forall X, E X -> S -> X -> S -> Prop.
Variable spawn : forall X, E X -> list (prog E A).

Inductive go_step : config E S A -> config E S A -> Prop :=
| go_call i X (e : E X) k x ps s s' h :
    ps !! i = Some (Vis e k) ->
    answer X e s x s' ->
    go_step (Config ps s h) (Config (<[i := k x]> ps ++ spawn X e) s' (h ++ [(i, Obs e x)])).

Context {Q : Type}.
Variable delta : forall X, Q -> E X -> X -> option Q.
Variable final : Q -> A -> Prop.
Variable spawn_q : forall X, E X -> list Q.
Variable J : S -> list (nat * obs E) -> list Q -> Prop.

Hypothesis spawn_conforms : forall X (e : E X),
  Forall2 (conforms delta final) (spawn_q X e) (spawn X e).
Hypothesis J_call : forall X i (e : E X) x s s' h qs q q',
  J s h qs -> qs !! i = Some q -> delta X q e x = Some q' ->
  answer X e s x s' -> J s' (h ++ [(i, Obs e x)]) (<[i := q']> qs ++ spawn_q X e).

Definition go_inv (c : config E S A) : Prop :=
  exists qs, Forall2 (conforms delta final) qs (threads c) /\ J (shared c) (history c) qs.

(** Every configuration reachable from conforming goroutines satisfies the
    shared invariant. *)
Lemma go_invariant c c' : go_inv c -> rtc go_step c c' -> go_inv c'.
Proof using spawn_conforms J_call.
  intros Hi Hr. induction Hr as [|c1 c2 c3 Hs _ IH]; [done|]. apply IH. clear IH.
  destruct Hi as (qs & Hqs & HJ). destruct Hs as [i X e k x ps s s' h Hps Ha]; simpl in *.
  destruct (Forall2_lookup_r _ _ _ _ _ Hqs Hps) as (q & Hq & Hc).
  specialize (Hc x). destruct (delta X q e x) as [q'|] eqn:Hd; [|done].
  exists (<[i := q']> qs ++ spawn_q X e). simpl. split; [|eauto].
  apply Forall2_app; [by apply Forall2_insert|done].
Qed.
End spawning.

(** Executable schedules of such goroutines. *)
Section go_schedule.
Context {E : Type -> Type} {S A : Type}.
Variable h : forall X, E X -> S -> option (X * S).
Variable spawn : forall X, E X -> list (prog E A).
Variable answer : forall X, E X -> S -> X -> S -> Prop.
Hypothesis h_sound : forall X (e : E X) s x s', h X e s = Some (x, s') -> answer X e s x s'.

(** Goroutine [i] makes its next call, if it can. *)
Definition go_sched_step (c : config E S A) (i : nat) : config E S A :=
  match threads c !! i with
  | Some (Vis e k) =>
      match h _ e (shared c) with
      | Some (x, s') =>
          Config (<[i := k x]> (threads c) ++ spawn _ e) s' (history c ++ [(i, Obs e x)])
      | None => c
      end
  | _ => c
  end.

Definition go_sched (l : list nat) (c : config E S A) : config E S A :=
  fold_left go_sched_step l c.

Lemma go_sched_reach l c : rtc (go_step answer spawn) c (go_sched l c).
Proof using h_sound.
  unfold go_sched. revert c. induction l as [|i l IH]; intros c; simpl; [done|].
  etrans; [|apply IH]. destruct c as [ps s hist]. unfold go_sched_step. simpl.
  destruct (ps !! i) as [[b|X e k]|] eqn:Hi; [done| |done].
  destruct (h X e s) as [[x s']|] eqn:Hh; [|done].
  apply rtc_once. econstructor; [exact Hi|by apply h_sound].
Qed.
End go_schedule.
