(* ===== verification/CacheAside.v ===== *)
(** * CacheAside: the cache interface and the cache-aside loader

    Models [cache/client.go] (the [Cache] interface, [ErrCacheMiss]) and
    [cache/cache_aside.go] ([GetOrSet]).  The cache, the user's loader [fn],
    the clock and [select] on [ctx.Done()] are calls of the program. *)

From stdpp Require Import base gmap strings list relations.
From Stdlib Require Import ZArith Lia Ascii.
From S2P Require Import Prelude Effects.

Open Scope Z_scope.
Open Scope go_scope.

Definition ErrCacheMiss : sentinel := MkSentinel "cache.ErrCacheMiss" "cache miss".
Definition ErrCacheTimeout : sentinel :=
  MkSentinel "cache.ErrCacheTimeout" "cache operation timeout".

Definition IsCacheMiss (err : error) : bool := errors_Is err ErrCacheMiss.

(** The [Cache] interface; the [context] argument is left implicit. *)
Inductive Cache : Type -> Type :=
| Set_ (key value : string) (ttl : Z) : Cache (option error)
| SetNX (key value : string) (ttl : Z) : Cache (bool * option error)
| Get (key : string) : Cache (result string)
| Del (key : string) : Cache (option error)
| Ping : Cache (option error)
| Close : Cache (option error).

(** What [GetOrSet] calls: the cache, the caller's [fn(ctx)], [time.Now()]
    and [select { case <-ctx.Done(): case <-time.After(d): }], which answers
    [ctx.Err()] in the first case and nothing in the second. *)
Inductive asideE : Type -> Type :=
| OnCache {X : Type} (c : Cache X) : asideE X
| Fn : asideE (outcome (result string))
| Now : asideE Z
| DoneOrAfter (d : Z) : asideE (option error).

Definition defaultLockTTL : Z := 10 * Second.
Definition retryTimeout : Z := 50 * Millisecond.
Definition nilSentinel : string := String "000"%char ("nil" +:+ String "000"%char "").
Definition lockSuffix : string := ":lock".

Record GetOrSetOptions := MkOptions { LockTTL : Z; CacheNil : bool }.

Definition fromStore (val : string) : string :=
  if String.eqb val nilSentinel then "" else val.

Definition defaultGetOrSetOpts (opts : list GetOrSetOptions) : GetOrSetOptions :=
  match opts with
  | o :: _ => o
  | [] => MkOptions defaultLockTTL false
  end.

(** The body run by the lock holder: double-check, compute, store. *)
Definition compute_and_store (key : string) (ttl : Z) (o : GetOrSetOptions)
  : prog asideE (outcome (result string)) :=
  let* r := call (OnCache (Get key)) in
  match r with
  | Ok val => Ret (Return (Ok (fromStore val)))
  | Err _ =>
      let* out := call Fn in
      match out with
      | Return (Ok result) =>
          let storeVal :=
            if String.eqb result "" && CacheNil o then nilSentinel else result in
          let* storeErr := call (OnCache (Set_ key storeVal ttl)) in
          match storeErr with
          | Some e => Ret (Return (Err e))
          | None => Ret (Return (Ok result))
          end
      | other => Ret other
      end
  end.

(** The waiting loop of the callers that did not get the lock, and the
    fallback after it. *)
Fixpoint spin_wait (fuel : nat) (key : string) (deadline backoff : Z)
  : prog asideE (outcome (result string)) :=
  match fuel with
  | O => Ret OutOfFuel
  | S fuel' =>
      let* now := call Now in
      if Before now deadline then
        let* done := call (DoneOrAfter backoff) in
        match done with
        | Some err => Ret (Return (Err err))
        | None =>
            let* r := call (OnCache (Get key)) in
            match r with
            | Ok val => Ret (Return (Ok (fromStore val)))
            | Err _ =>
                let backoff2 := wrap64 (backoff * 2) in
                spin_wait fuel' key deadline
                  (if 50 * Millisecond <? backoff2 then 50 * Millisecond else backoff2)
            end
        end
      else call Fn
  end.

Definition GetOrSet (fuel : nat) (key : string) (ttl : Z)
    (opts : list GetOrSetOptions) : prog asideE (outcome (result string)) :=
  let o := defaultGetOrSetOpts opts in
  let* r := call (OnCache (Get key)) in
  match r with
  | Ok val => Ret (Return (Ok (fromStore val)))
  | Err err =>
      if negb (IsCacheMiss err) then Ret (Return (Err err)) else
      let lockKey := key +:+ lockSuffix in
      let lockTTL := if LockTTL o <=? 0 then defaultLockTTL else LockTTL o in
      let* '(ok, lockErr) := call (OnCache (SetNX lockKey lockKey lockTTL)) in
      match lockErr with
      | Some e => Ret (Return (Err e))
      | None =>
          if (ok : bool) then
            let* out := compute_and_store key ttl o in
            (* the deferred release; its error is ignored *)
            call (OnCache (Del lockKey)) ;;;
            Ret out
          else
            let* now := call Now in
            spin_wait fuel key (now + retryTimeout * 10) (5 * Millisecond)
      end
  end.

(** ** The contract of one call

    The states of the contract: [Idle] at the start, [Missed] after the first
    miss, [Held] while the lock is held, [Waiting] when somebody else holds
    it, [Done out] when nothing may follow and [out] is to be returned.  The
    holder has [Entered], has [Rechecked] the cache and got an error (a miss or
    any other: the code does not tell them apart here), has
    [Loaded] what [fn] answered, or is [Finished]. *)

Inductive holder :=
| Entered
| Rechecked
| Loaded (out : outcome (result string))
| Finished (out : outcome (result string)).

Inductive lock_state :=
| Idle
| Missed
| Held (ph : holder)
| Waiting
| Done (out : outcome (result string)).

(** What is stored for a computed value. *)
Definition toStore (cacheNil : bool) (r : string) : string :=
  if String.eqb r "" && cacheNil then nilSentinel else r.

Definition lockKeyOf (key : string) : string := key +:+ lockSuffix.

Definition hit (val : string) : outcome (result string) := Return (Ok (fromStore val)).

Definition cache_delta (key : string) (cacheNil : bool) (X : Type)
    (q : lock_state) (c : Cache X) : X -> option lock_state :=
  match c in Cache Y return Y -> option lock_state with
  | Get k => fun r =>
      if negb (String.eqb k key) then None else
      match q, r with
      | Idle, Ok val => Some (Done (hit val))
      | Idle, Err e => Some (if IsCacheMiss e then Missed else Done (Return (Err e)))
      | Held Entered, Ok val => Some (Held (Finished (hit val)))
      | Held Entered, Err _ => Some (Held Rechecked)
      | Waiting, Ok val => Some (Done (hit val))
      | Waiting, Err _ => Some Waiting
      | _, _ => None
      end
  | SetNX k _ ttl => fun x =>
      if String.eqb k (lockKeyOf key) && (0 <? ttl) then
        match q, x with
        | Missed, (_, Some e) => Some (Done (Return (Err e)))
        | Missed, (true, None) => Some (Held Entered)
        | Missed, (false, None) => Some Waiting
        | _, _ => None
        end
      else None
  | Set_ k v _ => fun err =>
      match q with
      | Held (Loaded (Return (Ok r))) =>
          if String.eqb k key && String.eqb v (toStore cacheNil r) then
            Some (Held (Finished (Return (match err with
                                          | Some e => Err e
                                          | None => Ok r
                                          end))))
          else None
      | _ => None
      end
  | Del k => fun _ =>
      if negb (String.eqb k (lockKeyOf key)) then None else
      match q with
      | Held (Finished out) => Some (Done out)
      | Held (Loaded (Return (Ok _))) => None
      | Held (Loaded out) => Some (Done out)
      | _ => None
      end
  | Ping | Close => fun _ => None
  end.

Definition lock_delta (key : string) (cacheNil : bool) (X : Type)
    (q : lock_state) (e : asideE X) : X -> option lock_state :=
  match e in asideE Y return Y -> option lock_state with
  | OnCache c => cache_delta key cacheNil _ q c
  | Fn => fun out =>
      match q with
      | Held Rechecked => Some (Held (Loaded out))
      | Waiting => Some (Done out)
      | _ => None
      end
  | Now => fun _ => match q with Waiting => Some Waiting | _ => None end
  | DoneOrAfter _ => fun done =>
      match q, done with
      | Waiting, Some e => Some (Done (Return (Err e)))
      | Waiting, None => Some Waiting
      | _, _ => None
      end
  end.

Definition returns (q : lock_state) (out : outcome (result string)) : Prop :=
  match q with
  | Done o => out = o
  | Waiting => out = OutOfFuel
  | _ => False
  end.

Definition is_fn (o : obs asideE) : bool :=
  match o with Obs Fn _ => true | _ => false end.

Definition is_acquire (o : obs asideE) : bool :=
  match o with
  | Obs (OnCache c) x =>
      match c in Cache Y return Y -> bool with
      | SetNX _ _ _ => fun x => match x with (true, None) => true | _ => false end
      | _ => fun _ => false
      end x
  | _ => false
  end.

Definition is_release (o : obs asideE) : bool :=
  match o with Obs (OnCache (Del _)) _ => true | _ => false end.

(** Case analysis on the answers and tests of a program under [conforms]. *)
Ltac aside_cases :=
  repeat first
    [ progress (cbn -[String.eqb wrap64 Z.mul Z.ltb Z.leb lockKeyOf String.append IsCacheMiss])
    | rewrite String.eqb_refl
    | match goal with
      | |- forall _, _ => intros ?
      | |- context [match ?x with _ => _ end] =>
          lazymatch x with
          | context [match _ with _ => _ end] => fail
          | _ => destruct x eqn:?
          end
      | |- True => exact I
      | |- _ = _ => reflexivity
      end ].

Lemma spin_wait_conforms cn key fuel deadline backoff :
  conforms (lock_delta key cn) returns Waiting (spin_wait fuel key deadline backoff).
Proof.
  revert backoff. induction fuel as [|fuel IH]; intros backoff; [reflexivity|].
  aside_cases; auto.
Qed.

Lemma compute_and_store_conforms key ttl o :
  conforms (lock_delta key (CacheNil o))
    (fun q out => q = Held (Finished out) \/ q = Held (Loaded out) /\ forall r, out <> Return (Ok r))
    (Held Entered) (compute_and_store key ttl o).
Proof.
  unfold compute_and_store, toStore. aside_cases; auto; right; split; congruence || auto.
Qed.

#[local] Opaque compute_and_store spin_wait.

Lemma lockTTL_pos o :
  (0 <? (if LockTTL o <=? 0 then defaultLockTTL else LockTTL o)) = true.
Proof. destruct (Z.leb_spec (LockTTL o) 0); [done|]. by apply Z.ltb_lt. Qed.

Lemma GetOrSet_conforms fuel key ttl opts :
  conforms (lock_delta key (CacheNil (defaultGetOrSetOpts opts))) returns Idle
    (GetOrSet fuel key ttl opts).
Proof.
  unfold GetOrSet. set (o := defaultGetOrSetOpts opts). simpl.
  intros r. rewrite String.eqb_refl. simpl.
  destruct r as [val|err]; [reflexivity|].
  destruct (IsCacheMiss err); [|reflexivity]. simpl.
  intros [ok lockErr]. unfold lockKeyOf. rewrite String.eqb_refl, lockTTL_pos. simpl.
  destruct lockErr; [by destruct ok|]. destruct ok; [|simpl; intros now; apply spin_wait_conforms].
  apply conforms_bind. eapply conforms_mono, compute_and_store_conforms.
  intros q out Hq. simpl. intros _. unfold lockKeyOf. rewrite String.eqb_refl. simpl.
  destruct Hq as [-> |[-> Hn]]; [reflexivity|]. destruct out as [[r|e]| |]; [by destruct (Hn r)|..]; reflexivity.
Qed.

(** What the contract counts: [fn] calls made, locks held. *)
Definition fn_spent (q : lock_state) : nat :=
  match q with Held (Loaded _) | Held (Finished _) | Done _ => 1 | _ => 0 end.
Definition locks_held (q : lock_state) : nat :=
  match q with Held _ => 1 | _ => 0 end.

(** Case analysis on a transition of the contract. *)
Ltac delta_cases :=
  match goal with
  | |- context [lock_delta _ _ _ ?q ?e _ = Some _] =>
      destruct q as [| |[]| |], e as [? []| | |]
  end; simpl; intros;
  repeat (case_match; simplify_eq/=); simplify_eq/=.

Lemma lock_delta_counts key cn X (e : asideE X) x q q' :
  lock_delta key cn X q e x = Some q' ->
  ((if is_fn (Obs e x) then 1 else 0) + fn_spent q <= fn_spent q' /\
  (if is_acquire (Obs e x) then 1 else 0) + locks_held q =
  (if is_release (Obs e x) then 1 else 0) + locks_held q')%nat.
Proof. delta_cases; lia. Qed.

Lemma lock_after_counts key cn q t q' :
  after (lock_delta key cn) q t = Some q' ->
  (calls is_fn t + fn_spent q <= fn_spent q' /\
   calls is_acquire t + locks_held q = calls is_release t + locks_held q')%nat.
Proof.
  revert q. induction t as [|[X e x] t IH]; intros q; simpl.
  - intros [= ->]. unfold calls. simpl. lia.
  - destruct (lock_delta key cn X q e x) as [q1|] eqn:Hd; [|done].
    intros Ha. apply IH in Ha. apply lock_delta_counts in Hd.
    rewrite !calls_cons. lia.
Qed.

(** C1.  Whatever the cache, the clock, [ctx] and [fn] do (errors and panics
    of [fn] included), a call of [GetOrSet] keeps its contract: a hit is
    returned without another call, an error of the first lookup other than a
    miss is returned as it is, the lock is tried once with a positive TTL,
    the key is written only by the holder, after a second lookup that did not
    hit and a successful [fn], with [fn]'s own value (or the sentinel), every
    acquired lock is released exactly once, by the last call, on every path,
    [fn] runs at most once, and the result is the one the contract names.
    (Only the first lookup tells a miss from another error: the second one,
    and those of a waiting caller, count any error as a miss, as the code
    does.) *)
Theorem GetOrSet_contract fuel key ttl opts t out :
  exec (GetOrSet fuel key ttl opts) t out ->
  exists q, after (lock_delta key (CacheNil (defaultGetOrSetOpts opts))) Idle t = Some q /\
            returns q out /\
            calls is_acquire t = calls is_release t /\
            (calls is_fn t <= 1)%nat.
Proof.
  intros Hx.
  destruct (conforms_exec _ _ _ _ _ _ (GetOrSet_conforms fuel key ttl opts) Hx)
    as (q & Hq & Hf).
  exists q. pose proof (lock_after_counts _ _ _ _ _ Hq) as [H1 H2].
  split_and!; [done|done| |]; destruct q as [| |[]| |]; simpl in *; lia || done.
Qed.

(** ** Callers on several goroutines and machines

    The shared state is the set of live cache entries, with a ghost flag that
    says whether a caller has the lock: it is set by a [SetNX] that answered
    true and cleared by the [Del] of the holder.  Any operation may fail,
    before or after the server applied it; [SetNX] answers true only when it
    created the key.  Between calls the environment may change every entry,
    the lock entry included, except that the lock entry stays while somebody
    has the lock (its TTL outlives the holder).  So a lock entry that nobody
    has, left behind by a lost reply or a failed [Del], may expire at any
    time. *)

Record lock_mem := LockMem { lm_entries : gmap string string; lm_held : bool }.

Definition entries_answer (X : Type) (e : asideE X)
    (s : gmap string string) : X -> gmap string string -> Prop :=
  match e in asideE Y return Y -> gmap string string -> Prop with
  | OnCache c =>
      match c in Cache Y return Y -> gmap string string -> Prop with
      | Get _ | Ping | Close => fun _ s' => s' = s
      | SetNX k v _ => fun x s' =>
          match x with
          | (true, None) => s !! k = None /\ s' = <[k := v]> s
          | (false, None) => is_Some (s !! k) /\ s' = s
          | (_, Some _) => s' = s \/ (s !! k = None /\ s' = <[k := v]> s)
          end
      | Set_ k v _ => fun x s' => s' = <[k := v]> s \/ (is_Some x /\ s' = s)
      | Del k => fun x s' => s' = delete k s \/ (is_Some x /\ s' = s)
      end
  | Fn | Now | DoneOrAfter _ => fun _ s' => s' = s
  end.

Definition flag_after (o : obs asideE) (b : bool) : bool :=
  if is_acquire o then true else if is_release o then false else b.

Definition store_answer (X : Type) (i : nat) (e : asideE X) (s : lock_mem) (x : X)
    (s' : lock_mem) : Prop :=
  entries_answer X e (lm_entries s) x (lm_entries s') /\
  lm_held s' = flag_after (Obs e x) (lm_held s).

Definition lock_stays (key : string) (s s' : lock_mem) : Prop :=
  lm_held s' = lm_held s /\
  (lm_held s = true -> lm_entries s !! lockKeyOf key = lm_entries s' !! lockKeyOf key).

(** Whether goroutine [i] holds the lock, read off the history of calls. *)
Definition holding_step (i : nat) (b : bool) (jo : nat * obs asideE) : bool :=
  if Nat.eqb jo.1 i then flag_after jo.2 b else b.
Definition holding (i : nat) (h : list (nat * obs asideE)) : bool :=
  fold_left (holding_step i) h false.

Definition is_held (q : lock_state) : bool :=
  match q with Held _ => true | _ => false end.

Definition mutex_inv (key : string) (s : lock_mem)
    (h : list (nat * obs asideE)) (qs : list lock_state) : Prop :=
  (forall i, holding i h = true <-> is_held <$> (qs !! i) = Some true) /\
  (forall i, holding i h = true -> is_Some (lm_entries s !! lockKeyOf key)) /\
  (forall i j, holding i h = true -> holding j h = true -> i = j) /\
  (lm_held s = true <-> exists i, holding i h = true).

Lemma holding_snoc i h j o :
  holding i (h ++ [(j, o)]) = if Nat.eqb j i then flag_after o (holding i h) else holding i h.
Proof. unfold holding. by rewrite fold_left_app. Qed.

(** The callers may use different options: the protocol's state carries
    whether each caches empty results. *)
Definition pool_delta (key : string) (X : Type) (cq : bool * lock_state)
    (e : asideE X) (x : X) : option (bool * lock_state) :=
  pair cq.1 <$> lock_delta key cq.1 X cq.2 e x.

Lemma conforms_pool_delta key cn q (p : prog asideE (outcome (result string))) :
  conforms (lock_delta key cn) returns q p ->
  conforms (pool_delta key) (fun cq => returns cq.2) (cn, q) p.
Proof.
  revert q. induction p as [a|X e k IH]; intros q; simpl; [done|].
  intros Hc x. specialize (Hc x). unfold pool_delta at 1. simpl.
  destruct (lock_delta key cn X q e x); [|done]. simpl. auto.
Qed.

Lemma lock_delta_held key cn X (e : asideE X) x q q' :
  lock_delta key cn X q e x = Some q' ->
  is_held q' = flag_after (Obs e x) (is_held q) /\
  (is_release (Obs e x) = true -> is_held q = true).
Proof.
  delta_cases; done.
Qed.

Lemma entries_answer_lock key cn X (e : asideE X) x q q' s s' :
  lock_delta key cn X q e x = Some q' -> entries_answer X e s x s' ->
  if is_acquire (Obs e x)
  then s !! lockKeyOf key = None /\ is_Some (s' !! lockKeyOf key)
  else is_release (Obs e x) = false -> is_Some (s !! lockKeyOf key) ->
       is_Some (s' !! lockKeyOf key).
Proof.
  assert (Hk : lockKeyOf key <> key) by (apply append_ne; done).
  destruct e as [X c| | |d]; simpl; try (intros ? ->; done).
  destruct c as [k v ttl|k v ttl|k|k| |]; simpl; try (intros ? ->; done).
  - destruct q as [| |[| |[[r|]| |]|]| |]; simpl; try done.
    destruct (String.eqb k key && _) eqn:E; [|done].
    apply andb_true_iff in E as [->%String.eqb_eq _].
    intros _ [-> |[_ ->]] _; rewrite ?lookup_insert_ne by done; done.
  - destruct (String.eqb k _ && _) eqn:E; [|done].
    apply andb_true_iff in E as [->%String.eqb_eq _].
    intros _. destruct x as [[] [err|]]; try (intros [-> |[? ->]]); try (intros [? ->]);
      rewrite ?lookup_insert_eq; eauto.
  - by intros _ _ ?.
Qed.

(** The flag is the existence of a holder. *)
Lemma flag_holders i o h b :
  (forall j1 j2, holding j1 h = true -> holding j2 h = true -> j1 = j2) ->
  (b = true <-> exists j, holding j h = true) ->
  (is_release o = true -> is_acquire o = false -> holding i h = true) ->
  flag_after o b = true <-> exists j, holding j (h ++ [(i, o)]) = true.
Proof.
  intros Hu Hf Hrel. setoid_rewrite holding_snoc. unfold flag_after.
  destruct (is_acquire o) eqn:Ha.
  { split; [|done]. intros _. exists i. by rewrite Nat.eqb_refl. }
  destruct (is_release o) eqn:Hr.
  - split; [done|]. intros (j & Hj). destruct (Nat.eqb_spec i j) as [|Hne]; [done|].
    destruct Hne. apply Hu; [by apply Hrel|done].
  - rewrite Hf. split; intros (j & Hj); exists j; by destruct (Nat.eqb i j).
Qed.

Lemma mutex_call key X i (e : asideE X) x s s' h (cqs : list (bool * lock_state)) q q' :
  mutex_inv key s h (snd <$> cqs) -> cqs !! i = Some q ->
  pool_delta key X q e x = Some q' -> store_answer X i e s x s' ->
  mutex_inv key s' (h ++ [(i, Obs e x)]) (snd <$> <[i := q']> cqs).
Proof.
  intros (Hq & Hs & Hu & Hf) Hi Hd [Ha Hfl]. destruct q as [cn q].
  unfold pool_delta in Hd. simpl in Hd.
  destruct (lock_delta key cn X q e x) as [q1|] eqn:Hd'; [|done]. simplify_eq/=.
  pose proof (lock_delta_held _ _ _ _ _ _ _ Hd') as [Hheld Hrel].
  pose proof (entries_answer_lock _ _ _ _ _ _ _ _ _ Hd' Ha) as Hlock.
  assert (Hqi : holding i h = is_held q).
  { apply eq_iff_eq_true. rewrite Hq, list_lookup_fmap, Hi. simpl.
    split; [by intros [= ->]|by intros ->]. }
  assert (Hlt : (i < length (snd <$> cqs))%nat).
  { rewrite length_fmap. eauto using lookup_lt_Some. }
  rewrite list_fmap_insert. unfold mutex_inv. simpl. split_and!.
  - intros j. rewrite holding_snoc.
    destruct (Nat.eqb_spec i j) as [->|Hne].
    + rewrite list_lookup_insert_eq by done. simpl. rewrite Hheld, Hqi.
      split; [intros H; by f_equal|by intros [= H]].
    + rewrite list_lookup_insert_ne by done. apply Hq.
  - intros j. rewrite holding_snoc. unfold flag_after. intros Hj.
    destruct (is_acquire (Obs e x)); [by destruct Hlock|].
    destruct (is_release (Obs e x));
      [|apply Hlock; [done|]; destruct (Nat.eqb i j); eauto].
    destruct (Nat.eqb_spec i j) as [->|Hne]; [done|].
    destruct Hne. apply Hu; [|done]. rewrite Hqi. auto.
  - intros j1 j2. rewrite !holding_snoc. unfold flag_after.
    destruct (is_acquire (Obs e x)).
    + destruct Hlock as [Hn _].
      assert (Hno : forall j, holding j h = true -> False).
      { intros j [y Hy]%Hs. congruence. }
      destruct (Nat.eqb_spec i j1), (Nat.eqb_spec i j2); intros; subst; [done|..];
        exfalso; eauto.
    + destruct (is_release (Obs e x)), (Nat.eqb_spec i j1), (Nat.eqb_spec i j2);
        intros; subst; done || eauto.
  - rewrite Hfl. apply flag_holders; [done|done|]. intros Hr _. rewrite Hqi. by apply Hrel.
Qed.

Record caller := Caller {
  c_fuel : nat;
  c_ttl : Z;
  c_opts : list GetOrSetOptions
}.
Definition caller_prog (key : string) (c : caller) : prog asideE (outcome (result string)) :=
  GetOrSet (c_fuel c) key (c_ttl c) (c_opts c).

Definition callers_init (key : string) (cs : list caller) (s : gmap string string)
  : config asideE lock_mem (outcome (result string)) :=
  Config (caller_prog key <$> cs) (LockMem s false) [].

(** C2.  Mutual exclusion: however any number of concurrent callers of the
    same key are interleaved, whatever the cache answers (lost replies and
    failed deletions included), and whatever happens to the entries between
    the calls, at most one caller at a time is between acquiring the lock and
    releasing it, provided that the lock entry does not expire or change while
    a caller has the lock.  A lock entry that nobody has (left by a lost reply
    or a failed deletion) may expire whenever it likes. *)
Theorem GetOrSet_mutual_exclusion key cs s c i j :
  rtc (pool_step store_answer (lock_stays key)) (callers_init key cs s) c ->
  holding i (history c) = true -> holding j (history c) = true -> i = j.
Proof.
  intros Hr.
  destruct (pool_invariant (A := outcome (result string)) store_answer (lock_stays key)
    (pool_delta key) (fun cq => returns cq.2)
    (fun s h cqs => mutex_inv key s h (snd <$> cqs)))
    with (c := callers_init key cs s) (c' := c) as (cqs & _ & _ & _ & Hu & _); [..|done|eauto].
  - intros. eapply mutex_call; eauto.
  - unfold lock_stays, mutex_inv. intros s1 s2 h cqs (Hq & Hs & Hu & Hf) (Heq & Hst).
    rewrite Heq. split_and!; [done| |done|done].
    intros i' Hi'. rewrite <- Hst by (apply Hf; eauto). eauto.
  - exists ((fun cl => (CacheNil (defaultGetOrSetOpts (c_opts cl)), Idle)) <$> cs). split.
    + simpl. apply Forall2_fmap, Forall_Forall2_diag, Forall_forall.
      intros cl _. apply conforms_pool_delta, GetOrSet_conforms.
    + split_and!; [|done|done|split; [done|by intros []]]. intros i'. simpl.
      rewrite <- list_fmap_compose, list_lookup_fmap.
      split; [done|]. by destruct (cs !! i').
Qed.

(** A cache held in memory that never fails, for witnesses. *)
Definition plain_cache (fn : outcome (result string)) (X : Type) (e : asideE X)
    (s : gmap string string) : X * gmap string string :=
  match e in asideE Y return Y * gmap string string with
  | OnCache c =>
      match c in Cache Y return Y * gmap string string with
      | Get k => (match s !! k with Some v => Ok v | None => Err (Sentinel ErrCacheMiss) end, s)
      | SetNX k v _ =>
          match s !! k with
          | None => ((true, None), <[k := v]> s)
          | Some _ => ((false, None), s)
          end
      | Set_ k v _ => (None, <[k := v]> s)
      | Del k => (None, delete k s)
      | Ping => (None, s)
      | Close => (None, s)
      end
  | Fn => (fn, s)
  | Now => (0, s)
  | DoneOrAfter _ => (None, s)
  end.

Definition flagged_cache (fn : outcome (result string)) (X : Type) (e : asideE X)
    (s : lock_mem) : X * lock_mem :=
  let '(x, es) := plain_cache fn X e (lm_entries s) in
  (x, LockMem es (flag_after (Obs e x) (lm_held s))).

Lemma flagged_cache_answer fn X i e s x s' :
  fun_answer (flagged_cache fn) X i e s x s' -> store_answer X i e s x s'.
Proof.
  unfold fun_answer, flagged_cache, store_answer.
  destruct (plain_cache fn X e (lm_entries s)) as [y es] eqn:Hp. intros [= <- <-]. simpl.
  split; [|done]. revert Hp. destruct e as [X c| | |d]; [destruct c| | |]; simpl;
    repeat case_match; intros; simplify_eq; eauto.
Qed.

(** Entries vanish when nobody has the lock. *)
Definition expire_unheld (_ : unit) (s : lock_mem) : lock_mem :=
  if lm_held s then s else LockMem ∅ false.

Lemma expire_unheld_stays key s s' : fun_env expire_unheld s s' -> lock_stays key s s'.
Proof.
  intros [[] ->]. unfold expire_unheld, lock_stays. destruct (lm_held s) eqn:Hh; [done|].
  split; [by rewrite ?Hh|]. intros ?. congruence.
Qed.

(** An orphan lock expires, then the second caller wins the race for the lock. *)
Definition two_callers_reached :=
  run_sched (flagged_cache (Return (Ok "v"))) expire_unheld
    [inl 0; inr tt; inl 1; inl 1; inl 0; inl 1]%nat
    (callers_init "k" [Caller 20 Minute []; Caller 20 Minute []] {["k:lock" := "k:lock"]}).

Lemma GetOrSet_mutual_exclusion_witness :
  holding 1 (history two_callers_reached) = true /\
  (holding 0 (history two_callers_reached) = true -> 0%nat = 1%nat).
Proof.
  assert (H1 : holding 1 (history two_callers_reached) = true) by (vm_compute; reflexivity).
  split; [exact H1|]. intros H0.
  refine (GetOrSet_mutual_exclusion "k" [Caller 20 Minute []; Caller 20 Minute []]
            {["k:lock" := "k:lock"]} two_callers_reached 0 1 _ H0 H1).
  eapply pool_step_mono; [apply flagged_cache_answer|apply (expire_unheld_stays "k")|
    apply run_sched_reach].
Defined.

(** ** Sequential behaviour against the cache interface *)

(** What a cache promises about its live entries [view]; the theorems below
    are proved against this interface, and the Redis cache implements it
    (file RedisCache).  Any call may fail with an error, and then it may or
    may not have been carried out; an answer that is not a failure is true. *)
Class CacheLaws {S : Type} (h : forall X, Cache X -> S -> X * S)
    (view : S -> gmap string string) : Prop := {
  get_law : forall k s r s', h _ (Get k) s = (r, s') ->
    view s' = view s /\
    match r with
    | Ok v => view s !! k = Some v
    | Err e => IsCacheMiss e = true -> view s !! k = None
    end;
  setnx_law : forall k v ttl s r s', 0 < ttl -> h _ (SetNX k v ttl) s = (r, s') ->
    match r with
    | (true, None) => view s !! k = None /\ view s' = <[k := v]> (view s)
    | (false, None) => is_Some (view s !! k) /\ view s' = view s
    | (_, Some _) => view s' = view s \/ (view s !! k = None /\ view s' = <[k := v]> (view s))
    end;
  set_law : forall k v ttl s r s', 0 <= ttl -> h _ (Set_ k v ttl) s = (r, s') ->
    view s' = <[k := v]> (view s) \/ (is_Some r /\ view s' = view s);
  del_law : forall k s r s', h _ (Del k) s = (r, s') ->
    view s' = delete k (view s) \/ (is_Some r /\ view s' = view s)
}.

(** A call of the cache that failed (a miss is not a failure). *)
Definition cache_fails (o : obs asideE) : bool :=
  match o with
  | Obs (OnCache c) x =>
      match c in Cache Y return Y -> bool with
      | Get _ => fun r => match r with Ok _ => false | Err e => negb (IsCacheMiss e) end
      | SetNX _ _ _ => fun x => bool_decide (is_Some x.2)
      | _ => fun err => bool_decide (is_Some err)
      end x
  | _ => false
  end.

(** No call of the cache in the trace failed. *)
Definition cache_ok (t : list (obs asideE)) : Prop := calls cache_fails t = 0%nat.

Lemma cache_ok_cons o t : cache_ok (o :: t) <-> cache_fails o = false /\ cache_ok t.
Proof. unfold cache_ok. rewrite calls_cons. destruct (cache_fails o); split; intros; naive_solver lia. Qed.

Lemma cache_ok_app t1 t2 : cache_ok (t1 ++ t2) <-> cache_ok t1 /\ cache_ok t2.
Proof. unfold cache_ok. rewrite calls_app. lia. Qed.

(** An environment of [GetOrSet]: a cache, a loader, a clock and [ctx]. *)
Record world (S : Type) := World {
  w_cache : forall X, Cache X -> S -> X * S;
  w_fn : S -> outcome (result string) * S;
  w_now : S -> Z * S;
  w_select : Z -> S -> option error * S
}.
Arguments w_cache {S} w.
Arguments w_fn {S} w.
Arguments w_now {S} w.
Arguments w_select {S} w.

Definition aside_env {S} (w : world S) (X : Type) (e : asideE X) : S -> X * S :=
  match e in asideE Y return S -> Y * S with
  | OnCache c => w_cache w _ c
  | Fn => w_fn w
  | Now => w_now w
  | DoneOrAfter d => w_select w d
  end.

Lemma key_ne_lockKey key : key <> lockKeyOf key.
Proof. apply not_eq_sym, append_ne. done. Qed.

Lemma fromStore_toStore cn r : r <> nilSentinel -> fromStore (toStore cn r) = r.
Proof.
  intros Hr. unfold fromStore, toStore.
  destruct (String.eqb_spec r "") as [->|]; destruct cn; simpl; try done;
    by destruct (String.eqb_spec r nilSentinel).
Qed.

Section sequential.
Context {S : Type} (w : world S) (view : S -> gmap string string).
Context `{!CacheLaws (w_cache w) view}.

Section miss.
Hypothesis fn_keeps_cache : forall s, view (w_fn w s).2 = view s.

Transparent compute_and_store.
Lemma compute_and_store_runs key ttl o s :
  0 <= ttl -> view s !! key = None ->
  runs (aside_env w) (compute_and_store key ttl o) s (fun out s' t =>
    calls is_fn t = 1%nat /\
    (cache_ok t ->
     exists s1, view s1 = view s /\ out = (w_fn w s1).1 /\
      view s' = match out with
                | Return (Ok r) => <[key := toStore (CacheNil o) r]> (view s)
                | _ => view s
                end)).
Proof using CacheLaws0 fn_keeps_cache.
  intros Httl Hv. apply runs_vis. intros r s1 (Hs1 & Hr)%get_law.
  destruct r as [v|e]; [congruence|].
  apply runs_vis. intros out s2 Hfn. pose proof (fn_keeps_cache s1) as Hs2.
  simpl in Hfn. rewrite Hfn in Hs2. simpl in Hs2.
  destruct out as [[res|e']|p|];
    [|apply runs_ret; split; [done|]; exists s1; rewrite Hfn, Hs2; auto..].
  apply runs_vis. intros err s3 Hset%set_law; [|done].
  destruct err as [e'|]; apply runs_ret; (split; [done|]).
  - rewrite !cache_ok_cons. by intros (_ & _ & ? & _).
  - intros _. exists s1. rewrite Hfn. simpl.
    destruct Hset as [Hs3|[[? ?] _]]; [|done]. by rewrite Hs3, Hs2, Hs1.
Qed.
#[local] Opaque compute_and_store.

(** C3.  On a miss with the lock free, over any lawful cache, with a TTL that
    is not negative and an [fn] that does not itself change the cache: if no
    cache call of the run fails, [GetOrSet] calls [fn] exactly once, while the
    lock entry is present, returns what [fn] answered, leaves the lock free
    again, and the cache differs only by the stored value of the key: [fn]'s
    value (the sentinel for an empty one when [CacheNil] is set) when [fn]
    succeeded, nothing when it failed or panicked.  (What is returned when a
    cache call fails is part of C1.) *)
Theorem GetOrSet_miss fuel key ttl opts s :
  0 <= ttl -> view s !! key = None -> view s !! lockKeyOf key = None ->
  runs (aside_env w) (GetOrSet fuel key ttl opts) s (fun out s' t =>
    cache_ok t ->
    calls is_fn t = 1%nat /\
    view s' !! lockKeyOf key = None /\
    exists s1, view s1 = <[lockKeyOf key := lockKeyOf key]> (view s) /\
      out = (w_fn w s1).1 /\
      view s' = match out with
                | Return (Ok r) =>
                    <[key := toStore (CacheNil (defaultGetOrSetOpts opts)) r]> (view s)
                | _ => view s
                end).
Proof using CacheLaws0 fn_keeps_cache.
  intros Httl Hv Hl. set (o := defaultGetOrSetOpts opts).
  apply runs_vis. intros r s1 (Hs1 & Hr)%get_law. destruct r as [v|e]; [congruence|].
  destruct (IsCacheMiss e) eqn:He; simpl;
    [|apply runs_ret; rewrite cache_ok_cons; simpl; rewrite He; by intros [? _]].
  apply runs_vis. intros [ok lockErr] s2 H2.
  apply setnx_law in H2; [|apply Z.ltb_lt, lockTTL_pos]. fold (lockKeyOf key) in H2.
  destruct lockErr as [le|];
    [apply runs_ret; rewrite !cache_ok_cons; by intros (_ & ? & _)|].
  destruct ok; [|destruct H2 as [[y Hy] _]; congruence]. destruct H2 as [_ Hs2].
  rewrite Hs1 in Hs2.
  assert (Hmiss : view s2 !! key = None).
  { rewrite Hs2, lookup_insert_ne; [done|]. apply not_eq_sym, key_ne_lockKey. }
  apply runs_bind. eapply runs_mono, (compute_and_store_runs key ttl o); [|done..].
  intros out s3 t [Hn Hok]. apply runs_vis. intros err s5 Hdel%del_law. fold (lockKeyOf key) in Hdel.
  apply runs_ret. rewrite !cache_ok_cons, cache_ok_app, cache_ok_cons.
  intros (_ & _ & (Ht & Herr & _)). destruct (Hok Ht) as (s4 & Hs4 & Hout & Hs3).
  destruct Hdel as [Hs5|[[y Hy] _]]; [|subst err; done].
  rewrite !calls_cons, calls_app, calls_cons, Hn. split; [done|]. fold (lockKeyOf key).
  assert (Hs' : view s5 = match out with
    | Return (Ok r) => <[key := toStore (CacheNil o) r]> (view s) | _ => view s end).
  { rewrite Hs5, Hs3. destruct out as [[r|e']|p|]; [|by rewrite Hs2, delete_insert_id..].
    rewrite Hs2, delete_insert_ne by apply not_eq_sym, key_ne_lockKey.
    by rewrite delete_insert_id. }
  split; [rewrite Hs5; apply lookup_delete_eq|]. exists s4. by rewrite Hs4, Hs2.
Qed.
End miss.

(** ** After a call *)

(** The key holds a value that reads back as [r]. *)
Definition cached (key r : string) (s : S) : Prop :=
  exists v, view s !! key = Some v /\ fromStore v = r.

#[local] Transparent spin_wait.
Lemma spin_wait_caches fuel key deadline b s r :
  runs (aside_env w) (spin_wait fuel key deadline b) s (fun out s' t =>
    calls is_acquire t = 0%nat /\
    (out = Return (Ok r) -> calls is_fn t = 1%nat \/ cached key r s')).
Proof using CacheLaws0.
  revert b s. induction fuel as [|fuel IH]; intros b s; [by apply runs_ret|].
  apply runs_vis. intros now s1 _. destruct (Before now deadline).
  - apply runs_vis. intros [e|] s2 _; [by apply runs_ret|].
    apply runs_vis. intros r' s3 [Hs3 Hv]%get_law. destruct r' as [v|e].
    + apply runs_ret. split; [done|]. intros [= <-]. right. exists v. by rewrite Hs3.
    + eapply runs_mono, IH. intros out s4 t [Hacq H]. rewrite !calls_cons. split; [done|].
      intros ->. by apply H.
  - apply runs_vis. intros out s2 _. apply runs_ret. split; [done|]. by left.
Qed.

Transparent compute_and_store.
Lemma compute_and_store_caches key ttl o s r :
  0 <= ttl -> r <> nilSentinel ->
  runs (aside_env w) (compute_and_store key ttl o) s (fun out s' _ =>
    out = Return (Ok r) -> cached key r s').
Proof using CacheLaws0.
  intros Httl Hr. apply runs_vis. intros r' s1 [Hs1 Hv]%get_law. destruct r' as [v|e].
  { apply runs_ret. intros [= <-]. exists v. by rewrite Hs1. }
  apply runs_vis. intros out s2 _. destruct out as [[res|e']|p|]; try by apply runs_ret.
  apply runs_vis. intros err s3 Hset%set_law; [|done].
  destruct err as [e'|]; apply runs_ret; [done|]. intros [= ->].
  destruct Hset as [Hs3|[[? ?] _]]; [|done]. exists (toStore (CacheNil o) r).
  rewrite Hs3, lookup_insert_eq. split; [done|]. by apply fromStore_toStore.
Qed.
#[local] Opaque compute_and_store spin_wait.

Lemma GetOrSet_caches fuel key ttl opts s r :
  0 <= ttl -> r <> nilSentinel ->
  runs (aside_env w) (GetOrSet fuel key ttl opts) s (fun out s' t =>
    out = Return (Ok r) -> (calls is_fn t <= calls is_acquire t)%nat -> cached key r s').
Proof using CacheLaws0.
  intros Httl Hr. apply runs_vis. intros r' s1 [Hs1 Hv]%get_law. destruct r' as [v|e].
  { apply runs_ret. intros [= <-] _. exists v. by rewrite Hs1. }
  destruct (negb _); [by apply runs_ret|]. simpl.
  apply runs_vis. intros [ok [e'|]] s2 _; [by apply runs_ret|]. destruct ok.
  - apply runs_bind. eapply runs_mono, compute_and_store_caches; [|done..].
    intros out s3 t Hc. apply runs_vis. intros err s4 Hdel%del_law. fold (lockKeyOf key) in Hdel.
    apply runs_ret. intros Hout _. destruct (Hc Hout) as (v & Hv' & Hf). exists v.
    destruct Hdel as [-> |[_ ->]]; [|done].
    by rewrite lookup_delete_ne by apply not_eq_sym, key_ne_lockKey.
  - apply runs_vis. intros now s3 _. eapply runs_mono, spin_wait_caches.
    intros out s4 t [Hacq Hc] Hout Hn. destruct (Hc Hout) as [Hfn|?]; [|done].
    rewrite !calls_cons, Hacq, Hfn in Hn. simpl in Hn. lia.
Qed.

(** C4.  What [GetOrSet] returned is what the next call returns.  Over any
    lawful cache (failures of either call included), when a call with a TTL
    that is not negative succeeded with a value other than the sentinel, and
    not through the fallback (that is, [fn] did not run, or ran under the
    lock), then a call for the same key from the state it left, whatever the
    options of the two calls (empty results included, with [CacheNil] or
    without), does not call [fn] and does not change the cache, and either
    returns that value or the error with which its lookup failed. *)
Theorem GetOrSet_then_hit fuel key ttl opts s fuel2 ttl2 opts2 r :
  0 <= ttl -> r <> nilSentinel ->
  runs (aside_env w) (GetOrSet fuel key ttl opts) s (fun out s' t =>
    out = Return (Ok r) -> (calls is_fn t <= calls is_acquire t)%nat ->
    runs (aside_env w) (GetOrSet fuel2 key ttl2 opts2) s' (fun out2 s'' t2 =>
      calls is_fn t2 = 0%nat /\ view s'' = view s' /\
      (out2 = Return (Ok r) \/
       exists e, out2 = Return (Err e) /\ t2 = [Obs (OnCache (Get key)) (Err e)] /\
                 IsCacheMiss e = false))).
Proof using CacheLaws0.
  intros Httl Hr. eapply runs_mono, GetOrSet_caches; [|done..].
  intros out s' t Hc Hout Hn. destruct (Hc Hout Hn) as (v & Hv & <-).
  apply runs_vis. intros r2 s2 [Hs2 Hr2]%get_law. destruct r2 as [v2|e].
  - apply runs_ret. split_and!; [done|done|left]. congruence.
  - destruct (IsCacheMiss e) eqn:He; simpl; [rewrite Hr2 in Hv by done; done|].
    apply runs_ret. split_and!; [done|done|right]. eauto.
Qed.
End sequential.

(** ** The waiting loop is bounded *)

Definition next_backoff (b : Z) : Z :=
  if 50 * Millisecond <? wrap64 (b * 2) then 50 * Millisecond else wrap64 (b * 2).

(** The least time that [n] rounds of waiting take. *)
Fixpoint waits (n : nat) (b : Z) : Z :=
  match n with
  | O => 0
  | S n' => b + waits n' (next_backoff b)
  end.

Definition is_wait (o : obs asideE) : bool :=
  match o with Obs (DoneOrAfter _) _ => true | _ => false end.

Section waiting.
Context {S : Type} (w : world S) (time : S -> Z).
Hypothesis now_law : forall s t s', w_now w s = (t, s') -> t = time s /\ time s <= time s'.
Hypothesis select_law : forall d s s', w_select w d s = (None, s') -> time s + d <= time s'.
Hypothesis cache_time : forall X (c : Cache X) s x s', w_cache w X c s = (x, s') -> time s <= time s'.
Hypothesis fn_returns : forall s, (w_fn w s).1 <> OutOfFuel.

Lemma call_fn_bound n s o :
  is_wait o = false ->
  runs (aside_env w) (call Fn) s (fun out _ t =>
    out <> OutOfFuel /\ (calls is_wait (o :: t) <= n)%nat).
Proof using fn_returns.
  intros Ho. apply runs_vis. intros out s2 Hfn. apply runs_ret. simpl in Hfn.
  specialize (fn_returns s). rewrite Hfn in fn_returns.
  split; [done|]. rewrite !calls_cons, Ho. unfold calls. simpl. lia.
Qed.

#[local] Transparent spin_wait.
Lemma spin_wait_bound n fuel key deadline b s :
  (n < fuel)%nat -> deadline - time s <= waits n b ->
  runs (aside_env w) (spin_wait fuel key deadline b) s (fun out _ t =>
    out <> OutOfFuel /\ (calls is_wait t <= n)%nat).
Proof using now_law select_law cache_time fn_returns.
  revert fuel b s. induction n as [|n IH]; intros [|fuel] b s Hf Hw; try lia;
    simpl in Hw; apply runs_vis; intros t s1 [-> Ht]%now_law; unfold Before;
    destruct (Z.ltb_spec (time s) deadline) as [Hlt|_]; try lia.
  - by apply call_fn_bound.
  - apply runs_vis. intros [e|] s2 Hsel.
    { apply runs_ret. split; [done|]. unfold calls. simpl. lia. }
    apply select_law in Hsel. apply runs_vis. intros [v|e] s3 Hget%cache_time.
    { apply runs_ret. split; [done|]. unfold calls. simpl. lia. }
    eapply runs_mono, IH; [|lia|].
    + intros out s4 t4 [Hout Hn]. split; [done|]. rewrite !calls_cons. simpl. lia.
    + fold (next_backoff b). lia.
  - by apply call_fn_bound.
Qed.

#[local] Transparent compute_and_store.
Lemma compute_and_store_bound key ttl o s :
  runs (aside_env w) (compute_and_store key ttl o) s (fun out _ t =>
    out <> OutOfFuel /\ calls is_wait t = 0%nat).
Proof using fn_returns.
  apply runs_vis. intros [v|e] s1 _; [by apply runs_ret|].
  apply runs_vis. intros out s2 Hfn. simpl in Hfn.
  specialize (fn_returns s1). rewrite Hfn in fn_returns.
  destruct out as [[r|e']|p|]; try by apply runs_ret.
  apply runs_vis. intros [e'|] s3 _; by apply runs_ret.
Qed.
#[local] Opaque compute_and_store spin_wait.

(** C5.  [GetOrSet] always returns: with time that does not run backwards
    and [time.After(d)] that waits at least [d], a caller that does not get
    the lock polls the cache at most 13 times (waits of 5, 10, 20, 40 and
    then 50 ms cover the 500 ms deadline), so 14 rounds of fuel are enough
    for every call. *)
Theorem GetOrSet_terminates fuel key ttl opts s :
  (14 <= fuel)%nat ->
  runs (aside_env w) (GetOrSet fuel key ttl opts) s (fun out _ t =>
    out <> OutOfFuel /\ (calls is_wait t <= 13)%nat).
Proof using now_law select_law cache_time fn_returns.
  intros Hfuel. apply runs_vis. intros [v|e] s1 _.
  { apply runs_ret. split; [done|]. unfold calls. simpl. lia. }
  destruct (negb _). { apply runs_ret. split; [done|]. unfold calls. simpl. lia. }
  simpl. apply runs_vis. intros [ok [e'|]] s2 _.
  { apply runs_ret. split; [done|]. unfold calls. simpl. lia. }
  destruct ok.
  - apply runs_bind. eapply runs_mono, compute_and_store_bound.
    intros out s3 t [Hout Ht]. apply runs_vis. intros err s4 _. apply runs_ret.
    split; [done|]. rewrite !calls_cons, calls_app, Ht. unfold calls. simpl. lia.
  - apply runs_vis. intros t0 s3 [-> Ht]%now_law.
    eapply runs_mono, (spin_wait_bound 13); [|lia|].
    + intros out s4 t [Hout Hn]. split; [done|]. rewrite !calls_cons. simpl. lia.
    + enough (retryTimeout * 10 <= waits 13 (5 * Millisecond)) by lia.
      by apply Z.leb_le; vm_compute.
Qed.
End waiting.
