(* ===== verification/RedisCache.v ===== *)
(** * RedisCache: the Redis implementation of the cache interface

    Models [cache/redis_cache.go].  The go-redis client is a parameter: its
    commands are calls, and [RedisLaws] states what the Redis documentation
    says of the commands used.  The file shows that [RedisCache] then
    implements the cache interface of file CacheAside, gives an in-memory
    store with expiry that satisfies the laws, and evaluates [GetOrSet] on
    it, alone and on two goroutines. *)

From stdpp Require Import base gmap strings list relations option.
From Stdlib Require Import ZArith Lia.
From S2P Require Import Prelude Effects CacheAside.

Open Scope Z_scope.
Open Scope go_scope.

(** [redis.Nil], the client's error for a nil reply. *)
Definition redis_Nil : sentinel := MkSentinel "redis.Nil" "redis: nil".

(** The commands of the client that the file uses, with what [Err()] or
    [Result()] gives. *)
Inductive redisE : Type -> Type :=
| RSet (key value : string) (expiration : Z) : redisE (option error)
| RGet (key : string) : redisE (result string)
| RDel (key : string) : redisE (option error)
| RSetArgs (key value mode : string) (ttl : Z) : redisE (option error)
| RPing : redisE (option error)
| RClose : redisE (option error).

Record RedisCache (client : Type) := MkRedisCache { client_ : client; addr : string }.
Arguments MkRedisCache {client} _ _.
Arguments addr {client} _.

(** [NewClient] is go-redis'; no connection is made here. *)
Definition NewRedisCache {client : Type} (NewClient : string -> client) (a : string)
  : RedisCache client := MkRedisCache (NewClient a) a.
Definition Addr {client : Type} (r : RedisCache client) : string := addr r.

(** The methods of [RedisCache]. *)
Definition redis_Set (key value : string) (ttl : Z) : prog redisE (option error) :=
  call (RSet key value ttl).

Definition redis_Get (key : string) : prog redisE (result string) :=
  let* r := call (RGet key) in
  match r with
  | Err err => if errors_Is err redis_Nil then Ret (Err (Sentinel ErrCacheMiss)) else Ret r
  | Ok _ => Ret r
  end.

Definition redis_Del (key : string) : prog redisE (option error) := call (RDel key).

Definition redis_SetNX (key value : string) (ttl : Z) : prog redisE (bool * option error) :=
  let* err := call (RSetArgs key value "NX" ttl) in
  match err with
  | Some e => if errors_Is e redis_Nil then Ret (false, None) else Ret (false, Some e)
  | None => Ret (true, None)
  end.

Definition redis_Ping : prog redisE (option error) := call RPing.
Definition redis_Close : prog redisE (option error) := call RClose.

(** [RedisCache] as a [Cache]. *)
Definition redis_cache (X : Type) (c : Cache X) : prog redisE X :=
  match c in Cache Y return prog redisE Y with
  | Set_ key value ttl => redis_Set key value ttl
  | SetNX key value ttl => redis_SetNX key value ttl
  | Get key => redis_Get key
  | Del key => redis_Del key
  | Ping => redis_Ping
  | Close => redis_Close
  end.

(** What the Redis documentation says of the commands, for a server whose live
    entries are [view]: SET overwrites, SET with NX creates and replies nil
    when the key exists, GET replies nil when it does not, DEL removes and
    does not fail on a missing key.  Every command may instead fail with an
    error of the client (a lost connection, an ended context), which is not
    [redis.Nil] and knows nothing of this package's errors, and then it may or
    may not have been carried out. *)
Class RedisLaws {S : Type} (h : forall X, redisE X -> S -> X * S)
    (view : S -> gmap string string) : Prop := {
  rget_law : forall k s r s', h _ (RGet k) s = (r, s') ->
    view s' = view s /\
    match r with
    | Ok v => view s !! k = Some v
    | Err e => if errors_Is e redis_Nil then view s !! k = None else IsCacheMiss e = false
    end;
  rset_law : forall k v ttl s r s', 0 <= ttl -> h _ (RSet k v ttl) s = (r, s') ->
    view s' = <[k := v]> (view s) \/ (is_Some r /\ view s' = view s);
  rsetnx_law : forall k v ttl s r s', 0 < ttl -> h _ (RSetArgs k v "NX" ttl) s = (r, s') ->
    match r with
    | None => view s !! k = None /\ view s' = <[k := v]> (view s)
    | Some e =>
        if errors_Is e redis_Nil then is_Some (view s !! k) /\ view s' = view s
        else view s' = view s \/ (view s !! k = None /\ view s' = <[k := v]> (view s))
    end;
  rdel_law : forall k s r s', h _ (RDel k) s = (r, s') ->
    view s' = delete k (view s) \/ (is_Some r /\ view s' = view s)
}.

(** The answer of a method, given the answer of the one command it sends. *)
Definition translated (X : Type) (c : Cache X) (t : list (obs redisE)) : X -> Prop :=
  match c in Cache Y return Y -> Prop with
  | Set_ key value ttl => fun x => t = [Obs (RSet key value ttl) x]
  | Get key => fun x => exists r, t = [Obs (RGet key) r] /\
      x = match r with
          | Ok v => Ok v
          | Err e => Err (if errors_Is e redis_Nil then Sentinel ErrCacheMiss else e)
          end
  | Del key => fun x => t = [Obs (RDel key) x]
  | SetNX key value ttl => fun x => exists r, t = [Obs (RSetArgs key value "NX" ttl) r] /\
      x = match r with
          | None => (true, None)
          | Some e => (false, if errors_Is e redis_Nil then None else Some e)
          end
  | Ping => fun x => t = [Obs RPing x]
  | Close => fun x => t = [Obs RClose x]
  end.

(** The cache's answers over a client. *)
Definition cache_over {S : Type} (h : forall X, redisE X -> S -> X * S)
    (X : Type) (c : Cache X) (s : S) : X * S :=
  (run_result h (redis_cache X c) s, run_state h (redis_cache X c) s).

Lemma cache_over_runs {S} h X (c : Cache X) (s : S) x s' :
  cache_over h X c s = (x, s') ->
  forall Q, runs h (redis_cache X c) s Q -> exists t, Q x s' t.
Proof.
  unfold cache_over, run_result, run_state, runs. intros Hc Q HQ.
  destruct (run h (redis_cache X c) s) as [[a s1] t]. simplify_eq/=. eauto.
Qed.

Lemma redis_cache_implements {S : Type} (h : forall X, redisE X -> S -> X * S)
    (view : S -> gmap string string) :
  RedisLaws h view -> CacheLaws (cache_over h) view.
Proof.
  intros HR. split.
  - intros k s r s' Hc.
    eapply cache_over_runs with (Q := fun r s' _ => _) in Hc as [t Ht]; [exact Ht|].
    apply runs_vis. intros r1 s1 [Hs1 Hr1]%rget_law. destruct r1 as [v|e]; [by apply runs_ret|].
    destruct (errors_Is e redis_Nil); apply runs_ret; (split; [done|]); [done|congruence].
  - intros k v ttl s r s' Httl Hc.
    eapply cache_over_runs with (Q := fun r s' _ => _) in Hc as [t Ht]; [exact Ht|].
    apply runs_vis. intros r1 s1 Hr%rsetnx_law; [|done]. destruct r1 as [e|]; [|by apply runs_ret].
    by destruct (errors_Is e redis_Nil); apply runs_ret.
  - intros k v ttl s r s' Httl Hc.
    eapply cache_over_runs with (Q := fun r s' _ => _) in Hc as [t Ht]; [exact Ht|].
    apply runs_vis. intros r1 s1 Hr%rset_law; [|done]. by apply runs_ret.
  - intros k s r s' Hc.
    eapply cache_over_runs with (Q := fun r s' _ => _) in Hc as [t Ht]; [exact Ht|].
    apply runs_vis. intros r1 s1 Hr%rdel_law. by apply runs_ret.
Qed.

Lemma redis_cache_translates X (c : Cache X) t x :
  exec (redis_cache X c) t x -> translated X c t x.
Proof.
  destruct c; intros (r & t' & -> & H); simpl in *; try by destruct H as [-> ->].
  - exists r. destruct r as [e|]; [destruct (errors_Is e redis_Nil)|]; by destruct H as [-> ->].
  - exists r. destruct r as [v|e]; [|destruct (errors_Is e redis_Nil)]; by destruct H as [-> ->].
Qed.

(** C6.  [RedisCache] implements the cache interface.  Whatever the client
    answers, each method sends exactly one command, with its own arguments,
    and answers what the command answered, except that [redis.Nil] becomes
    [ErrCacheMiss] for [Get] and (false, nil) for [SetNX]; any other error is
    passed on as it is, never as a hit or an acquired lock.  And over any client
    that behaves as Redis documents, failing commands included, its methods
    satisfy the laws that the cache-aside theorems assume. *)
Theorem redis_cache_laws {S : Type} (h : forall X, redisE X -> S -> X * S)
    (view : S -> gmap string string) :
  RedisLaws h view ->
  (forall X (c : Cache X) t x, exec (redis_cache X c) t x -> translated X c t x) /\
  CacheLaws (cache_over h) view.
Proof. intros HR. split; [apply redis_cache_translates|by apply redis_cache_implements]. Qed.

(** ** An in-memory server with expiry *)

Record mem_redis := MemRedis {
  entries : gmap string (string * option Z);
  clock : Z
}.

Definition live (now : Z) (e : string * option Z) : option string :=
  match e with
  | (v, None) => Some v
  | (v, Some t) => if now <? t then Some v else None
  end.

Definition mem_view (s : mem_redis) : gmap string string :=
  omap (live (clock s)) (entries s).

Definition expiry (now ttl : Z) : option Z := if 0 <? ttl then Some (now + ttl) else None.

Definition mem_handler (X : Type) (e : redisE X) (s : mem_redis) : X * mem_redis :=
  match e in redisE Y return Y * mem_redis with
  | RSet k v ttl =>
      (None, MemRedis (<[k := (v, expiry (clock s) ttl)]> (entries s)) (clock s))
  | RGet k =>
      (match mem_view s !! k with Some v => Ok v | None => Err (Sentinel redis_Nil) end, s)
  | RDel k => (None, MemRedis (delete k (entries s)) (clock s))
  | RSetArgs k v mode ttl =>
      match mem_view s !! k with
      | Some _ => (Some (Sentinel redis_Nil), s)
      | None => (None, MemRedis (<[k := (v, expiry (clock s) ttl)]> (entries s)) (clock s))
      end
  | RPing => (None, s)
  | RClose => (None, s)
  end.

Lemma live_expiry now v ttl : live now (v, expiry now ttl) = Some v.
Proof.
  unfold live, expiry. destruct (Z.ltb_spec 0 ttl); [|done].
  by destruct (Z.ltb_spec now (now + ttl)); [|lia].
Qed.

Lemma mem_view_insert k v ttl es now :
  mem_view (MemRedis (<[k := (v, expiry now ttl)]> es) now) =
  <[k := v]> (mem_view (MemRedis es now)).
Proof. unfold mem_view. simpl. apply omap_insert_Some, live_expiry. Qed.

#[export] Instance mem_laws : RedisLaws mem_handler mem_view.
Proof.
  split; simpl.
  - intros k s r s' [= <- <-]. by destruct (mem_view s !! k) eqn:Hk.
  - intros k v ttl [es now] r s' _ [= <- <-]. left. apply mem_view_insert.
  - intros k v ttl [es now] r s' _ H. simpl in *.
    destruct (mem_view (MemRedis es now) !! k); simplify_eq; simpl; split; try done.
    apply mem_view_insert.
  - intros k [es now] r s' [= <- <-]. left. apply omap_delete.
Qed.

(** The same server behind a connection that drops every reply. *)
Definition lossy_handler (X : Type) (e : redisE X) (s : mem_redis) : X * mem_redis :=
  let '(_, s') := mem_handler X e s in
  let lost := Errorf "read tcp: i/o timeout" [] in
  (match e in redisE Y return Y with
   | RGet _ => Err lost
   | RSet _ _ _ | RDel _ | RSetArgs _ _ _ _ | RPing | RClose => Some lost
   end, s').

#[export] Instance lossy_laws : RedisLaws lossy_handler mem_view.
Proof.
  split.
  - by intros k s r s' [= <- <-].
  - intros k v ttl [es now] r s' _ [= <- <-]. left. apply mem_view_insert.
  - unfold lossy_handler. intros k v ttl [es now] r s' _. simpl.
    destruct (mem_view (MemRedis es now) !! k) eqn:Hk; intros [= <- <-]; simpl; [by left|].
    right. split; [done|]. apply mem_view_insert.
  - intros k [es now] r s' [= <- <-]. left. apply omap_delete.
Qed.

#[export] Instance mem_cache_laws : CacheLaws (cache_over mem_handler) mem_view :=
  redis_cache_implements mem_handler mem_view mem_laws.

(** [time.After(d)] moves the clock by [d]. *)
Definition mem_wait (d : Z) (s : mem_redis) : mem_redis :=
  MemRedis (entries s) (clock s + Z.max 0 d).

Definition mem_world (fn : outcome (result string)) : world mem_redis :=
  World _ (cache_over mem_handler) (fun s => (fn, s)) (fun s => (clock s, s))
    (fun d s => (None, mem_wait d s)).

Definition empty_server : mem_redis := MemRedis empty 0.

Lemma redis_cache_laws_witness :
  (RedisLaws mem_handler mem_view /\ CacheLaws (cache_over mem_handler) mem_view) /\
  (RedisLaws lossy_handler mem_view /\ CacheLaws (cache_over lossy_handler) mem_view).
Proof.
  split; (split; [apply _|]).
  - apply (redis_cache_laws mem_handler mem_view mem_laws).
  - apply (redis_cache_laws lossy_handler mem_view lossy_laws).
Defined.

(** ** Evaluations *)

Definition first_call :=
  GetOrSet 14 "user:1" Minute [MkOptions (5 * Second) true].

Lemma GetOrSet_contract_witness :
  exec first_call (run_trace (aside_env (mem_world (Return (Ok "")))) first_call empty_server)
    (Return (Ok "")) /\
  exists q, after (lock_delta "user:1" true) Idle
      (run_trace (aside_env (mem_world (Return (Ok "")))) first_call empty_server) = Some q /\
    returns q (Return (Ok "")) /\
    calls is_acquire (run_trace (aside_env (mem_world (Return (Ok "")))) first_call empty_server) = 1%nat.
Proof.
  assert (H : exec first_call
    (run_trace (aside_env (mem_world (Return (Ok "")))) first_call empty_server)
    (Return (Ok ""))).
  { exact (run_exec (aside_env (mem_world (Return (Ok "")))) first_call empty_server). }
  split; [exact H|].
  destruct (GetOrSet_contract 14 "user:1" Minute [MkOptions (5 * Second) true] _ _ H)
    as (q & H1 & H2 & _ & _).
  exists q. split; [exact H1|]. split; [exact H2|]. vm_compute. reflexivity.
Defined.

Lemma GetOrSet_miss_witness :
  mem_view empty_server !! "user:1" = None /\
  cache_ok (run_trace (aside_env (mem_world (Return (Ok "")))) first_call empty_server) /\
  runs (aside_env (mem_world (Return (Ok "")))) first_call empty_server (fun out s' t =>
    cache_ok t -> calls is_fn t = 1%nat /\ out = Return (Ok "") /\
    mem_view s' !! "user:1" = Some nilSentinel).
Proof.
  split; [vm_compute; reflexivity|]. split; [vm_compute; reflexivity|].
  eapply runs_mono.
  2: { refine (GetOrSet_miss (mem_world (Return (Ok ""))) mem_view (fun _ => eq_refl)
        14 "user:1" Minute [MkOptions (5 * Second) true] empty_server _ _ _);
       vm_compute; congruence. }
  intros out s' t H Hok. destruct (H Hok) as (Hn & _ & s1 & _ & Hout & Hv).
  simpl in Hout. subst out.
  split; [exact Hn|]. split; [reflexivity|]. rewrite Hv. vm_compute. reflexivity.
Defined.

Lemma GetOrSet_then_hit_witness :
  runs (aside_env (mem_world (Return (Ok "ann")))) first_call empty_server (fun out s' t =>
    out = Return (Ok "ann") /\ (calls is_fn t <= calls is_acquire t)%nat) /\
  runs (aside_env (mem_world (Return (Ok "ann")))) first_call empty_server (fun out s' t =>
    out = Return (Ok "ann") -> (calls is_fn t <= calls is_acquire t)%nat ->
    runs (aside_env (mem_world (Return (Ok "ann")))) (GetOrSet 14 "user:1" Minute []) s'
      (fun _ _ t2 => calls is_fn t2 = 0%nat)).
Proof.
  split; [vm_compute; split; [reflexivity|lia]|].
  eapply runs_mono.
  2: { refine (GetOrSet_then_hit (mem_world (Return (Ok "ann"))) mem_view
        14 "user:1" Minute [MkOptions (5 * Second) true] empty_server 14 Minute [] "ann" _ _);
       vm_compute; congruence. }
  intros out s' t H Hout Hn. eapply runs_mono; [|exact (H Hout Hn)].
  intros out2 s'' t2 (? & _ & _). assumption.
Defined.

Definition locked_server : mem_redis :=
  MemRedis {["k:lock" := ("k:lock", Some (10 * Second))]} 0.

Lemma GetOrSet_terminates_witness :
  runs (aside_env (mem_world (Return (Ok "v")))) (GetOrSet 14 "k" Minute []) locked_server
    (fun out _ t => out <> OutOfFuel /\ (calls is_wait t <= 13)%nat) /\
  calls is_wait (run_trace (aside_env (mem_world (Return (Ok "v"))))
                   (GetOrSet 14 "k" Minute []) locked_server) = 13%nat.
Proof.
  split; [|vm_compute; reflexivity].
  refine (GetOrSet_terminates (mem_world (Return (Ok "v"))) clock _ _ _ _
            14 "k" Minute [] locked_server _); [..|lia].
  - simpl. intros s t s' [= <- <-]. lia.
  - simpl. intros d s s' [= <-]. simpl. lia.
  - intros X c s x s' [= _ <-]. unfold run_state.
    destruct c; simpl; try lia; destruct (mem_view s !! key); simpl; lia.
  - simpl. congruence.
Defined.

(** Whether a goroutine is executing [fn]. *)
Definition in_fn (p : prog asideE (outcome (result string))) : bool :=
  match p with
  | Vis Fn _ => true
  | _ => false
  end.

(** Two callers of one key with default options, on an empty server: the
    first gets the lock and enters [fn]; the second waits out its 13 polls. *)
Definition slow_fn_schedule : list (nat + unit) :=
  [inl 0; inl 0; inl 0; inl 1; inl 1; inl 1]%nat ++ replicate 40 (inl 1%nat).

Definition slow_fn_reached :=
  run_sched (aside_env (mem_world (Return (Ok "v")))) (fun (_ : unit) s => s) slow_fn_schedule
    (Config (caller_prog "k" <$> [Caller 14 Minute []; Caller 14 Minute []]) empty_server []).

(** C7.  The lock does not keep [fn] to one caller at a time: with default
    options and an [fn] that takes a little more than half a second, a second
    caller stops waiting and runs [fn] too, while the first one is still
    running it and its lock entry is still live. *)
Theorem slow_fn_runs_twice :
  exists c,
    rtc (pool_step (fun_answer (aside_env (mem_world (Return (Ok "v")))))
                   (fun_env (fun (_ : unit) s => s)))
        (Config (caller_prog "k" <$> [Caller 14 Minute []; Caller 14 Minute []])
                empty_server []) c /\
    in_fn <$> (threads c !! 0%nat) = Some true /\
    in_fn <$> (threads c !! 1%nat) = Some true /\
    mem_view (shared c) !! lockKeyOf "k" = Some (lockKeyOf "k") /\
    clock (shared c) = 525 * Millisecond.
Proof.
  exists slow_fn_reached. split; [apply run_sched_reach|].
  vm_compute. auto.
Qed.
