(* ===== verification/Encoding.v ===== *)
(** * Encoding: the text encodings of Go's standard library that are used

    [encoding/hex] ([EncodeToString]) and [encoding/base64]
    ([RawURLEncoding]), on byte lists, with decoders that the round trips are
    stated with.  Used by [oauth2/utils.go] and [cryptoutil/sha.go]. *)

From Stdlib Require Import ZArith Lia Ascii String Strings.Byte.
From stdpp Require Import base strings list numbers.
From S2P Require Import Prelude.

Open Scope Z_scope.

Abbreviation bytes := (list Byte.byte).

Definition byte_Z (b : Byte.byte) : Z := Z.of_N (Byte.to_N b).
Definition Z_byte (z : Z) : Byte.byte :=
  match Byte.of_N (Z.to_N (z mod 256)) with Some b => b | None => Byte.x00 end.

Lemma byte_Z_range b : 0 <= byte_Z b < 256.
Proof. unfold byte_Z. pose proof (Byte.to_N_bounded b). lia. Qed.

Lemma Z_byte_Z b : Z_byte (byte_Z b) = b.
Proof.
  unfold Z_byte. rewrite Z.mod_small by apply byte_Z_range.
  unfold byte_Z. by rewrite N2Z.id, Byte.of_to_N.
Qed.

(** The bytes of a string, [[]byte(s)]. *)
Definition string_bytes (s : string) : bytes := String.list_byte_of_string s.

(** ** An alphabet of [n] symbols *)

Definition symbol (table : string) (i : Z) : ascii :=
  match String.get (Z.to_nat i) table with Some c => c | None => zero end.

Fixpoint index_from (table : string) (i : Z) (c : ascii) : option Z :=
  match table with
  | EmptyString => None
  | String d table' => if Ascii.eqb c d then Some i else index_from table' (i + 1) c
  end.
Definition symbol_index (table : string) (c : ascii) : option Z := index_from table 0 c.

(** Every index below [n] is found back from its symbol. *)
Definition alphabet_ok (table : string) (n : nat) : bool :=
  forallb (fun i => bool_decide (symbol_index table (symbol table (Z.of_nat i)) = Some (Z.of_nat i)))
    (seq 0 n).

Lemma alphabet_index table n i :
  alphabet_ok table n = true -> 0 <= i < Z.of_nat n ->
  symbol_index table (symbol table i) = Some i.
Proof.
  intros Hok Hi. unfold alphabet_ok in Hok. rewrite forallb_forall in Hok.
  specialize (Hok (Z.to_nat i)). rewrite Z2Nat.id in Hok by lia.
  eapply bool_decide_eq_true_1, Hok, in_seq. lia.
Qed.

(** ** Hexadecimal *)

Definition hextable : string := "0123456789abcdef".

(** [hex.EncodeToString] *)
Fixpoint hex_EncodeToString (src : bytes) : string :=
  match src with
  | [] => ""
  | v :: src' =>
      String (symbol hextable (Z.shiftr (byte_Z v) 4))
        (String (symbol hextable (Z.land (byte_Z v) 15)) (hex_EncodeToString src'))
  end.

Fixpoint hex_Decode (s : string) : option bytes :=
  match s with
  | EmptyString => Some []
  | String c1 (String c2 s') =>
      match symbol_index hextable c1, symbol_index hextable c2, hex_Decode s' with
      | Some hi, Some lo, Some bs => Some (Z_byte (hi * 16 + lo) :: bs)
      | _, _, _ => None
      end
  | _ => None
  end.

Lemma hex_alphabet : alphabet_ok hextable 16 = true.
Proof. vm_compute. reflexivity. Qed.

Lemma low_bits z n : 0 <= n -> Z.land z (2 ^ n - 1) = z mod 2 ^ n.
Proof. intros Hn. rewrite <- Z.land_ones by done. by rewrite Z.ones_equiv, Z.sub_1_r. Qed.

Lemma hex_Decode_Encode src : hex_Decode (hex_EncodeToString src) = Some src.
Proof.
  induction src as [|v src IH]; [done|]. simpl. rewrite IH.
  pose proof (byte_Z_range v) as Hv.
  rewrite Z.shiftr_div_pow2 by lia. change 15 with (2 ^ 4 - 1). rewrite low_bits by lia.
  change (2 ^ 4) with 16.
  rewrite !(alphabet_index hextable 16) by (exact hex_alphabet || dlia).
  f_equal. f_equal. rewrite <- (Z_byte_Z v) at 3. f_equal. dlia.
Qed.

Lemma hex_Encode_length src :
  String.length (hex_EncodeToString src) = (2 * length src)%nat.
Proof. induction src as [|v src IH]; simpl; [done|]. rewrite IH. lia. Qed.

(** ** base64, URL alphabet, no padding *)

Definition b64url : string :=
  "ABCDEFGHIJKLMNOPQRSTUVWXYZabcdefghijklmnopqrstuvwxyz0123456789-_".

(** The symbol of the six bits of [val] that start at bit [sh]. *)
Definition sextet (val sh : Z) : ascii := symbol b64url (Z.land (Z.shiftr val sh) 63).

(** [base64.RawURLEncoding.EncodeToString] *)
Fixpoint base64_RawURL (src : bytes) : string :=
  match src with
  | b0 :: b1 :: b2 :: src' =>
      let val := Z.lor (Z.shiftl (byte_Z b0) 16)
                       (Z.lor (Z.shiftl (byte_Z b1) 8) (byte_Z b2)) in
      String (sextet val 18) (String (sextet val 12)
        (String (sextet val 6) (String (sextet val 0) (base64_RawURL src'))))
  | [b0; b1] =>
      let val := Z.lor (Z.shiftl (byte_Z b0) 16) (Z.shiftl (byte_Z b1) 8) in
      String (sextet val 18) (String (sextet val 12) (String (sextet val 6) ""))
  | [b0] =>
      let val := Z.shiftl (byte_Z b0) 16 in
      String (sextet val 18) (String (sextet val 12) "")
  | [] => ""
  end.

Definition sextet_index (c : ascii) : option Z := symbol_index b64url c.

(** The decoder: groups of four symbols give three bytes, a last group of two
    or three gives one or two. *)
Fixpoint base64_Decode (s : string) : option bytes :=
  match s with
  | EmptyString => Some []
  | String c0 (String c1 s1) =>
      match sextet_index c0, sextet_index c1 with
      | Some i0, Some i1 =>
          match s1 with
          | EmptyString => Some [Z_byte (i0 * 4 + i1 / 16)]
          | String c2 s2 =>
              match sextet_index c2 with
              | Some i2 =>
                  match s2 with
                  | EmptyString => Some [Z_byte (i0 * 4 + i1 / 16); Z_byte (i1 * 16 + i2 / 4)]
                  | String c3 s3 =>
                      match sextet_index c3, base64_Decode s3 with
                      | Some i3, Some bs =>
                          Some (Z_byte (i0 * 4 + i1 / 16) :: Z_byte (i1 * 16 + i2 / 4)
                                :: Z_byte (i2 * 64 + i3) :: bs)
                      | _, _ => None
                      end
                  end
              | None => None
              end
          end
      | _, _ => None
      end
  | _ => None
  end.

Lemma b64_alphabet : alphabet_ok b64url 64 = true.
Proof. vm_compute. reflexivity. Qed.

(** Shifted bits and bits below the shift do not overlap. *)
Lemma lor_shiftl x y n : 0 <= n -> 0 <= y < 2 ^ n -> Z.lor (Z.shiftl x n) y = x * 2 ^ n + y.
Proof.
  intros Hn Hy. rewrite <- Z.add_nocarry_lor, Z.shiftl_mul_pow2; [done|done|].
  apply Z.bits_inj'. intros m Hm. rewrite Z.land_spec, Z.bits_0.
  destruct (Z.lt_ge_cases m n).
  - rewrite Z.shiftl_spec_low by done. done.
  - rewrite <- (Z.mod_small y (2 ^ n)) by done.
    rewrite Z.mod_pow2_bits_high by lia. apply andb_false_r.
Qed.

Lemma sextet_index_of val sh :
  0 <= sh -> sextet_index (sextet val sh) = Some ((val / 2 ^ sh) mod 64).
Proof.
  intros Hsh. unfold sextet_index, sextet. change 63 with (2 ^ 6 - 1).
  rewrite low_bits, Z.shiftr_div_pow2 by lia.
  apply (alphabet_index b64url 64); [exact b64_alphabet|].
  change (2 ^ 6) with 64. pose proof (Z.mod_pos_bound (val / 2 ^ sh) 64). lia.
Qed.

Lemma Z_byte_eq b z : z mod 256 = byte_Z b -> Z_byte z = b.
Proof.
  intros H. rewrite <- (Z_byte_Z b). unfold Z_byte.
  rewrite H, (Z.mod_small (byte_Z b)) by apply byte_Z_range. done.
Qed.

(** Induction on a byte list by groups of three. *)
Lemma bytes_ind3 (P : bytes -> Prop) :
  P [] -> (forall b0, P [b0]) -> (forall b0 b1, P [b0; b1]) ->
  (forall b0 b1 b2 bs, P bs -> P (b0 :: b1 :: b2 :: bs)) ->
  forall bs, P bs.
Proof.
  intros H0 H1 H2 H3. fix IH 1.
  intros [|b0 [|b1 [|b2 bs]]]; [exact H0|apply H1|apply H2|apply H3, IH].
Qed.

Ltac b64_bytes :=
  repeat match goal with
         | b : Byte.byte |- _ =>
             lazymatch goal with
             | _ : 0 <= byte_Z b < 256 |- _ => fail
             | _ => pose proof (byte_Z_range b)
             end
         end.

Lemma base64_Decode_Encode src : base64_Decode (base64_RawURL src) = Some src.
Proof.
  induction src as [|b0|b0 b1|b0 b1 b2 src IH] using bytes_ind3; [done|..];
    cbn [base64_RawURL base64_Decode]; rewrite !sextet_index_of by lia; b64_bytes.
  - f_equal. f_equal. apply Z_byte_eq. rewrite Z.shiftl_mul_pow2 by lia.
    change (2 ^ 18) with 262144. change (2 ^ 16) with 65536. change (2 ^ 12) with 4096. dlia.
  - rewrite (lor_shiftl (byte_Z b0)), (Z.shiftl_mul_pow2 (byte_Z b1)) by (rewrite ?Z.shiftl_mul_pow2; lia).
    change (2 ^ 18) with 262144. change (2 ^ 16) with 65536. change (2 ^ 12) with 4096.
    change (2 ^ 8) with 256. change (2 ^ 6) with 64.
    do 2 f_equal; [|f_equal]; apply Z_byte_eq; dlia.
  - rewrite IH, (lor_shiftl (byte_Z b1)), (lor_shiftl (byte_Z b0)) by (rewrite ?lor_shiftl; lia).
    change (2 ^ 18) with 262144. change (2 ^ 16) with 65536. change (2 ^ 12) with 4096.
    change (2 ^ 8) with 256. change (2 ^ 6) with 64. change (2 ^ 0) with 1.
    f_equal. f_equal; [|f_equal; [|f_equal]]; apply Z_byte_eq; dlia.
Qed.

Lemma base64_length src :
  String.length (base64_RawURL src) = ((length src * 4 + 2) / 3)%nat.
Proof.
  induction src as [|b0|b0 b1|b0 b1 b2 src IH] using bytes_ind3; [done..|].
  cbn [base64_RawURL String.length length]. rewrite IH.
  replace (S (S (S (length src))) * 4 + 2)%nat with (4 * 3 + (length src * 4 + 2))%nat by lia.
  rewrite Nat.div_add_l by lia. lia.
Qed.

(** The characters of a string. *)
Fixpoint string_forall (f : ascii -> bool) (s : string) : bool :=
  match s with
  | EmptyString => true
  | String c s' => f c && string_forall f s'
  end.

(** The unreserved characters that RFC 7636 allows in a code verifier. *)
Definition url_safe (c : ascii) : bool :=
  match symbol_index b64url c with Some _ => true | None => false end.

Lemma sextet_url_safe val sh : 0 <= sh -> url_safe (sextet val sh) = true.
Proof.
  intros Hsh. unfold url_safe. pose proof (sextet_index_of val sh Hsh) as H.
  unfold sextet_index in H. by rewrite H.
Qed.

Lemma base64_url_safe src : string_forall url_safe (base64_RawURL src) = true.
Proof.
  induction src as [|b0|b0 b1|b0 b1 b2 src IH] using bytes_ind3; [done|..];
    cbn [base64_RawURL string_forall]; rewrite !sextet_url_safe by lia; done.
Qed.

Lemma hex_inj src1 src2 :
  hex_EncodeToString src1 = hex_EncodeToString src2 -> src1 = src2.
Proof.
  intros H. apply (f_equal hex_Decode) in H. rewrite !hex_Decode_Encode in H. congruence.
Qed.

Lemma base64_inj src1 src2 : base64_RawURL src1 = base64_RawURL src2 -> src1 = src2.
Proof.
  intros H. apply (f_equal base64_Decode) in H. rewrite !base64_Decode_Encode in H. congruence.
Qed.
