(* ===== verification/Sha2.v ===== *)
(** * Sha2: the SHA-2 digests of Go's standard library

    [crypto/sha256.Sum256] and [crypto/sha512.Sum512] as FIPS 180-4 defines
    them, executable, with the standard's test messages evaluated.  Used by
    [oauth2/utils.go] ([GenerateCodeChallenge]) and [cryptoutil/sha.go]. *)

From Stdlib Require Import ZArith Lia Strings.Byte.
From stdpp Require Import base strings list numbers.
From S2P Require Import Prelude Encoding.

Open Scope Z_scope.

(** The two instances differ in the word size, the constants and the
    rotations. *)
Record sha2 := Sha2 {
  wbits : Z;
  wbytes : nat;
  roundK : list Z;
  initH : list Z;
  big0 : Z * Z * Z;
  big1 : Z * Z * Z;
  small0 : Z * Z * Z;
  small1 : Z * Z * Z
}.

Section sha2.
Variable P : sha2.

Definition trunc (x : Z) : Z := Z.land x (Z.ones (wbits P)).
Definition rotr (n x : Z) : Z := Z.lor (Z.shiftr x n) (trunc (Z.shiftl x (wbits P - n))).

(** Three rotations. *)
Definition bigS (r : Z * Z * Z) (x : Z) : Z :=
  let '(a, b, c) := r in Z.lxor (rotr a x) (Z.lxor (rotr b x) (rotr c x)).
(** Two rotations and a shift. *)
Definition smallS (r : Z * Z * Z) (x : Z) : Z :=
  let '(a, b, c) := r in Z.lxor (rotr a x) (Z.lxor (rotr b x) (Z.shiftr x c)).

Definition Ch (x y z : Z) : Z := Z.lxor (Z.land x y) (Z.land (Z.lxor x (Z.ones (wbits P))) z).
Definition Maj (x y z : Z) : Z := Z.lxor (Z.land x y) (Z.lxor (Z.land x z) (Z.land y z)).

Definition word_at (l : list Z) (i : nat) : Z := default 0 (l !! i).

(** One round per constant; [win] holds the next sixteen schedule words. *)
Fixpoint rounds (ks win st : list Z) : list Z :=
  match ks, st with
  | k :: ks', [a; b; c; d; e; f; g; h] =>
      let t1 := h + bigS (big1 P) e + Ch e f g + k + word_at win 0 in
      let t2 := bigS (big0 P) a + Maj a b c in
      let next := trunc (smallS (small1 P) (word_at win 14) + word_at win 9
                         + smallS (small0 P) (word_at win 1) + word_at win 0) in
      rounds ks' (tail win ++ [next])
        [trunc (t1 + t2); a; b; c; trunc (d + t1); e; f; g]
  | _, _ => st
  end.

Definition compress (st block : list Z) : list Z :=
  zip_with (fun x y => trunc (x + y)) st (rounds (roundK P) block st).

(** Big-endian words of a byte list. *)
Definition be_word (bs : bytes) : Z :=
  fold_left (fun acc b => acc * 256 + byte_Z b) bs 0.
Fixpoint words (fuel : nat) (bs : bytes) : list Z :=
  match fuel, bs with
  | S fuel', _ :: _ => be_word (take (wbytes P) bs) :: words fuel' (drop (wbytes P) bs)
  | _, _ => []
  end.
Fixpoint be_bytes (n : nat) (x : Z) : bytes :=
  match n with
  | O => []
  | S n' => Z_byte (Z.shiftr x (8 * Z.of_nat n')) :: be_bytes n' x
  end.

(** The message, a one bit, zeros, and the length in bits. *)
Definition pad (msg : bytes) : bytes :=
  let block := (16 * wbytes P)%nat in
  let len := length msg in
  let zeros := ((block - (len + 1 + 2 * wbytes P) mod block) mod block)%nat in
  msg ++ Byte.x80 :: replicate zeros Byte.x00
      ++ be_bytes (2 * wbytes P) (8 * Z.of_nat len).

Fixpoint blocks (fuel : nat) (ws st : list Z) : list Z :=
  match fuel, ws with
  | S fuel', _ :: _ => blocks fuel' (drop 16 ws) (compress st (take 16 ws))
  | _, _ => st
  end.

Definition digest (msg : bytes) : bytes :=
  let padded := pad msg in
  let ws := words (length padded) padded in
  concat (map (be_bytes (wbytes P)) (blocks (length ws) ws (initH P))).

(** The digest's length does not depend on the message. *)
Lemma be_bytes_length n x : length (be_bytes n x) = n.
Proof using. induction n as [|n IH]; simpl; [done|]. by rewrite IH. Qed.

Lemma rounds_length ks win st : length st = 8%nat -> length (rounds ks win st) = 8%nat.
Proof using.
  revert win st. induction ks as [|k ks IH]; intros win st Hst; [done|]. simpl.
  destruct st as [|a [|b [|c [|d [|e [|f [|g [|h [|]]]]]]]]]; try done. by apply IH.
Qed.

Lemma blocks_length fuel ws st : length st = 8%nat -> length (blocks fuel ws st) = 8%nat.
Proof using.
  revert ws st. induction fuel as [|fuel IH]; intros [|w ws] st Hst; [done..|].
  apply IH. unfold compress. rewrite length_zip_with, rounds_length by done. lia.
Qed.

Lemma digest_length msg :
  length (initH P) = 8%nat -> length (digest msg) = (8 * wbytes P)%nat.
Proof using.
  intros HH. unfold digest.
  set (st := blocks _ _ _). assert (Hst : length st = 8%nat) by by apply blocks_length.
  clearbody st. revert Hst. generalize 8%nat as n. induction st as [|x st IH]; intros n; simpl.
  - intros <-. done.
  - intros <-. rewrite length_app, be_bytes_length, (IH (length st)) by done. lia.
Qed.
End sha2.

(** FIPS 180-4 takes the constants from the first primes: the round
    constants are the leading fractional bits of their cube roots, the
    initial values those of their square roots. *)
Definition is_prime (n : nat) : bool :=
  forallb (fun d => negb (n mod d =? 0)%nat) (seq 2 (n - 2)).
Definition primes (count : nat) : list Z :=
  map Z.of_nat (take count (List.filter is_prime (seq 2 410))).

(** The integer cube root, bit by bit from bit [k] down. *)
Fixpoint cube_root (k : nat) (acc x : Z) : Z :=
  match k with
  | O => acc
  | S k' => let c := acc + 2 ^ Z.of_nat k' in
            cube_root k' (if c * c * c <=? x then c else acc) x
  end.

Definition cube_frac (w p : Z) : Z := cube_root 72 0 (p * 2 ^ (3 * w)) mod 2 ^ w.
Definition square_frac (w p : Z) : Z := Z.sqrt (p * 2 ^ (2 * w)) mod 2 ^ w.

Definition K256 : list Z := Eval vm_compute in map (cube_frac 32) (primes 64).
Definition K512 : list Z := Eval vm_compute in map (cube_frac 64) (primes 80).
Definition H256 : list Z := Eval vm_compute in map (square_frac 32) (primes 8).
Definition H512 : list Z := Eval vm_compute in map (square_frac 64) (primes 8).

Definition sha256_params : sha2 := {|
  wbits := 32; wbytes := 4; roundK := K256; initH := H256;
  big0 := (2, 13, 22); big1 := (6, 11, 25);
  small0 := (7, 18, 3); small1 := (17, 19, 10)
|}.

Definition sha512_params : sha2 := {|
  wbits := 64; wbytes := 8; roundK := K512; initH := H512;
  big0 := (28, 34, 39); big1 := (14, 18, 41);
  small0 := (1, 8, 7); small1 := (19, 61, 6)
|}.

(** [sha256.Sum256] and [sha512.Sum512] *)
Definition Sum256 (data : bytes) : bytes := digest sha256_params data.
Definition Sum512 (data : bytes) : bytes := digest sha512_params data.

Lemma Sum256_length data : length (Sum256 data) = 32%nat.
Proof. by apply digest_length. Qed.
Lemma Sum512_length data : length (Sum512 data) = 64%nat.
Proof. by apply digest_length. Qed.

(** The standard's test messages. *)
Example Sum256_abc :
  hex_EncodeToString (Sum256 (string_bytes "abc")) =
  "ba7816bf8f01cfea414140de5dae2223b00361a396177a9cb410ff61f20015ad".
Proof. vm_compute. reflexivity. Qed.

Example Sum256_two_blocks :
  hex_EncodeToString (Sum256 (string_bytes
    "abcdbcdecdefdefgefghfghighijhijkijkljklmklmnlmnomnopnopq")) =
  "248d6a61d20638b8e5c026930c3e6039a33ce45964ff2167f6ecedd419db06c1".
Proof. vm_compute. reflexivity. Qed.

Example Sum512_abc :
  hex_EncodeToString (Sum512 (string_bytes "abc")) =
  "ddaf35a193617abacc417349ae20413112e6fa4e89a97ea20a9eeee64b55d39a2192992a274fc1a836ba3c23a3feebbd454d4423643ce80e2a9ac94fa54ca49f".
Proof. vm_compute. reflexivity. Qed.
