(* ===== verification/OAuthUtils.v ===== *)
(** * OAuthUtils: random strings and PKCE parameters

    Models [oauth2/utils.go].  The operating system's random source
    ([crypto/rand.Read]) is a call that answers an error or the bytes it
    filled the buffer with. *)

From Stdlib Require Import ZArith Lia Strings.Byte.
From stdpp Require Import base strings list.
From S2P Require Import Prelude Effects Encoding Sha2.

Open Scope go_scope.

(** [rand.Read(b)] on a buffer of [n] bytes. *)
Inductive randE : Type -> Type :=
| RandRead (n : nat) : randE (result bytes).

Definition base64URLEncode (data : bytes) : string := base64_RawURL data.

Definition GenerateRandomString (length : nat) : prog randE (result string) :=
  let* r := call (RandRead length) in
  match r with
  | Err err => Ret (Err err)
  | Ok bs => Ret (Ok (hex_EncodeToString bs))
  end.

Definition GenerateCodeVerifier : prog randE (result string) :=
  let* r := call (RandRead 32) in
  match r with
  | Err err => Ret (Err err)
  | Ok bs => Ret (Ok (base64URLEncode bs))
  end.

Definition GenerateCodeChallenge (verifier : string) : string :=
  let hash := Sum256 (string_bytes verifier) in
  base64URLEncode hash.

Lemma exec_GenerateRandomString n t v :
  exec (GenerateRandomString n) t (Ok v) ->
  exists bs, t = [Obs (RandRead n) (Ok bs)] /\ v = hex_EncodeToString bs.
Proof.
  intros (r & t' & -> & Hx). destruct r as [bs|e]; simpl in Hx; destruct Hx as [-> ?];
    simplify_eq. eauto.
Qed.

Lemma exec_GenerateCodeVerifier t v :
  exec GenerateCodeVerifier t (Ok v) ->
  exists bs, t = [Obs (RandRead 32) (Ok bs)] /\ v = base64_RawURL bs.
Proof.
  intros (r & t' & -> & Hx). destruct r as [bs|e]; simpl in Hx; destruct Hx as [-> ?];
    simplify_eq. eauto.
Qed.

Lemma GenerateCodeChallenge_length v : String.length (GenerateCodeChallenge v) = 43%nat.
Proof.
  unfold GenerateCodeChallenge, base64URLEncode. by rewrite base64_length, Sum256_length.
Qed.

(** C8.  PKCE parameters are as RFC 7636 asks: a generated code verifier is
    made of exactly the 32 random bytes read, which can be recovered from it,
    has 43 characters, all unreserved, and its challenge is the base64url
    encoding of its SHA-256 digest, again 43 unreserved characters from
    which the digest can be recovered. *)
Theorem code_verifier_rfc7636 t v :
  exec GenerateCodeVerifier t (Ok v) ->
  exists bs, t = [Obs (RandRead 32) (Ok bs)] /\
    base64_Decode v = Some bs /\
    (length bs = 32%nat -> String.length v = 43%nat) /\
    string_forall url_safe v = true /\
    String.length (GenerateCodeChallenge v) = 43%nat /\
    string_forall url_safe (GenerateCodeChallenge v) = true /\
    base64_Decode (GenerateCodeChallenge v) = Some (Sum256 (string_bytes v)).
Proof.
  intros (bs & -> & ->)%exec_GenerateCodeVerifier. exists bs.
  split_and!; [done|apply base64_Decode_Encode| |apply base64_url_safe
    |apply GenerateCodeChallenge_length|apply base64_url_safe|apply base64_Decode_Encode].
  intros Hlen. by rewrite base64_length, Hlen.
Qed.

(** The answer of a read of the random source. *)
Definition rand_answer (o : obs randE) : result bytes :=
  match o with
  | Obs e x => match e in randE Y return Y -> result bytes with RandRead _ => fun r => r end x
  end.

(** The random bytes of RFC 7636, appendix B. *)
Definition rfc7636_bytes : bytes :=
  map Z_byte
    [116; 24; 223; 180; 151; 153; 224; 37; 79; 250; 96; 125; 216; 173; 187; 186;
     22; 212; 37; 77; 105; 214; 191; 240; 91; 88; 5; 88; 83; 132; 141; 121]%Z.

Lemma code_verifier_rfc7636_witness :
  let v := "dBjftJeZ4CVP-mB92K27uhbUJU1p1r_wW1gFWFOEjXk"%string in
  exec GenerateCodeVerifier [Obs (RandRead 32) (Ok rfc7636_bytes)] (Ok v) /\
  GenerateCodeChallenge v = "E9Melhoa2OwvFrEMTJguCHaoeK1t8URWbuGJSstw-cM"%string /\
  base64_Decode v = Some rfc7636_bytes.
Proof.
  intros v.
  assert (H : exec GenerateCodeVerifier [Obs (RandRead 32) (Ok rfc7636_bytes)] (Ok v)).
  { exists (Ok rfc7636_bytes), []. split; [reflexivity|]. vm_compute. auto. }
  split; [exact H|]. split; [vm_compute; reflexivity|].
  destruct (code_verifier_rfc7636 _ _ H) as (bs & Ht & Hd & _).
  apply (f_equal (map rand_answer)) in Ht. simpl in Ht. rewrite Hd. congruence.
Defined.
