(* ===== verification/OAuthState.v ===== *)
(** * OAuthState: the in-memory state storage

    Models [oauth2/state.go].  Every method locks the mutex for its whole
    body, so a method is one function on the storage and concurrent use is a
    sequence of calls; [time.Now()] is an argument.  The map iteration of
    [removeExpired] takes the order in which Go visits the keys as an
    argument, since Go leaves it unspecified. *)

From stdpp Require Import base gmap strings list fin_maps.
From Stdlib Require Import ZArith Lia.
From S2P Require Import Prelude Effects.

Open Scope Z_scope.

Definition ErrStateNotFound : sentinel :=
  MkSentinel "oauth2.ErrStateNotFound" "state not found".
Definition ErrStateExpired : sentinel :=
  MkSentinel "oauth2.ErrStateExpired" "state expired".

Record StateData := MkStateData {
  Nonce : string;
  CodeVerifier : string;
  ExpiresAt : Z
}.

(** [done_closed]: whether the channel [done] is closed; [once_done]: whether
    [once] has run its function. *)
Record InMemoryStorage := MkStorage {
  data : gmap string StateData;
  done_closed : bool;
  once_done : bool
}.

Definition NewInMemoryStorage : InMemoryStorage := MkStorage empty false false.

Definition with_data (s : InMemoryStorage) (m : gmap string StateData) : InMemoryStorage :=
  MkStorage m (done_closed s) (once_done s).

Definition SaveState (state nonce codeVerifier : string) (expiresAt : Z)
    (s : InMemoryStorage) : option error * InMemoryStorage :=
  (None, with_data s (<[state := MkStateData nonce codeVerifier expiresAt]> (data s))).

Definition GetStateData (now : Z) (state : string) (s : InMemoryStorage)
  : result StateData * InMemoryStorage :=
  match data s !! state with
  | None => (Err (Sentinel ErrStateNotFound), s)
  | Some d =>
      if After now (ExpiresAt d)
      then (Err (Sentinel ErrStateExpired), with_data s (delete state (data s)))
      else (Ok d, s)
  end.

Definition DeleteState (state : string) (s : InMemoryStorage)
  : option error * InMemoryStorage :=
  (None, with_data s (delete state (data s))).

(** [once.Do(func() { close(s.done) })]; closing a closed channel panics. *)
Definition Cleanup (s : InMemoryStorage) : outcome unit * InMemoryStorage :=
  if once_done s then (Return tt, s)
  else if done_closed s then (Panic "close of closed channel", s)
  else (Return tt, MkStorage (data s) true true).

(** One visit of the loop of [removeExpired]. *)
Definition remove_if_expired (now : Z) (m : gmap string StateData) (state : string)
  : gmap string StateData :=
  match m !! state with
  | Some d => if After now (ExpiresAt d) then delete state m else m
  | None => m
  end.

Definition removeExpired (now : Z) (order : list string) (s : InMemoryStorage)
  : InMemoryStorage :=
  with_data s (fold_left (remove_if_expired now) order (data s)).

(** The background goroutine: it sweeps on every tick, and stops once [done]
    is closed ([select] may also serve a tick that is ready then). *)
Inductive cleanupRoutine : bool * InMemoryStorage -> bool * InMemoryStorage -> Prop :=
| routine_tick now order s :
    cleanupRoutine (true, s) (true, removeExpired now order s)
| routine_done s :
    done_closed s = true -> cleanupRoutine (true, s) (false, s).

(** ** The sweep *)

Definition prune (now : Z) (o : option StateData) : option StateData :=
  match o with
  | Some d => if After now (ExpiresAt d) then None else Some d
  | None => None
  end.

Lemma prune_idem now o : prune now (prune now o) = prune now o.
Proof. destruct o as [d|]; simpl; [|done]. destruct (After now (ExpiresAt d)) eqn:E; simpl; by rewrite ?E. Qed.

Lemma remove_if_expired_lookup now m k k' :
  remove_if_expired now m k !! k' =
  if decide (k = k') then prune now (m !! k') else m !! k'.
Proof.
  unfold remove_if_expired, prune. case_decide as E; [subst k'|];
    destruct (m !! k) as [d|] eqn:Hk; try done; destruct (After now (ExpiresAt d)); try done.
  - apply lookup_delete_eq.
  - by apply lookup_delete_ne.
Qed.

Lemma sweep_lookup now order m k :
  fold_left (remove_if_expired now) order m !! k =
  if decide (k ∈ order) then prune now (m !! k) else m !! k.
Proof.
  revert m. induction order as [|k' order IH]; intros m; simpl.
  - done.
  - rewrite IH, remove_if_expired_lookup.
    destruct (decide (k' = k)) as [->|Hne].
    + rewrite prune_idem, (decide_True (P := k ∈ k :: order)) by apply elem_of_cons, or_introl, eq_refl.
      by destruct (decide (k ∈ order)).
    + destruct (decide (k ∈ order)) as [Hin|Hin].
      * by rewrite decide_True by (apply elem_of_cons; auto).
      * rewrite decide_False; [done|]. intros [?|?]%elem_of_cons; congruence || done.
Qed.

(** C9.  In whatever order Go visits the map, a sweep removes exactly the
    entries whose expiry is before the instant of the sweep and keeps the
    others unchanged. *)
Theorem removeExpired_any_order now order s :
  order ≡ₚ (map_to_list (data s)).*1 ->
  data (removeExpired now order s) =
  filter (fun kd => After now (ExpiresAt kd.2) = false) (data s).
Proof.
  intros Hp. apply map_eq. intros k. unfold removeExpired. simpl. rewrite sweep_lookup.
  assert (Hin : is_Some (data s !! k) -> k ∈ order).
  { intros [d Hd]. rewrite Hp. apply list_elem_of_fmap. exists (k, d).
    split; [done|]. by apply elem_of_map_to_list. }
  destruct (data s !! k) as [d|] eqn:Hd.
  - rewrite decide_True by eauto. simpl. symmetry. destruct (After now (ExpiresAt d)) eqn:E.
    + apply map_lookup_filter_None. right. intros d' Hd'. simplify_eq. simpl. congruence.
    + apply map_lookup_filter_Some. auto.
  - transitivity (@None StateData); [by case_decide|]. symmetry.
    apply map_lookup_filter_None. auto.
Qed.

Lemma removeExpired_any_order_witness :
  let s := MkStorage {["a" := MkStateData "n" "v" 5; "b" := MkStateData "n" "v" 9]} false false in
  data (removeExpired 7 ["b"; "a"] s) = {["b" := MkStateData "n" "v" 9]}.
Proof.
  intros s. rewrite (removeExpired_any_order 7 ["b"; "a"] s).
  - vm_compute. reflexivity.
  - vm_compute. first [reflexivity | apply Permutation_swap].
Defined.

(** ** What the storage promises

    The specification keeps every saved entry until it is deleted or saved
    again, knows nothing of sweeps, and answers a lookup with the entry if it
    has not expired by then. *)

Inductive storage_op :=
| OpSave (state nonce codeVerifier : string) (expiresAt : Z)
| OpGet (state : string)
| OpDelete (state : string)
| OpSweep (order : list string)
| OpCleanup.

(** An operation at an instant, with what a lookup answered. *)
Definition storage_step (now : Z) (op : storage_op) (s : InMemoryStorage)
  : option (result StateData) * InMemoryStorage :=
  match op with
  | OpSave st n v e => (None, (SaveState st n v e s).2)
  | OpGet st => let '(r, s') := GetStateData now st s in (Some r, s')
  | OpDelete st => (None, (DeleteState st s).2)
  | OpSweep order => (None, removeExpired now order s)
  | OpCleanup => (None, (Cleanup s).2)
  end.

Definition spec_step (now : Z) (op : storage_op) (m : gmap string StateData)
  : option (option StateData) * gmap string StateData :=
  match op with
  | OpSave st n v e => (None, <[st := MkStateData n v e]> m)
  | OpGet st => (Some (prune now (m !! st)), m)
  | OpDelete st => (None, delete st m)
  | OpSweep _ | OpCleanup => (None, m)
  end.

(** The answers of a sequence of operations. *)
Fixpoint storage_run (ops : list (Z * storage_op)) (s : InMemoryStorage)
  : list (option (result StateData)) :=
  match ops with
  | [] => []
  | (now, op) :: ops' =>
      let '(r, s') := storage_step now op s in r :: storage_run ops' s'
  end.

Fixpoint spec_run (ops : list (Z * storage_op)) (m : gmap string StateData)
  : list (option (option StateData)) :=
  match ops with
  | [] => []
  | (now, op) :: ops' =>
      let '(r, m') := spec_step now op m in r :: spec_run ops' m'
  end.

(** A client sees the data, or that the state is not usable. *)
Definition usable (r : result StateData) : option StateData :=
  match r with Ok d => Some d | Err _ => None end.

Definition seen (rs : list (option (result StateData))) : list (option (option StateData)) :=
  map (option_map usable) rs.

(** Instants do not go back. *)
Fixpoint in_order (t : Z) (ops : list (Z * storage_op)) : bool :=
  match ops with
  | [] => true
  | (now, _) :: ops' => (t <=? now) && in_order now ops'
  end.

(** The storage and the specification agree on what is still usable. *)
Definition agree (now : Z) (s : InMemoryStorage) (m : gmap string StateData) : Prop :=
  forall k, prune now (data s !! k) = prune now (m !! k).

Lemma prune_later now now' o : now <= now' -> prune now' (prune now o) = prune now' o.
Proof.
  intros Hle. destruct o as [d|]; [|done]. unfold prune, After.
  destruct (Z.ltb_spec (ExpiresAt d) now); [|done].
  by destruct (Z.ltb_spec (ExpiresAt d) now'); [|lia].
Qed.

Lemma agree_later now now' s m : now <= now' -> agree now s m -> agree now' s m.
Proof.
  intros Hle H k. specialize (H k). apply (f_equal (prune now')) in H.
  by rewrite !prune_later in H.
Qed.

Lemma agree_step now op s m :
  agree now s m ->
  let '(r, s') := storage_step now op s in
  let '(r', m') := spec_step now op m in
  option_map usable r = r' /\ agree now s' m'.
Proof.
  intros H. destruct op as [st n v e|st|st|order|]; simpl.
  - split; [done|]. intros k. simpl. destruct (decide (st = k)) as [->|].
    + by rewrite !lookup_insert_eq.
    + rewrite !lookup_insert_ne by done. apply H.
  - unfold GetStateData. pose proof (H st) as Hst.
    destruct (data s !! st) as [d|] eqn:Hd; simpl in Hst |- *; [|by rewrite Hst].
    destruct (After now (ExpiresAt d)) eqn:E; simpl; (split; [by rewrite Hst|]); [|done].
    intros k. simpl. destruct (decide (st = k)) as [->|].
    + rewrite lookup_delete_eq. done.
    + rewrite lookup_delete_ne by done. apply H.
  - split; [done|]. intros k. simpl. destruct (decide (st = k)) as [->|].
    + by rewrite !lookup_delete_eq.
    + rewrite !lookup_delete_ne by done. apply H.
  - split; [done|]. intros k. simpl. rewrite sweep_lookup.
    case_decide; rewrite ?prune_idem; apply H.
  - split; [done|]. unfold Cleanup. destruct (once_done s); [done|].
    by destruct (done_closed s).
Qed.

Lemma storage_run_agree ops now s m :
  in_order now ops = true -> agree now s m ->
  seen (storage_run ops s) = spec_run ops m.
Proof.
  revert now s m. induction ops as [|[now' op] ops IH]; intros now s m Ho Ha; simpl; [done|].
  simpl in Ho. apply andb_true_iff in Ho as [Hle%Z.leb_le Ho].
  pose proof (agree_step now' op s m (agree_later _ _ _ _ Hle Ha)) as Hs.
  destruct (storage_step now' op s) as [r s'], (spec_step now' op m) as [r' m'].
  destruct Hs as [Hr Ha']. simpl. rewrite Hr. f_equal. eauto.
Qed.

(** C10.  The storage implements its specification: for any sequence of
    operations at instants that do not go back, with sweeps of the
    background goroutine (in any order, complete or not) and stops of it
    anywhere in between, every lookup gets the data of the last save of that
    state that was not deleted, if it has not expired, and an error
    otherwise. *)
Theorem storage_refines_spec t ops :
  in_order t ops = true ->
  seen (storage_run ops NewInMemoryStorage) = spec_run ops empty.
Proof. intros Ho. by apply (storage_run_agree ops t). Qed.

Definition storage_example : list (Z * storage_op) :=
  [(0, OpSave "s1" "n1" "v1" 10); (1, OpSave "s2" "n2" "v2" 5); (5, OpGet "s2");
   (6, OpSweep ["s1"; "s2"]); (6, OpGet "s2"); (7, OpCleanup); (10, OpGet "s1");
   (10, OpDelete "s1"); (10, OpGet "s1")].

Lemma storage_refines_spec_witness :
  seen (storage_run storage_example NewInMemoryStorage) =
  [None; None; Some (Some (MkStateData "n2" "v2" 5)); None; Some None; None;
   Some (Some (MkStateData "n1" "v1" 10)); None; Some None].
Proof.
  rewrite (storage_refines_spec 0 storage_example); vm_compute; reflexivity.
Defined.
