(* ===== verification/OAuthManager.v ===== *)
(** * OAuthManager: the OAuth2 manager

    Models [oauth2/provider.go] (the data types and the [Provider]
    interface) and [oauth2/manager.go].  The methods are programs whose calls
    are the guarded accesses to the provider map, the [StateStorage] methods,
    the random source, the clock, the provider's [HandleCallback] and the
    application's callback handler; the last two may also panic. *)

From stdpp Require Import base gmap strings list fin_maps relations.
From Stdlib Require Import ZArith Lia Strings.Byte.
From S2P Require Import Prelude Effects Encoding OAuthUtils OAuthState.

Open Scope Z_scope.
Open Scope go_scope.

Definition ErrProviderNotFound : sentinel :=
  MkSentinel "oauth2.ErrProviderNotFound" "provider not found".
Definition ErrInvalidState : sentinel :=
  MkSentinel "oauth2.ErrInvalidState" "invalid state".
Definition ErrOAuth2State : sentinel :=
  MkSentinel "oauth2.ErrOAuth2State" "invalid oauth2 state".
Definition ErrOAuth2Callback : sentinel :=
  MkSentinel "oauth2.ErrOAuth2Callback" "oauth2 callback error".
Definition ErrCallbackHandler : sentinel :=
  MkSentinel "oauth2.ErrCallbackHandler" "callback handler not set".

Record UserInfo := MkUserInfo {
  ui_ID : string;
  ui_Email : string;
  ui_Name : string;
  ui_Provider : string;
  ui_CreatedAt : Z
}.

Record TokenSet := MkTokenSet {
  AccessToken : string;
  TokenType : string;
  RefreshToken_ : string;
  IDToken : string;
  ts_ExpiresAt : Z
}.

Definition IsExpired (now : Z) (t : TokenSet) : bool := After now (ts_ExpiresAt t).

(** The receiver may be a nil pointer. *)
Definition IsValid (t : option TokenSet) : bool :=
  match t with
  | Some t => negb (String.eqb (AccessToken t) "")
  | None => false
  end.

Record CallbackInfo := MkCallbackInfo {
  SessionCookieName : string;
  UserID : string;
  SessionID : string;
  CookieMaxAge : Z
}.

(** A [Provider]: an interface value, that is, the value behind the interface
    with its type, and what its [GetName] and [GetAuthURL] answer; its
    [HandleCallback] talks to the identity provider and is a call below. *)
Record Provider := MkProvider {
  GetName : string;
  AuthURL : string -> string -> string -> string;
  dynamic : {T : Set & T}
}.

(** [H] is the type of callback handlers. *)
Record ManagerConfig (H : Type) := MkManagerConfig {
  StateTimeout : Z;
  cfg_CallbackHandler : option H
}.
Arguments MkManagerConfig {H} _ _.
Arguments StateTimeout {H} _.
Arguments cfg_CallbackHandler {H} _.

Record manager (H : Type) := MkManager {
  providers : gmap string Provider;
  stateStorage : InMemoryStorage;
  callbackHandler : H;
  stateTimeout : Z
}.
Arguments MkManager {H} _ _ _ _.
Arguments providers {H} _.
Arguments stateStorage {H} _.
Arguments callbackHandler {H} _.
Arguments stateTimeout {H} _.

Definition DefaultManagerConfig {H : Type} : ManagerConfig H :=
  MkManagerConfig (10 * Minute) None.

(** The configuration is passed by pointer, and its zero timeout is filled in
    place: the second component is the configuration after the call. *)
Definition NewManager {H : Type} (cfg : option (ManagerConfig H))
  : result (manager H) * option (ManagerConfig H) :=
  let defaultCfg := DefaultManagerConfig in
  let c := match cfg with Some c => c | None => defaultCfg end in
  let c := if StateTimeout c =? 0
           then MkManagerConfig (StateTimeout defaultCfg) (cfg_CallbackHandler c) else c in
  let cfg' := match cfg with Some _ => Some c | None => None end in
  match cfg_CallbackHandler c with
  | None => (Err (Errorf (sentinel_text ErrCallbackHandler +:+ ": callback handler is required")
                    [Sentinel ErrCallbackHandler]), cfg')
  | Some h => (Ok (MkManager empty NewInMemoryStorage h (StateTimeout c)), cfg')
  end.

Lemma NewManager_ok {H} (cfg : option (ManagerConfig H)) m :
  (NewManager cfg).1 = Ok m ->
  (exists c, cfg = Some c /\ cfg_CallbackHandler c = Some (callbackHandler m)) /\
  stateTimeout m <> 0 /\ providers m = empty.
Proof.
  unfold NewManager. destruct cfg as [[timeout [h|]]|]; simpl.
  - destruct (Z.eqb_spec timeout 0) as [->|Hne]; simpl; intros [= <-]; simpl;
      (split; [eauto|]); (split; [|done]); [unfold Minute, Second, Millisecond; lia|done].
  - by destruct (Z.eqb_spec timeout 0).
  - done.
Qed.

(** The calls of the manager's methods. *)
Inductive managerE : Type -> Type :=
| LookupProvider (name : string) : managerE (option Provider)
| StoreProvider (name : string) (p : Provider) : managerE unit
| OnRand {X : Type} (r : randE X) : managerE X
| TimeNow : managerE Z
| StorageSave (state nonce codeVerifier : string) (expiresAt : Z) : managerE (option error)
| StorageGet (state : string) : managerE (result StateData)
| StorageDelete (state : string) : managerE (option error)
| StorageCleanup : managerE (outcome unit)
| ProviderCallback (p : Provider) (code state nonce codeVerifier : string)
  : managerE (outcome (result (UserInfo * TokenSet)))
| InvokeHandler (provider : string) (u : UserInfo) (t : TokenSet)
  : managerE (outcome (result (option CallbackInfo))).

Definition on_rand {A} (p : prog randE A) : prog managerE A :=
  interp (fun X r => call (OnRand r)) p.

Definition RegisterProvider (p : Provider) : prog managerE unit :=
  call (StoreProvider (GetName p) p).

Definition GetProvider (providerName : string) : prog managerE (result Provider) :=
  let* p := call (LookupProvider providerName) in
  match p with
  | None => Ret (Err (Sentinel ErrProviderNotFound))
  | Some provider => Ret (Ok provider)
  end.

Definition GetAuthURL (timeout : Z) (providerName : string) : prog managerE (result string) :=
  let* p := call (LookupProvider providerName) in
  match p with
  | None => Ret (Err (Sentinel ErrProviderNotFound))
  | Some provider =>
      let* r := on_rand (GenerateRandomString 32) in
      match r with
      | Err err => Ret (Err (wrap "failed to generate state: " err))
      | Ok state =>
      let* r := on_rand (GenerateRandomString 32) in
      match r with
      | Err err => Ret (Err (wrap "failed to generate nonce: " err))
      | Ok nonce =>
      let* r := on_rand GenerateCodeVerifier in
      match r with
      | Err err => Ret (Err (wrap "failed to generate code verifier: " err))
      | Ok codeVerifier =>
      let codeChallenge := GenerateCodeChallenge codeVerifier in
      let* now := call TimeNow in
      let expiresAt := now + timeout in
      let* err := call (StorageSave state nonce codeVerifier expiresAt) in
      match err with
      | Some err => Ret (Err (wrap "failed to save state: " err))
      | None => Ret (Ok (AuthURL provider state nonce codeChallenge))
      end end end end
  end.

(** The part of [HandleCallback] under the deferred deletion. *)
Definition redeem (provider : Provider) (providerName code state : string) (sd : StateData)
  : prog managerE (outcome (result (option CallbackInfo))) :=
  let* out := call (ProviderCallback provider code state (Nonce sd) (CodeVerifier sd)) in
  match out with
  | Return (Err err) => Ret (Return (Err (wrap_sentinel ErrOAuth2Callback err)))
  | Return (Ok (userInfo, tokenSet)) =>
      let* out := call (InvokeHandler providerName userInfo tokenSet) in
      match out with
      | Return (Err err) => Ret (Return (Err (wrap "callback handler failed: " err)))
      | Return (Ok info) => Ret (Return (Ok info))
      | Panic v => Ret (Panic v)
      | OutOfFuel => Ret OutOfFuel
      end
  | Panic v => Ret (Panic v)
  | OutOfFuel => Ret OutOfFuel
  end.

Definition HandleCallback (providerName code state : string)
  : prog managerE (outcome (result (option CallbackInfo))) :=
  let* p := call (LookupProvider providerName) in
  match p with
  | None => Ret (Return (Err (Sentinel ErrProviderNotFound)))
  | Some provider =>
      let* r := call (StorageGet state) in
      match r with
      | Err err => Ret (Return (Err (wrap_sentinel ErrInvalidState err)))
      | Ok stateData =>
          let* out := redeem provider providerName code state stateData in
          (* deferred, its error is ignored *)
          call (StorageDelete state) ;;;
          Ret out
      end
  end.

Definition manager_Cleanup : prog managerE (outcome unit) := call StorageCleanup.

#[export] Instance UserInfo_eq_dec : EqDecision UserInfo.
Proof. solve_decision. Defined.
#[export] Instance TokenSet_eq_dec : EqDecision TokenSet.
Proof. solve_decision. Defined.

(** ** The contract of a callback

    [CStart], the provider [CFound], the state [CRedeemed] with its data, the
    user authenticated ([CAuth]), the result fixed with the state still to be
    deleted ([CEnd]), and [CDone]. *)

Inductive callback_state :=
| CStart
| CFound (p : Provider)
| CRedeemed (p : Provider) (sd : StateData)
| CAuth (u : UserInfo) (t : TokenSet)
| CEnd (out : outcome (result (option CallbackInfo)))
| CDone (out : outcome (result (option CallbackInfo))).

Definition callback_delta (providerName code state : string) (X : Type)
    (q : callback_state) (e : managerE X) : X -> option callback_state :=
  match e in managerE Y return Y -> option callback_state with
  | LookupProvider n => fun p =>
      if negb (String.eqb n providerName) then None else
      match q, p with
      | CStart, None => Some (CDone (Return (Err (Sentinel ErrProviderNotFound))))
      | CStart, Some p => Some (CFound p)
      | _, _ => None
      end
  | StorageGet st => fun r =>
      if negb (String.eqb st state) then None else
      match q, r with
      | CFound p, Err e => Some (CDone (Return (Err (wrap_sentinel ErrInvalidState e))))
      | CFound p, Ok sd => Some (CRedeemed p sd)
      | _, _ => None
      end
  | ProviderCallback p c st n v => fun out =>
      match q with
      | CRedeemed p' sd =>
          if bool_decide (GetName p = GetName p' /\ (c, st, n, v) = (code, state, Nonce sd, CodeVerifier sd))
          then Some (match out with
                     | Return (Ok (u, t)) => CAuth u t
                     | Return (Err e) => CEnd (Return (Err (wrap_sentinel ErrOAuth2Callback e)))
                     | Panic m => CEnd (Panic m)
                     | OutOfFuel => CEnd OutOfFuel
                     end)
          else None
      | _ => None
      end
  | InvokeHandler n u t => fun out =>
      match q with
      | CAuth u' t' =>
          if bool_decide ((n, u, t) = (providerName, u', t'))
          then Some (CEnd (match out with
                           | Return (Err e) => Return (Err (wrap "callback handler failed: " e))
                           | other => other
                           end))
          else None
      | _ => None
      end
  | StorageDelete st => fun _ =>
      match q with
      | CEnd out => if String.eqb st state then Some (CDone out) else None
      | _ => None
      end
  | StoreProvider _ _ => fun _ => None
  | OnRand _ => fun _ => None
  | TimeNow => fun _ => None
  | StorageSave _ _ _ _ => fun _ => None
  | StorageCleanup => fun _ => None
  end.

Definition callback_returns (q : callback_state)
    (out : outcome (result (option CallbackInfo))) : Prop := q = CDone out.

(** The state was accepted; the state was deleted; the provider was asked. *)
Definition is_redeem (o : obs managerE) : bool :=
  match o with
  | Obs e x =>
      match e in managerE Y return Y -> bool with
      | StorageGet _ => fun r => match r with Ok _ => true | Err _ => false end
      | _ => fun _ => false
      end x
  end.
Definition is_delete (o : obs managerE) : bool :=
  match o with Obs (StorageDelete _) _ => true | _ => false end.
Definition is_provider_call (o : obs managerE) : bool :=
  match o with Obs (ProviderCallback _ _ _ _ _) _ => true | _ => false end.

Definition redeemed (q : callback_state) : nat :=
  match q with CRedeemed _ _ | CAuth _ _ | CEnd _ => 1 | _ => 0 end.

Lemma HandleCallback_conforms providerName code state :
  conforms (callback_delta providerName code state) callback_returns CStart
    (HandleCallback providerName code state).
Proof.
  simpl. intros p. rewrite String.eqb_refl. simpl. destruct p as [p|]; [|done]. simpl.
  intros r. rewrite String.eqb_refl. simpl. destruct r as [sd|e]; [|done]. simpl.
  intros out. rewrite bool_decide_true by done.
  destruct out as [[[u t]|e]|m|]; simpl; try (intros _; by rewrite String.eqb_refl).
  intros out. rewrite bool_decide_true by done.
  destruct out as [[i|e]|m|]; simpl; intros _; by rewrite String.eqb_refl.
Qed.

Lemma callback_delta_counts pn c st X (e : managerE X) x q q' :
  callback_delta pn c st X q e x = Some q' ->
  ((if is_redeem (Obs e x) then 1 else 0) + redeemed q =
   (if is_delete (Obs e x) then 1 else 0) + redeemed q')%nat.
Proof.
  destruct q, e; simpl; intros; repeat (case_match; simplify_eq/=); simplify_eq/=; done.
Qed.

Lemma callback_after_counts pn c st q t q' :
  after (callback_delta pn c st) q t = Some q' ->
  (calls is_redeem t + redeemed q = calls is_delete t + redeemed q')%nat.
Proof.
  revert q. induction t as [|[X e x] t IH]; intros q; simpl.
  - by intros [= ->].
  - destruct (callback_delta pn c st X q e x) as [q1|] eqn:Hd; [|done].
    intros Ha%IH. apply callback_delta_counts in Hd. rewrite !calls_cons. lia.
Qed.

(** C11.  Whatever the storage, the provider and the application's handler
    do (errors and panics included), [HandleCallback] asks the provider only
    after the state was accepted, with exactly the nonce and the code
    verifier stored for it, invokes the application only with what that
    provider returned, deletes the state exactly once after accepting it, on
    every path, as its last call, and returns the error of the step that
    failed, wrapped as [ErrInvalidState], [ErrOAuth2Callback] or a handler
    failure. *)
Theorem HandleCallback_contract providerName code state t out :
  exec (HandleCallback providerName code state) t out ->
  after (callback_delta providerName code state) CStart t = Some (CDone out) /\
  calls is_redeem t = calls is_delete t.
Proof.
  intros Hx.
  destruct (conforms_exec _ _ _ _ _ _ (HandleCallback_conforms providerName code state) Hx)
    as (q & Hq & ->).
  split; [done|]. apply callback_after_counts in Hq. simpl in Hq. lia.
Qed.

(** ** The manager over the in-memory storage *)

(** What is outside the module: the random source, the clock, the providers'
    [HandleCallback] and the application's handler, over a state [W]. *)
Record external (W : Type) := External {
  x_rand : nat -> W -> result bytes * W;
  x_now : W -> Z * W;
  x_callback : Provider -> string -> string -> string -> string -> W ->
    outcome (result (UserInfo * TokenSet)) * W;
  x_handler : string -> UserInfo -> TokenSet -> W ->
    outcome (result (option CallbackInfo)) * W
}.
Arguments x_rand {W} _.
Arguments x_now {W} _.
Arguments x_callback {W} _.
Arguments x_handler {W} _.

Record mstate (W : Type) := MState {
  m_providers : gmap string Provider;
  m_storage : InMemoryStorage;
  m_world : W
}.
Arguments MState {W} _ _ _.
Arguments m_providers {W} _.
Arguments m_storage {W} _.
Arguments m_world {W} _.

Definition manager_env {W : Type} (x : external W) (X : Type) (e : managerE X)
    (s : mstate W) : X * mstate W :=
  let outside {Y : Type} (f : W -> Y * W) : Y * mstate W :=
    let '(y, w) := f (m_world s) in (y, MState (m_providers s) (m_storage s) w) in
  let storage {Y : Type} (f : InMemoryStorage -> Y * InMemoryStorage) : Y * mstate W :=
    let '(y, st) := f (m_storage s) in (y, MState (m_providers s) st (m_world s)) in
  match e in managerE Y return Y * mstate W with
  | LookupProvider n => (m_providers s !! n, s)
  | StoreProvider n p => (tt, MState (<[n := p]> (m_providers s)) (m_storage s) (m_world s))
  | OnRand r => match r in randE Y return Y * mstate W with
                | RandRead n => outside (x_rand x n)
                end
  | TimeNow => outside (x_now x)
  | StorageSave st n v ex => storage (SaveState st n v ex)
  | StorageGet st =>
      let '(now, w) := x_now x (m_world s) in
      let '(r, st') := GetStateData now st (m_storage s) in
      (r, MState (m_providers s) st' w)
  | StorageDelete st => storage (DeleteState st)
  | StorageCleanup => storage Cleanup
  | ProviderCallback p c st n v => outside (x_callback x p c st n v)
  | InvokeHandler n u t => outside (x_handler x n u t)
  end.

Section over_storage.
Context {W : Type} (x : external W).
Implicit Types s : mstate W.

Lemma GetStateData_absent now st s :
  data (m_storage s) !! st = None ->
  GetStateData now st (m_storage s) = (Err (Sentinel ErrStateNotFound), m_storage s).
Proof using. unfold GetStateData. by intros ->. Qed.

(** A callback with a state that the storage does not have. *)
Lemma HandleCallback_unknown_state pn code state s :
  is_Some (m_providers s !! pn) -> data (m_storage s) !! state = None ->
  runs (manager_env x) (HandleCallback pn code state) s (fun out s' t =>
    out = Return (Err (wrap_sentinel ErrInvalidState (Sentinel ErrStateNotFound))) /\
    calls is_provider_call t = 0%nat).
Proof using.
  intros [p Hp] Hst. apply runs_vis. intros p' s1 [= <- <-]. rewrite Hp.
  apply runs_vis. intros r s2 Hget. simpl in Hget.
  destruct (x_now x (m_world s)) as [now w]. rewrite GetStateData_absent in Hget by done.
  simplify_eq/=. by apply runs_ret.
Qed.

Lemma redeem_keeps_storage p pn code state sd s :
  runs (manager_env x) (redeem p pn code state sd) s (fun _ s' _ =>
    m_storage s' = m_storage s /\ m_providers s' = m_providers s).
Proof using.
  apply runs_vis. intros out s1 H1. simpl in H1.
  destruct (x_callback x p code state (Nonce sd) (CodeVerifier sd) (m_world s)) as [out' w'].
  simplify_eq/=. destruct out as [[[u t]|e]|m|]; try by apply runs_ret.
  apply runs_vis. intros out s2 H2. simpl in H2.
  destruct (x_handler x pn u t w') as [out' w'']. simplify_eq/=.
  destruct out as [[i|e]|m|]; by apply runs_ret.
Qed.

#[local] Opaque redeem.

(** After a callback, the state it named is not in the storage. *)
Lemma HandleCallback_consumes pn code state s :
  is_Some (m_providers s !! pn) ->
  runs (manager_env x) (HandleCallback pn code state) s (fun _ s' _ =>
    data (m_storage s') !! state = None /\ m_providers s' = m_providers s).
Proof using.
  intros [p Hp]. apply runs_vis. intros p' s1 [= <- <-]. rewrite Hp.
  apply runs_vis. intros r s2 Hget. simpl in Hget.
  destruct (x_now x (m_world s)) as [now w]. unfold GetStateData in Hget.
  destruct (data (m_storage s) !! state) as [d|] eqn:Hd.
  - destruct (After now (ExpiresAt d)); simplify_eq/=.
    + apply runs_ret. simpl. split; [apply lookup_delete_eq|done].
    + apply runs_bind. eapply runs_mono, redeem_keeps_storage.
      intros out s3 t [Hs3 Hp3]. simpl in *.
      apply runs_vis. intros err s4 [= <- <-]. apply runs_ret. simpl.
      rewrite Hs3, Hp3. split; [apply lookup_delete_eq|done].
  - simplify_eq/=. by apply runs_ret.
Qed.

(** C12.  A state is usable once: after a callback that named a registered
    provider, whatever its outcome (success, a provider error, a failed or
    panicking application handler, an expired or unknown state), a later
    callback with the same state is refused with [ErrInvalidState] and no
    provider is asked. *)
Theorem state_single_use pn1 code1 pn2 code2 state s :
  is_Some (m_providers s !! pn1) -> is_Some (m_providers s !! pn2) ->
  runs (manager_env x) (HandleCallback pn1 code1 state) s (fun _ s' _ =>
    runs (manager_env x) (HandleCallback pn2 code2 state) s' (fun out2 _ t2 =>
      (exists e, out2 = Return (Err e) /\ errors_Is e ErrInvalidState = true) /\
      calls is_provider_call t2 = 0%nat)).
Proof using.
  intros H1 H2. eapply runs_mono, HandleCallback_consumes; [|done].
  intros out s' t [Hd Hp]. simpl in *.
  eapply runs_mono, HandleCallback_unknown_state; [|by rewrite Hp|done].
  intros out2 s'' t2 [-> Hc]. eauto.
Qed.

(** The provider of that name was asked with these arguments. *)
Definition asks (name code state nonce verifier : string) (o : obs managerE) : bool :=
  match o with
  | Obs (ProviderCallback p c st n v) _ =>
      bool_decide ((GetName p, c, st, n, v) = (name, code, state, nonce, verifier))
  | _ => false
  end.

(** The bytes read from the random source. *)
Definition random_bytes (o : obs managerE) : option (nat * bytes) :=
  match o with
  | Obs e x =>
      match e in managerE Y return Y -> option (nat * bytes) with
      | OnRand r =>
          match r in randE Y return Y -> option (nat * bytes) with
          | RandRead n => fun a => match a with Ok bs => Some (n, bs) | Err _ => None end
          end
      | _ => fun _ => None
      end x
  end.

Lemma GetAuthURL_runs timeout pn s :
  runs (manager_env x) (GetAuthURL timeout pn) s (fun r s1 t =>
    forall url, r = Ok url ->
    exists p b1 b2 b3 w,
      m_providers s !! pn = Some p /\
      omap random_bytes t = [(32, b1); (32, b2); (32, b3)]%nat /\
      url = AuthURL p (hex_EncodeToString b1) (hex_EncodeToString b2)
              (GenerateCodeChallenge (base64URLEncode b3)) /\
      data (m_storage s1) =
        <[hex_EncodeToString b1 :=
            MkStateData (hex_EncodeToString b2) (base64URLEncode b3) ((x_now x w).1 + timeout)]>
          (data (m_storage s)) /\
      m_providers s1 = m_providers s).
Proof using.
  apply runs_vis. intros p' s0 [= <- <-].
  destruct (m_providers s !! pn) as [p|] eqn:Hp; [|by apply runs_ret].
  apply runs_vis. intros r1 s1 H1. simpl in H1.
  destruct (x_rand x 32 (m_world s)) as [r1' w1]. simplify_eq/=.
  destruct r1 as [b1|e]; [|by apply runs_ret].
  apply runs_vis. intros r2 s2 H2. simpl in H2.
  destruct (x_rand x 32 w1) as [r2' w2]. simplify_eq/=.
  destruct r2 as [b2|e]; [|by apply runs_ret].
  apply runs_vis. intros r3 s3 H3. simpl in H3.
  destruct (x_rand x 32 w2) as [r3' w3]. simplify_eq/=.
  destruct r3 as [b3|e]; [|by apply runs_ret].
  apply runs_vis. intros now s4 H4. simpl in H4.
  destruct (x_now x w3) as [now' w4] eqn:Hnow. simplify_eq/=.
  apply runs_vis. intros err s5 [= <- <-].
  apply runs_ret. intros url [= <-]. exists p, b1, b2, b3, w3. rewrite Hnow. auto.
Qed.

(** The callback of a state that the storage holds and that has not expired. *)
Lemma HandleCallback_valid pn p code state sd s :
  m_providers s !! pn = Some p -> data (m_storage s) !! state = Some sd ->
  After (x_now x (m_world s)).1 (ExpiresAt sd) = false ->
  runs (manager_env x) (HandleCallback pn code state) s (fun out _ t =>
    calls is_provider_call t = 1%nat /\
    calls (asks (GetName p) code state (Nonce sd) (CodeVerifier sd)) t = 1%nat).
Proof using.
  intros Hp Hst Hexp. apply runs_vis. intros p' s1 [= <- <-]. rewrite Hp.
  apply runs_vis. intros r s2 Hget. simpl in Hget.
  destruct (x_now x (m_world s)) as [now w]. unfold GetStateData in Hget.
  rewrite Hst in Hget. simpl in Hexp. rewrite Hexp in Hget. simplify_eq/=.
  apply runs_bind. Transparent redeem. apply runs_vis. intros out s3 _.
  assert (Hask : forall o : outcome (result (UserInfo * TokenSet)),
    asks (GetName p) code state (Nonce sd) (CodeVerifier sd)
      (Obs (ProviderCallback p code state (Nonce sd) (CodeVerifier sd)) o) = true).
  { intros o. apply bool_decide_true. done. }
  destruct out as [[[u t]|e]|m|];
    [apply runs_vis; intros out s4 _; destruct out as [[i|e]|m|]|..];
    apply runs_ret, runs_vis; intros err s5 _; apply runs_ret;
    cbn [app]; rewrite !calls_cons, Hask; auto.
Qed.

(** C13.  From the URL to the callback: when [GetAuthURL] succeeds, it has read
    the random source exactly three times, 32 bytes each, and the URL carries
    the first 32 bytes in hexadecimal as the state, the second in hexadecimal
    as the nonce, and the S256 challenge of the code verifier, which is the
    base64url encoding of the third; and a callback with that state that
    arrives while the storage still has it and within the timeout asks that
    provider exactly once, with that nonce and that verifier. *)
Theorem auth_url_then_callback timeout pn code s :
  runs (manager_env x) (GetAuthURL timeout pn) s (fun r s1 t1 =>
    forall url, r = Ok url ->
    exists p b1 b2 b3 w,
      let state := hex_EncodeToString b1 in
      let nonce := hex_EncodeToString b2 in
      let verifier := base64URLEncode b3 in
      m_providers s !! pn = Some p /\
      omap random_bytes t1 = [(32, b1); (32, b2); (32, b3)]%nat /\
      url = AuthURL p state nonce (GenerateCodeChallenge verifier) /\
      forall s2, data (m_storage s2) !! state = data (m_storage s1) !! state ->
        m_providers s2 = m_providers s1 ->
        (x_now x (m_world s2)).1 <= (x_now x w).1 + timeout ->
        runs (manager_env x) (HandleCallback pn code state) s2 (fun _ _ t =>
          calls is_provider_call t = 1%nat /\
          calls (asks (GetName p) code state nonce verifier) t = 1%nat)).
Proof using.
  eapply runs_mono, GetAuthURL_runs. intros r s1 t0 H url Hr.
  destruct (H url Hr) as (p & b1 & b2 & b3 & w & Hp & Hb & -> & Hd & Hps).
  exists p, b1, b2, b3, w. split_and!; [done|done|done|]. intros s2 Hs2 Hp2 Hnow.
  rewrite Hd, lookup_insert_eq in Hs2.
  eapply runs_mono, HandleCallback_valid; [|by rewrite Hp2, Hps|done|].
  - intros out s3 t Ht. exact Ht.
  - unfold After. apply Z.ltb_ge. done.
Qed.
End over_storage.

(** ** Concurrent requests

    Requests run on their own goroutines over the shared providers and
    storage; each storage method is atomic under its mutex. *)

Definition example_provider : Provider :=
  MkProvider "google" (fun state nonce challenge =>
    "https://idp/auth?state=" +:+ state +:+ "&nonce=" +:+ nonce +:+ "&code_challenge=" +:+ challenge)
    (existT unit tt).

Definition example_external : external Z :=
  External Z
    (fun n w => (Ok (replicate n Byte.x07), w))
    (fun w => (w, w + 1))
    (fun p code state nonce verifier w =>
       (Return (Ok (MkUserInfo "u1" "e" "n" (GetName p) w,
                    MkTokenSet "at" "Bearer" "" "" (w + Minute))), w))
    (fun n u t w => (Return (Ok (Some (MkCallbackInfo "sid" (ui_ID u) "s1" 3600))), w)).

(** A storage with one state that expires at the instant 100. *)
Definition example_mstate : mstate Z :=
  MState {["google" := example_provider]}
    (MkStorage {["st" := MkStateData "nonce" "verifier" 100]} false false) 0.

Lemma HandleCallback_contract_witness :
  exists t out,
    exec (HandleCallback "google" "code" "st") t out /\
    out = Return (Ok (Some (MkCallbackInfo "sid" "u1" "s1" 3600))) /\
    after (callback_delta "google" "code" "st") CStart t = Some (CDone out) /\
    calls is_delete t = 1%nat.
Proof.
  pose (p := HandleCallback "google" "code" "st").
  pose proof (run_exec (manager_env example_external) p example_mstate) as H.
  destruct (HandleCallback_contract _ _ _ _ _ H) as [Ha _].
  exists (run_trace (manager_env example_external) p example_mstate),
         (run_result (manager_env example_external) p example_mstate).
  split; [exact H|]. split; [reflexivity|]. split; [exact Ha|]. vm_compute. reflexivity.
Defined.

Lemma state_single_use_witness :
  is_Some (m_providers example_mstate !! "google") /\
  runs (manager_env example_external) (HandleCallback "google" "c1" "st") example_mstate
    (fun _ s' _ =>
      runs (manager_env example_external) (HandleCallback "google" "c2" "st") s'
        (fun out2 _ t2 =>
          (exists e, out2 = Return (Err e) /\ errors_Is e ErrInvalidState = true) /\
          calls is_provider_call t2 = 0%nat)).
Proof.
  assert (H : is_Some (m_providers example_mstate !! "google")) by (vm_compute; eauto).
  split; [exact H|].
  exact (state_single_use example_external "google" "c1" "google" "c2" "st" example_mstate H H).
Defined.

(** Two callbacks with one state on two goroutines: both look it up before
    either deletes it. *)
Definition replay_reached :=
  run_sched (manager_env example_external) (fun (_ : unit) s => s)
    [inl 0; inl 1; inl 0; inl 1; inl 0; inl 1]%nat
    (Config [HandleCallback "google" "c1" "st"; HandleCallback "google" "c2" "st"]
       example_mstate []).

(** C14.  Single use does not extend to concurrent callbacks: between the
    lookup of a state and its deferred deletion lies the provider's code
    exchange, and two callbacks with the same state that overlap there are
    both accepted and both ask the provider. *)
Theorem concurrent_callbacks_replay :
  exists c,
    rtc (pool_step (fun_answer (manager_env example_external)) (fun_env (fun (_ : unit) s => s)))
      (Config [HandleCallback "google" "c1" "st"; HandleCallback "google" "c2" "st"]
         example_mstate []) c /\
    calls is_redeem (map snd (history c)) = 2%nat /\
    calls is_provider_call (map snd (history c)) = 2%nat.
Proof.
  exists replay_reached. split; [apply run_sched_reach|]. vm_compute. auto.
Qed.

(** The requests a server makes of the manager. *)
Inductive request :=
| ReqAuth (timeout : Z) (providerName : string)
| ReqCallback (providerName code state : string)
| ReqRegister (p : Provider)
| ReqProvider (providerName : string).

Definition request_prog (r : request) : prog managerE unit :=
  match r with
  | ReqAuth timeout pn => GetAuthURL timeout pn ;;; Ret tt
  | ReqCallback pn code state => HandleCallback pn code state ;;; Ret tt
  | ReqRegister p => RegisterProvider p
  | ReqProvider pn => GetProvider pn ;;; Ret tt
  end.

Definition may_save (r : request) : bool :=
  match r with ReqAuth _ _ => true | _ => false end.

(** What a request may do: only some save a state, and a provider is asked
    only with the nonce and the verifier that the storage has just answered
    for the state.  The protocol's state is whether it may save, and the
    state that was answered. *)
Definition request_delta (X : Type) (q : bool * option (string * StateData)) (e : managerE X)
  : X -> option (bool * option (string * StateData)) :=
  match e in managerE Y return Y -> option (bool * option (string * StateData)) with
  | StorageSave _ _ _ _ => fun _ => if q.1 then Some q else None
  | StorageGet st => fun r =>
      Some (q.1, match r with Ok sd => Some (st, sd) | Err _ => None end)
  | ProviderCallback _ _ st n v => fun _ =>
      match q.2 with
      | Some (st', sd) => if bool_decide ((st, n, v) = (st', Nonce sd, CodeVerifier sd))
                          then Some q else None
      | None => None
      end
  | _ => fun _ => Some q
  end.

Lemma request_conforms r :
  conforms request_delta (fun _ _ => True) (may_save r, None) (request_prog r).
Proof.
  destruct r as [timeout pn|pn code state|p|pn]; simpl.
  - intros [p|]; [|done]. simpl. do 3 (intros [?|?]; [|done]; simpl). intros now [err|]; done.
  - intros [p|]; [|done]. simpl. intros [sd|e]; [|done]. simpl.
    intros out. rewrite bool_decide_true by done.
    destruct out as [[[u t]|e]|m|]; simpl; try done. by intros [[i|e]|m|].
  - done.
  - by intros [p|].
Qed.

(** Between calls the world moves on and the background goroutine sweeps. *)
Inductive background {W} : mstate W -> mstate W -> Prop :=
| bg_world s w : background s (MState (m_providers s) (m_storage s) w)
| bg_sweep s now order :
    background s (MState (m_providers s) (removeExpired now order (m_storage s)) (m_world s)).

Definition saved_by (o : obs managerE) : option (string * StateData) :=
  match o with
  | Obs (StorageSave st n v e) _ => Some (st, MkStateData n v e)
  | _ => None
  end.

(** The storage accepted a state, or a provider was asked about it: the state
    with the nonce and the verifier used. *)
Definition used_by (o : obs managerE) : option (string * string * string) :=
  match o with
  | Obs e x =>
      match e in managerE Y return Y -> option (string * string * string) with
      | StorageGet st => fun r =>
          match r with Ok sd => Some (st, Nonce sd, CodeVerifier sd) | Err _ => None end
      | ProviderCallback _ _ st n v => fun _ => Some (st, n, v)
      | _ => fun _ => None
      end x
  end.

(** The state was saved with its data, by a request that may. *)
Definition issued (qs : list (bool * option (string * StateData)))
    (h : list (nat * obs managerE)) (k : string) (sd : StateData) : Prop :=
  exists i o q, (i, o) ∈ h /\ saved_by o = Some (k, sd) /\ qs !! i = Some q /\ q.1 = true.

Definition csrf_inv {W} (s : mstate W) (h : list (nat * obs managerE))
    (qs : list (bool * option (string * StateData))) : Prop :=
  (forall k d, data (m_storage s) !! k = Some d -> issued qs h k d) /\
  (forall i b k d, qs !! i = Some (b, Some (k, d)) -> issued qs h k d) /\
  (forall h1 io h2 k n v, h = h1 ++ io :: h2 -> used_by io.2 = Some (k, n, v) ->
     exists d, issued qs h1 k d /\ Nonce d = n /\ CodeVerifier d = v).

Lemma issued_snoc qs h io k d : issued qs h k d -> issued qs (h ++ [io]) k d.
Proof. intros (i & o & q & Hin & Ho). exists i, o, q. rewrite elem_of_app. auto. Qed.

(** A request keeps its right to save. *)
Lemma issued_insert qs h k d i q q' :
  qs !! i = Some q -> q'.1 = q.1 -> issued qs h k d -> issued (<[i := q']> qs) h k d.
Proof.
  intros Hi Hq (j & o & qj & Hin & Ho & Hj & Hb). destruct (decide (i = j)) as [<-|Hne].
  - exists i, o, q'. rewrite list_lookup_insert_eq by eauto using lookup_lt_Some.
    split_and!; [done|done|done|congruence].
  - exists j, o, qj. by rewrite list_lookup_insert_ne.
Qed.

(** What one call does to the stored entries. *)
Lemma manager_env_data {W} (x : external W) X (e : managerE X) s a s' k d :
  manager_env x X e s = (a, s') -> data (m_storage s') !! k = Some d ->
  data (m_storage s) !! k = Some d \/ saved_by (Obs e a) = Some (k, d).
Proof.
  destruct e as [n|n p|Y []| |st n v ex|st|st| |p c st n v|n u t]; simpl; intros He;
    repeat case_match; simplify_eq/=; auto.
  - destruct (decide (st = k)) as [->|].
    + rewrite lookup_insert_eq. intros [= <-]. auto.
    + rewrite lookup_insert_ne by done. auto.
  - unfold GetStateData in *. repeat case_match; simplify_eq/=; auto.
    intros [_ ?]%lookup_delete_Some. auto.
  - intros [_ ?]%lookup_delete_Some. auto.
  - unfold Cleanup in *. repeat case_match; simplify_eq/=; auto.
Qed.

Lemma request_delta_right X q (e : managerE X) a q' :
  request_delta X q e a = Some q' -> q'.1 = q.1.
Proof. destruct e; simpl; intros; repeat case_match; by simplify_eq. Qed.

(** What the storage accepts, or a provider is asked with, is in the storage
    or was answered by it before. *)
Lemma used_stored {W} (x : external W) X (e : managerE X) s a s' q q' k n v :
  manager_env x X e s = (a, s') -> request_delta X q e a = Some q' ->
  used_by (Obs e a) = Some (k, n, v) ->
  exists d, Nonce d = n /\ CodeVerifier d = v /\
    (data (m_storage s) !! k = Some d \/ q.2 = Some (k, d)).
Proof.
  destruct e; simpl; try done.
  - intros He _ Hu. destruct a as [d|]; [|done]. simplify_eq. exists d. split_and!; [done..|left].
    destruct (x_now x (m_world s)) as [now w]. unfold GetStateData in He.
    repeat case_match; simplify_eq/=; done.
  - intros _ Hd [= -> -> ->]. destruct q as [b [[k' d]|]]; simpl in Hd; [|done].
    case_bool_decide as Heq; [|done]. simplify_eq. exists d. auto.
Qed.

(** What a request has been answered. *)
Lemma answered_stored {W} (x : external W) X (e : managerE X) s a s' q q' k d :
  manager_env x X e s = (a, s') -> request_delta X q e a = Some q' ->
  q'.2 = Some (k, d) -> data (m_storage s) !! k = Some d \/ q.2 = Some (k, d).
Proof.
  destruct e; simpl; intros He Hd Hk; try (right; repeat case_match; by simplify_eq).
  left. destruct a as [sd|]; simplify_eq/=.
  destruct (x_now x (m_world s)) as [now w]. unfold GetStateData in He.
  repeat case_match; simplify_eq/=; done.
Qed.

Lemma csrf_call {W} (x : external W) X i (e : managerE X) a s s' h
    (qs : list (bool * option (string * StateData))) q q' :
  csrf_inv s h qs -> qs !! i = Some q -> request_delta X q e a = Some q' ->
  fun_answer (manager_env x) X i e s a s' ->
  csrf_inv s' (h ++ [(i, Obs e a)]) (<[i := q']> qs).
Proof.
  intros (Hst & Hans & Huse) Hi Hd Ha. unfold fun_answer in Ha.
  pose proof (request_delta_right _ _ _ _ _ Hd) as Hright.
  assert (Hold : forall k d, issued qs h k d ->
    issued (<[i := q']> qs) (h ++ [(i, Obs e a)]) k d).
  { intros k d Hk. eapply issued_snoc, issued_insert; eauto. }
  assert (Hor : forall k d, data (m_storage s) !! k = Some d \/ q.2 = Some (k, d) -> issued qs h k d).
  { intros k d [Hk|Hk]; [by apply Hst|]. destruct q as [b o]. simpl in Hk. subst o. by eapply Hans. }
  split_and!.
  - intros k d Hk. destruct (manager_env_data _ _ _ _ _ _ _ _ Ha Hk) as [Hk'|Hnew]; [by auto|].
    exists i, (Obs e a), q'. rewrite list_lookup_insert_eq by eauto using lookup_lt_Some.
    split_and!; [|done|done|].
    + apply elem_of_app. right. by apply list_elem_of_singleton.
    + rewrite Hright. destruct e; simpl in *; try done. by destruct q as [[] ?].
  - intros j b k d. rewrite list_lookup_insert_Some.
    intros [(-> & -> & _)|(_ & Hj)]; [|by eauto].
    apply Hold, Hor. by apply (answered_stored x X e s a s' q (b, Some (k, d))).
  - intros h1 io h2 k n v Heq Hu. destruct h2 as [|io' h2' _] using rev_ind.
    + apply app_inj_tail in Heq as [-> <-].
      destruct (used_stored _ _ _ _ _ _ _ _ _ _ _ Ha Hd Hu) as (d & Hn & Hv & Hsrc).
      exists d. split; [|done]. eapply issued_insert; eauto.
    + rewrite app_comm_cons, app_assoc in Heq. apply app_inj_tail in Heq as [-> _].
      destruct (Huse h1 io h2' k n v eq_refl Hu) as (d & Hd' & Hnv).
      exists d. split; [|done]. by eapply issued_insert.
Qed.

Lemma csrf_background {W} (s s' : mstate W) h qs :
  csrf_inv s h qs -> background s s' -> csrf_inv s' h qs.
Proof.
  intros (Hst & Hans & Huse) Hb. split_and!; [|done|done].
  destruct Hb as [s w|s now order]; simpl; [done|].
  intros k d. rewrite sweep_lookup. unfold prune. intros Hk. apply Hst.
  repeat case_match; congruence.
Qed.

(** C15.  No callback is accepted for a state that was not issued: in every
    interleaving of any requests to a fresh manager with sweeps and the
    passing of time, whenever the storage accepts a state for a callback, and
    whenever a provider is asked to redeem a code, the state, the nonce and the
    code verifier used were saved together before, by a request for an
    authorization URL. *)
Theorem redeemed_states_were_issued {W} (x : external W) reqs ps w c h1 i o h2 state nonce verifier :
  rtc (pool_step (fun_answer (manager_env x)) background)
    (Config (request_prog <$> reqs) (MState ps NewInMemoryStorage w) []) c ->
  history c = h1 ++ (i, o) :: h2 -> used_by o = Some (state, nonce, verifier) ->
  exists j o' timeout pn expires, (j, o') ∈ h1 /\
    saved_by o' = Some (state, MkStateData nonce verifier expires) /\
    reqs !! j = Some (ReqAuth timeout pn).
Proof.
  intros Hr Hh Ho.
  destruct (pool_invariant (A := unit) (fun_answer (manager_env x)) background request_delta
    (fun _ _ => True) (fun s h qs => csrf_inv s h qs /\ qs.*1 = may_save <$> reqs))
    with (c := Config (request_prog <$> reqs) (MState ps NewInMemoryStorage w) []) (c' := c)
    as (qs & _ & (_ & _ & Huse) & Hqs); [..|done|].
  - intros X i' e a s s' h qs q q' [Hc Hqs] Hi Hd Ha. split; [by eapply csrf_call|].
    rewrite list_fmap_insert, <- Hqs. apply list_insert_id.
    rewrite list_lookup_fmap, Hi. simpl. by rewrite (request_delta_right _ _ _ _ _ Hd).
  - intros s s' h qs [Hc Hqs] Hb. split; [by eapply csrf_background|done].
  - exists ((fun r => (may_save r, None)) <$> reqs). split; [|split].
    + simpl. apply Forall2_fmap, Forall_Forall2_diag, Forall_forall.
      intros r _. apply request_conforms.
    + split_and!; simpl.
      * intros k d Hk. by rewrite lookup_empty in Hk.
      * intros j b k d. rewrite list_lookup_fmap. by destruct (reqs !! j).
      * intros [|? ?]; done.
    + by rewrite <- list_fmap_compose.
  - destruct (Huse h1 (i, o) h2 _ _ _ Hh Ho) as ([n v ex] & (j & o' & q & Hin & Hs & Hj & Hb) & <- & <-).
    apply (f_equal (lookup j)) in Hqs. rewrite !list_lookup_fmap, Hj in Hqs. simpl in Hqs.
    destruct (reqs !! j) as [r|] eqn:Hr'; [|done]. simpl in Hqs. injection Hqs as Hsave.
    rewrite Hb in Hsave. destruct r as [timeout pn| | |]; try done.
    exists j, o', timeout, pn, ex. auto.
Qed.

Definition issue_redeem_reqs : list request :=
  [ReqAuth Minute "google";
   ReqCallback "google" "code" (hex_EncodeToString (replicate 32 Byte.x07))].

Definition issue_redeem_start : config managerE (mstate Z) unit :=
  Config (request_prog <$> issue_redeem_reqs)
    (MState {["google" := example_provider]} NewInMemoryStorage 0) [].

Definition issue_redeem_reached :=
  run_sched (manager_env example_external) (fun (_ : unit) s => s)
    [inl 0; inl 0; inl 0; inl 0; inl 0; inl 0; inl 1; inl 1; inl 1]%nat issue_redeem_start.

Lemma redeemed_states_were_issued_witness :
  let state := hex_EncodeToString (replicate 32 Byte.x07) in
  let verifier := base64URLEncode (replicate 32 Byte.x07) in
  exists h1 o, history issue_redeem_reached = h1 ++ [(1%nat, o)] /\
    is_provider_call o = true /\ used_by o = Some (state, state, verifier) /\
    exists j o' timeout pn expires, (j, o') ∈ h1 /\
      saved_by o' = Some (state, MkStateData state verifier expires) /\
      issue_redeem_reqs !! j = Some (ReqAuth timeout pn).
Proof.
  intros state verifier.
  pose (o := Obs (ProviderCallback example_provider "code" state state verifier)
    (Return (Ok (MkUserInfo "u1" "e" "n" "google" 2, MkTokenSet "at" "Bearer" "" "" (2 + Minute))))).
  exists (take 8 (history issue_redeem_reached)), o.
  assert (Hh : history issue_redeem_reached =
    take 8 (history issue_redeem_reached) ++ [(1%nat, o)]).
  { vm_compute. reflexivity. }
  split; [exact Hh|]. split; [reflexivity|]. split; [reflexivity|].
  refine (redeemed_states_were_issued example_external issue_redeem_reqs
    {["google" := example_provider]} 0 issue_redeem_reached _ 1 o [] state state verifier _ Hh eq_refl).
  eapply pool_step_mono; [| |apply run_sched_reach].
  - intros X i e s a s' H. exact H.
  - intros s s' [d ->]. destruct s as [ps st w].
    exact (bg_world (MState ps st w) w).
Defined.
