(* ===== verification/OAuthHandler.v ===== *)
(** * OAuthHandler: the HTTP callback handler

    Models [oauth2/handler.go].  The manager (an interface there) is a call,
    and so is what the handler asks of gin: the JSON response, the SameSite
    mode and the cookie.  The query parameters are arguments. *)

From stdpp Require Import base gmap strings list.
From Stdlib Require Import ZArith Lia.
From S2P Require Import Prelude Effects Encoding OAuthUtils OAuthState OAuthManager.

Open Scope Z_scope.
Open Scope go_scope.

Record HandlerConfig := MkHandlerConfig {
  SecureCookies : bool;
  CookieDomain : string;
  CookiePath : string;
  RequestTimeout : Z
}.

Definition DefaultHandlerConfig : HandlerConfig :=
  MkHandlerConfig true "" "/" (30 * Second).

Definition StatusOK : Z := 200.
Definition StatusBadRequest : Z := 400.
Definition StatusUnauthorized : Z := 401.
Definition StatusInternalServerError : Z := 500.

Inductive SameSite := SameSiteDefaultMode | SameSiteLaxMode | SameSiteStrictMode | SameSiteNoneMode.

(** The calls: [manager.HandleCallback] under a context with the given
    timeout, and gin's [JSON], [SetSameSite] and [SetCookie]. *)
Inductive handlerE : Type -> Type :=
| ManagerCallback (timeout : Z) (provider code state : string)
  : handlerE (outcome (result (option CallbackInfo)))
| JSON (status : Z) (body : list (string * string)) : handlerE unit
| SetSameSite (mode : SameSite) : handlerE unit
| SetCookie (name value : string) (maxAge : Z) (path domain : string)
    (secure httpOnly : bool) : handlerE unit.

(** The [switch] on the error. *)
Definition error_status (err : error) : Z * string :=
  if errors_Is err ErrProviderNotFound then (StatusBadRequest, "provider not found")
  else if errors_Is err ErrInvalidState || errors_Is err ErrStateNotFound
          || errors_Is err ErrStateExpired
       then (StatusUnauthorized, "invalid or expired state")
  else if errors_Is err ErrOAuth2Callback then (StatusUnauthorized, "oauth2 callback failed")
  else (StatusInternalServerError, "authentication failed").

Definition GoogleCallbackHandler (config : option HandlerConfig) (code state : string)
  : prog handlerE (outcome unit) :=
  let config := match config with Some c => c | None => DefaultHandlerConfig end in
  if String.eqb code "" || String.eqb state "" then
    call (JSON StatusBadRequest [("error", "missing code or state parameter")]) ;;;
    Ret (Return tt)
  else
    let* out := call (ManagerCallback (RequestTimeout config) "google" code state) in
    match out with
    | Return (Err err) =>
        let '(status, errMsg) := error_status err in
        call (JSON status [("error", errMsg)]) ;;;
        Ret (Return tt)
    | Return (Ok (Some info)) =>
        call (SetSameSite SameSiteStrictMode) ;;;
        call (SetCookie (SessionCookieName info) (SessionID info) (CookieMaxAge info)
                (CookiePath config) (CookieDomain config) (SecureCookies config) true) ;;;
        call (JSON StatusOK [("status", "authenticated"); ("user_id", UserID info)]) ;;;
        Ret (Return tt)
    | Return (Ok None) => call (SetSameSite SameSiteStrictMode) ;;;
                          Ret (Panic "nil pointer dereference")
    | Panic v => Ret (Panic v)
    | OutOfFuel => Ret OutOfFuel
    end.

(** ** What reaches the browser *)

(** The protocol of responses: [RStart]; [RAsked info] after the manager
    accepted the callback; [RStrict] once SameSite is strict; [RCookie] once
    the session cookie is set; [RSent] after the one JSON response. *)
Inductive response_state :=
| RStart
| RAsked (info : option CallbackInfo)
| RStrict (info : CallbackInfo)
| RCookie (info : CallbackInfo)
| RSent (status : Z)
| RFailed (err : error)
| RBroken.

Definition response_delta (config : HandlerConfig) (code state : string) (X : Type)
    (q : response_state) (e : handlerE X) : X -> option response_state :=
  match e in handlerE Y return Y -> option response_state with
  | ManagerCallback d n c st => fun out =>
      match q with
      | RStart =>
          if bool_decide ((d, n, c, st) = (RequestTimeout config, "google", code, state) /\
                          code <> "" /\ state <> "")
          then Some (match out with
                     | Return (Ok info) => RAsked info
                     | Return (Err e) => RFailed e
                     | _ => RBroken
                     end)
          else None
      | _ => None
      end
  | SetSameSite m => fun _ =>
      match q, m with
      | RAsked (Some info), SameSiteStrictMode => Some (RStrict info)
      | RAsked None, SameSiteStrictMode => Some RBroken
      | _, _ => None
      end
  | SetCookie name value maxAge path domain secure httpOnly => fun _ =>
      match q with
      | RStrict info =>
          if bool_decide ((name, value, maxAge, path, domain, secure, httpOnly) =
               (SessionCookieName info, SessionID info, CookieMaxAge info,
                CookiePath config, CookieDomain config, SecureCookies config, true))
          then Some (RCookie info) else None
      | _ => None
      end
  | JSON status body => fun _ =>
      match q with
      | RStart => if bool_decide (status = 400 /\ (code = "" \/ state = "")) then Some (RSent status) else None
      | RCookie info =>
          if bool_decide (status = 200 /\ ("user_id", UserID info) ∈ body) then Some (RSent status) else None
      | RFailed err => if bool_decide (status = (error_status err).1 /\ 400 <= status) then Some (RSent status) else None
      | _ => None
      end
  end.

Definition responds (q : response_state) (out : outcome unit) : Prop :=
  match out with
  | Return _ => exists status, q = RSent status
  | _ => q = RBroken
  end.

Lemma error_status_client err : 400 <= (error_status err).1.
Proof.
  unfold error_status, StatusBadRequest, StatusUnauthorized, StatusInternalServerError.
  repeat case_match; simpl; lia.
Qed.

Definition effective (config : option HandlerConfig) : HandlerConfig :=
  match config with Some c => c | None => DefaultHandlerConfig end.

Lemma handler_conforms config code state :
  conforms (response_delta (effective config) code state) responds RStart
    (GoogleCallbackHandler config code state).
Proof.
  unfold GoogleCallbackHandler. fold (effective config).
  destruct (String.eqb_spec code "") as [Hc|Hc]; simpl.
  { intros _. rewrite bool_decide_true by auto. simpl. eauto. }
  destruct (String.eqb_spec state "") as [Hs|Hs]; simpl.
  { intros _. rewrite bool_decide_true by auto. simpl. eauto. }
  intros out. rewrite bool_decide_true by done.
  destruct out as [[[info|]|err]|v|]; simpl; try done.
  - intros _ _. rewrite bool_decide_true by done. simpl. intros _.
    rewrite bool_decide_true; [simpl; eauto|]. split; [done|].
    apply elem_of_cons. right. apply elem_of_cons. auto.
  - pose proof (error_status_client err) as H. destruct (error_status err) as [status msg] eqn:E.
    simpl in *. intros _. rewrite bool_decide_true by (rewrite E; auto). simpl. eauto.
Qed.

(** C16.  Whatever the manager answers, the handler sends at most one JSON
    response, and a session cookie only after the manager accepted the
    callback for this very code and state (both non-empty): the cookie
    carries the session of that answer, is always HttpOnly, follows a strict
    SameSite mode, has the configured Secure flag, and is followed by status
    200 with that user's id; every failure gets a 4xx or 5xx status and no
    cookie.  (The one panic is a nil answer of the application's handler.) *)
Theorem callback_response_contract config code state t out :
  exec (GoogleCallbackHandler config code state) t out ->
  exists q, after (response_delta (effective config) code state) RStart t = Some q /\
            responds q out.
Proof. apply conforms_exec, handler_conforms. Qed.

Lemma callback_response_contract_witness :
  let info := MkCallbackInfo "sid" "u1" "s1" 3600 in
  let t := [Obs (ManagerCallback (30 * Second) "google" "c" "st") (Return (Ok (Some info)));
            Obs (SetSameSite SameSiteStrictMode) tt;
            Obs (SetCookie "sid" "s1" 3600 "/" "" true true) tt;
            Obs (JSON 200 [("status", "authenticated"); ("user_id", "u1")]) tt] in
  exec (GoogleCallbackHandler None "c" "st") t (Return tt) /\
  exists q, after (response_delta DefaultHandlerConfig "c" "st") RStart t = Some q /\
            responds q (Return tt).
Proof.
  intros info t.
  assert (H : exec (GoogleCallbackHandler None "c" "st") t (Return tt)).
  { simpl. do 2 eexists. split; [reflexivity|]. simpl. do 2 eexists. split; [reflexivity|].
    do 2 eexists. split; [reflexivity|]. do 2 eexists. split; [reflexivity|]. auto. }
  split; [exact H|]. exact (callback_response_contract None "c" "st" t (Return tt) H).
Defined.

(** ** The status of each failure of the manager *)

Definition no_provider (o : obs managerE) : bool :=
  match o with
  | Obs e x => match e in managerE Y return Y -> bool with
               | LookupProvider _ => fun p => match p with None => true | Some _ => false end
               | _ => fun _ => false
               end x
  end.
Definition state_refused (o : obs managerE) : bool :=
  match o with
  | Obs e x => match e in managerE Y return Y -> bool with
               | StorageGet _ => fun r => negb (is_ok r)
               | _ => fun _ => false
               end x
  end.
Definition provider_failed (o : obs managerE) : bool :=
  match o with
  | Obs e x => match e in managerE Y return Y -> bool with
               | ProviderCallback _ _ _ _ _ => fun out =>
                   match out with Return (Err _) => true | _ => false end
               | _ => fun _ => false
               end x
  end.
Definition handler_failed (o : obs managerE) : option error :=
  match o with
  | Obs e x => match e in managerE Y return Y -> option error with
               | InvokeHandler _ _ _ => fun out =>
                   match out with Return (Err e) => Some e | _ => None end
               | _ => fun _ => None
               end x
  end.

Lemma error_status_wrap prefix e : error_status (wrap prefix e) = error_status e.
Proof. unfold error_status, wrap. simpl. by rewrite !orb_false_r. Qed.

(** C17.  The handler tells the manager's failures apart: an unknown provider
    gives 400, a state that the storage refuses (unknown, expired or used)
    gives 401 "invalid or expired state", a failed exchange with the provider
    gives 401 "oauth2 callback failed", and an error of the application's
    handler gives the status of that error itself, 500 unless it wraps one of
    the module's own errors. *)
Theorem callback_error_status pn code state t err :
  exec (HandleCallback pn code state) t (Return (Err err)) ->
  (calls no_provider t = 1%nat /\ error_status err = (400, "provider not found")) \/
  (calls state_refused t = 1%nat /\ error_status err = (401, "invalid or expired state")) \/
  (calls provider_failed t = 1%nat /\ error_status err = (401, "oauth2 callback failed")) \/
  (exists o he, o ∈ t /\ handler_failed o = Some he /\ error_status err = error_status he).
Proof.
  intros (p & t1 & -> & Hx). destruct p as [p|]; simpl in Hx;
    [|destruct Hx as [-> ?]; simplify_eq; left; done].
  destruct Hx as (r & t2 & -> & Hx). destruct r as [sd|e]; simpl in Hx;
    [|destruct Hx as [-> ?]; simplify_eq; right; left; done].
  destruct Hx as (out & t3 & -> & Hx).
  destruct out as [[[u ts]|e]|v|]; simpl in Hx.
  - destruct Hx as (out & t4 & -> & Hx).
    destruct out as [[i|e]|v|]; simpl in Hx; destruct Hx as (? & ? & -> & -> & ?); simplify_eq.
    right; right; right. exists (Obs (InvokeHandler pn u ts) (Return (Err e))), e.
    split_and!; [set_solver|done|apply error_status_wrap].
  - destruct Hx as (? & ? & -> & -> & ?). simplify_eq. right; right; left. done.
  - destruct Hx as (? & ? & -> & -> & ?). simplify_eq.
  - destruct Hx as (? & ? & -> & -> & ?). simplify_eq.
Qed.

Lemma callback_error_status_witness :
  let err := wrap_sentinel ErrInvalidState (Sentinel ErrStateExpired) in
  let t := [Obs (LookupProvider "google") (Some example_provider);
            Obs (StorageGet "st") (Err (Sentinel ErrStateExpired))] in
  exec (HandleCallback "google" "c" "st") t (Return (Err err)) /\
  calls state_refused t = 1%nat /\ error_status err = (401, "invalid or expired state").
Proof.
  intros err t.
  assert (H : exec (HandleCallback "google" "c" "st") t (Return (Err err))).
  { exists (Some example_provider). eexists. split; [reflexivity|].
    eexists (Err _), _. split; [reflexivity|]. simpl. auto. }
  split; [exact H|]. destruct (callback_error_status _ _ _ _ _ H)
    as [[H1 _]|[H1|[[H1 _]|(o & he & Hin & Ho & _)]]]; [discriminate H1|exact H1|discriminate H1|].
  apply elem_of_cons in Hin as [->|Hin]; [discriminate Ho|].
  apply elem_of_cons in Hin as [->|Hin]; [discriminate Ho|].
  apply elem_of_nil in Hin. destruct Hin.
Defined.
