(* ===== verification/OAuthOIDC.v ===== *)
(** * OAuthOIDC: the OpenID Connect provider

    Models [oauth2/oidc_google.go].  The packages go-oidc and x/oauth2 are
    parameters: discovery, the code exchange, the verification of an ID
    token, the refresh of a token and the clock are calls, and the URL
    builder [AuthCodeURL] is an argument of the definitions that use it. *)

From stdpp Require Import base gmap strings list fin_maps.
From Stdlib Require Import ZArith Lia.
From S2P Require Import Prelude Effects OAuthState OAuthManager.

Open Scope Z_scope.
Open Scope go_scope.

Section oidc.
(** The types of go-oidc's discovered endpoint and provider. *)
Context {Endpoint OidcProvider : Set}.
Variable endpoint_of : OidcProvider -> Endpoint.

(** [oauth2.Config] *)
Record Config := MkConfig {
  ClientID : string;
  ClientSecret : string;
  RedirectURL : string;
  cfg_Endpoint : Endpoint;
  Scopes : list string
}.

(** [oidc.IDTokenVerifier]: the provider it was made from and the client ID
    it checks. *)
Record IDTokenVerifier := MkVerifier { v_provider : OidcProvider; v_ClientID : string }.

Record GoogleOIDCProvider := MkOIDC {
  config : Config;
  provider : OidcProvider;
  verifier : IDTokenVerifier;
  logoutURL : string;
  providerName : string
}.

(** [oauth2.AuthCodeOption] values. *)
Inductive AuthCodeOption :=
| AccessTypeOffline
| ApprovalForce
| NonceOption (nonce : string)
| SetAuthURLParam (key value : string).

(** [oauth2.Token]; [Extra("id_token").(string)] is [Some] when the response
    had such a string. *)
Record Token := MkToken {
  tok_AccessToken : string;
  tok_TokenType : string;
  tok_RefreshToken : string;
  tok_Expiry : Z;
  Extra_id_token : option string
}.

(** [oidc.IDToken]; [Claims] is the email and the name that decoding its
    claims gives, or the decoding error. *)
Record VerifiedToken := MkVerified {
  vt_Nonce : string;
  Subject : string;
  Claims : result (string * string)
}.

Inductive oidcE : Type -> Type :=
| NewProvider_ (issuerURL : string) : oidcE (result OidcProvider)
| Exchange (c : Config) (code : string) (opts : list AuthCodeOption) : oidcE (result Token)
| Verify (v : IDTokenVerifier) (rawIDToken : string) : oidcE (result VerifiedToken)
| NowCall : oidcE Z
| RefreshCall (c : Config) (refreshToken : string) : oidcE (result Token).

Definition NewOIDCProvider (issuerURL name clientID clientSecret redirectURL : string)
    (scopes : list string) : prog oidcE (result GoogleOIDCProvider) :=
  let* r := call (NewProvider_ issuerURL) in
  match r with
  | Err err => Ret (Err (wrap "failed to create OIDC provider: " err))
  | Ok p =>
      let scopes := match scopes with [] => ["openid"; "profile"; "email"] | _ => scopes end in
      let cfg := MkConfig clientID clientSecret redirectURL (endpoint_of p) scopes in
      Ret (Ok (MkOIDC cfg p (MkVerifier p clientID) (issuerURL +:+ "/logout") name))
  end.

Definition NewGoogleOIDCProvider (clientID clientSecret redirectURL : string)
    (scopes : list string) : prog oidcE (result GoogleOIDCProvider) :=
  let* r := NewOIDCProvider "https://accounts.google.com" "google"
              clientID clientSecret redirectURL scopes in
  match r with
  | Err err => Ret (Err err)
  | Ok p => Ret (Ok (MkOIDC (config p) (provider p) (verifier p)
                       "https://accounts.google.com/logout" (providerName p)))
  end.

Definition oidc_GetAuthURL (AuthCodeURL : Config -> string -> list AuthCodeOption -> string)
    (g : GoogleOIDCProvider) (state nonce codeChallenge : string) : string :=
  AuthCodeURL (config g) state
    [AccessTypeOffline; ApprovalForce; NonceOption nonce;
     SetAuthURLParam "code_challenge" codeChallenge;
     SetAuthURLParam "code_challenge_method" "S256"].

(** The provider as an interface value: the manager's calls reach this [g]. *)
Definition as_Provider (AuthCodeURL : Config -> string -> list AuthCodeOption -> string)
    (g : GoogleOIDCProvider) : Provider :=
  MkProvider (providerName g) (oidc_GetAuthURL AuthCodeURL g) (existT GoogleOIDCProvider g).

Definition oidc_HandleCallback (g : GoogleOIDCProvider) (code state nonce codeVerifier : string)
  : prog oidcE (result (UserInfo * TokenSet)) :=
  let* r := call (Exchange (config g) code [SetAuthURLParam "code_verifier" codeVerifier]) in
  match r with
  | Err err => Ret (Err (wrap "failed to exchange code: " err))
  | Ok oauth2Token =>
  match Extra_id_token oauth2Token with
  | None => Ret (Err (new_error "no id_token in response"))
  | Some rawIDToken =>
  let* r := call (Verify (verifier g) rawIDToken) in
  match r with
  | Err err => Ret (Err (wrap "failed to verify ID token: " err))
  | Ok idToken =>
  if negb (String.eqb (vt_Nonce idToken) nonce) then Ret (Err (new_error "nonce mismatch")) else
  match Claims idToken with
  | Err err => Ret (Err (wrap "failed to parse claims: " err))
  | Ok (email, name) =>
  let* now := call NowCall in
  let userInfo := MkUserInfo (Subject idToken) email name (providerName g) now in
  let tokenSet := MkTokenSet (tok_AccessToken oauth2Token) (tok_TokenType oauth2Token)
                    (tok_RefreshToken oauth2Token) rawIDToken (tok_Expiry oauth2Token) in
  Ret (Ok (userInfo, tokenSet))
  end end end end.

Definition oidc_RefreshToken (g : GoogleOIDCProvider) (refreshToken : string)
  : prog oidcE (result TokenSet) :=
  let* r := call (RefreshCall (config g) refreshToken) in
  match r with
  | Err err => Ret (Err (wrap "failed to refresh token: " err))
  | Ok newToken =>
      let tokenSet := MkTokenSet (tok_AccessToken newToken) (tok_TokenType newToken)
                        (tok_RefreshToken newToken) "" (tok_Expiry newToken) in
      Ret (Ok (match Extra_id_token newToken with
               | Some idToken =>
                   if negb (String.eqb idToken "")
                   then MkTokenSet (AccessToken tokenSet) (TokenType tokenSet)
                          (RefreshToken_ tokenSet) idToken (ts_ExpiresAt tokenSet)
                   else tokenSet
               | None => tokenSet
               end))
  end.

Definition GetEndSessionEndpoint (g : GoogleOIDCProvider) : string := logoutURL g.

(** [manager.RegisterProvider] on a manager nobody else uses yet. *)
Definition register_in {H : Type} (m : manager H) (p : Provider) : manager H :=
  MkManager (<[GetName p := p]> (providers m)) (stateStorage m) (callbackHandler m)
    (stateTimeout m).

Definition NewManagerWithGoogle {H : Type}
    (AuthCodeURL : Config -> string -> list AuthCodeOption -> string)
    (cfg : option (ManagerConfig H)) (googleClientID googleClientSecret googleRedirectURL : string)
  : prog oidcE (result (manager H)) :=
  match (NewManager cfg).1 with
  | Err err => Ret (Err err)
  | Ok mgr =>
      if negb (String.eqb googleClientID "") && negb (String.eqb googleClientSecret "") then
        let* r := NewGoogleOIDCProvider googleClientID googleClientSecret googleRedirectURL [] in
        match r with
        | Err err => Ret (Err (wrap "failed to create Google provider: " err))
        | Ok googleProvider => Ret (Ok (register_in mgr (as_Provider AuthCodeURL googleProvider)))
        end
      else Ret (Ok mgr)
  end.

(** C18.  A user is authenticated only by a verified ID token that carries
    the expected nonce: when the provider's callback succeeds, the code was
    exchanged with the PKCE verifier, the ID token of that very response was
    accepted by the provider's own verifier, its nonce is the one stored for
    the state, and the returned identity and tokens are those of that token
    and that response. *)
Theorem oidc_callback_sound g code state nonce codeVerifier t u ts :
  exec (oidc_HandleCallback g code state nonce codeVerifier) t (Ok (u, ts)) ->
  exists tok raw vt email name now,
    t = [Obs (Exchange (config g) code [SetAuthURLParam "code_verifier" codeVerifier]) (Ok tok);
         Obs (Verify (verifier g) raw) (Ok vt); Obs NowCall now] /\
    Extra_id_token tok = Some raw /\ vt_Nonce vt = nonce /\ Claims vt = Ok (email, name) /\
    u = MkUserInfo (Subject vt) email name (providerName g) now /\
    ts = MkTokenSet (tok_AccessToken tok) (tok_TokenType tok) (tok_RefreshToken tok) raw
           (tok_Expiry tok).
Proof using.
  intros (r & t1 & -> & Hx). destruct r as [tok|e]; simpl in Hx; [|by destruct Hx].
  destruct (Extra_id_token tok) as [raw|] eqn:Hraw; simpl in Hx; [|by destruct Hx].
  destruct Hx as (r & t2 & -> & Hx). destruct r as [vt|e]; simpl in Hx; [|by destruct Hx].
  destruct (String.eqb_spec (vt_Nonce vt) nonce) as [Hn|]; simpl in Hx; [|by destruct Hx].
  destruct (Claims vt) as [[email name]|e] eqn:Hc; simpl in Hx; [|by destruct Hx].
  destruct Hx as (now & t3 & -> & -> & [= -> ->]).
  exists tok, raw, vt, email, name, now. auto 10.
Qed.

(** C19.  A manager made with Google credentials has a callback handler and a
    non-zero state timeout, and knows exactly the provider "google": the value
    registered is the one made from the discovered issuer, with the given
    client ID, secret and redirect URL and the three OpenID scopes, and with
    an ID token verifier of that issuer for the given client ID; without
    credentials it knows no provider, and discovery is not attempted. *)
Theorem manager_with_google {H : Type} AuthCodeURL (cfg : option (ManagerConfig H))
    id secret redirect t m :
  exec (NewManagerWithGoogle AuthCodeURL cfg id secret redirect) t (Ok m) ->
  stateTimeout m <> 0 /\
  (exists c, cfg = Some c /\ cfg_CallbackHandler c = Some (callbackHandler m)) /\
  (if negb (String.eqb id "") && negb (String.eqb secret "")
   then exists op, t = [Obs (NewProvider_ "https://accounts.google.com") (Ok op)] /\
          providers m = {["google" := as_Provider AuthCodeURL
            (MkOIDC (MkConfig id secret redirect (endpoint_of op) ["openid"; "profile"; "email"])
               op (MkVerifier op id) "https://accounts.google.com/logout" "google")]}
   else t = [] /\ providers m = empty).
Proof using.
  unfold NewManagerWithGoogle. destruct (NewManager cfg).1 as [mgr|e] eqn:Hm; [|by intros [??]].
  apply NewManager_ok in Hm as (Hcfg & Hto & Hps).
  destruct (negb (String.eqb id "") && negb (String.eqb secret "")).
  - intros (r & t1 & -> & Hx). destruct r as [op|e]; simpl in Hx; destruct Hx as [-> Hx];
      [|done]. injection Hx as ->. split_and!; [done|done|].
    exists op. split; [done|]. simpl. by rewrite Hps.
  - intros [-> [= ->]]. auto.
Qed.
End oidc.

Definition example_token : Token := MkToken "at" "Bearer" "rt" 99 (Some "raw").
Definition example_oidc : @GoogleOIDCProvider unit unit :=
  MkOIDC (MkConfig "id" "secret" "https://app/cb" tt ["openid"]) tt (MkVerifier tt "id")
    "https://idp/logout" "google".

Lemma oidc_callback_sound_witness :
  let vt := MkVerified "nonce" "sub" (Ok ("e@x", "Ann")) in
  let t := [Obs (Exchange (config example_oidc) "code" [SetAuthURLParam "code_verifier" "v"])
              (Ok example_token);
            Obs (Verify (verifier example_oidc) "raw") (Ok vt); Obs NowCall 7] in
  let u := MkUserInfo "sub" "e@x" "Ann" "google" 7 in
  let ts := MkTokenSet "at" "Bearer" "rt" "raw" 99 in
  exec (oidc_HandleCallback example_oidc "code" "st" "nonce" "v") t (Ok (u, ts)) /\
  exists vt' : VerifiedToken, vt_Nonce vt' = "nonce" /\ ui_ID u = Subject vt'.
Proof.
  intros vt t u ts.
  assert (H : exec (oidc_HandleCallback example_oidc "code" "st" "nonce" "v") t (Ok (u, ts))).
  { do 2 eexists. split; [reflexivity|]. do 2 eexists. split; [reflexivity|].
    do 2 eexists. split; [reflexivity|]. split; reflexivity. }
  split; [exact H|].
  destruct (oidc_callback_sound example_oidc "code" "st" "nonce" "v" t u ts H)
    as (tok & raw & vt' & email & name & now & _ & _ & Hn & _ & Hu & _).
  exists vt'. split; [exact Hn|]. rewrite Hu. reflexivity.
Defined.

Definition google_oidc : @GoogleOIDCProvider unit unit :=
  MkOIDC (MkConfig "id" "secret" "cb" tt ["openid"; "profile"; "email"]) tt (MkVerifier tt "id")
    "https://accounts.google.com/logout" "google".

Lemma manager_with_google_witness :
  let acu := fun (_ : @Config unit) (state : string) (_ : list AuthCodeOption) => state in
  let m := register_in (MkManager empty NewInMemoryStorage tt (10 * Minute))
             (as_Provider acu google_oidc) in
  exec (NewManagerWithGoogle (fun _ : unit => tt) acu (Some (MkManagerConfig 0 (Some tt)))
          "id" "secret" "cb")
    [Obs (NewProvider_ "https://accounts.google.com") (Ok tt)] (Ok m) /\
  providers m = {["google" := as_Provider acu google_oidc]}.
Proof.
  intros acu m.
  assert (H : exec (NewManagerWithGoogle (fun _ : unit => tt) acu
      (Some (MkManagerConfig 0 (Some tt))) "id" "secret" "cb")
      [Obs (NewProvider_ "https://accounts.google.com") (Ok tt)] (Ok m)).
  { exists (Ok tt), []. split; [reflexivity|]. split; reflexivity. }
  split; [exact H|].
  destruct (manager_with_google (fun _ : unit => tt) acu _ "id" "secret" "cb" _ _ H)
    as (_ & _ & op & _ & Hp).
  destruct op. exact Hp.
Defined.
