(* ===== verification/GoChan.v ===== *)
(** * GoChan: buffered Go channels

    What the repository uses of a [chan T] made with a capacity: blocking
    and non-blocking sends and receives, [close], and [range].  A send on a
    closed channel and a second [close] panic; a receive from a closed
    channel yields what is still buffered and then the zero value. *)

From stdpp Require Import base list option strings.
From Stdlib Require Import Lia.
From S2P Require Import Prelude.

Record gochan (A : Type) := Chan { buffer : list A; capacity : nat; chan_closed : bool }.
Arguments Chan {A} buffer capacity chan_closed.
Arguments buffer {A} g.
Arguments capacity {A} g.
Arguments chan_closed {A} g.

Section chan.
Context {A : Type}.
Implicit Types (c : gochan A) (v : A).

Definition make_chan (n : nat) : gochan A := Chan [] n false.

Definition with_buffer c (b : list A) : gochan A := Chan b (capacity c) (chan_closed c).

(** [c <- v]; [None] while it blocks. *)
Definition chan_send c v : option (outcome unit * gochan A) :=
  if chan_closed c then Some (Panic "send on closed channel", c)
  else if (length (buffer c) <? capacity c)%nat
  then Some (Return tt, with_buffer c (buffer c ++ [v]))
  else None.

(** [select { case c <- v: true; default: false }] *)
Definition chan_try_send c v : outcome bool * gochan A :=
  match chan_send c v with
  | Some (Return _, c') => (Return true, c')
  | Some (Panic w, c') => (Panic w, c')
  | Some (OutOfFuel, c') => (OutOfFuel, c')
  | None => (Return false, c)
  end.

(** [v, ok := <-c]; the outer [None] while it blocks, the inner one for the
    zero value of a closed channel. *)
Definition chan_recv c : option (option A * gochan A) :=
  match buffer c with
  | v :: b => Some (Some v, with_buffer c b)
  | [] => if chan_closed c then Some (None, c) else None
  end.

(** [close(c)] *)
Definition chan_close c : outcome unit * gochan A :=
  if chan_closed c then (Panic "close of closed channel", c)
  else (Return tt, Chan (buffer c) (capacity c) true).

(** The buffer never outgrows the capacity. *)
Definition bounded c : Prop := (length (buffer c) <= capacity c)%nat.

Lemma chan_send_bounded c v o c' : bounded c -> chan_send c v = Some (o, c') -> bounded c'.
Proof.
  unfold bounded, chan_send. intros Hb H. destruct (chan_closed c); simplify_eq; [done|].
  destruct (Nat.ltb_spec (length (buffer c)) (capacity c)); simplify_eq. simpl.
  rewrite length_app. simpl. lia.
Qed.

Lemma chan_try_send_bounded c v o c' : bounded c -> chan_try_send c v = (o, c') -> bounded c'.
Proof.
  unfold chan_try_send. intros Hb H.
  destruct (chan_send c v) as [[o1 c1]|] eqn:Hs; [|by simplify_eq].
  apply chan_send_bounded in Hs; [|done]. by destruct o1; simplify_eq.
Qed.

Lemma chan_recv_bounded c o c' : bounded c -> chan_recv c = Some (o, c') -> bounded c'.
Proof.
  unfold bounded, chan_recv. intros Hb H.
  destruct (buffer c) as [|v b] eqn:Hbuf; simpl in *.
  - destruct (chan_closed c); simplify_eq. by rewrite Hbuf.
  - simplify_eq. simpl. lia.
Qed.

End chan.
#[export] Hint Resolve chan_send_bounded chan_try_send_bounded chan_recv_bounded : ghost.
