(* ===== verification/RmqConfig.v ===== *)
(** * RmqConfig: the RabbitMQ configuration ([rabbitmq/config.go])

    The configuration record, its defaults and its validation, and the
    records that describe queues, exchanges and bindings.  [time.Duration]
    and [int] fields are 64-bit integers; a [map[string]interface{}] is a
    reference into the heap ([None] for a nil map), because the topology
    code stores and mutates maps it shares with its caller. *)

From stdpp Require Import base list strings.
From Stdlib Require Import ZArith Lia.
From S2P Require Import Prelude.

Open Scope Z_scope.

Definition ErrURLRequired : sentinel :=
  MkSentinel "rabbitmq.ErrURLRequired" "rabbitmq: URL is required".

(** [type QueueType string] *)
Definition QueueType := string.
Definition QueueTypeQuorum : QueueType := "quorum".
Definition QueueTypeClassic : QueueType := "classic".

Definition DefaultChannelPoolSize : Z := 10.
Definition DefaultPrefetchCount : Z := 10.
Definition DefaultReconnectInitialSec : Z := 1.
Definition DefaultReconnectMaxSec : Z := 60.
Definition DefaultRetryTTLSec : Z := 30.
Definition DefaultMaxRetries : Z := 3.

(** [OnReturn] is only tested for nil and then handed to the goroutines that
    forward returned messages: the flag says whether it is set. *)
Record Config := MkConfig {
  URL : string;
  ConnectionName : string;
  PublisherConfirms : bool;
  ChannelPoolSize : Z;
  Mandatory : bool;
  PersistentDelivery : bool;
  PrefetchCount : Z;
  AutoAck : bool;
  QueueType_ : QueueType;
  Durable : bool;
  AutoDelete : bool;
  Exclusive : bool;
  NoWait : bool;
  RetryEnabled : bool;
  RetryTTL : Z;
  MaxRetries : Z;
  DeadLetterEnabled : bool;
  ReconnectInitialInterval : Z;
  ReconnectMaxInterval : Z;
  Heartbeat : Z;
  ChannelMax : Z;
  FrameSize : Z;
  OnReturn : bool
}.

Definition NewDefaultConfig : Config := {|
  URL := "";
  ConnectionName := "go-service";
  PublisherConfirms := false;
  ChannelPoolSize := DefaultChannelPoolSize;
  Mandatory := false;
  PersistentDelivery := false;
  PrefetchCount := DefaultPrefetchCount;
  AutoAck := false;
  QueueType_ := QueueTypeQuorum;
  Durable := true;
  AutoDelete := false;
  Exclusive := false;
  NoWait := false;
  RetryEnabled := false;
  RetryTTL := DefaultRetryTTLSec * Second;
  MaxRetries := DefaultMaxRetries;
  DeadLetterEnabled := false;
  ReconnectInitialInterval := DefaultReconnectInitialSec * Second;
  ReconnectMaxInterval := DefaultReconnectMaxSec * Second;
  Heartbeat := 0;
  ChannelMax := 0;
  FrameSize := 0;
  OnReturn := false
|}.

(** [config.URL = url] *)
Definition with_URL (c : Config) (url : string) : Config :=
  {| URL := url; ConnectionName := ConnectionName c; PublisherConfirms := PublisherConfirms c;
     ChannelPoolSize := ChannelPoolSize c; Mandatory := Mandatory c;
     PersistentDelivery := PersistentDelivery c; PrefetchCount := PrefetchCount c;
     AutoAck := AutoAck c; QueueType_ := QueueType_ c; Durable := Durable c;
     AutoDelete := AutoDelete c; Exclusive := Exclusive c; NoWait := NoWait c;
     RetryEnabled := RetryEnabled c; RetryTTL := RetryTTL c; MaxRetries := MaxRetries c;
     DeadLetterEnabled := DeadLetterEnabled c;
     ReconnectInitialInterval := ReconnectInitialInterval c;
     ReconnectMaxInterval := ReconnectMaxInterval c; Heartbeat := Heartbeat c;
     ChannelMax := ChannelMax c; FrameSize := FrameSize c; OnReturn := OnReturn c |}.

Definition ApplyDefaults (c : Config) : option error :=
  if String.eqb (URL c) "" then Some (Sentinel ErrURLRequired)
  else if String.eqb (ConnectionName c) ""
  then Some (new_error "rabbitmq: connection name is required")
  else if ChannelPoolSize c <=? 0
  then Some (new_error "rabbitmq: channel pool size is required")
  else if PrefetchCount c <=? 0
  then Some (new_error "rabbitmq: prefetch count is required")
  else if String.eqb (QueueType_ c) ""
  then Some (new_error "rabbitmq: queue type is required")
  else if RetryTTL c <=? 0
  then Some (new_error "rabbitmq: retry TTL is required")
  else if MaxRetries c <=? 0
  then Some (new_error "rabbitmq: max retries is required")
  else if ReconnectInitialInterval c <=? 0
  then Some (new_error "rabbitmq: reconnect initial interval is required")
  else if ReconnectMaxInterval c <=? 0
  then Some (new_error "rabbitmq: reconnect max interval is required")
  else None.

(** A reference to a Go map in the heap. *)
Definition loc := nat.

Record QueueConfig := MkQueue {
  q_Name : string;
  q_Durable : bool;
  q_AutoDelete : bool;
  q_Exclusive : bool;
  q_NoWait : bool;
  q_Args : option loc
}.

Record ExchangeConfig := MkExchange {
  x_Name : string;
  x_Kind : string;
  x_Durable : bool;
  x_AutoDelete : bool;
  x_Internal : bool;
  x_NoWait : bool;
  x_Args : option loc
}.

Record BindingConfig := MkBinding {
  b_QueueName : string;
  b_Exchange : string;
  b_RoutingKey : string;
  b_NoWait : bool;
  b_Args : option loc
}.

(** What the rest of the package relies on once a configuration has been
    accepted: the pool has room, the prefetch is positive and the
    reconnection waits are positive. *)
Definition usable_config (c : Config) : Prop :=
  URL c <> "" /\ ConnectionName c <> "" /\ 0 < ChannelPoolSize c /\ 0 < PrefetchCount c /\
  QueueType_ c <> "" /\ 0 < RetryTTL c /\ 0 < MaxRetries c /\
  0 < ReconnectInitialInterval c /\ 0 < ReconnectMaxInterval c.

Lemma ApplyDefaults_usable c : ApplyDefaults c = None <-> usable_config c.
Proof.
  unfold ApplyDefaults, usable_config.
  rewrite !if_error_None, !String.eqb_neq, !Z.leb_gt. tauto.
Qed.

(** The defaults lack exactly the URL. *)
Lemma default_config_needs_url url :
  ApplyDefaults (with_URL NewDefaultConfig url) =
  if String.eqb url "" then Some (Sentinel ErrURLRequired) else None.
Proof. unfold ApplyDefaults. simpl. by destruct (String.eqb url ""). Qed.
