(* ===== verification/RmqEvents.v ===== *)
(** * RmqEvents: what the RabbitMQ client's goroutines do to shared memory
      and to the AMQP library

    The [rabbitmq] package is a set of goroutines over one [*Client]: its
    atomic state, its connection pointers, the channel pool, the topology
    cache, and Go maps passed by reference.  [rmqE] lists the atomic
    operations on that memory together with the calls of the AMQP library,
    of the JSON package, of OpenTelemetry and of the user's handlers; [mem]
    is the memory and [rmq_answer] says how it answers.  Calls into the
    libraries may be answered in any way, except that a new connection or
    channel is a new object and that a closed one stays closed.  Logging
    calls and span bookkeeping are left out: they return nothing. *)

From stdpp Require Import base gmap strings list sets.
From Stdlib Require Import ZArith Lia.
From S2P Require Import Prelude Effects GoChan RmqConfig.

Open Scope Z_scope.

(** [type ConnectionState int32] *)
Inductive ConnectionState :=
| StateDisconnected | StateConnecting | StateConnected | StateClosing.
#[export] Instance ConnectionState_eq_dec : EqDecision ConnectionState.
Proof. solve_decision. Defined.

(** Pointers to [amqp.Connection] and [amqp.Channel] objects. *)
Definition amqpConn := nat.
Definition amqpCh := nat.

(** Values of [interface{}] found in headers and arguments. *)
Inductive Value :=
| VString (s : string)
| VInt (z : Z)
| VList (l : list Value)
| VOther (kind : string).
Fixpoint Value_eq_dec (x y : Value) {struct x} : {x = y} + {x <> y}.
Proof.
  decide equality; [apply String.string_dec|apply Z.eq_dec|apply (List.list_eq_dec Value_eq_dec)|
                    apply String.string_dec].
Defined.
#[export] Instance Value_EqDecision : EqDecision Value := Value_eq_dec.
Definition Table := gmap string Value.
#[export] Instance Table_EqDecision : EqDecision Table := gmap_eq_dec _.

(** [amqp.Config], as far as [dial] sets it. *)
Record DialConfig := MkDial {
  d_Locale : string;
  d_connection_name : string;
  d_Heartbeat : Z;
  d_ChannelMax : Z;
  d_FrameSize : Z
}.

(** [amqp.Publishing] *)
Record Publishing := MkPublishing {
  p_ContentType : string;
  p_ContentEncoding : string;
  p_Body : string;
  p_DeliveryMode : Z;
  p_Priority : Z;
  p_MessageId : string;
  p_CorrelationId : string;
  p_ReplyTo : string;
  p_Expiration : string;
  p_Type : string;
  p_AppId : string;
  p_UserId : string;
  p_Timestamp : Z;
  p_Headers : Table
}.

#[export] Instance Publishing_EqDecision : EqDecision Publishing.
Proof. solve_decision. Defined.

(** [amqp.Delivery]: what the package reads of it. *)
Record Delivery := MkDelivery {
  DeliveryTag : Z;
  d_Headers : Table;
  d_Body : string
}.

(** [amqp.Queue]: the broker's answer to a declaration. *)
Record Queue := MkQueueInfo { qi_Name : string; qi_Messages : Z; qi_Consumers : Z }.

(** A decoded JSON document: opaque to the package. *)
Definition Json := string.

(** What a [select] of a consume loop received. *)
Inductive consume_event :=
| CtxDone (err : error)
| Cancelled (reason : option string)
| Delivered (d : Delivery)
| DeliveriesClosed.

Inductive batch_event :=
| BatchCtxDone (err : error)
| FlushTimer
| BatchDelivered (d : Delivery)
| BatchDeliveriesClosed.

(** What the [select] of a close watcher received. *)
Inductive close_event :=
| CloseChanClosed
| Notified (ok : bool) (err : option error).

(** What the [select] of a blocked watcher received. *)
Inductive blocked_event :=
| BlockedCloseChan
| BlockedClosed
| BlockedMsg (active : bool).

(** The goroutines the package starts. *)
Inductive goroutine :=
| GoReconnect
| GoHandleClose (conn : option amqpConn)
| GoHandleBlocked (conn : amqpConn)
| GoDrainAndTrigger
| GoForwardReturns (ch : amqpCh).

Inductive rmqE : Type -> Type :=
(* the client's atomic state, its close channel and its connection pointers *)
| StateLoad : rmqE ConnectionState
| StateStore (st : ConnectionState) : rmqE unit
| StateCAS (old new : ConnectionState) : rmqE bool
| CloseChanClose : rmqE (outcome unit)
| SetConns (pub con : amqpConn) : rmqE unit
| ReadConns : rmqE (option amqpConn * option amqpConn)
(* the channel pool *)
| PoolClosedLoad : rmqE bool
| PoolClosedCAS (old new : bool) : rmqE bool
| PoolSend (ch : amqpCh) : rmqE (outcome unit)
| PoolTrySend (ch : amqpCh) : rmqE (outcome bool)
| PoolTryRecv : rmqE (option (option amqpCh))
| PoolRecvOrDone : rmqE (option amqpCh + error)
| PoolRecv : rmqE (option amqpCh)
| PoolClose : rmqE (outcome unit)
(* the topology cache and maps *)
| AppendQueue (c : QueueConfig) : rmqE unit
| AppendExchange (c : ExchangeConfig) : rmqE unit
| AppendBinding (c : BindingConfig) : rmqE unit
| SnapshotAndReset : rmqE (list ExchangeConfig * list QueueConfig * list BindingConfig)
| MapNew (t : Table) : rmqE loc
| MapSet (l : loc) (k : string) (v : Value) : rmqE unit
| MapRead (l : loc) : rmqE Table
(* goroutines and time *)
| Go (g : goroutine) : rmqE unit
| CloseOrAfter (d : Z) : rmqE bool
| DoneOrAfter (d : Z) : rmqE (option error)
| DoneOrTick : rmqE bool
| CtxErr : rmqE (option error)
| NewTimer (d : Z) : rmqE unit
| TimerReset (d : Z) : rmqE unit
(* connections and channels of the AMQP library *)
| AmqpDial (url : string) (cfg : DialConfig) : rmqE (result amqpConn)
| ConnChannel (conn : option amqpConn) : rmqE (outcome (result amqpCh))
| ConnClose (conn : amqpConn) : rmqE unit
| ConnIsClosed (conn : amqpConn) : rmqE bool
| CloseOrNotify (conn : option amqpConn) : rmqE (outcome close_event)
| CloseOrBlocked (conn : amqpConn) : rmqE blocked_event
| ChConfirm (ch : amqpCh) : rmqE (option error)
| ChClose (ch : amqpCh) : rmqE unit
| ChIsClosed (ch : amqpCh) : rmqE bool
| ChNotifyReturn (ch : amqpCh) : rmqE unit
| NextReturn (ch : amqpCh) : rmqE bool
| OnReturnCall (ch : amqpCh) : rmqE unit
(* topology *)
| QueueDeclare (ch : amqpCh) (name : string) (durable autoDelete exclusive noWait : bool)
    (args : Table) : rmqE (result Queue)
| ExchangeDeclare (ch : amqpCh) (name kind : string) (durable autoDelete internal noWait : bool)
    (args : Table) : rmqE (option error)
| QueueBind (ch : amqpCh) (queue key exchange : string) (noWait : bool) (args : Table)
    : rmqE (option error)
(* publishing *)
| JsonMarshal (payload : Json) : rmqE (result string)
| OtelInject : rmqE (gmap string string)
| PublishDeferred (ch : amqpCh) (exchange key : string) (mandatory immediate : bool)
    (msg : Publishing) : rmqE (result (option nat))
| ConfirmWait (dc : nat) : rmqE (result bool)
| Publish (ch : amqpCh) (exchange key : string) (mandatory immediate : bool)
    (msg : Publishing) : rmqE (option error)
(* consuming; a user handler returns an error or panics *)
| ChQos (ch : amqpCh) (prefetchCount : Z) : rmqE (option error)
| ChConsume (ch : amqpCh) (queue consumer : string) (autoAck exclusive noLocal noWait : bool)
    (args : Table) : rmqE (option error)
| ChNotifyCancel (ch : amqpCh) : rmqE unit
| SelectConsume (ch : amqpCh) : rmqE consume_event
| SelectBatch (ch : amqpCh) : rmqE batch_event
| OtelExtract (carrier : gmap string string) : rmqE unit
| JsonUnmarshal (body : string) : rmqE (result Json)
| Handle (msg : Json) (d : Delivery) : rmqE (option error + string)
| HandleBatch (msgs : list Json) (ds : list Delivery) : rmqE (option error + string)
| Ack (d : Delivery) : rmqE (option error)
| Nack (d : Delivery) (requeue : bool) : rmqE (option error)
| Reject (d : Delivery) (requeue : bool) : rmqE (option error).

(** ** The shared memory *)

Record mem := Mem {
  m_state : ConnectionState;
  m_closing : bool;                    (* closeChan has been closed *)
  m_pub : option amqpConn;
  m_cons : option amqpConn;
  m_pool : gochan amqpCh;
  m_pool_closed : bool;
  m_exchanges : list ExchangeConfig;
  m_queues : list QueueConfig;
  m_bindings : list BindingConfig;
  m_heap : gmap loc Table;
  m_chans : gset amqpCh;               (* channels opened so far *)
  m_dead_chans : gset amqpCh;          (* of these, the closed ones *)
  m_conns : gset amqpConn;             (* connections opened so far *)
  m_dead_conns : gset amqpConn         (* of these, the closed ones *)
}.

Definition set_state (s : mem) (st : ConnectionState) : mem :=
  Mem st (m_closing s) (m_pub s) (m_cons s) (m_pool s) (m_pool_closed s) (m_exchanges s)
    (m_queues s) (m_bindings s) (m_heap s) (m_chans s) (m_dead_chans s) (m_conns s)
    (m_dead_conns s).
Definition set_closing (s : mem) : mem :=
  Mem (m_state s) true (m_pub s) (m_cons s) (m_pool s) (m_pool_closed s) (m_exchanges s)
    (m_queues s) (m_bindings s) (m_heap s) (m_chans s) (m_dead_chans s) (m_conns s)
    (m_dead_conns s).
Definition set_conns (s : mem) (pub con : amqpConn) : mem :=
  Mem (m_state s) (m_closing s) (Some pub) (Some con) (m_pool s) (m_pool_closed s)
    (m_exchanges s) (m_queues s) (m_bindings s) (m_heap s) (m_chans s) (m_dead_chans s)
    (m_conns s) (m_dead_conns s).
Definition set_pool (s : mem) (p : gochan amqpCh) : mem :=
  Mem (m_state s) (m_closing s) (m_pub s) (m_cons s) p (m_pool_closed s) (m_exchanges s)
    (m_queues s) (m_bindings s) (m_heap s) (m_chans s) (m_dead_chans s) (m_conns s)
    (m_dead_conns s).
Definition set_pool_closed (s : mem) (b : bool) : mem :=
  Mem (m_state s) (m_closing s) (m_pub s) (m_cons s) (m_pool s) b (m_exchanges s) (m_queues s)
    (m_bindings s) (m_heap s) (m_chans s) (m_dead_chans s) (m_conns s) (m_dead_conns s).
Definition set_topology (s : mem) (xs : list ExchangeConfig) (qs : list QueueConfig)
    (bs : list BindingConfig) : mem :=
  Mem (m_state s) (m_closing s) (m_pub s) (m_cons s) (m_pool s) (m_pool_closed s) xs qs bs
    (m_heap s) (m_chans s) (m_dead_chans s) (m_conns s) (m_dead_conns s).
Definition set_heap (s : mem) (h : gmap loc Table) : mem :=
  Mem (m_state s) (m_closing s) (m_pub s) (m_cons s) (m_pool s) (m_pool_closed s)
    (m_exchanges s) (m_queues s) (m_bindings s) h (m_chans s) (m_dead_chans s) (m_conns s)
    (m_dead_conns s).
Definition add_chan (s : mem) (ch : amqpCh) : mem :=
  Mem (m_state s) (m_closing s) (m_pub s) (m_cons s) (m_pool s) (m_pool_closed s)
    (m_exchanges s) (m_queues s) (m_bindings s) (m_heap s) ({[ch]} ∪ m_chans s) (m_dead_chans s)
    (m_conns s) (m_dead_conns s).
Definition kill_chan (s : mem) (ch : amqpCh) : mem :=
  Mem (m_state s) (m_closing s) (m_pub s) (m_cons s) (m_pool s) (m_pool_closed s)
    (m_exchanges s) (m_queues s) (m_bindings s) (m_heap s) (m_chans s) ({[ch]} ∪ m_dead_chans s)
    (m_conns s) (m_dead_conns s).
Definition add_conn (s : mem) (cn : amqpConn) : mem :=
  Mem (m_state s) (m_closing s) (m_pub s) (m_cons s) (m_pool s) (m_pool_closed s)
    (m_exchanges s) (m_queues s) (m_bindings s) (m_heap s) (m_chans s) (m_dead_chans s)
    ({[cn]} ∪ m_conns s) (m_dead_conns s).
Definition kill_conn (s : mem) (cn : amqpConn) : mem :=
  Mem (m_state s) (m_closing s) (m_pub s) (m_cons s) (m_pool s) (m_pool_closed s)
    (m_exchanges s) (m_queues s) (m_bindings s) (m_heap s) (m_chans s) (m_dead_chans s)
    (m_conns s) ({[cn]} ∪ m_dead_conns s).

(** How the memory answers.  What a library call returns is not restricted
    unless said here. *)
Definition rmq_answer (X : Type) (e : rmqE X) (s : mem) : X -> mem -> Prop :=
  match e in rmqE X return X -> mem -> Prop with
  | StateLoad => fun x s' => x = m_state s /\ s' = s
  | StateStore st => fun _ s' => s' = set_state s st
  | StateCAS old new => fun x s' =>
      if decide (m_state s = old) then x = true /\ s' = set_state s new
      else x = false /\ s' = s
  | CloseChanClose => fun x s' =>
      if m_closing s then x = Panic "close of closed channel" /\ s' = s
      else x = Return tt /\ s' = set_closing s
  | SetConns pub con => fun _ s' => s' = set_conns s pub con
  | ReadConns => fun x s' => x = (m_pub s, m_cons s) /\ s' = s
  | PoolClosedLoad => fun x s' => x = m_pool_closed s /\ s' = s
  | PoolClosedCAS old new => fun x s' =>
      if decide (m_pool_closed s = old) then x = true /\ s' = set_pool_closed s new
      else x = false /\ s' = s
  | PoolSend ch => fun x s' =>
      exists p, chan_send (m_pool s) ch = Some (x, p) /\ s' = set_pool s p
  | PoolTrySend ch => fun x s' =>
      x = (chan_try_send (m_pool s) ch).1 /\ s' = set_pool s (chan_try_send (m_pool s) ch).2
  | PoolTryRecv => fun x s' =>
      match chan_recv (m_pool s) with
      | Some (v, p) => x = Some v /\ s' = set_pool s p
      | None => x = None /\ s' = s
      end
  | PoolRecvOrDone => fun x s' =>
      match x with
      | inl v => exists p, chan_recv (m_pool s) = Some (v, p) /\ s' = set_pool s p
      | inr _ => s' = s
      end
  | PoolRecv => fun x s' =>
      exists p, chan_recv (m_pool s) = Some (x, p) /\ s' = set_pool s p
  | PoolClose => fun x s' =>
      x = (chan_close (m_pool s)).1 /\ s' = set_pool s (chan_close (m_pool s)).2
  | AppendQueue c => fun _ s' =>
      s' = set_topology s (m_exchanges s) (m_queues s ++ [c]) (m_bindings s)
  | AppendExchange c => fun _ s' =>
      s' = set_topology s (m_exchanges s ++ [c]) (m_queues s) (m_bindings s)
  | AppendBinding c => fun _ s' =>
      s' = set_topology s (m_exchanges s) (m_queues s) (m_bindings s ++ [c])
  | SnapshotAndReset => fun x s' =>
      x = (m_exchanges s, m_queues s, m_bindings s) /\ s' = set_topology s [] [] []
  | MapNew t => fun l s' => m_heap s !! l = None /\ s' = set_heap s (<[l := t]> (m_heap s))
  | MapSet l k v => fun _ s' =>
      s' = set_heap s (<[l := <[k := v]> (default ∅ (m_heap s !! l))]> (m_heap s))
  | MapRead l => fun x s' => x = default ∅ (m_heap s !! l) /\ s' = s
  | CloseOrAfter _ => fun x s' => (x = true -> m_closing s = true) /\ s' = s
  | AmqpDial _ _ => fun x s' =>
      match x with
      | Ok cn => (cn ∉ m_conns s) /\ s' = add_conn s cn
      | Err _ => s' = s
      end
  | ConnChannel conn => fun x s' =>
      match conn with
      | None => x = Panic "nil pointer dereference" /\ s' = s
      | Some cn =>
          match x with
          | Return (Ok ch) => (ch ∉ m_chans s) /\ s' = add_chan s ch
          | Return (Err _) => s' = s
          | _ => False
          end
      end
  | ConnClose cn => fun _ s' => s' = kill_conn s cn
  | ConnIsClosed cn => fun x s' =>
      (cn ∈ m_dead_conns s -> x = true) /\ s' = (if x then kill_conn s cn else s)
  | CloseOrNotify conn => fun x s' =>
      match conn, x with
      | None, Panic _ => s' = s
      | Some _, Return CloseChanClosed => m_closing s = true /\ s' = s
      | Some cn, Return (Notified _ _) => s' = kill_conn s cn
      | _, _ => False
      end
  | CloseOrBlocked _ => fun x s' => (x = BlockedCloseChan -> m_closing s = true) /\ s' = s
  | ChClose ch => fun _ s' => s' = kill_chan s ch
  | ChIsClosed ch => fun x s' =>
      (ch ∈ m_dead_chans s -> x = true) /\ s' = (if x then kill_chan s ch else s)
  | _ => fun _ s' => s' = s
  end.

(** One deterministic call: it has an answer, and the answer is known. *)
Ltac mem_step :=
  let H := fresh "Hans" in
  split; [first [exists tt | eexists]; eexists; repeat split; reflexivity|];
  intros ? ? H; simpl in H;
  repeat match type of H with _ /\ _ => destruct H as [-> H] end; rewrite H; clear H; simpl.
