(* ===== verification/RmqRun.v ===== *)
(** * RmqRun: a concrete environment for the RabbitMQ client

    A broker that accepts everything and a library that never fails, as a
    partial function of the memory: it satisfies [rmq_answer], so the
    programs can be run on examples. *)

From stdpp Require Import base gmap strings list sets.
From Stdlib Require Import ZArith Lia.
From S2P Require Import Prelude Effects GoChan RmqConfig RmqEvents.

Open Scope Z_scope.

(** A number that is not in the set. *)
Definition next_id (X : gset nat) : nat := S (foldr Nat.max 0%nat (elements X)).

Lemma next_id_fresh X : next_id X ∉ X.
Proof.
  assert (Hle : forall l n, n ∈ l -> (n <= foldr Nat.max 0 l)%nat).
  { intros l n. induction l as [|m l IH]; simpl; [by intros ?%elem_of_nil|].
    intros [->|Hn]%elem_of_cons; [lia|]. specialize (IH Hn). lia. }
  unfold next_id. intros Hin. apply elem_of_elements in Hin. apply Hle in Hin. lia.
Qed.

Definition happy (X : Type) (e : rmqE X) (s : mem) : option (X * mem) :=
  match e in rmqE X return option (X * mem) with
  | StateLoad => Some (m_state s, s)
  | StateStore st => Some (tt, set_state s st)
  | StateCAS old new =>
      if decide (m_state s = old) then Some (true, set_state s new) else Some (false, s)
  | CloseChanClose =>
      if m_closing s then Some (Panic "close of closed channel", s)
      else Some (Return tt, set_closing s)
  | SetConns pub con => Some (tt, set_conns s pub con)
  | ReadConns => Some ((m_pub s, m_cons s), s)
  | PoolClosedLoad => Some (m_pool_closed s, s)
  | PoolClosedCAS old new =>
      if decide (m_pool_closed s = old) then Some (true, set_pool_closed s new)
      else Some (false, s)
  | PoolSend ch =>
      match chan_send (m_pool s) ch with
      | Some (x, p) => Some (x, set_pool s p)
      | None => None
      end
  | PoolTrySend ch =>
      Some ((chan_try_send (m_pool s) ch).1, set_pool s (chan_try_send (m_pool s) ch).2)
  | PoolTryRecv =>
      match chan_recv (m_pool s) with
      | Some (v, p) => Some (Some v, set_pool s p)
      | None => Some (None, s)
      end
  | PoolRecvOrDone =>
      match chan_recv (m_pool s) with
      | Some (v, p) => Some (inl v, set_pool s p)
      | None => Some (inr (Sentinel context_DeadlineExceeded), s)
      end
  | PoolRecv =>
      match chan_recv (m_pool s) with
      | Some (v, p) => Some (v, set_pool s p)
      | None => None
      end
  | PoolClose => Some ((chan_close (m_pool s)).1, set_pool s (chan_close (m_pool s)).2)
  | AppendQueue c =>
      Some (tt, set_topology s (m_exchanges s) (m_queues s ++ [c]) (m_bindings s))
  | AppendExchange c =>
      Some (tt, set_topology s (m_exchanges s ++ [c]) (m_queues s) (m_bindings s))
  | AppendBinding c =>
      Some (tt, set_topology s (m_exchanges s) (m_queues s) (m_bindings s ++ [c]))
  | SnapshotAndReset =>
      Some ((m_exchanges s, m_queues s, m_bindings s), set_topology s [] [] [])
  | MapNew t =>
      let l := next_id (dom (m_heap s)) in Some (l, set_heap s (<[l := t]> (m_heap s)))
  | MapSet l k v =>
      Some (tt, set_heap s (<[l := <[k := v]> (default ∅ (m_heap s !! l))]> (m_heap s)))
  | MapRead l => Some (default ∅ (m_heap s !! l), s)
  | Go _ => Some (tt, s)
  | CloseOrAfter _ => Some (m_closing s, s)
  | DoneOrAfter _ => Some (None, s)
  | DoneOrTick => Some (false, s)
  | CtxErr => Some (None, s)
  | NewTimer _ => Some (tt, s)
  | TimerReset _ => Some (tt, s)
  | AmqpDial _ _ => let cn := next_id (m_conns s) in Some (Ok cn, add_conn s cn)
  | ConnChannel None => Some (Panic "nil pointer dereference", s)
  | ConnChannel (Some _) =>
      let ch := next_id (m_chans s) in Some (Return (Ok ch), add_chan s ch)
  | ConnClose cn => Some (tt, kill_conn s cn)
  | ConnIsClosed cn =>
      if decide (cn ∈ m_dead_conns s) then Some (true, kill_conn s cn) else Some (false, s)
  | CloseOrNotify None => Some (Panic "nil pointer dereference", s)
  | CloseOrNotify (Some cn) =>
      if m_closing s then Some (Return CloseChanClosed, s)
      else Some (Return (Notified false None), kill_conn s cn)
  | CloseOrBlocked _ =>
      if m_closing s then Some (BlockedCloseChan, s) else Some (BlockedClosed, s)
  | ChConfirm _ => Some (None, s)
  | ChClose ch => Some (tt, kill_chan s ch)
  | ChIsClosed ch =>
      if decide (ch ∈ m_dead_chans s) then Some (true, kill_chan s ch) else Some (false, s)
  | ChNotifyReturn _ => Some (tt, s)
  | NextReturn _ => Some (false, s)
  | OnReturnCall _ => Some (tt, s)
  | QueueDeclare _ n _ _ _ _ _ => Some (Ok (MkQueueInfo n 0 0), s)
  | ExchangeDeclare _ _ _ _ _ _ _ _ => Some (None, s)
  | QueueBind _ _ _ _ _ _ => Some (None, s)
  | JsonMarshal p => Some (Ok p, s)
  | OtelInject => Some (∅, s)
  | PublishDeferred _ _ _ _ _ _ => Some (Ok (Some 0%nat), s)
  | ConfirmWait _ => Some (Ok true, s)
  | Publish _ _ _ _ _ _ => Some (None, s)
  | ChQos _ _ => Some (None, s)
  | ChConsume _ _ _ _ _ _ _ _ => Some (None, s)
  | ChNotifyCancel _ => Some (tt, s)
  | SelectConsume _ => Some (CtxDone (Sentinel context_Canceled), s)
  | SelectBatch _ => Some (BatchCtxDone (Sentinel context_Canceled), s)
  | OtelExtract _ => Some (tt, s)
  | JsonUnmarshal b => Some (Ok b, s)
  | Handle _ _ => Some (inl None, s)
  | HandleBatch _ _ => Some (inl None, s)
  | Ack _ => Some (None, s)
  | Nack _ _ => Some (None, s)
  | Reject _ _ => Some (None, s)
  end.

Lemma happy_sound X (e : rmqE X) s x s' : happy X e s = Some (x, s') -> rmq_answer X e s x s'.
Proof.
  destruct e; simpl; intros H; repeat case_match; simplify_eq; try done; eauto.
  all: try (split; [|done]); try apply next_id_fresh.
  all: try (apply not_elem_of_dom, next_id_fresh).
  all: try done.
Qed.

(** The same, with a broker that cannot be reached. *)
Definition refusing (X : Type) (e : rmqE X) (s : mem) : option (X * mem) :=
  match e in rmqE X return option (X * mem) with
  | AmqpDial _ _ => Some (Err (new_error "connection refused"), s)
  | e => happy _ e s
  end.

Lemma refusing_sound X (e : rmqE X) s x s' : refusing X e s = Some (x, s') -> rmq_answer X e s x s'.
Proof. destruct e; try apply happy_sound. by intros [= <- <-]. Qed.

(** A consumer's environment: the events its loop receives are scripted;
    handlers reject the body ["bad"], and ["?"] is not JSON. *)
Definition script := (mem * list consume_event * list batch_event)%type.

Definition scripted (X : Type) (e : rmqE X) (s : script) : option (X * script) :=
  let '(m, cs, bs) := s in
  match e in rmqE X return option (X * script) with
  | SelectConsume _ => match cs with ev :: cs' => Some (ev, (m, cs', bs)) | [] => None end
  | SelectBatch _ => match bs with ev :: bs' => Some (ev, (m, cs, bs')) | [] => None end
  | JsonUnmarshal b =>
      Some (if String.eqb b "?" then Err (new_error "invalid character") else Ok b, s)
  | Handle msg _ =>
      Some (if String.eqb msg "bad" then inl (Some (new_error "failed")) else inl None, s)
  | HandleBatch msgs _ =>
      Some (if existsb (String.eqb "bad") msgs then inl (Some (new_error "failed")) else inl None, s)
  | e => match happy _ e m with Some (x, m') => Some (x, (m', cs, bs)) | None => None end
  end.
