(* ===== verification/RmqPool.v ===== *)
(** * RmqPool: the pool of publisher channels ([rabbitmq/pool.go])

    The pool is a buffered Go channel of AMQP channels together with an
    atomic flag; its methods run concurrently on both.  The mutex of the
    source is only taken by [close], after a compare-and-swap that succeeds
    once, and protects nothing else: it has no counterpart here. *)

From stdpp Require Import base gmap strings list sets pretty.
From Stdlib Require Import ZArith Lia.
From S2P Require Import Prelude Effects GoChan RmqConfig RmqEvents.

Open Scope Z_scope.
Open Scope go_scope.

(** [newChannelPool(size)] *)
Definition newChannelPool (size : Z) : gochan amqpCh * bool :=
  (make_chan (Z.to_nat size), false).

(** One iteration of [fill]'s loop. *)
Definition fill_one (conn : amqpConn) (enableConfirms onReturn : bool) (i : nat)
  : prog rmqE (outcome (option error)) :=
  let! r := call (ConnChannel (Some conn)) in
  match r with
  | Err err =>
      Ret (Return (Some (wrap ("failed to create channel " +:+ pretty i +:+ ": ") err)))
  | Ok ch =>
      let* cerr := if enableConfirms then call (ChConfirm ch) else Ret None in
      match cerr with
      | Some err =>
          call (ChClose ch) ;;;
          Ret (Return (Some (wrap ("failed to enable confirms on channel "
                                   +:+ pretty i +:+ ": ") err)))
      | None =>
          (if onReturn
           then call (ChNotifyReturn ch) ;;; call (Go (GoForwardReturns ch))
           else Ret tt) ;;;
          let! _ := call (PoolSend ch) in
          Ret (Return None)
      end
  end.

Fixpoint fill_from (conn : amqpConn) (enableConfirms onReturn : bool) (i n : nat)
  : prog rmqE (outcome (option error)) :=
  match n with
  | O => Ret (Return None)
  | S n' =>
      let! r := fill_one conn enableConfirms onReturn i in
      match r with
      | Some err => Ret (Return (Some err))
      | None => fill_from conn enableConfirms onReturn (S i) n'
      end
  end.

Definition fill (size : Z) (conn : amqpConn) (enableConfirms onReturn : bool)
  : prog rmqE (outcome (option error)) :=
  fill_from conn enableConfirms onReturn 0 (Z.to_nat size).

(** The goroutine that [fill] starts per channel: it ends when the library
    closes the notification channel. *)
Fixpoint forward_returns (fuel : nat) (ch : amqpCh) : prog rmqE (outcome unit) :=
  match fuel with
  | O => Ret OutOfFuel
  | S fuel' =>
      let* (more : bool) := call (NextReturn ch) in
      if more then call (OnReturnCall ch) ;;; forward_returns fuel' ch
      else Ret (Return tt)
  end.

Definition get : prog rmqE (result amqpCh) :=
  let* (closed : bool) := call PoolClosedLoad in
  if closed then Ret (Err (new_error "channel pool is closed"))
  else
    let* x := call PoolRecvOrDone in
    match x with
    | inl (Some ch) =>
        let* (dead : bool) := call (ChIsClosed ch) in
        if negb dead then Ret (Ok ch) else Ret (Err (new_error "channel is closed"))
    | inl None => Ret (Err (new_error "channel is closed"))
    | inr err => Ret (Err err)
    end.

Definition returnCh (och : option amqpCh) : prog rmqE (outcome unit) :=
  match och with
  | None => Ret (Return tt)
  | Some ch =>
      let* (dead : bool) := call (ChIsClosed ch) in
      if dead then Ret (Return tt)
      else
        let* (closed : bool) := call PoolClosedLoad in
        if closed then call (ChClose ch) ;;; Ret (Return tt)
        else
          let! (sent : bool) := call (PoolTrySend ch) in
          if sent then Ret (Return tt)
          else call (ChClose ch) ;;; Ret (Return tt)
  end.

(** [if ch != nil && !ch.IsClosed() { ch.Close() }] *)
Definition close_if_open (och : option amqpCh) : prog rmqE unit :=
  match och with
  | None => Ret tt
  | Some ch =>
      let* (dead : bool) := call (ChIsClosed ch) in
      if negb dead then call (ChClose ch) else Ret tt
  end.

Fixpoint drain (fuel : nat) : prog rmqE (outcome unit) :=
  match fuel with
  | O => Ret OutOfFuel
  | S fuel' =>
      let* r := call PoolTryRecv in
      match r with
      | Some och => close_if_open och ;;; drain fuel'
      | None => Ret (Return tt)
      end
  end.

(** [for ch := range p.channels] on the closed pool. *)
Fixpoint close_rest (fuel : nat) : prog rmqE (outcome unit) :=
  match fuel with
  | O => Ret OutOfFuel
  | S fuel' =>
      let* r := call PoolRecv in
      match r with
      | Some ch => close_if_open (Some ch) ;;; close_rest fuel'
      | None => Ret (Return tt)
      end
  end.

Definition pool_close (fuel : nat) : prog rmqE (outcome unit) :=
  let* (swapped : bool) := call (PoolClosedCAS false true) in
  if negb swapped then Ret (Return tt)
  else
    let! _ := call PoolClose in
    close_rest fuel.

(** ** One method at a time *)

(** The parts of the memory that closing channels leaves alone. *)
Definition same_but_dead (s s' : mem) : Prop :=
  m_pool s' = m_pool s /\ m_pool_closed s' = m_pool_closed s /\
  m_chans s' = m_chans s /\ m_dead_chans s ⊆ m_dead_chans s'.

(** Closing what is still open leaves the channel dead and the rest of the
    memory alone. *)
Lemma close_if_open_total och s Q :
  (forall s' t, same_but_dead s s' ->
     (forall ch, och = Some ch -> ch ∈ m_dead_chans s') -> Q tt s' t) ->
  total rmq_answer (close_if_open och) s Q.
Proof.
  unfold same_but_dead. intros HQ. destruct och as [ch|]; simpl; [|by apply HQ].
  split; [by exists true; eauto|]. intros dead s1 [Hd ->]. destruct dead; simpl.
  - apply HQ; simpl; set_solver.
  - split; [by exists tt; eauto|]. intros [] s2 ->. apply HQ; simpl; set_solver.
Qed.

#[local] Opaque close_if_open.

(** On a pool that is not closed, [drain] ends: one round per buffered
    channel and one to find the pool empty. *)
Lemma drain_open fuel s :
  chan_closed (m_pool s) = false -> (length (buffer (m_pool s)) < fuel)%nat ->
  total rmq_answer (drain fuel) s (fun out s' _ =>
    out = Return tt /\ m_pool s' = with_buffer (m_pool s) [] /\
    m_pool_closed s' = m_pool_closed s /\ m_chans s' = m_chans s /\
    m_dead_chans s ⊆ m_dead_chans s' /\
    forall ch, ch ∈ buffer (m_pool s) -> ch ∈ m_dead_chans s').
Proof.
  revert s. induction fuel as [|fuel IH]; intros s Hc Hlen; [lia|]. simpl.
  destruct (m_pool s) as [[|ch b] n c] eqn:Hp; unfold chan_recv; simpl in *; subst c.
  - split; [eauto|]. intros x s1 [-> ->]. simpl. rewrite Hp. unfold with_buffer. set_solver.
  - split; [eauto|]. intros x s1 [-> ->]. apply total_bind, close_if_open_total.
    intros s2 t (Hp2 & Hc2 & Hs2 & Hd2) Hch. simpl in *.
    specialize (IH s2). rewrite Hp2 in IH.
    eapply total_mono; [|apply IH; simpl; [done|lia]].
    intros out s' t' (-> & Hp' & Hc' & Hs' & Hd' & Hb). simpl in *.
    specialize (Hch ch eq_refl). split_and!; [done|done|congruence|congruence|set_solver|].
    intros ch' [->|Hin]%elem_of_cons; set_solver.
Qed.

(** On a closed pool it never does: the empty closed channel always has a
    nil to receive. *)
Lemma drain_closed fuel s :
  chan_closed (m_pool s) = true ->
  wp rmq_answer (drain fuel) s (fun out _ _ => out = OutOfFuel).
Proof.
  revert s. induction fuel as [|fuel IH]; intros s Hc; [done|]. simpl.
  destruct (m_pool s) as [b n c] eqn:Hp. simpl in Hc. subst c.
  intros x s1 Hx.
  assert (Hs1 : exists och, x = Some och /\ chan_closed (m_pool s1) = true).
  { unfold chan_recv in Hx. destruct b as [|ch b]; simpl in Hx; destruct Hx as [-> ->]; eauto. }
  destruct Hs1 as (och & -> & Hs1). apply wp_bind, total_wp, close_if_open_total.
  intros s2 t (Hp2 & _) _. eapply wp_mono; [|apply IH; by rewrite Hp2]. done.
Qed.

(** Filling: with room for it, one iteration adds one new channel, or stops
    with an error and leaves the buffer alone. *)
Definition filled_one (s : mem) (out : outcome (option error)) (s' : mem) : Prop :=
  m_pool_closed s' = m_pool_closed s /\
  match out with
  | Return None => exists ch, (ch ∉ m_chans s) /\ m_chans s' = {[ch]} ∪ m_chans s /\
      m_dead_chans s' = m_dead_chans s /\
      m_pool s' = with_buffer (m_pool s) (buffer (m_pool s) ++ [ch])
  | Return (Some _) => m_chans s ⊆ m_chans s' /\ m_pool s' = m_pool s
  | _ => False
  end.

Lemma fill_one_total conn confirms ret i s :
  chan_closed (m_pool s) = false ->
  (length (buffer (m_pool s)) < capacity (m_pool s))%nat ->
  total rmq_answer (fill_one conn confirms ret i) s (fun out s' _ => filled_one s out s').
Proof.
  intros Hc Hlen. unfold filled_one.
  simpl. split; [by exists (Return (Err (new_error ""))), s|].
  intros [[ch|err]|v|] s1; [|intros ->; simpl; set_solver|done|done].
  intros [Hfresh ->]. simpl.
  assert (Hsend : chan_send (m_pool s) ch
                  = Some (Return tt, with_buffer (m_pool s) (buffer (m_pool s) ++ [ch]))).
  { unfold chan_send. rewrite Hc. by apply Nat.ltb_lt in Hlen as ->. }
  assert (Hput : total rmq_answer
    ((if ret then call (ChNotifyReturn ch) ;;; call (Go (GoForwardReturns ch)) else Ret tt) ;;;
     let! _ := call (PoolSend ch) in Ret (Return (@None error))) (add_chan s ch)
    (fun out s' _ => filled_one s out s')).
  { unfold filled_one. destruct ret; simpl.
    - split; [by exists tt; eauto|]. intros _ s1 ->. split; [by exists tt; eauto|].
      intros _ s1 ->. simpl. rewrite Hsend. split; [eauto|].
      intros x s1 (p & [= <- <-] & ->). simpl. eauto 10.
    - rewrite Hsend. split; [eauto|].
      intros x s1 (p & [= <- <-] & ->). simpl. eauto 10. }
  destruct confirms; simpl; [|exact Hput].
  split; [by exists None; eauto|]. intros [err|] s1 ->; [|exact Hput].
  simpl. split; [by exists tt; eauto|]. intros _ s1 ->. simpl. set_solver.
Qed.

#[local] Opaque fill_one.

(** The whole loop, with room for every channel: it never blocks and never
    panics, and ends with one new channel per iteration or with an error. *)
Lemma fill_from_total conn confirms ret i n s :
  chan_closed (m_pool s) = false ->
  (length (buffer (m_pool s)) + n <= capacity (m_pool s))%nat ->
  total rmq_answer (fill_from conn confirms ret i n) s (fun out s' _ =>
    m_pool_closed s' = m_pool_closed s /\ m_chans s ⊆ m_chans s' /\
    exists chs, m_pool s' = with_buffer (m_pool s) (buffer (m_pool s) ++ chs) /\
      NoDup chs /\ (forall ch, ch ∈ chs -> (ch ∉ m_chans s) /\ ch ∈ m_chans s') /\
      match out with
      | Return None => length chs = n /\ m_dead_chans s' = m_dead_chans s
      | Return (Some _) => True
      | _ => False
      end).
Proof.
  revert i s. induction n as [|n IH]; intros i s Hc Hroom; simpl.
  - split_and!; [done..|]. exists []. rewrite app_nil_r. destruct (m_pool s).
    split_and!; [done|constructor|by intros ch ?%elem_of_nil|done|done].
  - apply total_bind. eapply total_mono; [|apply fill_one_total; [done|lia]].
    intros [[err|]|v|] s1 t1 [Hpc H1]; [|destruct H1 as (ch & Hnew & Hs1 & Hd1 & Hp1)|done|done].
    + destruct H1 as [Hs1 Hp1]. simpl. split_and!; [done|done|]. exists [].
      rewrite app_nil_r, Hp1. destruct (m_pool s).
      split_and!; [done|constructor|by intros ch ?%elem_of_nil|done].
    + eapply total_mono; [|apply IH; rewrite Hp1; simpl; rewrite ?length_app; simpl; [done|lia]].
      intros out s' t' (Hpc' & Hs' & chs & Hp' & Hnd & Hin & Hout). simpl.
      rewrite Hs1 in Hs', Hin. clear IH Hroom.
      split_and!; [congruence|set_solver|]. exists (ch :: chs).
      split_and!.
      * by rewrite Hp', Hp1; unfold with_buffer; simpl; rewrite <- app_assoc.
      * constructor; [|done]. intros Hch. apply (Hin ch Hch). set_solver.
      * intros c [->|Hc']%elem_of_cons; [set_solver|]. destruct (Hin c Hc'). set_solver.
      * destruct out as [[|]| |]; try done. destruct Hout as [<- Hd]. simpl.
        split; [done|congruence].
Qed.

#[local] Opaque drain fill_from.

(** What [connect] does to the pool.  On a pool made for [size]
    channels and not closed, draining and filling never blocks and never
    panics, closes every channel that was pooled before, and ends either
    with an error or with exactly [size] distinct channels in the pool, all
    of them newly opened and none of them one that was pooled before. *)
Lemma pool_refill size fuel conn confirms ret s :
  chan_closed (m_pool s) = false -> bounded (m_pool s) ->
  capacity (m_pool s) = Z.to_nat size -> (Z.to_nat size < fuel)%nat ->
  (forall ch, ch ∈ buffer (m_pool s) -> ch ∈ m_chans s) ->
  total rmq_answer (let! _ := drain fuel in fill size conn confirms ret) s (fun out s' _ =>
    (forall ch, ch ∈ buffer (m_pool s) -> ch ∉ buffer (m_pool s')) /\
    match out with
    | Return None =>
        length (buffer (m_pool s')) = Z.to_nat size /\ NoDup (buffer (m_pool s')) /\
        (forall ch, ch ∈ buffer (m_pool s) -> ch ∈ m_dead_chans s') /\
        forall ch, ch ∈ buffer (m_pool s') -> ch ∉ m_chans s
    | Return (Some _) => True
    | _ => False
    end).
Proof.
  intros Hc Hb Hcap Hfuel Hold. unfold bounded in Hb. apply total_bind.
  eapply total_mono; [|apply drain_open; [done|lia]].
  intros out s1 t1 (-> & Hp1 & _ & Hs1 & _ & Hdead). unfold fill.
  eapply total_mono; [|apply fill_from_total; rewrite Hp1; simpl; [done|lia]].
  intros out s' t' (_ & _ & chs & Hp' & Hnd & Hin & Hout).
  assert (Hbuf : buffer (m_pool s') = chs) by by rewrite Hp', Hp1.
  rewrite Hbuf. rewrite Hs1 in Hin. split.
  - intros ch Hch Hch'. apply (Hin ch Hch'). by apply Hold.
  - destruct out as [[err|]| |]; try done. destruct Hout as [<- Hd].
    split_and!; [done|done| |]; intros ch Hch; [rewrite Hd; by apply Hdead|by apply Hin].
Qed.

(** ** Closing *)

Lemma close_rest_total fuel s :
  chan_closed (m_pool s) = true -> (length (buffer (m_pool s)) < fuel)%nat ->
  total rmq_answer (close_rest fuel) s (fun out s' _ =>
    out = Return tt /\ m_pool s' = with_buffer (m_pool s) [] /\
    m_pool_closed s' = m_pool_closed s /\ m_dead_chans s ⊆ m_dead_chans s' /\
    forall ch, ch ∈ buffer (m_pool s) -> ch ∈ m_dead_chans s').
Proof.
  revert s. induction fuel as [|fuel IH]; intros s Hc Hlen; [lia|]. simpl.
  destruct (m_pool s) as [[|ch b] n c] eqn:Hp; unfold chan_recv; simpl in *; subst c.
  - split; [eauto|]. intros x s1 (p & [= <- <-] & ->). simpl. unfold with_buffer. set_solver.
  - split; [eauto|]. intros x s1 (p & [= <- <-] & ->). apply total_bind, close_if_open_total.
    intros s2 t (Hp2 & Hc2 & _ & Hd2) Hch. simpl in *.
    specialize (IH s2). rewrite Hp2 in IH.
    eapply total_mono; [|apply IH; simpl; [done|lia]].
    intros out s' t' (-> & Hp' & Hc' & Hd' & Hb). simpl in *.
    specialize (Hch ch eq_refl). split_and!; [done|done|congruence|set_solver|].
    intros ch' [->|Hin]%elem_of_cons; set_solver.
Qed.

#[local] Opaque close_rest.

(** The flag and the Go channel are closed together by [close] alone, so
    between calls they agree. *)
Definition pool_flags_agree (s : mem) : Prop := chan_closed (m_pool s) = m_pool_closed s.

Lemma closed_pool_refuses s :
  m_pool_closed s = true ->
  total rmq_answer get s (fun r s2 _ =>
    r = Err (new_error "channel pool is closed") /\ s2 = s) /\
  forall ch, total rmq_answer (returnCh (Some ch)) s (fun r s2 _ =>
    r = Return tt /\ m_pool s2 = m_pool s /\ ch ∈ m_dead_chans s2).
Proof.
  intros Hc. split.
  - simpl. split; [eauto|]. intros x s2 [-> ->]. by rewrite Hc.
  - intros ch. simpl. split; [by exists true; eauto|].
    intros dead s2 [Hd ->]. destruct dead; simpl; [set_solver|].
    split; [eauto|]. intros x s2 [-> ->]. rewrite Hc. simpl.
    split; [by exists tt; eauto|]. intros _ s2 ->. simpl. set_solver.
Qed.

#[local] Opaque get returnCh.

(** [close] on a pool no other goroutine is using ends without a panic,
    whether it is the first call or a later one; afterwards the pool is
    closed, every channel that was pooled is closed and none is left, [get]
    fails without blocking, and a channel given back is closed, not pooled. *)
Lemma pool_close_spec fuel s :
  pool_flags_agree s -> (length (buffer (m_pool s)) < fuel)%nat ->
  (m_pool_closed s = true -> buffer (m_pool s) = []) ->
  total rmq_answer (pool_close fuel) s (fun out s1 _ =>
    out = Return tt /\ pool_flags_agree s1 /\ m_pool_closed s1 = true /\
    buffer (m_pool s1) = [] /\
    (forall ch, ch ∈ buffer (m_pool s) -> ch ∈ m_dead_chans s1) /\
    total rmq_answer get s1 (fun r s2 _ =>
      r = Err (new_error "channel pool is closed") /\ s2 = s1) /\
    forall ch, total rmq_answer (returnCh (Some ch)) s1 (fun r s2 _ =>
      r = Return tt /\ m_pool s2 = m_pool s1 /\ ch ∈ m_dead_chans s2)).
Proof.
  unfold pool_flags_agree. intros Hag Hlen Hempty.
  unfold pool_close. simpl. destruct (m_pool_closed s) eqn:Hpc.
  - destruct (decide (true = false)); [done|]. split; [eauto|].
    intros x s1 [-> ->]. simpl. rewrite Hempty by done.
    destruct (closed_pool_refuses s Hpc) as [Hg Hr].
    by split_and!; [|congruence| | |intros ch ?%elem_of_nil| |].
  - destruct (decide (false = false)); [|done]. split; [eauto|].
    intros x s1 [-> ->]. simpl. unfold chan_close. rewrite Hag. simpl.
    split; [eauto|]. intros x s1 [-> ->]. simpl.
    eapply total_mono; [|apply close_rest_total; simpl; [done|lia]].
    simpl. intros out s' t (-> & Hp' & Hc' & _ & Hdead).
    destruct (closed_pool_refuses s' Hc') as [Hg Hr].
    by split_and!; [|rewrite Hp', Hc'| |rewrite Hp'| | |].
Qed.

(** ** What the pool's methods leave alone *)

(** The calls the pool's methods make. *)
Definition pool_call (X : Type) (e : rmqE X) : bool :=
  match e with
  | PoolClosedLoad | PoolClosedCAS _ _ | PoolSend _ | PoolTrySend _ | PoolTryRecv
  | PoolRecvOrDone | PoolRecv | PoolClose | ConnChannel _ | ChConfirm _ | ChClose _
  | ChIsClosed _ | ChNotifyReturn _ | Go (GoForwardReturns _) => true
  | _ => false
  end.

(** The memory outside the pool and the channels. *)
Definition outside_pool (s : mem) :=
  (m_state s, m_closing s, m_pub s, m_cons s, (m_exchanges s, m_queues s, m_bindings s),
   m_heap s, m_conns s, m_dead_conns s).

Lemma pool_call_keeps X (e : rmqE X) x s s' v :
  pool_call X e = true -> rmq_answer X e s x s' ->
  outside_pool s = v -> outside_pool s' = v.
Proof.
  intros Hd Ha <-. destruct e; try done; simpl in Ha; repeat case_match; naive_solver.
Qed.

#[local] Transparent drain fill_one fill_from close_if_open get returnCh close_rest.

Lemma close_if_open_only och : only pool_call (close_if_open och).
Proof. destruct och; simpl; [|done]. split; [done|]. by intros []. Qed.
#[local] Opaque close_if_open.

Lemma drain_only fuel : only pool_call (drain fuel).
Proof.
  induction fuel as [|fuel IH]; simpl; [done|]. split; [done|]. intros [och|]; [|done].
  apply only_bind; [apply close_if_open_only|done].
Qed.

Lemma fill_one_only conn confirms ret i : only pool_call (fill_one conn confirms ret i).
Proof.
  apply only_try; [done|]. intros [ch|err]; [|done].
  apply only_bind; [by destruct confirms|]. intros [err|]; [done|].
  apply only_bind; [by destruct ret|]. intros _. split; [done|]. by intros [].
Qed.
#[local] Opaque fill_one.

Lemma fill_only size conn confirms ret : only pool_call (fill size conn confirms ret).
Proof.
  unfold fill. generalize 0%nat as i. induction (Z.to_nat size) as [|n IH]; intros i; [done|].
  apply only_try; [apply fill_one_only|]. by intros [err|].
Qed.

Lemma pool_close_only fuel : only pool_call (pool_close fuel).
Proof.
  assert (Hr : only pool_call (close_rest fuel)).
  { induction fuel as [|fuel IH]; simpl; [done|]. split; [done|]. intros [ch|]; [|done].
    apply only_bind; [apply close_if_open_only|done]. }
  split; [done|]. intros []; simpl; [|done]. split; [done|]. by intros [].
Qed.

Lemma get_only : only pool_call get.
Proof.
  split; [done|]. intros []; [done|]. split; [done|]. intros [[ch|]|err]; [|done|done].
  split; [done|]. by intros [].
Qed.

Lemma returnCh_only och : only pool_call (returnCh och).
Proof.
  destruct och as [ch|]; [|done]. split; [done|]. intros []; [done|].
  split; [done|]. intros []; [done|]. split; [done|]. by intros [[]| |].
Qed.

(** So they do not touch the rest of the memory. *)
Lemma outside_pool_kept {A} (p : prog rmqE A) s :
  only pool_call p -> wp rmq_answer p s (fun _ s' _ => outside_pool s' = outside_pool s).
Proof.
  intros Hc. eapply wp_only; [|exact Hc|done].
  intros X e x s1 s2 Hd Ha. by eapply pool_call_keeps.
Qed.

(** C22: Once the pool is closed, [drain] never returns, however long it
    runs and whatever the library answers: the receive from the closed Go
    channel always succeeds with nil, so the [default] branch is never
    taken. *)
Theorem drain_after_close_never_returns fuel s t out s' :
  chan_closed (m_pool s) = true -> mexec rmq_answer (drain fuel) s t out s' -> out = OutOfFuel.
Proof.
  intros Hc Hx. pose proof (drain_closed fuel s Hc) as Hw.
  rewrite wp_mexec in Hw. by apply (Hw t out s').
Qed.

(** ** Examples *)

(** A client's memory with the channels [chs] pooled. *)
Definition pool_mem (size : nat) (chs : list amqpCh) (closed : bool) : mem :=
  Mem StateConnecting false None None (Chan chs size closed) closed [] [] []
      ∅ (list_to_set chs) ∅ ∅ ∅.


Lemma drain_after_close_never_returns_witness :
  chan_closed (m_pool (pool_mem 2 [] true)) = true /\
  mexec rmq_answer (drain 2) (pool_mem 2 [] true)
    [Obs PoolTryRecv (Some None); Obs PoolTryRecv (Some None)] OutOfFuel (pool_mem 2 [] true) /\
  @OutOfFuel unit = OutOfFuel.
Proof.
  assert (Hx : mexec rmq_answer (drain 2) (pool_mem 2 [] true)
    [Obs PoolTryRecv (Some None); Obs PoolTryRecv (Some None)] OutOfFuel (pool_mem 2 [] true)).
  { simpl. do 2 (eexists _, _, _; split; [reflexivity|]; split; [split; reflexivity|]).
    repeat split. }
  split; [reflexivity|]. split; [exact Hx|].
  exact (drain_after_close_never_returns 2 (pool_mem 2 [] true) _ _ _ eq_refl Hx).
Defined.
