(* ===== verification/RmqClient.v ===== *)
(** * RmqClient: connections of the RabbitMQ client ([rabbitmq/client.go])

    Dialling, connecting, handing out channels and closing.  What happens
    after a connection is lost is in RmqReconnect. *)

From stdpp Require Import base gmap strings list sets.
From Stdlib Require Import ZArith Lia.
From S2P Require Import Prelude Effects GoChan RmqConfig RmqEvents RmqPool.

Open Scope Z_scope.
Open Scope go_scope.

Definition ErrNotConnected : sentinel :=
  MkSentinel "rabbitmq.ErrNotConnected" "rabbitmq: client not connected".

(** The conversion [uint16(n)]. *)
Definition uint16 (n : Z) : Z := n mod 2 ^ 16.

Definition dial_config (c : Config) (connType : string) : DialConfig := {|
  d_Locale := "en_US";
  d_connection_name := ConnectionName c +:+ "-" +:+ connType;
  d_Heartbeat := if 0 <? Heartbeat c then Heartbeat c else 0;
  d_ChannelMax := if 0 <? ChannelMax c then uint16 (ChannelMax c) else 0;
  d_FrameSize := if 0 <? FrameSize c then FrameSize c else 0
|}.

Definition dial (c : Config) (connType : string) : prog rmqE (result amqpConn) :=
  let* r := call (AmqpDial (URL c) (dial_config c connType)) in
  match r with
  | Err err => Ret (Err err)
  | Ok conn => Ret (Ok conn)
  end.

Definition setupNotifyHandlers : prog rmqE unit :=
  let* pub := call ReadConns in
  call (Go (GoHandleClose pub.1)) ;;;
  let* con := call ReadConns in
  call (Go (GoHandleClose con.2)).

(** From the assignment of the connection pointers on. *)
Definition connect_with (fuel : nat) (c : Config) (pubConn consConn : amqpConn)
  : prog rmqE (outcome (option error)) :=
  call (SetConns pubConn consConn) ;;;
  let! ferr := let! _ := drain fuel in
               fill (ChannelPoolSize c) pubConn (PublisherConfirms c) (OnReturn c) in
  match ferr with
  | Some err =>
      call (ConnClose pubConn) ;;;
      call (ConnClose consConn) ;;;
      Ret (Return (Some (wrap "channel pool initialization failed: " err)))
  | None =>
      call (StateStore StateConnected) ;;;
      setupNotifyHandlers ;;;
      call (Go (GoHandleBlocked pubConn)) ;;;
      call (Go (GoHandleBlocked consConn)) ;;;
      Ret (Return None)
  end.

Definition connect (fuel : nat) (c : Config) : prog rmqE (outcome (option error)) :=
  call (StateStore StateConnecting) ;;;
  let* pub := dial c "publisher" in
  match pub with
  | Err err => Ret (Return (Some (wrap "publisher connection failed: " err)))
  | Ok pubConn =>
      let* con := dial c "consumer" in
      match con with
      | Err err =>
          call (ConnClose pubConn) ;;;
          Ret (Return (Some (wrap "consumer connection failed: " err)))
      | Ok consConn => connect_with fuel c pubConn consConn
      end
  end.

(** The struct literal of [NewClient]: nothing connected, an empty pool and
    an empty topology cache. *)
Definition new_client (c : Config) : mem :=
  let '(channels, closed) := newChannelPool (ChannelPoolSize c) in
  Mem StateDisconnected false None None channels closed [] [] [] ∅ ∅ ∅ ∅ ∅.

(** [NewClient], over the memory of the struct literal. *)
Definition NewClient (fuel : nat) (config : option Config)
  : prog rmqE (outcome (result Config)) :=
  match config with
  | None => Ret (Return (Err (new_error "rabbitmq: config nil")))
  | Some c =>
      match ApplyDefaults c with
      | Some err => Ret (Return (Err (wrap "rabbitmq: " err)))
      | None =>
          call (StateStore StateDisconnected) ;;;
          let! r := connect fuel c in
          match r with
          | Some err => Ret (Return (Err (wrap "rabbitmq: initial connection failed: " err)))
          | None => Ret (Return (Ok c))
          end
      end
  end.

(** Watch for broker alarms: only logging, until the connection or the
    client is closed. *)
Fixpoint handleConnectionBlocked (fuel : nat) (conn : amqpConn) : prog rmqE (outcome unit) :=
  match fuel with
  | O => Ret OutOfFuel
  | S fuel' =>
      let* ev := call (CloseOrBlocked conn) in
      match ev with
      | BlockedCloseChan => Ret (Return tt)
      | BlockedClosed => Ret (Return tt)
      | BlockedMsg _ => handleConnectionBlocked fuel' conn
      end
  end.

Definition GetPublisherChannel : prog rmqE (result amqpCh) :=
  let* st := call StateLoad in
  if negb (bool_decide (st = StateConnected)) then Ret (Err (Sentinel ErrNotConnected))
  else get.

Definition ReturnPublisherChannel (ch : option amqpCh) : prog rmqE (outcome unit) := returnCh ch.

Definition CreateConsumerChannel : prog rmqE (outcome (result amqpCh)) :=
  let* st := call StateLoad in
  if negb (bool_decide (st = StateConnected)) then Ret (Return (Err (Sentinel ErrNotConnected)))
  else
    let* conns := call ReadConns in
    let! r := call (ConnChannel conns.2) in
    match r with
    | Err err => Ret (Return (Err (wrap "failed to create consumer channel: " err)))
    | Ok ch => Ret (Return (Ok ch))
    end.

(** [if conn != nil && !conn.IsClosed() { conn.Close() }] *)
Definition close_conn_if_open (conn : option amqpConn) : prog rmqE unit :=
  match conn with
  | None => Ret tt
  | Some cn =>
      let* (dead : bool) := call (ConnIsClosed cn) in
      if negb dead then call (ConnClose cn) else Ret tt
  end.

Definition Close (fuel : nat) : prog rmqE (outcome (option error)) :=
  call (StateStore StateClosing) ;;;
  let! _ := call CloseChanClose in
  let! _ := pool_close fuel in
  let* conns := call ReadConns in
  close_conn_if_open conns.1 ;;;
  close_conn_if_open conns.2 ;;;
  Ret (Return None).

Definition IsHealthy : prog rmqE bool :=
  let* st := call StateLoad in Ret (bool_decide (st = StateConnected)).

Definition GetState : prog rmqE ConnectionState := call StateLoad.

(** ** Connecting *)

#[local] Opaque drain fill.

(** The memory a connection attempt starts from: an open pool made for the
    configured size that holds only channels of the library. *)
Definition pool_ready (c : Config) (s : mem) : Prop :=
  chan_closed (m_pool s) = false /\ m_pool_closed s = false /\ bounded (m_pool s) /\
  capacity (m_pool s) = Z.to_nat (ChannelPoolSize c) /\
  (forall ch, ch ∈ buffer (m_pool s) -> ch ∈ m_chans s).

(** What the two connections dialled by a successful attempt look like. *)
Definition connected (c : Config) (s s' : mem) : Prop :=
  exists pub con,
    (pub ∉ m_conns s) /\ (con ∉ m_conns s) /\ pub <> con /\
    m_pub s' = Some pub /\ m_cons s' = Some con /\
    m_conns s' = {[con]} ∪ ({[pub]} ∪ m_conns s) /\
    m_dead_conns s' = m_dead_conns s /\
    length (buffer (m_pool s')) = Z.to_nat (ChannelPoolSize c) /\
    NoDup (buffer (m_pool s')) /\
    forall ch, ch ∈ buffer (m_pool s') -> ch ∉ m_chans s.

Lemma refill_total size fuel conn confirms ret c s :
  pool_ready c s -> size = ChannelPoolSize c -> (Z.to_nat size < fuel)%nat ->
  total rmq_answer (let! _ := drain fuel in fill size conn confirms ret) s (fun out s' _ =>
    outside_pool s' = outside_pool s /\
    match out with
    | Return None =>
        length (buffer (m_pool s')) = Z.to_nat size /\ NoDup (buffer (m_pool s')) /\
        forall ch, ch ∈ buffer (m_pool s') -> ch ∉ m_chans s
    | Return (Some _) => True
    | _ => False
    end).
Proof.
  intros (Hc & _ & Hb & Hcap & Hold) -> Hfuel.
  eapply total_mono; [|apply total_and; [apply (pool_refill _ _ conn confirms ret); try done|
                                         apply (outside_pool_kept _ s)]].
  - intros out s' t [[_ H] Ho]. split; [done|]. destruct out as [[|]| |]; naive_solver.
  - apply only_try; [apply drain_only|]. intros _. apply fill_only.
Qed.

Lemma connect_with_total fuel c pub con s :
  pool_ready c s -> (Z.to_nat (ChannelPoolSize c) < fuel)%nat ->
  total rmq_answer (connect_with fuel c pub con) s (fun out s' _ =>
    m_conns s' = m_conns s /\
    match out with
    | Return None =>
        m_state s' = StateConnected /\ m_pub s' = Some pub /\ m_cons s' = Some con /\
        m_dead_conns s' = m_dead_conns s /\
        length (buffer (m_pool s')) = Z.to_nat (ChannelPoolSize c) /\
        NoDup (buffer (m_pool s')) /\
        forall ch, ch ∈ buffer (m_pool s') -> ch ∉ m_chans s
    | Return (Some _) =>
        m_state s' = m_state s /\ m_dead_conns s' = {[con]} ∪ ({[pub]} ∪ m_dead_conns s)
    | _ => False
    end).
Proof.
  intros Hr Hfuel. unfold connect_with. cbn [prog_bind call total]. simpl.
  split; [by exists tt; eauto|]. intros _ s1 ->. apply total_bind.
  eapply total_mono; [|by apply (refill_total _ _ pub (PublisherConfirms c) (OnReturn c) c)].
  intros [[err|]|v|] s1 t1 [Ho H]; try done; unfold outside_pool in Ho; simpl in Ho;
    injection Ho as Hst _ Hpub Hcon _ _ _ _ Hconns Hdead; simpl.
  - do 2 mem_step. by rewrite Hconns, Hdead.
  - repeat mem_step. simpl in H. destruct H as (Hl & Hnd & Hnew). by split_and!.
Qed.
#[local] Opaque connect_with.

(** C20: A connection attempt on an idle client with an open pool never
    blocks in the client's own code and never panics.  If it succeeds, the
    state is [StateConnected], the connection pointers are two new, distinct
    connections, neither closed, and the pool holds exactly
    [ChannelPoolSize] distinct new channels.  If it fails, the state stays
    [StateConnecting] and every connection it dialled has been closed. *)
Theorem connect_spec fuel c s :
  pool_ready c s -> (Z.to_nat (ChannelPoolSize c) < fuel)%nat ->
  m_dead_conns s ⊆ m_conns s ->
  total rmq_answer (connect fuel c) s (fun out s' _ =>
    match out with
    | Return None =>
        m_state s' = StateConnected /\ connected c s s' /\
        (forall cn, m_pub s' = Some cn \/ m_cons s' = Some cn -> cn ∉ m_dead_conns s')
    | Return (Some _) =>
        m_state s' = StateConnecting /\
        forall cn, cn ∈ m_conns s' -> cn ∉ m_conns s -> cn ∈ m_dead_conns s'
    | _ => False
    end).
Proof.
  intros Hr Hfuel Hsub. unfold connect, dial. simpl.
  split; [by exists tt; eauto|]. intros _ s1 ->. simpl.
  split; [by exists (Err (new_error "")); eauto|].
  intros [pub|err] s1; simpl; [|intros ->; simpl; naive_solver].
  intros [Hpub ->]. simpl. split; [by exists (Err (new_error "")); eauto|].
  intros [con|err] s1; simpl.
  - intros [Hcon ->]. simpl. eapply total_mono; [|by apply connect_with_total].
    intros [[err|]|v|] s' t; simpl; [| |naive_solver..].
    + intros (Hconns & Hst & Hdead). rewrite Hconns, Hdead. split; [done|]. set_solver.
    + intros (Hconns & Hst & Hp & Hc & Hdead & Hlen & Hnd & Hnew).
      split; [done|]. split; [|rewrite Hp, Hc, Hdead; set_solver].
      exists pub, con. split_and!; try done; set_solver.
  - intros ->. simpl. split; [by exists tt; eauto|]. intros _ s1 ->. simpl. set_solver.
Qed.

(** ** Closing *)

Lemma close_conn_if_open_total conn s Q :
  (forall s' t, m_dead_conns s ⊆ m_dead_conns s' ->
     (forall cn, conn = Some cn -> cn ∈ m_dead_conns s') ->
     m_state s' = m_state s -> m_closing s' = m_closing s -> m_pool s' = m_pool s ->
     m_dead_chans s' = m_dead_chans s -> Q tt s' t) ->
  total rmq_answer (close_conn_if_open conn) s Q.
Proof.
  intros HQ. destruct conn as [cn|]; simpl; [|by apply HQ].
  split; [by exists true; eauto|]. intros dead s1 [Hd ->]. destruct dead; simpl.
  - apply HQ; simpl; set_solver.
  - split; [by exists tt; eauto|]. intros [] s2 ->. apply HQ; simpl; set_solver.
Qed.

#[local] Opaque pool_close close_conn_if_open.

(** C21: Closing an open client while no other goroutine runs never blocks
    and returns nil.  It leaves the state [StateClosing], the close channel
    closed, both connections closed, the pool closed and empty and every
    channel that was pooled closed.  A second call panics, because it closes
    the close channel again. *)
Theorem Close_spec fuel s :
  m_closing s = false -> pool_flags_agree s -> m_pool_closed s = false ->
  (length (buffer (m_pool s)) < fuel)%nat ->
  total rmq_answer (Close fuel) s (fun out s1 _ =>
    out = Return None /\ m_state s1 = StateClosing /\ m_closing s1 = true /\
    (forall cn, m_pub s = Some cn \/ m_cons s = Some cn -> cn ∈ m_dead_conns s1) /\
    chan_closed (m_pool s1) = true /\ buffer (m_pool s1) = [] /\
    (forall ch, ch ∈ buffer (m_pool s) -> ch ∈ m_dead_chans s1) /\
    total rmq_answer (Close fuel) s1 (fun out2 _ _ => out2 = Panic "close of closed channel")).
Proof.
  intros Hcl Hag Hpc Hlen. unfold Close at 1. simpl. mem_step. rewrite Hcl. mem_step.
  apply total_bind. eapply total_mono; [|apply total_and; [apply (pool_close_spec _ _); simpl|
    apply outside_pool_kept, pool_close_only]]; [|done|lia|by rewrite Hpc].
  intros out sp t1 [(-> & Hag1 & Hpc1 & Hbuf & Hdead & _) Ho].
  unfold outside_pool in Ho. simpl in Ho. injection Ho as Hst Hc1 Hpub Hcon _ _ _ _ _ _.
  simpl. split; [eauto|]. intros conns sr [-> ->]. simpl. apply total_bind, close_conn_if_open_total.
  intros sq t2 Hd2 Hp2 Hst2 Hc2 Hpool2 Hch2. apply total_bind, close_conn_if_open_total.
  intros sc t3 Hd3 Hp3 Hst3 Hc3 Hpool3 Hch3. apply total_ret.
  assert (Hclosing : m_closing sc = true) by congruence.
  refine (conj eq_refl (conj _ (conj Hclosing (conj _ (conj _ (conj _ (conj _ _))))))).
  - congruence.
  - intros cn [H|H]; rewrite H in *; set_solver.
  - unfold pool_flags_agree in Hag1. congruence.
  - congruence.
  - rewrite Hch3, Hch2. done.
  - unfold Close. simpl. mem_step. rewrite Hclosing. by mem_step.
Qed.

(** ** Examples *)

Definition example_config : Config := with_URL NewDefaultConfig "amqp://localhost".

Lemma connect_spec_witness :
  pool_ready example_config (new_client example_config) /\
  total rmq_answer (connect 11 example_config) (new_client example_config) (fun out s' _ =>
    match out with
    | Return None =>
        m_state s' = StateConnected /\ connected example_config (new_client example_config) s' /\
        (forall cn, m_pub s' = Some cn \/ m_cons s' = Some cn -> cn ∉ m_dead_conns s')
    | Return (Some _) =>
        m_state s' = StateConnecting /\
        forall cn, cn ∈ m_conns s' -> cn ∉ m_conns (new_client example_config) ->
                   cn ∈ m_dead_conns s'
    | _ => False
    end).
Proof.
  assert (Hr : pool_ready example_config (new_client example_config)).
  { unfold pool_ready, bounded. simpl.
    split_and!; [done|done|lia|done|]. intros ch Hch. by apply elem_of_nil in Hch. }
  split; [exact Hr|]. apply (connect_spec 11 example_config (new_client example_config)).
  - exact Hr.
  - by apply Nat.ltb_lt.
  - simpl. set_solver.
Defined.

Lemma Close_spec_witness :
  m_closing (pool_mem 2 [7%nat] false) = false /\
  total rmq_answer (Close 2) (pool_mem 2 [7%nat] false) (fun out s1 _ =>
    out = Return None /\ m_state s1 = StateClosing /\ m_closing s1 = true /\
    (forall cn, None = Some cn \/ None = Some cn -> cn ∈ m_dead_conns s1) /\
    chan_closed (m_pool s1) = true /\ buffer (m_pool s1) = [] /\
    (forall ch, ch ∈ [7%nat] -> ch ∈ m_dead_chans s1) /\
    total rmq_answer (Close 2) s1 (fun out2 _ _ => out2 = Panic "close of closed channel")).
Proof.
  split; [reflexivity|]. apply (Close_spec 2 (pool_mem 2 [7%nat] false)).
  - reflexivity.
  - reflexivity.
  - reflexivity.
  - simpl. lia.
Defined.
