(* ===== verification/RmqTopology.v ===== *)
(** * RmqTopology: declaring and restoring queues, exchanges and bindings
      ([rabbitmq/topology.go])

    Every declaration that the broker accepts is remembered in the client's
    cache; after a reconnection the cache is replayed.  The argument maps
    are shared by reference between the caller, the cache and the calls. *)

From stdpp Require Import base gmap strings list sets.
From Stdlib Require Import ZArith Lia Ascii.
From S2P Require Import Prelude Effects GoChan RmqConfig RmqEvents RmqRun RmqPool RmqClient.

Open Scope Z_scope.
Open Scope go_scope.

(** The entries of a map argument; a nil map has none. *)
Definition read_args (args : option loc) : prog rmqE Table :=
  match args with
  | None => Ret ∅
  | Some l => call (MapRead l)
  end.

(** [tm.client.config.QueueType == QueueTypeQuorum && config.Durable] *)
Definition wants_quorum (c : Config) (config : QueueConfig) : bool :=
  String.eqb (QueueType_ c) QueueTypeQuorum && q_Durable config.

Definition DeclareQueue (c : Config) (config : QueueConfig)
  : prog rmqE (outcome (result Queue)) :=
  let! r := CreateConsumerChannel in
  match r with
  | Err err => Ret (Return (Err (wrap "failed to create channel: " err)))
  | Ok ch =>
      let* args := match q_Args config with
                   | None => call (MapNew ∅)
                   | Some l => Ret l
                   end in
      (if wants_quorum c config
       then call (MapSet args "x-queue-type" (VString "quorum")) else Ret tt) ;;;
      let* table := call (MapRead args) in
      let* q := call (QueueDeclare ch (q_Name config) (q_Durable config) (q_AutoDelete config)
                        (q_Exclusive config) (q_NoWait config) table) in
      match q with
      | Err err =>
          call (ChClose ch) ;;;
          Ret (Return (Err (wrap ("failed to declare queue " +:+ q_Name config +:+ ": ") err)))
      | Ok queue =>
          call (AppendQueue config) ;;;
          call (ChClose ch) ;;;
          Ret (Return (Ok queue))
      end
  end.

Definition DeclareExchange (config : ExchangeConfig) : prog rmqE (outcome (option error)) :=
  let! r := CreateConsumerChannel in
  match r with
  | Err err => Ret (Return (Some (wrap "failed to create channel: " err)))
  | Ok ch =>
      let* table := read_args (x_Args config) in
      let* e := call (ExchangeDeclare ch (x_Name config) (x_Kind config) (x_Durable config)
                        (x_AutoDelete config) (x_Internal config) (x_NoWait config) table) in
      match e with
      | Some err =>
          call (ChClose ch) ;;;
          Ret (Return (Some (wrap ("failed to declare exchange " +:+ x_Name config +:+ ": ") err)))
      | None =>
          call (AppendExchange config) ;;;
          call (ChClose ch) ;;;
          Ret (Return None)
      end
  end.

Definition BindQueue (config : BindingConfig) : prog rmqE (outcome (option error)) :=
  let! r := CreateConsumerChannel in
  match r with
  | Err err => Ret (Return (Some (wrap "failed to create channel: " err)))
  | Ok ch =>
      let* table := read_args (b_Args config) in
      let* e := call (QueueBind ch (b_QueueName config) (b_RoutingKey config) (b_Exchange config)
                        (b_NoWait config) table) in
      match e with
      | Some err =>
          call (ChClose ch) ;;;
          Ret (Return (Some (wrap ("failed to bind queue " +:+ b_QueueName config
                                   +:+ " to exchange " +:+ b_Exchange config +:+ ": ") err)))
      | None =>
          call (AppendBinding config) ;;;
          call (ChClose ch) ;;;
          Ret (Return None)
      end
  end.

(** [for _, x := range xs { if err := f(x); err != nil { return err } }] *)
Fixpoint for_each {A} (f : A -> prog rmqE (outcome (option error))) (xs : list A)
  : prog rmqE (outcome (option error)) :=
  match xs with
  | [] => Ret (Return None)
  | x :: xs' =>
      let! e := f x in
      match e with
      | Some err => Ret (Return (Some err))
      | None => for_each f xs'
      end
  end.

(** [_, err := r] *)
Definition only_error {A} (p : prog rmqE (outcome (result A))) : prog rmqE (outcome (option error)) :=
  let! r := p in
  match r with
  | Ok _ => Ret (Return None)
  | Err err => Ret (Return (Some err))
  end.

Definition restoreTopology (c : Config) : prog rmqE (outcome (option error)) :=
  let* snap := call SnapshotAndReset in
  let '(exchanges, queues, bindings) := snap in
  let! e1 := for_each DeclareExchange exchanges in
  match e1 with
  | Some err => Ret (Return (Some err))
  | None =>
      let! e2 := for_each (fun q => only_error (DeclareQueue c q)) queues in
      match e2 with
      | Some err => Ret (Return (Some err))
      | None =>
          let! e3 := for_each BindQueue bindings in
          match e3 with
          | Some err => Ret (Return (Some err))
          | None => Ret (Return None)
          end
      end
  end.

(** [if err := p; err != nil { return fmt.Errorf(prefix + "%w", err) }; k] *)
Definition or_wrap {A} (prefix : string) (p : prog rmqE (outcome (option error)))
    (fail : error -> A) (k : prog rmqE (outcome A)) : prog rmqE (outcome A) :=
  let! e := p in
  match e with
  | Some err => Ret (Return (fail (wrap prefix err)))
  | None => k
  end.

Definition SetupDeadLetterExchange (c : Config) (mainQueueName dlxName : string) (retryTTL : Z)
  : prog rmqE (outcome (option error)) :=
  or_wrap "failed to declare DLX: "
    (DeclareExchange (MkExchange dlxName "topic" true false false false None)) Some
  (let retryQueueName := mainQueueName +:+ ".retry" in
   let* retryArgs := call (MapNew (<["x-message-ttl" := VInt retryTTL]>
                                  (<["x-dead-letter-exchange" := VString ""]>
                                  (<["x-dead-letter-routing-key" := VString mainQueueName]> ∅)))) in
   or_wrap "failed to declare retry queue: "
     (only_error (DeclareQueue c (MkQueue retryQueueName true false false false (Some retryArgs))))
     Some
  (or_wrap "failed to bind retry queue: "
     (BindQueue (MkBinding retryQueueName dlxName mainQueueName false None)) Some
  (let parkingLotName := mainQueueName +:+ ".parking-lot" in
   or_wrap "failed to declare parking lot queue: "
     (only_error (DeclareQueue c (MkQueue parkingLotName true false false false None))) Some
  (or_wrap "failed to bind parking lot queue: "
     (BindQueue (MkBinding parkingLotName dlxName (mainQueueName +:+ ".parking-lot") false None))
     Some
  (Ret (Return None)))))).

Definition SetupQueueWithDLX (c : Config) (queueName dlxName : string)
  : prog rmqE (outcome (result Queue)) :=
  let* args := call (MapNew (<["x-dead-letter-exchange" := VString dlxName]>
                            (<["x-dead-letter-routing-key" := VString queueName]> ∅))) in
  (if String.eqb (QueueType_ c) QueueTypeQuorum
   then call (MapSet args "x-queue-type" (VString "quorum")) else Ret tt) ;;;
  let! r := DeclareQueue c (MkQueue queueName true false false false (Some args)) in
  match r with
  | Err err => Ret (Return (Err (wrap "failed to declare main queue with DLX: " err)))
  | Ok queue => Ret (Return (Ok queue))
  end.

(** ** What the broker is told, and what the cache holds *)

Inductive item := IX (x : ExchangeConfig) | IQ (q : QueueConfig) | IB (b : BindingConfig).

(** A declaration as the broker accepts it. *)
Inductive decl :=
| DX (name kind : string) (durable autoDelete internal noWait : bool) (args : Table)
| DQ (name : string) (durable autoDelete exclusive noWait : bool) (args : Table)
| DB (queue key exchange : string) (noWait : bool) (args : Table).

(** The declarations of a trace that the broker accepted, in order. *)
Definition accepted1 (o : obs rmqE) : option decl :=
  match o with
  | Obs e x =>
      match e in rmqE X return X -> option decl with
      | ExchangeDeclare _ n k d a i w args => fun x =>
          match x with None => Some (DX n k d a i w args) | Some _ => None end
      | QueueDeclare _ n d a e w args => fun x =>
          match x with Ok _ => Some (DQ n d a e w args) | Err _ => None end
      | QueueBind _ q k x w args => fun r =>
          match r with None => Some (DB q k x w args) | Some _ => None end
      | _ => fun _ => None
      end x
  end.
Definition accepted (t : list (obs rmqE)) : list decl := omap accepted1 t.

Definition table_of (h : gmap loc Table) (args : option loc) : Table :=
  match args with None => ∅ | Some l => default ∅ (h !! l) end.

(** The declaration an entry stands for. *)
Definition wanted (c : Config) (h : gmap loc Table) (it : item) : decl :=
  match it with
  | IX x => DX (x_Name x) (x_Kind x) (x_Durable x) (x_AutoDelete x) (x_Internal x) (x_NoWait x)
              (table_of h (x_Args x))
  | IQ q => DQ (q_Name q) (q_Durable q) (q_AutoDelete q) (q_Exclusive q) (q_NoWait q)
              (if wants_quorum c q
               then <["x-queue-type" := VString "quorum"]> (table_of h (q_Args q))
               else table_of h (q_Args q))
  | IB b => DB (b_QueueName b) (b_RoutingKey b) (b_Exchange b) (b_NoWait b)
              (table_of h (b_Args b))
  end.

Definition item_args (it : item) : option loc :=
  match it with IX x => x_Args x | IQ q => q_Args q | IB b => b_Args b end.

(** The map of an entry is allocated, and if it is a queue that asks for the
    quorum type, its map says so: what [DeclareQueue] leaves behind. *)
Definition item_ready (c : Config) (h : gmap loc Table) (it : item) : Prop :=
  forall l, item_args it = Some l -> exists t, h !! l = Some t /\
    match it with
    | IQ q => wants_quorum c q = true -> t !! "x-queue-type" = Some (VString "quorum")
    | _ => True
    end.

Definition topo (s : mem) := (m_exchanges s, m_queues s, m_bindings s).

(** The cache in the order it is replayed. *)
Definition items_of (tp : list ExchangeConfig * list QueueConfig * list BindingConfig) : list item :=
  let '(xs, qs, bs) := tp in (IX <$> xs) ++ (IQ <$> qs) ++ (IB <$> bs).
Definition cache (s : mem) : list item := items_of (topo s).

Definition add_item (tp : list ExchangeConfig * list QueueConfig * list BindingConfig) (it : item) :=
  let '(xs, qs, bs) := tp in
  match it with
  | IX x => (xs ++ [x], qs, bs)
  | IQ q => (xs, qs ++ [q], bs)
  | IB b => (xs, qs, bs ++ [b])
  end.

Lemma item_ready_mono c h h' it : h ⊆ h' -> item_ready c h it -> item_ready c h' it.
Proof.
  intros Hh Hr l Hl. destruct (Hr l Hl) as (t & Ht & Hq). exists t.
  split; [by eapply lookup_weaken|done].
Qed.

Lemma wanted_mono c h h' it : h ⊆ h' -> item_ready c h it -> wanted c h' it = wanted c h it.
Proof.
  intros Hh Hr.
  assert (Ht : table_of h' (item_args it) = table_of h (item_args it)).
  { destruct (item_args it) as [l|] eqn:Hl; simpl; [|done].
    destruct (Hr l Hl) as (t & Ht & _). by rewrite Ht, (lookup_weaken _ _ _ _ Ht Hh). }
  destruct it; simpl in *; by rewrite Ht.
Qed.

Lemma wanted_fmap_mono c h h' its :
  h ⊆ h' -> Forall (item_ready c h) its -> wanted c h' <$> its = wanted c h <$> its.
Proof.
  intros Hh Hr. induction Hr as [|it its Hit _ IH]; [done|].
  rewrite !fmap_cons, IH. f_equal. by apply wanted_mono.
Qed.

(** One declaration. *)
Definition declares (c : Config) (it : item) (s : mem) (out : outcome (option error)) (s' : mem)
    (t : list (obs rmqE)) : Prop :=
  m_cons s' = m_cons s /\ m_heap s ⊆ m_heap s' /\
  match out with
  | Return None => accepted t = [wanted c (m_heap s) it] /\ topo s' = add_item (topo s) it
  | Return (Some _) => accepted t = [] /\ topo s' = topo s
  | _ => False
  end.

(** The channel for a declaration: a new one, or an error. *)
Lemma CreateConsumerChannel_wp s Q :
  m_cons s <> None ->
  (forall ch t, (ch ∉ m_chans s) -> m_state s = StateConnected -> accepted t = [] ->
     Q (Return (Ok ch)) (add_chan s ch) t) ->
  (forall err t, accepted t = [] -> Q (Return (Err err)) s t) ->
  wp rmq_answer CreateConsumerChannel s Q.
Proof.
  intros Hcons Hok Herr. unfold CreateConsumerChannel. simpl. intros st s1 [-> ->].
  case_bool_decide as Hst; simpl; [|by apply Herr].
  intros conns s1 [-> ->]. simpl. destruct (m_cons s) as [cn|]; [|done].
  intros [[ch|err]|v|] s1; [|intros ->; by apply Herr|done|done].
  intros [Hch ->]. simpl. by apply Hok.
Qed.
#[local] Opaque CreateConsumerChannel.

Lemma read_args_wp args s Q :
  (forall t, accepted t = [] -> Q (table_of (m_heap s) args) s t) ->
  wp rmq_answer (read_args args) s Q.
Proof.
  intros HQ. destruct args as [l|]; simpl; [|by apply HQ].
  intros t s1 [-> ->]. by apply HQ.
Qed.

Lemma accepted_app t1 t2 : accepted (t1 ++ t2) = accepted t1 ++ accepted t2.
Proof. apply omap_app. Qed.
#[local] Opaque read_args.

Lemma DeclareExchange_wp c x s :
  m_cons s <> None ->
  wp rmq_answer (DeclareExchange x) s (fun out s' t => declares c (IX x) s out s' t).
Proof.
  intros Hcons. unfold DeclareExchange, declares. apply wp_bind, CreateConsumerChannel_wp; [done| |].
  - intros ch t1 _ _ Ht1. simpl. apply wp_bind, read_args_wp. intros t2 Ht2. simpl.
    intros [err|] s1 ->; simpl; intros [] s1 ->; simpl; [|intros [] s1 ->; simpl];
      rewrite !accepted_app, Ht1, Ht2; done.
  - intros err t Ht. simpl. by rewrite app_nil_r, Ht.
Qed.

Lemma BindQueue_wp c b s :
  m_cons s <> None ->
  wp rmq_answer (BindQueue b) s (fun out s' t => declares c (IB b) s out s' t).
Proof.
  intros Hcons. unfold BindQueue, declares. apply wp_bind, CreateConsumerChannel_wp; [done| |].
  - intros ch t1 _ _ Ht1. simpl. apply wp_bind, read_args_wp. intros t2 Ht2. simpl.
    intros [err|] s1 ->; simpl; intros [] s1 ->; simpl; [|intros [] s1 ->; simpl];
      rewrite !accepted_app, Ht1, Ht2; done.
  - intros err t Ht. simpl. by rewrite app_nil_r, Ht.
Qed.

(** The argument map of [DeclareQueue]: the caller's, or a new empty one;
    afterwards it has the quorum entry if the queue asks for it. *)
Definition queue_args (c : Config) (q : QueueConfig) : prog rmqE Table :=
  let* args := match q_Args q with None => call (MapNew ∅) | Some l => Ret l end in
  (if wants_quorum c q
   then call (MapSet args "x-queue-type" (VString "quorum")) else Ret tt) ;;;
  call (MapRead args).

Definition args_table (c : Config) (h : gmap loc Table) (q : QueueConfig) : Table :=
  if wants_quorum c q then <["x-queue-type" := VString "quorum"]> (table_of h (q_Args q))
  else table_of h (q_Args q).

Lemma queue_args_wp c q s Q :
  (forall h t, accepted t = [] ->
     match q_Args q with
     | None => m_heap s ⊆ h
     | Some l => h = if wants_quorum c q then <[l := args_table c (m_heap s) q]> (m_heap s)
                     else m_heap s
     end ->
     Q (args_table c (m_heap s) q) (set_heap s h) t) ->
  wp rmq_answer (queue_args c q) s Q.
Proof.
  intros HQ. assert (Hid : set_heap s (m_heap s) = s) by by destruct s.
  unfold queue_args, args_table in *. destruct (q_Args q) as [l|]; simpl in *.
  - destruct (wants_quorum c q); simpl.
    + intros [] s1 ->. simpl. intros t s1 [-> ->]. rewrite lookup_insert_eq. simpl.
      by apply HQ.
    + intros t s1 [-> ->]. rewrite <- Hid at 2. by apply HQ.
  - intros l s1 [Hl ->]. assert (Hsub : m_heap s ⊆ <[l := ∅]> (m_heap s)) by by apply insert_subseteq.
    destruct (wants_quorum c q); simpl.
    + intros [] s1 ->. simpl. intros t s1 [-> ->]. rewrite !lookup_insert_eq. simpl.
      apply HQ; [done|]. rewrite insert_insert_eq. by apply insert_subseteq.
    + intros t s1 [-> ->]. rewrite lookup_insert_eq. simpl. by apply HQ.
Qed.
#[local] Opaque queue_args.

(** [DeclareQueue] in terms of [queue_args]. *)
Lemma DeclareQueue_wp c q s Q :
  m_cons s <> None ->
  (forall s' t, m_cons s' = m_cons s -> topo s' = topo s -> accepted t = [] ->
     (m_heap s' = m_heap s \/ match q_Args q with
       | None => m_heap s ⊆ m_heap s'
       | Some l => m_heap s' = if wants_quorum c q then <[l := args_table c (m_heap s) q]> (m_heap s)
                               else m_heap s
       end) ->
     forall err, Q (Return (Err err)) s' t) ->
  (forall s' t queue, m_cons s' = m_cons s -> topo s' = add_item (topo s) (IQ q) ->
     accepted t = [wanted c (m_heap s) (IQ q)] ->
     match q_Args q with
     | None => m_heap s ⊆ m_heap s'
     | Some l => m_heap s' = if wants_quorum c q then <[l := args_table c (m_heap s) q]> (m_heap s)
                             else m_heap s
     end -> Q (Return (Ok queue)) s' t) ->
  wp rmq_answer (DeclareQueue c q) s Q.
Proof.
  intros Hcons Herr Hok.
  assert (Hdef : DeclareQueue c q =
    let! r := CreateConsumerChannel in
    match r with
    | Err err => Ret (Return (Err (wrap "failed to create channel: " err)))
    | Ok ch =>
        let* table := queue_args c q in
        let* r := call (QueueDeclare ch (q_Name q) (q_Durable q) (q_AutoDelete q)
                        (q_Exclusive q) (q_NoWait q) table) in
        match r with
        | Err err =>
            call (ChClose ch) ;;;
            Ret (Return (Err (wrap ("failed to declare queue " +:+ q_Name q +:+ ": ") err)))
        | Ok queue =>
            call (AppendQueue q) ;;; call (ChClose ch) ;;; Ret (Return (Ok queue))
        end
    end).
  { Transparent queue_args. unfold DeclareQueue, queue_args. Opaque queue_args.
    destruct (q_Args q), (wants_quorum c q); reflexivity. }
  rewrite Hdef. apply wp_bind, CreateConsumerChannel_wp; [done| |].
  - intros ch t1 _ _ Ht1. simpl. apply wp_bind, queue_args_wp. simpl. intros h t2 Ht2 Hh.
    intros [queue|err] s1 ->; simpl; intros [] s1 ->; simpl; [intros [] s1 ->; simpl|].
    + apply Hok; simpl; [done|done| |done].
      by rewrite !accepted_app, Ht1, Ht2.
    + apply Herr; simpl; [done|done| |by right].
      by rewrite !accepted_app, Ht1, Ht2.
  - intros err t Ht. simpl. apply Herr; [done|done|by rewrite app_nil_r|by left].
Qed.
#[local] Opaque DeclareQueue DeclareExchange BindQueue.

(** Declaring a remembered queue again does not change its map. *)
Lemma ready_args c q h l :
  q_Args q = Some l -> item_ready c h (IQ q) ->
  (if wants_quorum c q then <[l := args_table c h q]> h else h) = h.
Proof.
  intros Hl Hr. destruct (Hr l Hl) as (t & Ht & Hq). unfold args_table.
  destruct (wants_quorum c q); [|done]. rewrite Hl. simpl. rewrite Ht. simpl.
  apply insert_id. rewrite Ht. f_equal. symmetry. by apply insert_id, Hq.
Qed.

Lemma DeclareQueue_declares c q s :
  m_cons s <> None -> item_ready c (m_heap s) (IQ q) ->
  wp rmq_answer (only_error (DeclareQueue c q)) s (fun out s' t => declares c (IQ q) s out s' t).
Proof.
  intros Hcons Hr. apply wp_bind, DeclareQueue_wp; [done| |].
  - intros s' t Hc Ht Ha Hh err. simpl. rewrite app_nil_r. split_and!; [done| |done|done].
    destruct Hh as [->|Hh]; [done|]. destruct (q_Args q) as [l|] eqn:Hl; [|done].
    by rewrite Hh, ready_args.
  - intros s' t queue Hc Ht Ha Hh. simpl. rewrite app_nil_r. split_and!; [done| |done|done].
    destruct (q_Args q) as [l|] eqn:Hl; [|done]. by rewrite Hh, ready_args.
Qed.

(** A loop of declarations stops at the first one that fails; the cache and
    the broker then have those before it. *)
Lemma for_each_wp {A} c (I : A -> item) (f : A -> prog rmqE (outcome (option error))) xs s :
  (forall x s, m_cons s <> None -> item_ready c (m_heap s) (I x) ->
     wp rmq_answer (f x) s (fun out s' t => declares c (I x) s out s' t)) ->
  m_cons s <> None -> Forall (item_ready c (m_heap s)) (I <$> xs) ->
  wp rmq_answer (for_each f xs) s (fun out s' t =>
    m_cons s' = m_cons s /\ m_heap s ⊆ m_heap s' /\
    exists k, accepted t = wanted c (m_heap s) <$> (I <$> take k xs) /\
      topo s' = fold_left add_item (I <$> take k xs) (topo s) /\
      match out with
      | Return None => k = length xs
      | Return (Some _) => (k < length xs)%nat
      | _ => False
      end).
Proof.
  intros Hf. revert s. induction xs as [|x xs IH]; intros s Hcons Hr; simpl in *.
  - split_and!; [done|done|]. by exists 0%nat.
  - apply Forall_cons in Hr as [Hx Hxs]. apply wp_bind.
    eapply wp_mono; [|by apply Hf]. intros out s1 t1 (Hc1 & Hh1 & H1).
    destruct out as [[err|]|v|]; [| |done|done]; destruct H1 as [Ha1 Ht1]; simpl.
    + split_and!; [done|done|]. exists 0%nat. rewrite app_nil_r, Ha1, Ht1.
      split_and!; [done|done|lia].
    + eapply wp_mono; [|apply IH; [congruence|]].
      * intros out s' t' (Hc' & Hh' & k & Ha' & Ht' & Hk).
        split_and!; [congruence|by etrans|]. exists (S k). simpl.
        rewrite accepted_app, Ha1, Ha', Ht', Ht1. split_and!; [|done|].
        -- f_equal. apply wanted_fmap_mono; [done|]. rewrite fmap_take. by apply Forall_take.
        -- destruct out as [[|]| |]; lia || done.
      * eapply Forall_impl; [exact Hxs|]. intros it. by apply item_ready_mono.
Qed.

(** Adding the entries of one kind appends them to their list. *)
Lemma add_exchanges xs xs0 qs bs :
  fold_left add_item (IX <$> xs) (xs0, qs, bs) = (xs0 ++ xs, qs, bs).
Proof.
  revert xs0. induction xs as [|x xs IH]; intros xs0; simpl; [by rewrite app_nil_r|].
  by rewrite IH, <- app_assoc.
Qed.
Lemma add_queues qs xs qs0 bs :
  fold_left add_item (IQ <$> qs) (xs, qs0, bs) = (xs, qs0 ++ qs, bs).
Proof.
  revert qs0. induction qs as [|q qs IH]; intros qs0; simpl; [by rewrite app_nil_r|].
  by rewrite IH, <- app_assoc.
Qed.
Lemma add_bindings bs xs qs bs0 :
  fold_left add_item (IB <$> bs) (xs, qs, bs0) = (xs, qs, bs0 ++ bs).
Proof.
  revert bs0. induction bs as [|b bs IH]; intros bs0; simpl; [by rewrite app_nil_r|].
  by rewrite IH, <- app_assoc.
Qed.

Definition topology_ready (c : Config) (s : mem) : Prop :=
  m_cons s <> None /\ Forall (item_ready c (m_heap s)) (cache s).

#[local] Opaque for_each.

(** The three loops, from a cache that has been reset. *)
Lemma replay_wp c xs qs bs s :
  m_cons s <> None -> topo s = ([], [], []) ->
  Forall (item_ready c (m_heap s)) (items_of (xs, qs, bs)) ->
  wp rmq_answer
    (let! e1 := for_each DeclareExchange xs in
     match e1 with
     | Some err => Ret (Return (Some err))
     | None =>
         let! e2 := for_each (fun q => only_error (DeclareQueue c q)) qs in
         match e2 with
         | Some err => Ret (Return (Some err))
         | None =>
             let! e3 := for_each BindQueue bs in
             match e3 with
             | Some err => Ret (Return (Some err))
             | None => Ret (Return None)
             end
         end
     end) s
    (fun out s' t => m_cons s' = m_cons s /\ m_heap s ⊆ m_heap s' /\ exists k,
       accepted t = wanted c (m_heap s) <$> take k (items_of (xs, qs, bs)) /\
       items_of (topo s') = take k (items_of (xs, qs, bs)) /\
       match out with
       | Return None => k = length (items_of (xs, qs, bs)) /\ topo s' = (xs, qs, bs)
       | Return (Some _) => (k < length (items_of (xs, qs, bs)))%nat
       | _ => False
       end).
Proof.
  intros Hcons Htopo Hr. cbn [items_of] in Hr.
  apply Forall_app in Hr as [Hx [Hq Hb]%Forall_app].
  apply wp_bind. eapply wp_mono; [|apply (for_each_wp c IX); [|done|done]];
    [|intros; by apply DeclareExchange_wp].
  intros out s1 t1 (Hc1 & Hh1 & k1 & Ha1 & Ht1 & Hk1). rewrite Htopo, add_exchanges in Ht1.
  destruct out as [[err|]|v|]; [| |done|done]; cbn [wp].
  { split_and!; [done|done|]. exists k1. rewrite app_nil_r, Ha1, Ht1. cbn [items_of app].
    rewrite take_app_le by (rewrite length_fmap; lia). rewrite !fmap_take.
    split_and!; [done|by rewrite !fmap_nil, !app_nil_r|].
    rewrite !length_app, !length_fmap. lia. }
  subst k1. rewrite take_ge in Ha1, Ht1 by lia.
  apply wp_bind. eapply wp_mono; [|apply (for_each_wp c IQ);
    [intros; by apply DeclareQueue_declares|congruence|]];
    [|eapply Forall_impl; [exact Hq|]; intros it; by apply item_ready_mono].
  intros out s2 t2 (Hc2 & Hh2 & k2 & Ha2 & Ht2 & Hk2). rewrite Ht1, add_queues in Ht2.
  rewrite (wanted_fmap_mono c (m_heap s)) in Ha2;
    [|done|rewrite fmap_take; by apply Forall_take].
  destruct out as [[err|]|v|]; [| |done|done]; cbn [wp].
  { split_and!; [congruence|by etrans|].
    exists (length (IX <$> xs) + k2)%nat. rewrite app_nil_r, accepted_app, Ha1, Ha2, Ht2.
    cbn [items_of app]. rewrite take_app_add, fmap_app.
    rewrite take_app_le by (rewrite length_fmap; lia).
    rewrite !fmap_take. split_and!; [done|by rewrite !fmap_nil, app_nil_r|].
    rewrite !length_app, !length_fmap. lia. }
  subst k2. rewrite take_ge in Ha2, Ht2 by lia.
  apply wp_bind. eapply wp_mono; [|apply (for_each_wp c IB);
    [intros; by apply BindQueue_wp|congruence|]];
    [|eapply Forall_impl; [exact Hb|]; intros it; apply item_ready_mono; by etrans].
  intros out s3 t3 (Hc3 & Hh3 & k3 & Ha3 & Ht3 & Hk3). rewrite Ht2, add_bindings in Ht3.
  rewrite (wanted_fmap_mono c (m_heap s)) in Ha3;
    [|by etrans|rewrite fmap_take; by apply Forall_take].
  assert (Hall : forall out : outcome (option error), exists k,
    accepted (t1 ++ t2 ++ t3 ++ []) = wanted c (m_heap s) <$> take k (items_of (xs, qs, bs)) /\
    items_of (topo s3) = take k (items_of (xs, qs, bs)) /\
    k = (length (IX <$> xs) + (length (IQ <$> qs) + k3))%nat).
  { intros _. eexists. split_and!; [| |done].
    - rewrite !accepted_app, Ha1, Ha2, Ha3. cbn [items_of].
      rewrite take_app_add, take_app_add, !fmap_app, !fmap_take. cbn. by rewrite app_nil_r.
    - rewrite Ht3. cbn [items_of app]. by rewrite fmap_take, take_app_add, take_app_add. }
  destruct (Hall out) as (k & Ha & Hi & Hk). cbn [items_of]. rewrite !length_app, !length_fmap in *.
  assert (Hheap : m_heap s ⊆ m_heap s3) by (etrans; [exact Hh1|by etrans]).
  destruct out as [[err|]|v|]; [| |done|done]; cbn [wp];
    (split_and!; [congruence|exact Hheap|]); exists k; split_and!; try done.
  - lia.
  - lia.
  - rewrite Ht3. by rewrite Hk3, take_ge by lia.
Qed.

(** C23: After a reconnection the cache is replayed in the order exchanges,
    queues, bindings.  However the broker answers, what it accepted is a
    prefix of the remembered entries, each with the contents its argument
    map has when the restore starts (the cache holds the caller's maps by
    reference, so a map changed since the declaration is sent as it is now),
    and the cache afterwards is exactly that prefix.  So a
    successful restore declares everything and leaves the cache as it was
    (nothing is duplicated, however often it is repeated), and a failed one
    forgets the entry that failed and all later ones. *)
Theorem restoreTopology_spec c s t out s' :
  topology_ready c s -> mexec rmq_answer (restoreTopology c) s t out s' ->
  exists k, accepted t = wanted c (m_heap s) <$> take k (cache s) /\
    cache s' = take k (cache s) /\
    match out with
    | Return None => k = length (cache s) /\ topo s' = topo s
    | Return (Some _) => (k < length (cache s))%nat
    | _ => False
    end.
Proof.
  intros [Hcons Hready]. revert t out s'.
  apply (proj1 (wp_mexec _ (restoreTopology c) s (fun out s' t => _))).
  unfold restoreTopology. simpl. intros x s1 [-> ->].
  eapply wp_mono; [|by apply replay_wp]. intros out s' t (_ & _ & Hk). exact Hk.
Qed.

(** ** The invariant of the cache *)

(** The operations on the topology: every function of [topology.go]. *)
Inductive topo_op := OpExchange (x : ExchangeConfig) | OpQueue (q : QueueConfig)
| OpBind (b : BindingConfig) | OpRestore
| OpDeadLetter (mainQueueName dlxName : string) (retryTTL : Z)
| OpQueueWithDLX (queueName dlxName : string).

Definition op_prog (c : Config) (op : topo_op) : prog rmqE (outcome (option error)) :=
  match op with
  | OpExchange x => DeclareExchange x
  | OpQueue q => only_error (DeclareQueue c q)
  | OpBind b => BindQueue b
  | OpRestore => restoreTopology c
  | OpDeadLetter main dlx retryTTL => SetupDeadLetterExchange c main dlx retryTTL
  | OpQueueWithDLX queue dlx => only_error (SetupQueueWithDLX c queue dlx)
  end.

(** The caller's map exists. *)
Definition op_allocated (h : gmap loc Table) (op : topo_op) : Prop :=
  match op with
  | OpExchange x => forall l, x_Args x = Some l -> is_Some (h !! l)
  | OpQueue q => forall l, q_Args q = Some l -> is_Some (h !! l)
  | OpBind b => forall l, b_Args b = Some l -> is_Some (h !! l)
  | OpRestore | OpDeadLetter _ _ _ | OpQueueWithDLX _ _ => True
  end.

Lemma items_add tp it its :
  it ∈ items_of (add_item tp its) -> it = its \/ it ∈ items_of tp.
Proof.
  destruct tp as [[xs qs] bs], its; simpl; rewrite !elem_of_app, !fmap_app, !elem_of_app;
    rewrite ?list_elem_of_singleton; set_solver.
Qed.

Lemma declares_ready c it s out s' t :
  topology_ready c s -> item_ready c (m_heap s) it -> declares c it s out s' t ->
  topology_ready c s'.
Proof.
  intros [Hcons Hr] Hit (Hc & Hh & H). split; [congruence|]. rewrite Forall_forall in *.
  intros it' Hin. eapply item_ready_mono; [exact Hh|].
  destruct out as [[err|]|v|]; [| |done|done]; destruct H as [_ Ht]; unfold cache in *;
    rewrite Ht in Hin; [by apply Hr|].
  apply items_add in Hin as [->|Hin]; [done|by apply Hr].
Qed.

(** Setting the quorum entry of one map keeps every entry ready. *)
Lemma item_ready_quorum c h l t it :
  h !! l = Some t ->
  item_ready c h it -> item_ready c (<[l := <["x-queue-type" := VString "quorum"]> t]> h) it.
Proof.
  intros Hl Hr l' Hl'. destruct (Hr l' Hl') as (t' & Ht' & Hq).
  destruct (decide (l = l')) as [<-|Hne].
  - rewrite lookup_insert_eq. eexists. split; [done|].
    destruct it; [done| |done]. intros _. apply lookup_insert_eq.
  - rewrite lookup_insert_ne by done. eauto.
Qed.

(** What [DeclareQueue] does to the maps: its own map gets the quorum entry,
    the others are as before. *)
Lemma DeclareQueue_ready c q s :
  topology_ready c s -> (forall l, q_Args q = Some l -> is_Some (m_heap s !! l)) ->
  wp rmq_answer (DeclareQueue c q) s (fun _ s' _ => topology_ready c s').
Proof.
  intros [Hcons Hr] Hal.
  assert (Hheap : forall h,
    match q_Args q with
    | None => m_heap s ⊆ h
    | Some l => h = if wants_quorum c q then <[l := args_table c (m_heap s) q]> (m_heap s)
                    else m_heap s
    end ->
    (forall it, item_ready c (m_heap s) it -> item_ready c h it) /\ item_ready c h (IQ q)).
  { intros h Hh. unfold args_table in Hh. destruct (q_Args q) as [l|] eqn:Hl.
    - destruct (Hal l eq_refl) as [t Ht].
      simpl in Hh. rewrite Ht in Hh. simpl in Hh.
      destruct (wants_quorum c q) eqn:Hq; subst h; split; [|intros l' Hl'|done|intros l' Hl'];
        simpl in *; [by intros it; apply item_ready_quorum| |]; rewrite Hl in Hl'; simplify_eq.
      + rewrite lookup_insert_eq. eexists. split; [done|]. intros _. apply lookup_insert_eq.
      + exists t. rewrite Hq. by split.
    - split; [intros it; by apply item_ready_mono|]. intros l Hl'. simpl in Hl'. congruence. }
  assert (Hsplit : forall s', m_cons s' = m_cons s ->
    (forall it, item_ready c (m_heap s) it -> item_ready c (m_heap s') it) ->
    (forall it, it ∈ cache s' -> item_ready c (m_heap s) it \/ item_ready c (m_heap s') it) ->
    topology_ready c s').
  { intros s' Hc Hkeep Hin. split; [congruence|]. apply Forall_forall. intros it Hit.
    destruct (Hin it Hit); auto. }
  rewrite Forall_forall in Hr.
  apply DeclareQueue_wp; [done| |].
  - intros s' t Hc Ht _ Hh err. apply Hsplit; [done| |].
    + destruct Hh as [->|Hh]; [done|]. apply Hheap, Hh.
    + unfold cache in *. rewrite Ht. eauto.
  - intros s' t queue Hc Ht _ Hh. destruct (Hheap _ Hh) as [Hk Hq]. apply Hsplit; [done|done|].
    unfold cache in *. rewrite Ht. intros it [->|Hit]%items_add; eauto.
Qed.

(** Invariants through [let!], [only_error] and [or_wrap]: whatever the step
    returns, what follows starts in a state with the invariant. *)
Lemma try_bind_keeps {A B} (P : mem -> Prop) (p : prog rmqE (outcome A))
    (k : A -> prog rmqE (outcome B)) s :
  wp rmq_answer p s (fun _ s' _ => P s') ->
  (forall a s1, P s1 -> wp rmq_answer (k a) s1 (fun _ s' _ => P s')) ->
  wp rmq_answer (try_bind k p) s (fun _ s' _ => P s').
Proof.
  intros Hp Hk. apply wp_bind. eapply wp_mono; [|exact Hp].
  intros [a|v|] s1 t1 H1; [|done|done].
  eapply wp_mono; [|by apply Hk]. done.
Qed.

Lemma only_error_keeps {A} (P : mem -> Prop) (p : prog rmqE (outcome (result A))) s :
  wp rmq_answer p s (fun _ s' _ => P s') ->
  wp rmq_answer (only_error p) s (fun _ s' _ => P s').
Proof. intros Hp. apply try_bind_keeps; [done|]. by intros [a|err] s1 H1. Qed.

Lemma or_wrap_keeps {A} (P : mem -> Prop) prefix p (fail : error -> A) k s :
  wp rmq_answer p s (fun _ s' _ => P s') ->
  (forall s1, P s1 -> wp rmq_answer k s1 (fun _ s' _ => P s')) ->
  wp rmq_answer (or_wrap prefix p fail k) s (fun _ s' _ => P s').
Proof. intros Hp Hk. apply try_bind_keeps; [done|]. intros [err|] s1 H1; [done|by apply Hk]. Qed.

(** A new map does not matter to the entries that are remembered. *)
Lemma topology_ready_alloc c s l tbl :
  m_heap s !! l = None -> topology_ready c s ->
  topology_ready c (set_heap s (<[l := tbl]> (m_heap s))).
Proof.
  intros Hl [Hcons Hr]. split; [done|]. eapply Forall_impl; [exact Hr|].
  intros it. by apply item_ready_mono, insert_subseteq.
Qed.

Lemma topology_ready_empty c s : m_cons s <> None -> cache s = [] -> topology_ready c s.
Proof. intros Hcons Hc. split; [done|]. by rewrite Hc. Qed.

Lemma DeclareExchange_ready c x s :
  topology_ready c s -> (forall l, x_Args x = Some l -> is_Some (m_heap s !! l)) ->
  wp rmq_answer (DeclareExchange x) s (fun _ s' _ => topology_ready c s').
Proof.
  intros Hr Hal. eapply wp_mono; [|apply (DeclareExchange_wp c), Hr].
  intros out s' t. apply declares_ready; [done|]. intros l Hl.
  destruct (Hal l Hl) as [tb Htb]. eauto.
Qed.

Lemma BindQueue_ready c b s :
  topology_ready c s -> (forall l, b_Args b = Some l -> is_Some (m_heap s !! l)) ->
  wp rmq_answer (BindQueue b) s (fun _ s' _ => topology_ready c s').
Proof.
  intros Hr Hal. eapply wp_mono; [|apply (BindQueue_wp c), Hr].
  intros out s' t. apply declares_ready; [done|]. intros l Hl.
  destruct (Hal l Hl) as [tb Htb]. eauto.
Qed.

#[local] Opaque or_wrap only_error.

Lemma SetupDeadLetterExchange_ready c main dlx retryTTL s :
  topology_ready c s ->
  wp rmq_answer (SetupDeadLetterExchange c main dlx retryTTL) s
    (fun _ s' _ => topology_ready c s').
Proof.
  intros Hr. apply or_wrap_keeps; [by apply DeclareExchange_ready|]. intros s1 H1. simpl.
  intros l s2 [Hl ->].
  apply (or_wrap_keeps (topology_ready c)).
  { apply only_error_keeps, DeclareQueue_ready; [by apply topology_ready_alloc|].
    intros l' [= <-]. simpl. rewrite lookup_insert_eq. eauto. }
  intros s3 H3. apply or_wrap_keeps; [by apply BindQueue_ready|].
  intros s4 H4. apply or_wrap_keeps; [by apply only_error_keeps, DeclareQueue_ready|].
  intros s5 H5. apply or_wrap_keeps; [by apply BindQueue_ready|]. done.
Qed.

Lemma SetupQueueWithDLX_ready c queue dlx s :
  topology_ready c s ->
  wp rmq_answer (SetupQueueWithDLX c queue dlx) s (fun _ s' _ => topology_ready c s').
Proof.
  intros Hr. unfold SetupQueueWithDLX. simpl. intros l s1 [Hl ->].
  assert (Hgo : forall tbl, wp rmq_answer
    (let! r := DeclareQueue c (MkQueue queue true false false false (Some l)) in
     match r with
     | Err err => Ret (Return (Err (wrap "failed to declare main queue with DLX: " err)))
     | Ok q => Ret (Return (Ok q))
     end) (set_heap s (<[l := tbl]> (m_heap s))) (fun _ s' _ => topology_ready c s')).
  { intros tbl. apply try_bind_keeps.
    - apply DeclareQueue_ready; [by apply topology_ready_alloc|].
      intros l' [= <-]. simpl. rewrite lookup_insert_eq. eauto.
    - by intros [q|err] s2 H2. }
  destruct (String.eqb _ _); simpl; [|by apply Hgo].
  intros [] s2 ->. simpl. unfold set_heap at 1. simpl. rewrite insert_insert_eq. by apply Hgo.
Qed.

(** C24: The cache is always replayable.  Every function of [topology.go],
    the two dead-letter set-ups and restoring included, whatever the broker
    answers and whether it succeeds or not, keeps the invariant that the
    maps of all remembered entries exist and that a remembered quorum
    queue's map says so, provided the map the caller passes exists.  A
    client that is connected and has declared nothing has the invariant.
    (It is the hypothesis of the theorem on restoring.) *)
Theorem topology_ready_kept c :
  (forall s, m_cons s <> None -> cache s = [] -> topology_ready c s) /\
  (forall op s t out s',
     topology_ready c s -> op_allocated (m_heap s) op ->
     mexec rmq_answer (op_prog c op) s t out s' -> topology_ready c s').
Proof.
  split; [apply topology_ready_empty|].
  intros op s t out s' Hr Hal. revert t out s'.
  apply (proj1 (wp_mexec _ (op_prog c op) s (fun _ s' _ => topology_ready c s'))).
  destruct op as [x|q|b| |main dlx ttl|queue dlx]; simpl in *.
  - by apply DeclareExchange_ready.
  - by apply only_error_keeps, DeclareQueue_ready.
  - by apply BindQueue_ready.
  - unfold restoreTopology. simpl. intros x s1 [-> ->]. destruct Hr as [Hcons Hr].
    eapply wp_mono; [|by apply replay_wp].
    intros out s' t (Hc & Hh & k & _ & Hk & _). split; [simpl in Hc; congruence|].
    unfold cache in *. rewrite Hk. apply Forall_take. eapply Forall_impl; [exact Hr|].
    intros it. by apply item_ready_mono.
  - by apply SetupDeadLetterExchange_ready.
  - by apply only_error_keeps, SetupQueueWithDLX_ready.
Qed.
#[local] Transparent or_wrap only_error.

(** ** Dead-letter topology *)

Definition with_quorum (c : Config) (t : Table) : Table :=
  if String.eqb (QueueType_ c) QueueTypeQuorum
  then <["x-queue-type" := VString "quorum"]> t else t.

Definition retry_table (mainQueueName : string) (retryTTL : Z) : Table :=
  <["x-message-ttl" := VInt retryTTL]>
  (<["x-dead-letter-exchange" := VString ""]>
  (<["x-dead-letter-routing-key" := VString mainQueueName]> ∅)).

Definition dlx_table (queueName dlxName : string) : Table :=
  <["x-dead-letter-exchange" := VString dlxName]>
  (<["x-dead-letter-routing-key" := VString queueName]> ∅).

(** What the two set-up functions declare when every call succeeds. *)
Definition dlx_decls (c : Config) (main dlx : string) (retryTTL : Z) : list decl :=
  [DX dlx "topic" true false false false ∅;
   DQ (main +:+ ".retry") true false false false (with_quorum c (retry_table main retryTTL));
   DB (main +:+ ".retry") main dlx false ∅;
   DQ (main +:+ ".parking-lot") true false false false (with_quorum c ∅);
   DB (main +:+ ".parking-lot") (main +:+ ".parking-lot") dlx false ∅].

Definition main_decl (c : Config) (main dlx : string) : decl :=
  DQ main true false false false (with_quorum c (dlx_table main dlx)).

Lemma DeclareQueue_durable_wp c name args tbl s :
  m_cons s <> None ->
  match args with None => tbl = ∅ | Some l => m_heap s !! l = Some tbl end ->
  wp rmq_answer (DeclareQueue c (MkQueue name true false false false args)) s (fun out s' t =>
    m_cons s' = m_cons s /\
    match out with
    | Return (Ok _) => accepted t = [DQ name true false false false (with_quorum c tbl)]
    | Return (Err _) => accepted t = []
    | _ => False
    end).
Proof.
  intros Hcons Htbl. apply DeclareQueue_wp; [done| |].
  - by intros s' t Hc _ Ha _ err.
  - intros s' t queue Hc _ Ha _. split; [done|]. rewrite Ha. unfold with_quorum. simpl.
    unfold wants_quorum. simpl. rewrite andb_true_r.
    assert (Ht : table_of (m_heap s) args = tbl).
    { destruct args as [l|]; simpl; [by rewrite Htbl|done]. }
    by rewrite Ht.
Qed.

(** A step of the set-up: on success its declarations come first. *)
Lemma or_wrap_wp {A} prefix (p : prog rmqE (outcome (option error))) (fail : error -> A)
    (k : prog rmqE (outcome A)) (ok : A -> Prop) ds rest s :
  wp rmq_answer p s (fun out s' t =>
    m_cons s' = m_cons s /\
    match out with Return None => accepted t = ds | Return (Some _) => True | _ => False end) ->
  (forall e, ~ ok (fail e)) -> m_cons s <> None ->
  (forall s1, m_cons s1 = m_cons s -> wp rmq_answer k s1 (fun out s' t =>
     m_cons s' = m_cons s1 /\ forall a, out = Return a -> ok a -> accepted t = rest)) ->
  wp rmq_answer (or_wrap prefix p fail k) s (fun out s' t =>
    m_cons s' = m_cons s /\ forall a, out = Return a -> ok a -> accepted t = ds ++ rest).
Proof.
  intros Hp Hfail Hcons Hk. apply wp_bind. eapply wp_mono; [|exact Hp].
  intros [[err|]|v|] s1 t1 [Hc H1]; [|simpl|done|done].
  - simpl. split; [done|]. intros a [= <-] Ha. by destruct (Hfail _ Ha).
  - eapply wp_mono; [|by apply Hk]. intros out s' t' [Hc' Hout].
    split; [congruence|]. intros a Ha Hoka. by rewrite accepted_app, H1, (Hout a).
Qed.

Lemma declare_step c name args tbl s :
  m_cons s <> None ->
  match args with None => tbl = ∅ | Some l => m_heap s !! l = Some tbl end ->
  wp rmq_answer (only_error (DeclareQueue c (MkQueue name true false false false args))) s
    (fun out s' t => m_cons s' = m_cons s /\
       match out with
       | Return None => accepted t = [DQ name true false false false (with_quorum c tbl)]
       | Return (Some _) => True
       | _ => False
       end).
Proof.
  intros Hcons Htbl. apply wp_bind. eapply wp_mono; [|by apply DeclareQueue_durable_wp].
  intros [[q|err]|v|] s' t [Hc H]; [| |done|done]; simpl; [by rewrite app_nil_r|done].
Qed.

Lemma declares_step c it d s (p : prog rmqE (outcome (option error))) :
  wanted c (m_heap s) it = d ->
  wp rmq_answer p s (fun out s' t => declares c it s out s' t) ->
  wp rmq_answer p s (fun out s' t => m_cons s' = m_cons s /\
    match out with
    | Return None => accepted t = [d]
    | Return (Some _) => True
    | _ => False
    end).
Proof.
  intros <-. apply wp_mono. intros [[err|]|v|] s' t (Hc & _ & H); split; try done. by destruct H.
Qed.

#[local] Opaque or_wrap only_error.

Lemma SetupDeadLetterExchange_wp c main dlx retryTTL s :
  m_cons s <> None ->
  wp rmq_answer (SetupDeadLetterExchange c main dlx retryTTL) s (fun out s' t =>
    m_cons s' = m_cons s /\
    forall r, out = Return r -> r = None -> accepted t = dlx_decls c main dlx retryTTL).
Proof.
  intros Hcons. unfold SetupDeadLetterExchange, dlx_decls.
  eapply (or_wrap_wp _ _ _ _ _ [_]);
    [by eapply declares_step, (DeclareExchange_wp c)|done|done|].
  intros s1 Hc1. simpl. intros l s2 [Hl ->].
  eapply wp_mono; [|eapply (or_wrap_wp _ _ _ _ (fun r => r = None) [_]
                       (drop 2 (dlx_decls c main dlx retryTTL)));
    [apply declare_step; simpl; [congruence|apply lookup_insert_eq]|done|simpl; congruence|]].
  { intros out s' t [Hc H]. split; [done|]. intros r Hr Hn. exact (H r Hr Hn). }
  intros s3 Hc3. simpl in Hc3. simpl drop.
  eapply (or_wrap_wp _ _ _ _ _ [_]);
    [eapply declares_step, (BindQueue_wp c); [done|congruence]|done|congruence|].
  intros s4 Hc4.
  eapply (or_wrap_wp _ _ _ _ _ [_]);
    [apply declare_step; [congruence|done]|done|congruence|].
  intros s5 Hc5.
  eapply wp_mono; [|eapply (or_wrap_wp _ _ _ _ (fun r => r = None) [_] []);
    [eapply declares_step, (BindQueue_wp c); [done|congruence]|done|congruence|]]; [done|].
  intros s6 Hc6. by simpl.
Qed.

Lemma with_quorum_idem c t : with_quorum c (with_quorum c t) = with_quorum c t.
Proof.
  unfold with_quorum. destruct (String.eqb _ _); [|done]. apply insert_insert_eq.
Qed.

Lemma SetupQueueWithDLX_wp c main dlx s :
  m_cons s <> None ->
  wp rmq_answer (SetupQueueWithDLX c main dlx) s (fun out s' t =>
    forall q, out = Return (Ok q) -> accepted t = [main_decl c main dlx]).
Proof.
  intros Hcons. unfold SetupQueueWithDLX, main_decl.
  assert (Hgo : forall s1 l, m_cons s1 = m_cons s ->
    m_heap s1 !! l = Some (with_quorum c (dlx_table main dlx)) ->
    wp rmq_answer
      (let! r := DeclareQueue c (MkQueue main true false false false (Some l)) in
       match r with
       | Err err => Ret (Return (Err (wrap "failed to declare main queue with DLX: " err)))
       | Ok queue => Ret (Return (Ok queue))
       end) s1 (fun out s' t => forall q, out = Return (Ok q) ->
         accepted t = [DQ main true false false false (with_quorum c (dlx_table main dlx))])).
  { intros s1 l Hc Hl. apply wp_bind.
    eapply wp_mono; [|apply (DeclareQueue_durable_wp _ _ (Some l)); [congruence|exact Hl]].
    intros [[q|err]|v|] s' t [_ Ha]; [| |done|done]; simpl; [|done].
    rewrite app_nil_r, Ha, with_quorum_idem. done. }
  simpl. intros l s1 [Hl ->]. unfold with_quorum, dlx_table in *.
  destruct (String.eqb (QueueType_ c) QueueTypeQuorum); simpl.
  - intros _ s2 ->. simpl. rewrite lookup_insert_eq. simpl.
    eapply wp_mono; [|apply Hgo; simpl; [done|apply lookup_insert_eq]]. done.
  - eapply wp_mono; [|apply Hgo; simpl; [done|apply lookup_insert_eq]]. done.
Qed.

(** Topic routing keys without [*] and [#] are patterns that match only
    themselves. *)
Fixpoint no_wildcards (key : string) : bool :=
  match key with
  | EmptyString => true
  | String ch rest =>
      negb (Ascii.eqb ch "*"%char) && negb (Ascii.eqb ch "#"%char) && no_wildcards rest
  end.

(** The queues an exchange delivers to, given its topic matching. *)
Definition routes (matches : string -> string -> bool) (ds : list decl)
    (exchange key : string) : list string :=
  omap (fun d => match d with
                 | DB q pattern x _ _ =>
                     if String.eqb x exchange && matches pattern key then Some q else None
                 | _ => None
                 end) ds.

(** Where a queue dead-letters to: exchange and routing key. *)
Fixpoint dead_letters_to (ds : list decl) (queue : string) : option (Value * Value) :=
  match ds with
  | [] => None
  | DQ name _ _ _ _ args :: ds' =>
      if String.eqb name queue then
        match args !! "x-dead-letter-exchange", args !! "x-dead-letter-routing-key" with
        | Some x, Some k => Some (x, k)
        | _, _ => None
        end
      else dead_letters_to ds' queue
  | _ :: ds' => dead_letters_to ds' queue
  end.

Lemma no_wildcards_app s t : no_wildcards (s +:+ t) = no_wildcards s && no_wildcards t.
Proof. induction s as [|ch s IH]; simpl; [done|]. by rewrite IH, andb_assoc. Qed.

Lemma with_quorum_lookup c t k : k <> "x-queue-type" -> with_quorum c t !! k = t !! k.
Proof.
  intros Hk. unfold with_quorum. destruct (String.eqb _ _); [|done].
  by apply lookup_insert_ne.
Qed.

(** The routing of what the two set-up functions declare. *)
Lemma dlx_decls_routes c main dlx retryTTL matches :
  (forall p k, no_wildcards p = true -> matches p k = String.eqb p k) ->
  no_wildcards main = true ->
  let ds := dlx_decls c main dlx retryTTL ++ [main_decl c main dlx] in
  dead_letters_to ds main = Some (VString dlx, VString main) /\
  routes matches ds dlx main = [main +:+ ".retry"] /\
  dead_letters_to ds (main +:+ ".retry") = Some (VString "", VString main) /\
  DQ (main +:+ ".parking-lot") true false false false (with_quorum c ∅) ∈ ds /\
  routes matches ds dlx (main +:+ ".parking-lot") = [main +:+ ".parking-lot"] /\
  dead_letters_to ds (main +:+ ".parking-lot") = None /\
  (forall queue x, dead_letters_to ds queue <> Some (x, VString (main +:+ ".parking-lot"))).
Proof.
  intros Hm Hw ds.
  assert (Hne : forall x, x <> "" -> String.eqb (main +:+ x) main = false).
  { intros x Hne. apply String.eqb_neq. auto with ghost. }
  assert (Hne' : forall x, x <> "" -> String.eqb main (main +:+ x) = false).
  { intros x Hx. rewrite String.eqb_sym. by apply Hne. }
  assert (Hrp : String.eqb (main +:+ ".retry") (main +:+ ".parking-lot") = false).
  { apply String.eqb_neq. by intros ?%(inj (String.append main)). }
  subst ds. unfold dlx_decls, main_decl. simpl. rewrite !String.eqb_refl.
  rewrite !Hne, ?Hne', ?Hrp by done.
  rewrite !Hm by (by rewrite ?no_wildcards_app, ?Hw). rewrite !String.eqb_refl, ?Hne, ?Hne' by done.
  rewrite !with_quorum_lookup by done. split_and!; try done; [set_solver|].
  intros queue x.
  assert (Hv : VString main <> VString (main +:+ ".parking-lot")).
  { intros [= Heq%String.eqb_eq]. by rewrite Hne' in Heq. }
  change (retry_table main retryTTL !! "x-dead-letter-routing-key") with (Some (VString main)).
  change (retry_table main retryTTL !! "x-dead-letter-exchange") with (Some (VString "")).
  change (dlx_table main dlx !! "x-dead-letter-routing-key") with (Some (VString main)).
  change (dlx_table main dlx !! "x-dead-letter-exchange") with (Some (VString dlx)).
  destruct (String.eqb (main +:+ ".retry") queue); [congruence|].
  destruct (String.eqb (main +:+ ".parking-lot") queue); [done|].
  destruct (String.eqb main queue); [congruence|done].
Qed.

(** C25: The dead-letter set-up sends every rejected message round the
    retry loop.  When both set-up functions succeed, for any topic matching
    in which a key without wildcards matches only itself: a message the main
    queue dead-letters goes to the DLX with the main queue's name as key,
    which reaches the retry queue and nothing else; the retry queue
    dead-letters back to the main queue through the default exchange.  The
    parking-lot queue is declared durable and bound to the DLX under a key
    of its own, which reaches it and nothing else; no queue of the set-up
    dead-letters with that key, and the parking-lot queue itself dead-letters
    nowhere, so only an explicit publication fills it. *)
Theorem dead_letter_cycle c main dlx retryTTL matches s t q s' :
  (forall p k, no_wildcards p = true -> matches p k = String.eqb p k) ->
  no_wildcards main = true -> m_cons s <> None ->
  mexec rmq_answer
    (let! r := SetupDeadLetterExchange c main dlx retryTTL in
     match r with
     | Some err => Ret (Return (Err err))
     | None => SetupQueueWithDLX c main dlx
     end) s t (Return (Ok q)) s' ->
  dead_letters_to (accepted t) main = Some (VString dlx, VString main) /\
  routes matches (accepted t) dlx main = [main +:+ ".retry"] /\
  dead_letters_to (accepted t) (main +:+ ".retry") = Some (VString "", VString main) /\
  DQ (main +:+ ".parking-lot") true false false false (with_quorum c ∅) ∈ accepted t /\
  routes matches (accepted t) dlx (main +:+ ".parking-lot") = [main +:+ ".parking-lot"] /\
  dead_letters_to (accepted t) (main +:+ ".parking-lot") = None /\
  (forall queue x, dead_letters_to (accepted t) queue <> Some (x, VString (main +:+ ".parking-lot"))).
Proof.
  intros Hm Hw Hcons Hx.
  assert (Ht : accepted t = dlx_decls c main dlx retryTTL ++ [main_decl c main dlx]).
  { refine (proj1 (wp_mexec rmq_answer _ s
      (fun out _ t => out = Return (Ok q) -> accepted t = _)) _ _ _ _ Hx eq_refl).
    apply wp_bind. eapply wp_mono; [|by apply SetupDeadLetterExchange_wp].
    intros [[err|]|v|] s1 t1 [Hc H1]; [done| |done|done].
    eapply wp_mono; [|apply SetupQueueWithDLX_wp; congruence].
    intros out s2 t' H2 Hq. by rewrite accepted_app, (H1 _ eq_refl eq_refl), (H2 q Hq). }
  rewrite Ht. by apply dlx_decls_routes.
Qed.

(** ** Examples *)

Definition example_topology : mem :=
  Mem StateConnected false (Some 0%nat) (Some 1%nat) (make_chan 10) false
    [MkExchange "orders" "topic" true false false false None]
    [MkQueue "work" true false false false (Some 5%nat)]
    [MkBinding "work" "orders" "created" false None]
    {[5%nat := {["x-queue-type" := VString "quorum"]}]} ∅ ∅ {[0%nat; 1%nat]} ∅.

Lemma example_topology_ready : topology_ready example_config example_topology.
Proof.
  split; [done|]. simpl. repeat constructor; intros l Hl; simpl in Hl; simplify_eq.
  exists {["x-queue-type" := VString "quorum"]}. by split.
Qed.

Definition example_restore := mrun happy (restoreTopology example_config) example_topology.

Lemma restoreTopology_spec_witness :
  match example_restore with
  | Some (out, s', t) =>
      out = Return None /\
      mexec rmq_answer (restoreTopology example_config) example_topology t out s' /\
      exists k, accepted t =
        wanted example_config (m_heap example_topology) <$> take k (cache example_topology) /\
        cache s' = take k (cache example_topology) /\
        k = 3%nat /\ topo s' = topo example_topology
  | None => False
  end.
Proof.
  assert (Hres : option_map (fun r => r.1.1) example_restore = Some (Return None))
    by (vm_compute; reflexivity).
  destruct example_restore as [[[out s'] t]|] eqn:Hr; [|discriminate].
  assert (Hx := mrun_mexec happy rmq_answer happy_sound _ _ _ _ _ Hr).
  assert (Hout : out = Return None) by (injection Hres as Hres; exact Hres).
  split; [exact Hout|]. split; [exact Hx|].
  destruct (restoreTopology_spec example_config example_topology t out s'
              example_topology_ready Hx) as (k & Ha & Hc & Hk).
  rewrite Hout in Hk. exists k. split; [exact Ha|]. split; [exact Hc|]. exact Hk.
Defined.

(** A client that is connected and has declared nothing. *)
Definition example_connected : mem :=
  Mem StateConnected false (Some 0%nat) (Some 1%nat) (make_chan 10) false
    [] [] [] ∅ ∅ ∅ {[0%nat; 1%nat]} ∅.

Definition example_declare :=
  mrun happy (op_prog example_config (OpDeadLetter "work" "work.dlx" 30000)) example_connected.

Lemma topology_ready_kept_witness :
  match example_declare with
  | Some (out, s', t) => out = Return None /\ topology_ready example_config s'
  | None => False
  end.
Proof.
  assert (Hres : option_map (fun r => r.1.1) example_declare = Some (Return None))
    by (vm_compute; reflexivity).
  destruct example_declare as [[[out s'] t]|] eqn:Hr; [|discriminate].
  assert (Hx := mrun_mexec happy rmq_answer happy_sound _ _ _ _ _ Hr).
  split; [injection Hres as Hres; exact Hres|].
  destruct (topology_ready_kept example_config) as [Hnew Hkept].
  apply (Hkept (OpDeadLetter "work" "work.dlx" 30000) example_connected t out s').
  - apply Hnew; [discriminate|reflexivity].
  - exact I.
  - exact Hx.
Defined.

Definition example_setup :=
  mrun happy
    (let! r := SetupDeadLetterExchange example_config "work" "work.dlx" 30000 in
     match r with
     | Some err => Ret (Return (Err err))
     | None => SetupQueueWithDLX example_config "work" "work.dlx"
     end) example_topology.

Lemma dead_letter_cycle_witness :
  match example_setup with
  | Some (out, s', t) =>
      out = Return (Ok (MkQueueInfo "work" 0 0)) /\
      dead_letters_to (accepted t) "work" = Some (VString "work.dlx", VString "work") /\
      routes String.eqb (accepted t) "work.dlx" "work" = ["work.retry"] /\
      dead_letters_to (accepted t) "work.retry" = Some (VString "", VString "work") /\
      DQ "work.parking-lot" true false false false (with_quorum example_config ∅) ∈ accepted t /\
      routes String.eqb (accepted t) "work.dlx" "work.parking-lot" = ["work.parking-lot"] /\
      dead_letters_to (accepted t) "work.parking-lot" = None /\
      (forall queue x,
         dead_letters_to (accepted t) queue <> Some (x, VString "work.parking-lot"))
  | None => False
  end.
Proof.
  assert (Hres : option_map (fun r => r.1.1) example_setup
                 = Some (Return (Ok (MkQueueInfo "work" 0 0)))) by (vm_compute; reflexivity).
  destruct example_setup as [[[out s'] t]|] eqn:Hr; [|discriminate].
  assert (Hx := mrun_mexec happy rmq_answer happy_sound _ _ _ _ _ Hr).
  assert (Hout : out = Return (Ok (MkQueueInfo "work" 0 0))) by (injection Hres as Hres; exact Hres).
  split; [exact Hout|]. rewrite Hout in Hx.
  apply (dead_letter_cycle example_config "work" "work.dlx" 30000 String.eqb
           example_topology t (MkQueueInfo "work" 0 0) s').
  - reflexivity.
  - reflexivity.
  - discriminate.
  - exact Hx.
Defined.
