(* ===== verification/RmqReconnect.v ===== *)
(** * RmqReconnect: losing and restoring connections ([rabbitmq/client.go])

    The watchers of the connections, the trigger that elects one goroutine
    to reconnect, and its loop with exponential backoff; then the system of
    all goroutines of the client, each starting others. *)

From stdpp Require Import base gmap strings list sets relations.
From Stdlib Require Import ZArith Lia.
From S2P Require Import Prelude Effects GoChan RmqConfig RmqEvents RmqRun RmqPool.
From S2P Require Import RmqClient RmqTopology.

Open Scope Z_scope.
Open Scope go_scope.

Definition handleConnectionClose (conn : option amqpConn) : prog rmqE (outcome unit) :=
  let! ev := call (CloseOrNotify conn) in
  match ev with
  | CloseChanClosed => Ret (Return tt)
  | Notified ok err =>
      if negb ok || bool_decide (is_Some err)
      then call (Go GoDrainAndTrigger) ;;; Ret (Return tt)
      else Ret (Return tt)
  end.

Fixpoint triggerReconnect (fuel : nat) : prog rmqE (outcome unit) :=
  match fuel with
  | O => Ret OutOfFuel
  | S fuel' =>
      let* currentState := call StateLoad in
      match currentState with
      | StateConnected =>
          let* (swapped : bool) := call (StateCAS StateConnected StateConnecting) in
          if swapped then call (Go GoReconnect) ;;; Ret (Return tt)
          else triggerReconnect fuel'
      | StateConnecting | StateClosing => Ret (Return tt)
      | StateDisconnected =>
          let* (swapped : bool) := call (StateCAS StateDisconnected StateConnecting) in
          if swapped then call (Go GoReconnect) ;;; Ret (Return tt)
          else triggerReconnect fuel'
      end
  end.

(** [backoff *= 2; if backoff > maxBackoff { backoff = maxBackoff }] *)
Definition next_backoff (backoff maxBackoff : Z) : Z :=
  let doubled := wrap64 (backoff * 2) in
  if maxBackoff <? doubled then maxBackoff else doubled.

Fixpoint reconnect_loop (fuel : nat) (c : Config) (backoff : Z) : prog rmqE (outcome unit) :=
  match fuel with
  | O => Ret OutOfFuel
  | S fuel' =>
      let* (closed : bool) := call (CloseOrAfter backoff) in
      if closed then call (StateStore StateDisconnected) ;;; Ret (Return tt)
      else
        let* st := call StateLoad in
        if bool_decide (st = StateClosing)
        then call (StateStore StateDisconnected) ;;; Ret (Return tt)
        else
          let! r := connect fuel' c in
          match r with
          | Some _ => reconnect_loop fuel' c (next_backoff backoff (ReconnectMaxInterval c))
          | None =>
              let! _ := restoreTopology c in
              Ret (Return tt)
          end
  end.

Definition reconnectWithBackoff (fuel : nat) (c : Config) : prog rmqE (outcome unit) :=
  reconnect_loop fuel c (ReconnectInitialInterval c).

(** The function literal started by [handleConnectionClose]. *)
Definition drain_and_trigger (fuel : nat) : prog rmqE (outcome unit) :=
  let! _ := drain fuel in triggerReconnect fuel.

(** The program of a goroutine, by its name. *)
Definition go_prog (fuel : nat) (c : Config) (g : goroutine) : prog rmqE (outcome unit) :=
  match g with
  | GoReconnect => reconnectWithBackoff fuel c
  | GoHandleClose conn => handleConnectionClose conn
  | GoHandleBlocked conn => handleConnectionBlocked fuel conn
  | GoDrainAndTrigger => drain_and_trigger fuel
  | GoForwardReturns ch => forward_returns fuel ch
  end.

(** What a call starts. *)
Definition rmq_spawn (fuel : nat) (c : Config) (X : Type) (e : rmqE X)
  : list (prog rmqE (outcome unit)) :=
  match e with
  | Go g => [go_prog fuel c g]
  | _ => []
  end.

(** ** Backoff *)

(** The [k]-th wait of the loop. *)
Definition backoff_at (c : Config) (k : nat) : Z :=
  match k with
  | O => ReconnectInitialInterval c
  | S _ => Z.min (ReconnectInitialInterval c * 2 ^ Z.of_nat k) (ReconnectMaxInterval c)
  end.

(** The waits of a trace. *)
Definition wait_of (o : obs rmqE) : option Z :=
  match o with Obs e x => match e with CloseOrAfter d => Some d | _ => None end end.
Definition backoffs (t : list (obs rmqE)) : list Z := omap wait_of t.

(** The [k]-th wait in 64-bit arithmetic, for any configuration. *)
Definition raw_backoff (c : Config) (k : nat) : Z :=
  Nat.iter k (fun b => next_backoff b (ReconnectMaxInterval c)) (ReconnectInitialInterval c).

(** Intervals below 2^62 ns (146 years) double without overflow.  Nothing in
    [config.go] checks this: [ApplyDefaults] only replaces intervals that
    are not positive, [Validate] does not look at them. *)
Definition sane_intervals (c : Config) : Prop :=
  0 < ReconnectInitialInterval c < 2 ^ 62 /\ 0 < ReconnectMaxInterval c < 2 ^ 62.

Lemma next_backoff_at c k :
  sane_intervals c -> next_backoff (backoff_at c k) (ReconnectMaxInterval c) = backoff_at c (S k).
Proof.
  intros [Hi Hm]. unfold next_backoff.
  assert (Hk : 0 < backoff_at c k < 2 ^ 62).
  { unfold backoff_at. destruct k as [|k]; [done|].
    assert (0 < 2 ^ Z.of_nat (S k)) by lia. nia. }
  rewrite wrap64_id by (unfold in_int64; lia).
  assert (Hd : 2 ^ Z.of_nat (S k) = 2 * 2 ^ Z.of_nat k).
  { rewrite Nat2Z.inj_succ, Z.pow_succ_r; lia. }
  assert (Hpos : 0 < 2 ^ Z.of_nat k) by lia.
  unfold backoff_at in *. destruct k as [|k].
  - simpl Z.of_nat. change (2 ^ 1) with 2.
    destruct (Z.ltb_spec (ReconnectMaxInterval c) (ReconnectInitialInterval c * 2)); lia.
  - rewrite Hd. destruct (Z.ltb_spec (ReconnectMaxInterval c)
      (Z.min (ReconnectInitialInterval c * 2 ^ Z.of_nat (S k)) (ReconnectMaxInterval c) * 2)); nia.
Qed.

(** ** Calls that do not concern reconnection *)

Definition quiet_call (X : Type) (e : rmqE X) : bool :=
  match e with
  | CloseOrAfter _ | StateStore _ | StateCAS _ _ | CloseChanClose | AmqpDial _ _
  | Go GoReconnect => false
  | _ => true
  end.

Lemma pool_call_quiet X (e : rmqE X) : pool_call X e = true -> quiet_call X e = true.
Proof. destruct e; try done. by destruct g. Qed.

Lemma pool_quiet {A} (p : prog rmqE A) : only pool_call p -> only quiet_call p.
Proof. apply only_mono, pool_call_quiet. Qed.

#[local] Hint Resolve pool_quiet drain_only fill_only get_only returnCh_only : ghost.
#[local] Opaque drain fill get returnCh pool_close.

Lemma CreateConsumerChannel_quiet : only quiet_call CreateConsumerChannel.
Proof.
  split; [done|]. intros st. simpl. case_match; [done|]. split; [done|]. intros conns.
  split; [done|]. by intros [[ch|err]|v|].
Qed.
#[local] Opaque CreateConsumerChannel.

Lemma read_args_quiet args : only quiet_call (read_args args).
Proof. by destruct args. Qed.
#[local] Opaque read_args.

Lemma DeclareExchange_quiet x : only quiet_call (DeclareExchange x).
Proof.
  apply only_try; [apply CreateConsumerChannel_quiet|]. intros [ch|err]; [|done].
  apply only_bind; [apply read_args_quiet|]. intros tbl. split; [done|]. by intros [err|].
Qed.

Lemma BindQueue_quiet b : only quiet_call (BindQueue b).
Proof.
  apply only_try; [apply CreateConsumerChannel_quiet|]. intros [ch|err]; [|done].
  apply only_bind; [apply read_args_quiet|]. intros tbl. split; [done|]. by intros [err|].
Qed.

Lemma DeclareQueue_quiet c q : only quiet_call (DeclareQueue c q).
Proof.
  apply only_try; [apply CreateConsumerChannel_quiet|]. intros [ch|err]; [|done].
  apply only_bind; [by destruct (q_Args q)|]. intros l.
  apply only_bind; [by destruct (wants_quorum c q)|]. intros _.
  split; [done|]. intros tbl. split; [done|]. by intros [queue|err].
Qed.
#[local] Opaque DeclareQueue DeclareExchange BindQueue.

Lemma for_each_quiet {A} (f : A -> prog rmqE (outcome (option error))) xs :
  (forall x, only quiet_call (f x)) -> only quiet_call (for_each f xs).
Proof.
  intros Hf. induction xs as [|x xs IH]; [done|].
  apply only_try; [apply Hf|]. by intros [err|].
Qed.

Lemma restoreTopology_quiet c : only quiet_call (restoreTopology c).
Proof.
  split; [done|]. intros [[xs qs] bs].
  apply only_try; [apply for_each_quiet, DeclareExchange_quiet|]. intros [err|]; [done|].
  apply only_try.
  { apply for_each_quiet. intros q. apply only_try; [apply DeclareQueue_quiet|]. by intros []. }
  intros [err|]; [done|].
  apply only_try; [apply for_each_quiet, BindQueue_quiet|]. by intros [err|].
Qed.
#[local] Opaque restoreTopology.

(** ** The waits *)

Lemma quiet_no_wait t :
  Forall (fun o : obs rmqE => match o with Obs e _ => quiet_call _ e = true end) t ->
  backoffs t = [].
Proof.
  induction 1 as [|[X e x] t He _ IH]; [done|]. simpl. by destruct e.
Qed.

Lemma backoffs_app t1 t2 : backoffs (t1 ++ t2) = backoffs t1 ++ backoffs t2.
Proof. apply omap_app. Qed.

Lemma quiet_backoffs {A} (p : prog rmqE A) t a :
  only quiet_call p -> exec p t a -> backoffs t = [].
Proof. intros Hp Hx. by eapply quiet_no_wait, only_exec. Qed.

(** [connect] does not wait between attempts. *)
Definition connect_call (X : Type) (e : rmqE X) : bool :=
  match e with
  | StateStore StateConnecting | StateStore StateConnected | AmqpDial _ _ => true
  | _ => quiet_call X e
  end.

Lemma quiet_connect {A} (p : prog rmqE A) : only quiet_call p -> only connect_call p.
Proof. apply only_mono. intros X e. by destruct e. Qed.

Lemma connect_only fuel c : only connect_call (connect fuel c).
Proof.
  split; [done|]. intros []. split; [done|]. intros [pub|err]; [|done].
  split; [done|]. intros [con|err]; [|done]. split; [done|]. intros []. simpl.
  apply only_try.
  { apply quiet_connect, only_try; auto with ghost. }
  by intros [err|].
Qed.
#[local] Opaque connect.

Lemma connect_backoffs fuel c t r : exec (connect fuel c) t r -> backoffs t = [].
Proof.
  intros Hx. eapply only_exec in Hx; [|apply connect_only].
  induction Hx as [|[X e x] t He _ IH]; [done|]. simpl. by destruct e.
Qed.

Lemma raw_backoff_at c k : sane_intervals c -> raw_backoff c k = backoff_at c k.
Proof.
  intros Hs. induction k as [|k IH]; [done|].
  rewrite <- next_backoff_at, <- IH by done. done.
Qed.

(** From 2^62 ns on the doubling wraps around and the cap does not catch it. *)
Lemma next_backoff_overflow b max :
  2 ^ 62 <= b < 2 ^ 63 -> 0 < max -> next_backoff b max = b * 2 - 2 ^ 64.
Proof.
  intros Hb Hm. unfold next_backoff.
  assert (Hw : wrap64 (b * 2) = b * 2 - 2 ^ 64).
  { unfold wrap64. replace (b * 2 + 2 ^ 63) with (b * 2 - 2 ^ 63 + 1 * 2 ^ 64) by lia.
    rewrite Z.mod_add by lia. rewrite Z.mod_small by lia. lia. }
  rewrite Hw. destruct (Z.ltb_spec max (b * 2 - 2 ^ 64)); lia.
Qed.

Lemma reconnect_loop_backoffs c fuel k t out :
  exec (reconnect_loop fuel c (raw_backoff c k)) t out ->
  exists n, (n <= fuel)%nat /\ backoffs t = raw_backoff c <$> seq k n.
Proof.
  revert k t. induction fuel as [|fuel IH]; intros k t; simpl.
  - intros [-> ->]. by exists 0%nat.
  - intros (closed & t1 & -> & Hx). destruct closed.
    { destruct Hx as (u & t2 & -> & -> & ->). exists 1%nat. split; [lia|done]. }
    destruct Hx as (st & t2 & -> & Hx). simpl. case_bool_decide.
    { destruct Hx as (u & t3 & -> & -> & ->). exists 1%nat. split; [lia|done]. }
    apply exec_bind in Hx as (r & t3 & t4 & -> & Hconn & Hx).
    rewrite backoffs_app, (connect_backoffs _ _ _ _ Hconn). simpl.
    destruct r as [[err|]|v|]; simpl in Hx.
    + destruct (IH (S k) _ Hx) as (n & Hn & Ht).
      exists (S n). split; [lia|]. by rewrite Ht.
    + exists 1%nat. split; [lia|]. simpl. f_equal.
      eapply quiet_backoffs; [|exact Hx].
      apply only_try; [apply restoreTopology_quiet|done].
    + destruct Hx as [-> ->]. exists 1%nat. split; [lia|done].
    + destruct Hx as [-> ->]. exists 1%nat. split; [lia|done].
Qed.

(** C26: Exponential backoff.  Whatever happens (connections fail in any
    way, the client is closed) and for every configuration, the waits of one
    reconnection are the initial interval and then each time the double, in
    64-bit arithmetic with wrap-around, capped at the maximum.  If both
    configured intervals are positive and below 2^62 ns (a hypothesis about
    the configuration that [config.go] does not enforce), the doubling does
    not overflow: the [k]-th wait, for [k >= 1], is [min (initial * 2^k) max],
    and no wait exceeds the larger of the two intervals.  The bound matters:
    with an initial interval from 2^62 ns to the largest duration, which
    passes [config.go] unchanged, the second wait is negative, so that the
    loop does not wait at all. *)
Theorem reconnect_backoff c fuel t out :
  exec (reconnectWithBackoff fuel c) t out ->
  exists n, backoffs t = raw_backoff c <$> seq 0 n /\
    (sane_intervals c ->
       backoffs t = backoff_at c <$> seq 0 n /\
       Forall (fun d => 0 < d <= Z.max (ReconnectInitialInterval c) (ReconnectMaxInterval c))
              (backoffs t)) /\
    (2 ^ 62 <= ReconnectInitialInterval c < 2 ^ 63 -> 0 < ReconnectMaxInterval c ->
       forall d, backoffs t !! 1%nat = Some d ->
         d = ReconnectInitialInterval c * 2 - 2 ^ 64 /\ d < 0).
Proof.
  intros Hx. destruct (reconnect_loop_backoffs c fuel 0 t out Hx) as (n & _ & Ht).
  exists n. rewrite Ht. split_and!; [done| |].
  - intros Hs.
    assert (Heq : raw_backoff c <$> seq 0 n = backoff_at c <$> seq 0 n).
    { apply list_fmap_ext. intros i k _. by apply raw_backoff_at. }
    rewrite Heq. split; [done|]. apply Forall_fmap, Forall_forall. intros k _.
    destruct Hs as [Hi Hm]. unfold compose, backoff_at. destruct k as [|k]; [lia|].
    assert (0 < 2 ^ Z.of_nat (S k)) by lia. nia.
  - intros Hi Hm d Hd. apply list_lookup_fmap_Some in Hd as (k & -> & [-> _]%lookup_seq).
    assert (Hn : raw_backoff c 1 = ReconnectInitialInterval c * 2 - 2 ^ 64)
      by by apply next_backoff_overflow.
    change (0 + 1)%nat with 1%nat. rewrite Hn. lia.
Qed.

(** ** One reconnection at a time *)

(** A goroutine is the owner from the moment it has been elected until the
    state says the attempt is over; the elected goroutine passes ownership
    to the goroutine it starts. *)
Inductive role := Bystander | Owner.
#[export] Instance role_eq_dec : EqDecision role.
Proof. solve_decision. Defined.

Definition role_delta (X : Type) (q : role) (e : rmqE X) : X -> option role :=
  match e in rmqE X return X -> option role with
  | StateCAS StateConnected StateConnecting
  | StateCAS StateDisconnected StateConnecting => fun x : bool =>
      match q, x with
      | Bystander, true => Some Owner
      | Bystander, false => Some Bystander
      | Owner, _ => None
      end
  | StateCAS _ _ => fun _ => None
  | Go GoReconnect => fun _ => match q with Owner => Some Bystander | Bystander => None end
  | AmqpDial _ _ | StateStore StateConnecting => fun _ =>
      match q with Owner => Some Owner | Bystander => None end
  | StateStore StateConnected | StateStore StateDisconnected => fun _ =>
      match q with Owner => Some Bystander | Bystander => None end
  | StateStore StateClosing => fun _ => Some q
  | _ => fun _ => Some q
  end.

Definition role_final (q : role) (out : outcome unit) : Prop :=
  match out with Return _ => q = Bystander | _ => True end.

Lemma quiet_role q X (e : rmqE X) x : quiet_call X e = true -> role_delta X q e x = Some q.
Proof. destruct e; try done. by destruct g. Qed.

Lemma quiet_conforms {A} (final : role -> A -> Prop) q (p : prog rmqE A) :
  (forall a, final q a) -> only quiet_call p -> conforms role_delta final q p.
Proof. intros Hf. apply conforms_only; [|done]. intros X e x. apply quiet_role. Qed.

#[local] Transparent connect.
#[local] Opaque setupNotifyHandlers.

(** [connect] by the owner: still the owner after a failure, done after a
    success. *)
Lemma connect_role fuel c :
  conforms role_delta (fun q r =>
    match r with
    | Return None => q = Bystander
    | Return (Some _) => q = Owner
    | _ => True
    end) Owner (connect fuel c).
Proof.
  intros u. simpl. intros [pub|err]; [|done]. intros [con|err]; [|done]. intros u'. simpl.
  apply conforms_bind. eapply conforms_mono.
  2:{ apply (quiet_conforms (fun q _ => q = Owner)); [done|]. apply only_try; auto with ghost. }
  intros q r ->. destruct r as [[err|]|v|]; [done| |done|done].
  intros u2. simpl. apply conforms_bind, quiet_conforms; [done|].
  Transparent setupNotifyHandlers. split; [done|]. intros p. split; [done|]. intros [].
  split; [done|]. intros p'. split; [done|]. done.
Qed.
#[local] Opaque connect.

Lemma reconnect_role fuel c b :
  conforms role_delta role_final Owner (reconnect_loop fuel c b).
Proof.
  revert b. induction fuel as [|fuel IH]; intros b; simpl; [done|].
  intros []; simpl; [done|]. intros st. case_bool_decide; [done|].
  apply conforms_bind. eapply conforms_mono; [|apply connect_role].
  intros q [[err|]|v|]; [intros ->; apply IH|intros ->|done|done].
  apply conforms_bind, quiet_conforms; [|apply restoreTopology_quiet]. by intros [].
Qed.

Lemma triggerReconnect_role fuel :
  conforms role_delta role_final Bystander (triggerReconnect fuel).
Proof.
  induction fuel as [|fuel IH]; simpl; [done|].
  by intros []; simpl; [intros []| |intros []|].
Qed.

(** Every goroutine the client starts, in its initial role. *)
Definition go_role (g : goroutine) : role :=
  match g with GoReconnect => Owner | _ => Bystander end.

Lemma go_prog_role fuel c g : conforms role_delta role_final (go_role g) (go_prog fuel c g).
Proof.
  destruct g as [|conn|conn| |ch]; simpl.
  - apply reconnect_role.
  - intros [[|ok err]|v|]; [done| |done|done]. simpl. by case_match.
  - induction fuel as [|fuel IH]; simpl; [done|]. by intros [].
  - apply conforms_bind. eapply conforms_mono.
    2:{ apply (quiet_conforms (fun q _ => q = Bystander)); [done|]. auto with ghost. }
    intros q [[]|v|] ->; [|done|done]. apply triggerReconnect_role.
  - induction fuel as [|fuel IH]; simpl; [done|]. intros []; [by intros []|done].
Qed.

Definition spawn_roles (X : Type) (e : rmqE X) : list role :=
  match e with Go g => [go_role g] | _ => [] end.

Lemma spawn_conforms_role fuel c X (e : rmqE X) :
  Forall2 (conforms role_delta role_final) (spawn_roles X e) (rmq_spawn fuel c X e).
Proof.
  destruct e; simpl; try constructor; [|constructor]. apply go_prog_role.
Qed.

(** [Close], as the body of a goroutine. *)
Definition closer (fuel : nat) : prog rmqE (outcome unit) :=
  let! _ := Close fuel in Ret (Return tt).

Lemma Close_role fuel : conforms role_delta role_final Bystander (closer fuel).
Proof.
  apply conforms_bind. intros []. simpl. intros [[]|v|]; [|done|done].
  apply conforms_bind, quiet_conforms; [|apply pool_quiet, pool_close_only].
  intros [[]|v|]; [|done|done]. simpl. intros [pub con]. simpl.
  assert (Hq : forall cn, only quiet_call (close_conn_if_open cn)).
  { intros [cn|]; [|done]. split; [done|]. by intros []. }
  apply conforms_bind, quiet_conforms; [|done]. intros _.
  apply conforms_bind, quiet_conforms; [|done]. done.
Qed.

(** The history of the whole client: [in_flight] says whether an elected
    reconnection has not been settled yet.  A second election before that,
    or a dial or a change of the state to connecting, connected or
    disconnected outside a reconnection, is refused. *)
Definition flight (b : bool) (io : nat * obs rmqE) : option bool :=
  match io.2 with
  | Obs e x =>
      match e in rmqE X return X -> option bool with
      | StateCAS _ _ => fun x : bool => if x then if b then None else Some true else Some b
      | AmqpDial _ _ | StateStore StateConnecting => fun _ => if b then Some true else None
      | StateStore StateConnected | StateStore StateDisconnected => fun _ =>
          if b then Some false else None
      | _ => fun _ => Some b
      end x
  end.

Fixpoint in_flight (b : bool) (h : list (nat * obs rmqE)) : option bool :=
  match h with
  | [] => Some b
  | io :: h' => match flight b io with Some b' => in_flight b' h' | None => None end
  end.

Lemma in_flight_snoc b h io b' :
  in_flight b h = Some b' -> in_flight b (h ++ [io]) = flight b' io.
Proof.
  revert b. induction h as [|io' h IH]; intros b; simpl.
  - intros [= ->]. by destruct (flight b' io).
  - destruct (flight b io'); [apply IH|done].
Qed.

Definition busy (st : ConnectionState) : bool :=
  match st with StateConnecting | StateClosing => true | _ => false end.

(** At most one owner; there is one exactly when a reconnection is in
    flight, and then the state keeps others from being elected. *)
Record flight_inv (s : mem) (h : list (nat * obs rmqE)) (qs : list role) (b : bool) : Prop := {
  fi_history : in_flight false h = Some b;
  fi_unique : forall i j, qs !! i = Some Owner -> qs !! j = Some Owner -> i = j;
  fi_owner : b = true <-> exists i, qs !! i = Some Owner;
  fi_busy : b = true -> busy (m_state s) = true
}.

(** The owners after a step. *)
Lemma owner_after qs i q q' sp j :
  qs !! i = Some q -> (<[i := q']> qs ++ sp) !! j = Some Owner ->
  (j = i /\ q' = Owner) \/ (j <> i /\ qs !! j = Some Owner) \/
  ((length qs <= j)%nat /\ sp !! (j - length qs)%nat = Some Owner).
Proof.
  intros Hi Hj. apply lookup_app_Some in Hj as [Hj|[Hle Hj]].
  - destruct (decide (j = i)) as [->|Hne].
    + rewrite list_lookup_insert_eq in Hj by (by eapply lookup_lt_Some). naive_solver.
    + rewrite list_lookup_insert_ne in Hj by done. naive_solver.
  - rewrite length_insert in *. naive_solver.
Qed.

Lemma owner_kept qs i q' sp j :
  qs !! j = Some Owner -> (j <> i \/ q' = Owner) -> (<[i := q']> qs ++ sp) !! j = Some Owner.
Proof.
  intros Hj Hq. rewrite lookup_app_l
    by (rewrite length_insert; by eapply lookup_lt_Some).
  destruct (decide (j = i)) as [->|Hne]; [|by rewrite list_lookup_insert_ne].
  rewrite list_lookup_insert_eq by (by eapply lookup_lt_Some). naive_solver.
Qed.

(** Steps that leave the roles alone. *)
Lemma flight_stay s s' h qs b i q io sp b' :
  flight_inv s h qs b -> qs !! i = Some q -> flight b io = Some b' -> b' = b ->
  Forall (fun r => r = Bystander) sp -> (b = true -> busy (m_state s') = true) ->
  flight_inv s' (h ++ [io]) (<[i := q]> qs ++ sp) b.
Proof.
  intros [Hh Hu Ho Hb] Hi Hf -> Hsp Hs.
  assert (Hown : forall j, (<[i := q]> qs ++ sp) !! j = Some Owner <-> qs !! j = Some Owner).
  { intros j. split.
    - intros Hj. destruct (owner_after _ _ _ _ _ _ Hi Hj) as [[-> ->]|[[_ ?]|[_ Hsp']]]; [done..|].
      eapply Forall_lookup_1 in Hsp; [|exact Hsp']. done.
    - intros Hj. destruct (decide (j = i)) as [->|Hne]; apply owner_kept; auto.
      right. congruence. }
  constructor; [by rewrite (in_flight_snoc _ _ _ b)| | |done].
  - intros j j' Hj Hj'. apply Hu; by apply Hown.
  - rewrite Ho. split; intros [j Hj]; exists j; by apply Hown.
Qed.

(** Election: nobody owned the reconnection. *)
Lemma flight_elect s s' h qs b i io :
  flight_inv s h qs b -> qs !! i = Some Bystander -> busy (m_state s) = false ->
  (forall b, flight b io = if b then None else Some true) -> busy (m_state s') = true ->
  flight_inv s' (h ++ [io]) (<[i := Owner]> qs ++ []) true.
Proof.
  intros [Hh Hu Ho Hb] Hi Hs Hf Hs'. destruct b; [by rewrite Hb in Hs|].
  assert (Hown : forall j, (<[i := Owner]> qs ++ []) !! j = Some Owner -> j = i).
  { intros j Hj. destruct (owner_after _ _ _ _ _ _ Hi Hj) as [[-> _]|[[_ Hj']|[_ Hn]]]; [done| |].
    - assert (false = true) by (apply Ho; eauto). done.
    - by rewrite lookup_nil in Hn. }
  constructor; [by rewrite (in_flight_snoc _ _ _ false), Hf| | |done].
  - intros j j' ->%Hown ->%Hown. done.
  - split; [|done]. intros _. exists i. rewrite app_nil_r.
    apply list_lookup_insert_eq. by eapply lookup_lt_Some.
Qed.

(** Settlement: the owner gives up ownership and nobody has it. *)
Lemma flight_settle s s' h qs b i io :
  flight_inv s h qs b -> qs !! i = Some Owner ->
  (forall b, flight b io = if b then Some false else None) ->
  flight_inv s' (h ++ [io]) (<[i := Bystander]> qs ++ []) false.
Proof.
  intros [Hh Hu Ho Hb] Hi Hf. assert (b = true) as -> by (apply Ho; eauto).
  assert (Hown : forall j, (<[i := Bystander]> qs ++ []) !! j <> Some Owner).
  { intros j Hj.
    destruct (owner_after _ _ _ _ _ _ Hi Hj) as [[_ ?]|[[Hne Hj']|[_ Hn]]]; [done| |].
    - by specialize (Hu _ _ Hj' Hi).
    - by rewrite lookup_nil in Hn. }
  constructor; [by rewrite (in_flight_snoc _ _ _ true), Hf| | |done].
  - intros j j' Hj. by destruct (Hown j).
  - split; [done|]. intros [j Hj]. by destruct (Hown j).
Qed.

(** Handing ownership to a new goroutine. *)
Lemma flight_hand_over s s' h qs b i io :
  flight_inv s h qs b -> qs !! i = Some Owner -> flight true io = Some true ->
  busy (m_state s') = true ->
  flight_inv s' (h ++ [io]) (<[i := Bystander]> qs ++ [Owner]) true.
Proof.
  intros [Hh Hu Ho Hb] Hi Hf Hs. assert (b = true) as -> by (apply Ho; eauto).
  assert (Hown : forall j, (<[i := Bystander]> qs ++ [Owner]) !! j = Some Owner -> j = length qs).
  { intros j Hj.
    destruct (owner_after _ _ _ _ _ _ Hi Hj) as [[_ ?]|[[Hne Hj']|[Hle Hn]]]; [done| |].
    - by specialize (Hu _ _ Hj' Hi).
    - apply lookup_lt_Some in Hn. simpl in Hn. lia. }
  constructor; [by rewrite (in_flight_snoc _ _ _ true), Hf| | |done].
  - intros j j' ->%Hown ->%Hown. done.
  - split; [|done]. intros _. exists (length qs).
    rewrite lookup_app_r by (rewrite length_insert; lia).
    by rewrite length_insert, Nat.sub_diag.
Qed.

Lemma quiet_state X (e : rmqE X) s x s' :
  quiet_call X e = true -> rmq_answer X e s x s' -> m_state s' = m_state s.
Proof. intros Hq Ha. destruct e; try done; simpl in Ha; repeat case_match; naive_solver. Qed.

Lemma quiet_spawn X (e : rmqE X) :
  quiet_call X e = true -> Forall (fun r => r = Bystander) (spawn_roles X e).
Proof. intros Hq. destruct e; try constructor; [by destruct g|constructor]. Qed.

Lemma quiet_flight b i X (e : rmqE X) x :
  quiet_call X e = true -> flight b (i, Obs e x) = Some b.
Proof. intros Hq. by destruct e. Qed.

(** Every step of every goroutine keeps the invariant. *)
Lemma flight_call X i (e : rmqE X) x s s' h qs q q' :
  (exists b, flight_inv s h qs b) -> qs !! i = Some q -> role_delta X q e x = Some q' ->
  rmq_answer X e s x s' ->
  exists b, flight_inv s' (h ++ [(i, Obs e x)]) (<[i := q']> qs ++ spawn_roles X e) b.
Proof.
  intros [b Hi] Hq Hd Ha. pose proof (fi_busy _ _ _ _ Hi) as Hb.
  destruct (quiet_call X e) eqn:Hquiet.
  { rewrite quiet_role in Hd by done. injection Hd as <-. exists b.
    eapply flight_stay; [exact Hi|done|by apply quiet_flight|done|by apply quiet_spawn|].
    by rewrite (quiet_state X e s x s'). }
  assert (Hown : q = Owner -> b = true) by (intros ->; apply (fi_owner _ _ _ _ Hi); eauto).
  destruct e; try done; simpl in Ha, Hd.
  - (* StateStore *)
    destruct st.
    + destruct q; simplify_eq. exists false. by eapply flight_settle.
    + destruct q; simplify_eq. exists true. rewrite (Hown eq_refl) in *.
      by eapply flight_stay.
    + destruct q; simplify_eq. exists false. by eapply flight_settle.
    + simplify_eq. exists b. by eapply flight_stay.
  - (* StateCAS *)
    destruct old, new; try done; destruct q, x; simplify_eq;
      case_decide; destruct Ha; simplify_eq.
    all: try (exists true; eapply flight_elect; [exact Hi|done|by rewrite H|by intros []|done]).
    all: exists b; by eapply flight_stay.
  - (* CloseChanClose *)
    simplify_eq. exists b. eapply flight_stay; [exact Hi|done|done|done|done|].
    destruct (m_closing s), Ha as [_ ->]; done.
  - (* Go *)
    destruct g; try done. destruct q; simplify_eq. exists true.
    eapply flight_hand_over; [exact Hi|done|done|by apply Hb, Hown].
  - (* CloseOrAfter *)
    simplify_eq. exists b. destruct Ha as [_ ->]. by eapply flight_stay.
  - (* AmqpDial *)
    destruct q; simplify_eq. rewrite (Hown eq_refl) in *. exists true.
    eapply flight_stay; [exact Hi|done|done|done|done|].
    destruct x as [cn|err]; [destruct Ha as [_ ->]|subst s']; done.
Qed.

(** The goroutines of a client in use: calls of [Close], watchers and other
    background goroutines, and operations that do not change the
    connection (publishing, consuming, declaring). *)
Definition client_thread (fuel : nat) (c : Config) (p : prog rmqE (outcome unit)) : Prop :=
  p = closer fuel \/ (exists g, g <> GoReconnect /\ p = go_prog fuel c g) \/ only quiet_call p.

Lemma client_thread_role fuel c p :
  client_thread fuel c p -> conforms role_delta role_final Bystander p.
Proof.
  intros [->|[(g & Hg & ->)|Hq]].
  - apply Close_role.
  - pose proof (go_prog_role fuel c g) as H. by destruct g.
  - apply quiet_conforms; [|done]. by intros [].
Qed.

(** C27: Reconnection is single-flight.  Start any number of goroutines of a
    client, in any state of its memory; whatever they start, however they
    are interleaved and however the broker answers (connections dropping
    while others are being dialled, [Close] at any moment), a goroutine is
    elected to reconnect only when no elected reconnection is unsettled, and
    connections are only dialled, and the state only set to connecting,
    connected or disconnected, as part of that one reconnection; while it is
    unsettled the state is connecting or closing. *)
Theorem single_reconnection fuel c ps s cfg :
  Forall (client_thread fuel c) ps ->
  rtc (go_step rmq_answer (rmq_spawn fuel c)) (Effects.Config ps s []) cfg ->
  exists b, in_flight false (history cfg) = Some b /\
    (b = true -> m_state (shared cfg) = StateConnecting \/ m_state (shared cfg) = StateClosing).
Proof.
  intros Hps Hr.
  assert (Hinit : go_inv role_delta role_final (fun s h qs => exists b, flight_inv s h qs b)
                    (Effects.Config ps s [])).
  { exists (replicate (length ps) Bystander). simpl. split.
    - clear Hr. induction Hps as [|p ps Hp _ IH]; simpl; constructor;
        [by eapply client_thread_role|done].
    - assert (Hno : forall j, replicate (length ps) Bystander !! j <> Some Owner).
      { intros j Hj. by apply lookup_replicate in Hj as [? _]. }
      exists false. constructor; [done| | |done].
      + intros i j Hi. by destruct (Hno i).
      + split; [done|]. intros [i Hi]. by destruct (Hno i). }
  destruct (go_invariant rmq_answer (rmq_spawn fuel c) role_delta role_final spawn_roles
    (fun s h qs => exists b, flight_inv s h qs b) (spawn_conforms_role fuel c)
    flight_call _ _ Hinit Hr) as (qs & _ & b & Hi).
  exists b. split; [apply Hi|]. intros Hb. pose proof (fi_busy _ _ _ _ Hi Hb) as Hbusy.
  destruct (m_state (shared cfg)); naive_solver.
Qed.

(** ** Examples *)

(** A connected client whose pool has been emptied by publishers. *)
Definition connected_mem : mem :=
  Mem StateConnected false (Some 1%nat) (Some 2%nat) (make_chan 10) false [] [] []
    ∅ ∅ ∅ {[1%nat; 2%nat]} ∅.

(** Two watchers, and a call of [Close]. *)
Definition client_threads : list (prog rmqE (outcome unit)) :=
  [handleConnectionClose (Some 1%nat); handleConnectionClose (Some 2%nat); closer 20].

Definition run_client (l : list nat) : config rmqE mem (outcome unit) :=
  go_sched happy (rmq_spawn 20 example_config) l
    (Effects.Config client_threads connected_mem []).

(** Both connections are lost; both watchers start a goroutine (3 and 4)
    that tries to start the reconnection; one (5) is started and connects. *)
Definition both_lost : config rmqE mem (outcome unit) :=
  run_client ([0; 0; 1; 1; 3; 3; 3; 3; 4; 4] ++ replicate 80 5)%nat.

Lemma client_threads_ok : Forall (client_thread 20 example_config) client_threads.
Proof.
  unfold client_threads. rewrite !Forall_cons. split_and!; [| | |done].
  - right. left. by exists (GoHandleClose (Some 1%nat)).
  - right. left. by exists (GoHandleClose (Some 2%nat)).
  - by left.
Qed.

Lemma single_reconnection_witness :
  length (threads both_lost) = 10%nat /\ m_state (shared both_lost) = StateConnected /\
  exists b, in_flight false (history both_lost) = Some b /\
    (b = true -> m_state (shared both_lost) = StateConnecting \/
                 m_state (shared both_lost) = StateClosing).
Proof.
  split; [vm_compute; reflexivity|]. split; [vm_compute; reflexivity|].
  apply (single_reconnection 20 example_config client_threads connected_mem both_lost
           client_threads_ok).
  apply (go_sched_reach happy (rmq_spawn 20 example_config) rmq_answer happy_sound).
Defined.

(** Three attempts while the broker cannot be reached. *)
Definition three_attempts :=
  mrun refusing (reconnectWithBackoff 3 example_config) connected_mem.

Lemma reconnect_backoff_witness :
  match three_attempts with
  | Some (out, _, t) =>
      backoffs t = [1 * Second; 2 * Second; 4 * Second] /\
      exists n, backoffs t = backoff_at example_config <$> seq 0 n /\
        Forall (fun d => 0 < d <= Z.max (1 * Second) (60 * Second)) (backoffs t)
  | None => False
  end.
Proof.
  assert (Hres : option_map (fun r => backoffs r.2) three_attempts
                 = Some [1 * Second; 2 * Second; 4 * Second]) by (vm_compute; reflexivity).
  destruct three_attempts as [[[out s'] t]|] eqn:Hr; [|discriminate].
  split; [injection Hres as Hres; exact Hres|].
  destruct (reconnect_backoff example_config 3 t out) as (n & _ & Hsane & _).
  - eapply mexec_exec, (mrun_mexec refusing rmq_answer refusing_sound). exact Hr.
  - exists n. apply Hsane. split; vm_compute; split; reflexivity.
Defined.

(** ** Closing during a reconnection *)

(** The schedule: connection 1 is lost, the reconnection (goroutine 4)
    starts and finds the client not closing; then [Close] (goroutine 2) runs
    to its end; then the reconnection goes on. *)
Definition closed_while_reconnecting : config rmqE mem (outcome unit) :=
  run_client ([0; 0; 3; 3; 3; 3; 4; 4] ++ replicate 20 2 ++ replicate 10 4)%nat.

(** The call of [drain] that a goroutine is making. *)
Definition draining (p : prog rmqE (outcome unit)) : bool :=
  match p with Vis PoolTryRecv _ => true | _ => false end.

(** C28: A client can be closed and left with two open connections and a
    goroutine that never ends.  There is an interleaving of a lost
    connection with one call of [Close] in which [Close] has returned, yet
    afterwards the state is back to connecting, the connection pointers are
    two connections that are not closed, and the reconnecting goroutine is
    draining the closed pool (which never ends, see C22). *)
Theorem close_during_reconnect :
  rtc (go_step rmq_answer (rmq_spawn 20 example_config))
    (Effects.Config client_threads connected_mem []) closed_while_reconnecting /\
  threads closed_while_reconnecting !! 2%nat = Some (Ret (Return tt)) /\
  (exists pub con, m_pub (shared closed_while_reconnecting) = Some pub /\
     m_cons (shared closed_while_reconnecting) = Some con /\
     (pub ∉ m_dead_conns (shared closed_while_reconnecting)) /\
     con ∉ m_dead_conns (shared closed_while_reconnecting)) /\
  m_state (shared closed_while_reconnecting) = StateConnecting /\
  chan_closed (m_pool (shared closed_while_reconnecting)) = true /\
  (draining <$> threads closed_while_reconnecting !! 4%nat) = Some true.
Proof.
  split.
  { apply (go_sched_reach happy (rmq_spawn 20 example_config) rmq_answer happy_sound). }
  split; [vm_compute; reflexivity|]. split.
  { exists 3%nat, 4%nat. split_and!; [vm_compute; reflexivity..| |];
      apply (bool_decide_eq_true_1 _); vm_compute; reflexivity. }
  split_and!; vm_compute; reflexivity.
Qed.
