(* ===== verification/RmqProducer.v ===== *)
(** * RmqProducer: publishing ([rabbitmq/producer.go])

    A publish borrows a channel from the pool, sends one message on it,
    waits for the broker's confirmation if confirms are on, and gives the
    channel back. *)

From stdpp Require Import base gmap strings list sets pretty.
From Stdlib Require Import ZArith Lia.
From S2P Require Import Prelude Effects GoChan RmqConfig RmqEvents RmqRun RmqPool RmqClient.

Open Scope Z_scope.
Open Scope go_scope.

(** [amqp.Transient] and [amqp.Persistent] *)
Definition Transient : Z := 1.
Definition Persistent : Z := 2.

(** The headers map is only read: a nil map is an empty one. *)
Record PublishOptions := MkPublishOptions {
  po_Exchange : string;
  po_RoutingKey : string;
  po_Mandatory : bool;
  po_Immediate : bool;
  po_MessageId : string;
  po_CorrelationId : string;
  po_ReplyTo : string;
  po_Expiration : string;
  po_Priority : Z;
  po_Type : string;
  po_AppId : string;
  po_UserId : string;
  po_ContentType : string;
  po_ContentEncoding : string;
  po_Timestamp : Z;
  po_DeliveryMode : Z;
  po_Headers : Table
}.

(** Where the channel comes from: the pool, with one retry after the
    initial reconnection interval if the client is not connected. *)
Definition publisher_channel (c : Config) : prog rmqE (result amqpCh) :=
  let* r := GetPublisherChannel in
  match r with
  | Ok ch => Ret (Ok ch)
  | Err err =>
      if errors_Is err ErrNotConnected then
        let* d := call (DoneOrAfter (ReconnectInitialInterval c)) in
        match d with
        | Some ctxErr => Ret (Err ctxErr)
        | None =>
            let* r2 := GetPublisherChannel in
            match r2 with
            | Ok ch => Ret (Ok ch)
            | Err err2 => Ret (Err (wrap "failed to get publisher channel after retry: " err2))
            end
        end
      else Ret (Err (wrap "failed to get publisher channel: " err))
  end.

(** The caller's headers, overridden by the trace context. *)
Definition publish_headers (headers : Table) (carrier : gmap string string) : Table :=
  (VString <$> carrier) ∪ headers.

Definition deliveryMode (c : Config) (opts : PublishOptions) : Z :=
  if negb (po_DeliveryMode opts =? 0) then po_DeliveryMode opts
  else if PersistentDelivery c then Persistent else Transient.

Definition mandatory (c : Config) (opts : PublishOptions) : bool :=
  if po_Mandatory opts then true else Mandatory c.

Definition publishing (c : Config) (opts : PublishOptions) (body : string)
    (carrier : gmap string string) : Publishing := {|
  p_ContentType := if String.eqb (po_ContentType opts) "" then "application/json"
                   else po_ContentType opts;
  p_ContentEncoding := po_ContentEncoding opts;
  p_Body := body;
  p_DeliveryMode := deliveryMode c opts;
  p_Priority := po_Priority opts;
  p_MessageId := po_MessageId opts;
  p_CorrelationId := po_CorrelationId opts;
  p_ReplyTo := po_ReplyTo opts;
  p_Expiration := po_Expiration opts;
  p_Type := po_Type opts;
  p_AppId := po_AppId opts;
  p_UserId := po_UserId opts;
  p_Timestamp := po_Timestamp opts;
  p_Headers := publish_headers (po_Headers opts) carrier
|}.

(** Sending on the borrowed channel. *)
Definition send (c : Config) (opts : PublishOptions) (ch : amqpCh) (msg : Publishing)
  : prog rmqE (option error) :=
  if PublisherConfirms c then
    let* r := call (PublishDeferred ch (po_Exchange opts) (po_RoutingKey opts)
                      (mandatory c opts) (po_Immediate opts) msg) in
    match r with
    | Err err => Ret (Some (wrap "failed to publish message: " err))
    | Ok None => Ret None
    | Ok (Some dc) =>
        let* w := call (ConfirmWait dc) in
        match w with
        | Err waitErr => Ret (Some waitErr)
        | Ok acked =>
            if negb acked then Ret (Some (new_error "message was nacked by broker"))
            else Ret None
        end
    end
  else
    let* r := call (Publish ch (po_Exchange opts) (po_RoutingKey opts)
                      (mandatory c opts) (po_Immediate opts) msg) in
    match r with
    | Some err => Ret (Some (wrap "failed to publish message: " err))
    | None => Ret None
    end.

Definition PublishMessage (c : Config) (opts : PublishOptions) (payload : Json)
  : prog rmqE (outcome (option error)) :=
  let* m := call (JsonMarshal payload) in
  match m with
  | Err err => Ret (Return (Some (wrap "failed to marshal payload: " err)))
  | Ok body =>
      let* r := publisher_channel c in
      match r with
      | Err err => Ret (Return (Some err))
      | Ok ch =>
          let* carrier := call OtelInject in
          let* e := send c opts ch (publishing c opts body carrier) in
          (* deferred *)
          let! _ := ReturnPublisherChannel (Some ch) in
          Ret (Return e)
      end
  end.

(** [PublishOptions{Exchange: exchange, RoutingKey: key, Headers: headers}] *)
Definition to_key (exchange key : string) (headers : Table) : PublishOptions :=
  MkPublishOptions exchange key false false "" "" "" "" 0 "" "" "" "" "" 0 0 headers.

Definition SendMessage (c : Config) (queueName : string) (payload : Json) :=
  PublishMessage c (to_key "" queueName ∅) payload.
Definition SendMessageWithHeaders (c : Config) (queueName : string) (payload : Json)
    (headers : Table) :=
  PublishMessage c (to_key "" queueName headers) payload.
Definition SendToTopic (c : Config) (exchange routingKey : string) (payload : Json) :=
  PublishMessage c (to_key exchange routingKey ∅) payload.
Definition SendToTopicWithHeaders (c : Config) (exchange routingKey : string) (payload : Json)
    (headers : Table) :=
  PublishMessage c (to_key exchange routingKey headers) payload.

Fixpoint publish_from (c : Config) (opts : PublishOptions) (i : nat) (payloads : list Json)
  : prog rmqE (outcome (option error)) :=
  match payloads with
  | [] => Ret (Return None)
  | payload :: rest =>
      let! e := PublishMessage c opts payload in
      match e with
      | Some err =>
          Ret (Return (Some (wrap ("failed to publish message " +:+ pretty i +:+ ": ") err)))
      | None => publish_from c opts (S i) rest
      end
  end.

Definition PublishBatch (c : Config) (opts : PublishOptions) (payloads : list Json) :=
  publish_from c opts 0 payloads.

(** ** The protocol of a publish

    [Borrowing b w]: no channel is held; [w] says whether the retry has been
    used.  [Holding]: a live channel is held and nothing has been sent.
    [Confirming]: the broker has taken the message and its confirmation is
    awaited.  [Returning e]: the result is known and the channel is being
    given back.  [Done e]: no channel is held and the result is known. *)

Inductive pub_state :=
| Start
| Borrowing (body : string) (retried : bool)
| Checking (body : string) (retried : bool) (ch : amqpCh)
| Holding (body : string) (ch : amqpCh) (carrier : option (gmap string string))
| Confirming (ch : amqpCh) (dc : nat)
| Returning (ch : amqpCh) (e : option error) (step : nat)
| Done (e : option error)
| Panicked.

(** The outcome of a publish call or of a confirmation. *)
Definition returning (ch : amqpCh) (e : option error) : option pub_state :=
  Some (Returning ch e 0).

(** The arguments every publish call must have. *)
Definition right_message (c : Config) (opts : PublishOptions) (body : string)
    (carrier : gmap string string) (exchange key : string) (mand imm : bool)
    (msg : Publishing) : bool :=
  bool_decide (exchange = po_Exchange opts /\ key = po_RoutingKey opts /\ mand = mandatory c opts /\
  imm = po_Immediate opts /\ msg = publishing c opts body carrier).

Definition pub_delta (c : Config) (opts : PublishOptions) (payload : Json) (X : Type)
    (q : pub_state) (e : rmqE X) : X -> option pub_state :=
  match e in rmqE X return X -> option pub_state with
  | JsonMarshal p => fun x =>
      match q, x with
      | Start, Ok body => if String.eqb p payload then Some (Borrowing body false) else None
      | Start, Err err => Some (Done (Some (wrap "failed to marshal payload: " err)))
      | _, _ => None
      end
  | StateLoad => fun _ => match q with Borrowing _ _ => Some q | _ => None end
  | PoolRecvOrDone => fun x =>
      match q, x with
      | Borrowing b w, inl (Some ch) => Some (Checking b w ch)
      | Borrowing b w, _ => Some q
      | _, _ => None
      end
  | DoneOrAfter d => fun _ =>
      match q with
      | Borrowing b false => if d =? ReconnectInitialInterval c then Some (Borrowing b true) else None
      | _ => None
      end
  | OtelInject => fun carrier =>
      match q with Holding b ch None => Some (Holding b ch (Some carrier)) | _ => None end
  | Publish ch x k m i msg => fun x' =>
      match q with
      | Holding b ch' (Some carrier) =>
          if bool_decide (ch = ch') && right_message c opts b carrier x k m i msg then
            if PublisherConfirms c then None
            else returning ch (option_map (wrap "failed to publish message: ") x')
          else None
      | _ => None
      end
  | PublishDeferred ch x k m i msg => fun x' =>
      match q with
      | Holding b ch' (Some carrier) =>
          if bool_decide (ch = ch') && right_message c opts b carrier x k m i msg then
            if PublisherConfirms c then
              match x' with
              | Ok (Some dc) => Some (Confirming ch dc)
              | Ok None => returning ch None
              | Err err => returning ch (Some (wrap "failed to publish message: " err))
              end
            else None
          else None
      | _ => None
      end
  | ConfirmWait dc => fun x =>
      match q with
      | Confirming ch dc' =>
          if decide (dc = dc') then
            match x with
            | Ok true => returning ch None
            | Ok false => returning ch (Some (new_error "message was nacked by broker"))
            | Err err => returning ch (Some err)
            end
          else None
      | _ => None
      end
  | ChIsClosed ch => fun dead =>
      match q with
      | Checking b w ch' =>
          if decide (ch = ch') then
            if dead then Some (Borrowing b w) else Some (Holding b ch None)
          else None
      | Returning ch' e 0 =>
          if decide (ch = ch') then
            if dead then Some (Done e) else Some (Returning ch e 1)
          else None
      | _ => None
      end
  | PoolClosedLoad => fun closed =>
      match q with
      | Borrowing _ _ => Some q
      | Returning ch e 1 => if closed then Some (Returning ch e 3) else Some (Returning ch e 2)
      | _ => None
      end
  | PoolTrySend ch => fun sent =>
      match q with
      | Returning ch' e 2 =>
          if decide (ch = ch') then
            match sent with
            | Return true => Some (Done e)
            | Return false => Some (Returning ch e 3)
            | _ => Some Panicked
            end
          else None
      | _ => None
      end
  | ChClose ch => fun _ =>
      match q with
      | Returning ch' e 3 => if decide (ch = ch') then Some (Done e) else None
      | _ => None
      end
  | _ => fun _ => None
  end.

(** A result is returned as it is known; without a channel it is an error. *)
Definition pub_returns (q : pub_state) (out : outcome (option error)) : Prop :=
  match q, out with
  | Done e, Return r => r = e
  | Borrowing _ _, Return (Some _) => True
  | Panicked, Panic _ | Panicked, OutOfFuel => True
  | _, _ => False
  end.

#[local] Opaque get.

(** Borrowing ends with a live channel, or with an error and none. *)
Lemma get_borrows c opts payload b w :
  conforms (pub_delta c opts payload) (fun q r =>
    match r with Ok ch => q = Holding b ch None | Err _ => q = Borrowing b w end)
    (Borrowing b w) get.
Proof.
  Transparent get. intros []; simpl; [done|]. intros [[ch|]|err]; [|done|done].
  intros []; simpl; by rewrite decide_True by done.
Qed.
#[local] Opaque get.

Lemma GetPublisherChannel_borrows c opts payload b w :
  conforms (pub_delta c opts payload) (fun q r =>
    match r with Ok ch => q = Holding b ch None | Err _ => q = Borrowing b w end)
    (Borrowing b w) GetPublisherChannel.
Proof. intros st. simpl. case_match; [done|]. apply get_borrows. Qed.
#[local] Opaque GetPublisherChannel.

Lemma publisher_channel_borrows c opts payload b :
  conforms (pub_delta c opts payload) (fun q r =>
    match r with Ok ch => q = Holding b ch None | Err _ => exists w, q = Borrowing b w end)
    (Borrowing b false) (publisher_channel c).
Proof.
  apply conforms_bind. eapply conforms_mono; [|apply GetPublisherChannel_borrows].
  intros q [ch|err] ->; [done|]. case_match; [|simpl; eauto].
  simpl. rewrite Z.eqb_refl. intros [e|]; simpl; [eauto|].
  apply conforms_bind. eapply conforms_mono; [|apply GetPublisherChannel_borrows].
  intros q [ch|err2] ->; simpl; eauto.
Qed.

Lemma right_message_refl c opts b carrier :
  right_message c opts b carrier (po_Exchange opts) (po_RoutingKey opts) (mandatory c opts)
    (po_Immediate opts) (publishing c opts b carrier) = true.
Proof. by apply bool_decide_eq_true. Qed.

Lemma send_conforms c opts payload b ch carrier :
  conforms (pub_delta c opts payload) (fun q e => q = Returning ch e 0)
    (Holding b ch (Some carrier)) (send c opts ch (publishing c opts b carrier)).
Proof.
  unfold send. destruct (PublisherConfirms c) eqn:Hc; simpl.
  - rewrite right_message_refl, bool_decide_true, Hc by done. simpl.
    intros [[dc|]|err]; simpl; [|done|done].
    intros [[]|err]; simpl; by rewrite decide_True by done.
  - rewrite right_message_refl, bool_decide_true, Hc by done. simpl. by intros [err|].
Qed.

Lemma return_conforms c opts payload ch e :
  conforms (pub_delta c opts payload) (fun q r =>
    match r with Return _ => q = Done e | _ => q = Panicked end)
    (Returning ch e 0) (ReturnPublisherChannel (Some ch)).
Proof.
  intros []; simpl; rewrite decide_True by done; [done|]. intros []; simpl.
  - intros []. by rewrite decide_True by done.
  - intros [[]| |]; simpl; rewrite decide_True by done; [done| |done|done].
    intros []. by rewrite decide_True.
Qed.

#[local] Opaque publisher_channel send ReturnPublisherChannel.

Lemma PublishMessage_conforms c opts payload :
  conforms (pub_delta c opts payload) pub_returns Start (PublishMessage c opts payload).
Proof.
  intros [body|err]; simpl; [|done]. rewrite String.eqb_refl.
  apply conforms_bind. eapply conforms_mono; [|apply publisher_channel_borrows].
  intros q [ch|err]; [intros ->|by intros [w ->]]. intros carrier. simpl.
  apply conforms_bind. eapply conforms_mono; [|apply send_conforms]. intros q e ->.
  apply conforms_bind. eapply conforms_mono; [|apply return_conforms].
  intros q [[]|v|]; intros ->; done.
Qed.

(** The publish calls of a trace: exchange, routing key, message, and whether
    the call returned without error.  That the call returned says that the
    client library has sent the message, not that the broker has taken it. *)
Definition handed (o : obs rmqE) : option (string * string * Publishing * bool) :=
  match o with
  | Obs e x =>
      match e in rmqE X return X -> option (string * string * Publishing * bool) with
      | Publish _ x k _ _ msg => fun r => Some (x, k, msg, match r with None => true | _ => false end)
      | PublishDeferred _ x k _ _ msg => fun r => Some (x, k, msg, is_ok r)
      | _ => fun _ => None
      end x
  end.
Definition handed_over (t : list (obs rmqE)) : list (string * string * Publishing * bool) :=
  omap handed t.

(** Payloads encoded, with the bodies they gave. *)
Definition marshal (o : obs rmqE) : option (Json * string) :=
  match o with
  | Obs e x =>
      match e in rmqE X return X -> option (Json * string) with
      | JsonMarshal p => fun r => match r with Ok b => Some (p, b) | Err _ => None end
      | _ => fun _ => None
      end x
  end.
Definition marshalled (t : list (obs rmqE)) : list (Json * string) := omap marshal t.

(** Positive confirmations of the broker. *)
Definition is_ack (o : obs rmqE) : bool :=
  match o with
  | Obs e x =>
      match e in rmqE X return X -> bool with
      | ConfirmWait _ => fun r => match r with Ok true => true | _ => false end
      | _ => fun _ => false
      end x
  end.
Definition acks (t : list (obs rmqE)) : nat := calls is_ack t.

(** Messages sent for which the library gave no confirmation to wait for:
    [dc == nil], which it does on a channel that is not in confirm mode. *)
Definition is_unconfirmed (o : obs rmqE) : bool :=
  match o with
  | Obs e x =>
      match e in rmqE X return X -> bool with
      | PublishDeferred _ _ _ _ _ _ => fun r => match r with Ok None => true | _ => false end
      | _ => fun _ => false
      end x
  end.
Definition unconfirmed (t : list (obs rmqE)) : nat := calls is_unconfirmed t.

(** The channels a goroutine has taken out of the pool and neither put back
    nor closed nor found dead. *)
Definition lend (l : list amqpCh) (o : obs rmqE) : list amqpCh :=
  match o with
  | Obs e x =>
      match e in rmqE X return X -> list amqpCh with
      | PoolRecvOrDone => fun r => match r with inl (Some ch) => ch :: l | _ => l end
      | ChIsClosed ch => fun dead : bool => if dead then remove Nat.eq_dec ch l else l
      | ChClose ch => fun _ => remove Nat.eq_dec ch l
      | PoolTrySend ch => fun r =>
          match r with Return true => remove Nat.eq_dec ch l | _ => l end
      | _ => fun _ => l
      end x
  end.
Definition lent (t : list (obs rmqE)) : list amqpCh := fold_left lend t [].

Lemma handed_over_snoc t o : handed_over (t ++ [o]) = handed_over t ++ omap handed [o].
Proof. apply omap_app. Qed.
Lemma marshalled_snoc t o : marshalled (t ++ [o]) = marshalled t ++ omap marshal [o].
Proof. apply omap_app. Qed.
Lemma acks_snoc t o : acks (t ++ [o]) = (acks t + if is_ack o then 1 else 0)%nat.
Proof. unfold acks. rewrite calls_app, calls_cons. by destruct (is_ack o). Qed.
Lemma unconfirmed_snoc t o :
  unconfirmed (t ++ [o]) = (unconfirmed t + if is_unconfirmed o then 1 else 0)%nat.
Proof. unfold unconfirmed. rewrite calls_app, calls_cons. by destruct (is_unconfirmed o). Qed.
Lemma lent_snoc t o : lent (t ++ [o]) = lend (lent t) o.
Proof. apply fold_left_app. Qed.

(** The channel held in a state of the protocol. *)
Definition held (q : pub_state) : list amqpCh :=
  match q with
  | Checking _ _ ch | Holding _ ch _ | Confirming ch _ | Returning ch _ _ => [ch]
  | _ => []
  end.

Definition sent_once (c : Config) (opts : PublishOptions) (payload : Json)
    (ms : list (Json * string)) (l : list (string * string * Publishing * bool)) : Prop :=
  exists body carrier, ms = [(payload, body)] /\
    l = [(po_Exchange opts, po_RoutingKey opts, publishing c opts body carrier, true)].

(** A publish that succeeded: one message, and with confirms on its positive
    confirmation, or none to wait for. *)
Definition published (c : Config) (opts : PublishOptions) (payload : Json)
    (t : list (obs rmqE)) : Prop :=
  sent_once c opts payload (marshalled t) (handed_over t) /\
  (PublisherConfirms c = true -> (acks t + unconfirmed t = 1)%nat).

(** A publish that failed: at most one message, for this payload only, and
    not confirmed; without confirms the publish call itself has failed. *)
Definition not_published (c : Config) (payload : Json) (t : list (obs rmqE)) : Prop :=
  (length (handed_over t) <= 1)%nat /\ Forall (fun m => m.1 = payload) (marshalled t) /\
  acks t = 0%nat /\ unconfirmed t = 0%nat /\
  (PublisherConfirms c = false -> Forall (fun m => m.2 = false) (handed_over t)).

(** Nothing has been sent yet. *)
Definition nothing_sent (t : list (obs rmqE)) : Prop :=
  handed_over t = [] /\ acks t = 0%nat /\ unconfirmed t = 0%nat.

Definition pub_inv (c : Config) (opts : PublishOptions) (payload : Json) (q : pub_state)
    (t : list (obs rmqE)) : Prop :=
  lent t = match q with Panicked => lent t | _ => held q end /\
  match q with
  | Start => marshalled t = [] /\ nothing_sent t
  | Borrowing b _ | Checking b _ _ | Holding b _ _ =>
      marshalled t = [(payload, b)] /\ nothing_sent t
  | Confirming _ _ =>
      PublisherConfirms c = true /\ sent_once c opts payload (marshalled t) (handed_over t) /\
      acks t = 0%nat /\ unconfirmed t = 0%nat
  | Returning _ None _ | Done None => published c opts payload t
  | Returning _ (Some _) _ | Done (Some _) => not_published c payload t
  | Panicked => (length (handed_over t) <= 1)%nat /\ Forall (fun m => m.1 = payload) (marshalled t)
  end.

Lemma sent_right c opts payload b carrier (ch ch' : amqpCh) x k m i msg :
  bool_decide (ch = ch') && right_message c opts b carrier x k m i msg = true ->
  ch = ch' /\ sent_once c opts payload [(payload, b)] [(x, k, msg, true)].
Proof.
  intros [->%bool_decide_eq_true (-> & -> & _ & _ & ->)%bool_decide_eq_true]%andb_true_iff.
  split; [done|]. by exists b, carrier.
Qed.

Lemma remove_one ch : remove Nat.eq_dec ch [ch] = [].
Proof. simpl. by destruct (Nat.eq_dec ch ch). Qed.

Lemma sent_once_failed c opts payload ms l :
  sent_once c opts payload ms l ->
  (length l <= 1)%nat /\ Forall (fun m => m.1 = payload) ms.
Proof. intros (body & carrier & -> & ->). split; [done|]. by repeat constructor. Qed.

Lemma pub_step c opts payload X q t (e : rmqE X) x q' :
  pub_inv c opts payload q t -> pub_delta c opts payload X q e x = Some q' ->
  pub_inv c opts payload q' (t ++ [Obs e x]).
Proof.
  unfold pub_inv, published, not_published, nothing_sent.
  rewrite lent_snoc, handed_over_snoc, marshalled_snoc, acks_snoc, unconfirmed_snoc.
  intros [Hl Hq] Hd.
  destruct e; simpl in Hd; try done; unfold returning in Hd; destruct q; try done;
    repeat (case_match; simplify_eq);
    repeat match goal with H : _ && _ = true |- _ => apply (sent_right _ _ payload) in H as [<- H] end;
    simpl in *; destruct_and?;
    rewrite ?app_nil_r, ?Nat.add_0_r, ?Hl, ?remove_one;
    repeat match goal with
           | H : handed_over _ = _ |- _ => rewrite H
           | H : marshalled _ = _ |- _ => rewrite H
           | H : sent_once _ _ _ (marshalled _) _ |- _ =>
               pose proof (sent_once_failed _ _ _ _ _ H) as []; revert H
           | H : (_ =? _)%string = true |- _ => apply String.eqb_eq in H as ->
           end; intros; simpl;
    (split; [done|]); split_and?; try done; try lia; try congruence; repeat constructor; try lia.
  all: by destruct x.
Qed.

Lemma publish_inv c opts payload t out :
  exec (PublishMessage c opts payload) t out ->
  exists q, pub_inv c opts payload q t /\ pub_returns q out.
Proof.
  intros Hx.
  destruct (conforms_exec _ _ _ _ _ _ (PublishMessage_conforms c opts payload) Hx) as (q & Ha & Hf).
  exists q. split; [|done].
  eapply after_invariant; [| |exact Ha]; [done|]. intros. by eapply pub_step.
Qed.

(** What the invariant says when the protocol is in any state. *)
Lemma pub_inv_le c opts payload q t :
  pub_inv c opts payload q t ->
  (length (handed_over t) <= 1)%nat /\ Forall (fun m => m.1 = payload) (marshalled t).
Proof.
  intros [_ Hq].
  destruct q as [| | | | |ch [e|] n|[e|]|]; simpl in *;
    unfold published, not_published, nothing_sent in *; destruct_and?;
    eauto using sent_once_failed;
    repeat match goal with
           | H : handed_over t = [] |- _ => rewrite H
           | H : marshalled t = _ |- _ => rewrite H
           end; split; simpl; try lia; by repeat constructor.
Qed.

(** What it says when the call has returned. *)
Lemma publish_returned c opts payload t r :
  exec (PublishMessage c opts payload) t (Return r) ->
  lent t = [] /\
  match r with None => published c opts payload t | Some _ => not_published c payload t end.
Proof.
  intros (q & [Hl Hq] & Hf)%publish_inv. rewrite Hl.
  destruct q as [|b w| | | | |e|]; try done; simpl in *.
  - destruct r as [e|]; [|done]. split; [done|]. destruct Hq as (Hm & Hh & Ha & Hu).
    unfold not_published. rewrite Hm, Hh. split_and!; simpl; try lia; try done;
      by repeat constructor.
  - subst r. by destruct e.
Qed.


(** The branch without a confirmation object is a success. *)
Lemma nil_confirmation_succeeds c opts ch msg :
  PublisherConfirms c = true ->
  exists t, exec (send c opts ch msg) t None /\ acks t = 0%nat /\ unconfirmed t = 1%nat.
Proof.
  Transparent send. intros Hc. unfold send. rewrite Hc. Opaque send.
  exists [Obs (PublishDeferred ch (po_Exchange opts) (po_RoutingKey opts) (mandatory c opts)
                 (po_Immediate opts) msg) (Ok None)].
  split_and!; [|done|done]. simpl. eexists (Ok None), []. done.
Qed.

#[local] Opaque PublishMessage.

(** C30: A batch is published in order up to the first failure.  The calls
    made are those of a number [k] of publishes, one per payload in order,
    each of which sent its message and, with confirms on, had it positively
    confirmed (or was given no confirmation object); followed by nothing if
    the batch succeeded, and then [k] is the number of payloads; or, on an
    error, by the publish of payload [k], which sent at most one message, of
    that payload, unconfirmed, and failed with the error that is returned
    wrapped in a text naming [k].  Nothing of a later payload is sent. *)
Theorem PublishBatch_prefix c opts payloads t out :
  exec (PublishBatch c opts payloads) t out ->
  exists k ts t2, t = concat ts ++ t2 /\ Forall2 (published c opts) (take k payloads) ts /\
    match out with
    | Return None => k = length payloads /\ t2 = []
    | Return (Some e) => exists p err, payloads !! k = Some p /\
        exec (PublishMessage c opts p) t2 (Return (Some err)) /\ not_published c p t2 /\
        e = wrap ("failed to publish message " +:+ pretty k +:+ ": ") err
    | _ => exists p, payloads !! k = Some p /\
        (length (handed_over t2) <= 1)%nat /\ Forall (fun m => m.1 = p) (marshalled t2)
    end.
Proof.
  unfold PublishBatch.
  enough (Hgo : forall i, exec (publish_from c opts i payloads) t out ->
    exists k ts t2, t = concat ts ++ t2 /\ Forall2 (published c opts) (take k payloads) ts /\
      match out with
      | Return None => k = length payloads /\ t2 = []
      | Return (Some e) => exists p err, payloads !! k = Some p /\
          exec (PublishMessage c opts p) t2 (Return (Some err)) /\ not_published c p t2 /\
          e = wrap ("failed to publish message " +:+ pretty (i + k)%nat +:+ ": ") err
      | _ => exists p, payloads !! k = Some p /\
          (length (handed_over t2) <= 1)%nat /\ Forall (fun m => m.1 = p) (marshalled t2)
      end) by exact (Hgo 0%nat).
  revert t. induction payloads as [|p payloads IH]; intros t i; simpl.
  { intros [-> ->]. by exists 0%nat, [], []. }
  intros (r & t1 & t2 & -> & Hp & Hx)%exec_bind.
  destruct r as [[err|]|v|]; simpl in Hx.
  - destruct Hx as [-> ->]. exists 0%nat, [], t1. split_and!; [by rewrite app_nil_r|constructor|].
    exists p, err. rewrite Nat.add_0_r. apply publish_returned in Hp as Hn. by destruct Hn.
  - destruct (IH t2 (S i) Hx) as (k & ts & t3 & -> & Hs & Hout).
    exists (S k), (t1 :: ts), t3. split_and!; [by rewrite app_assoc| |].
    + constructor; [|done]. by apply publish_returned in Hp as [_ Hp].
    + destruct out as [[e|]| |]; [|destruct Hout; split; [simpl; lia|done]|done|done].
      by rewrite Nat.add_succ_r.
  - destruct Hx as [-> ->]. exists 0%nat, [], t1. split_and!; [by rewrite app_nil_r|constructor|].
    exists p. apply publish_inv in Hp as (q & Hi & _). by eapply pub_inv_le in Hi.
  - destruct Hx as [-> ->]. exists 0%nat, [], t1. split_and!; [by rewrite app_nil_r|constructor|].
    exists p. apply publish_inv in Hp as (q & Hi & _). by eapply pub_inv_le in Hi.
Qed.

(** ** Examples *)

Definition publish_mem : mem :=
  Mem StateConnected false (Some 1%nat) (Some 2%nat) (Chan [7%nat] 10 false) false [] [] []
    ∅ {[7%nat]} ∅ {[1%nat; 2%nat]} ∅.

Definition example_options : PublishOptions := to_key "orders" "created" ∅.



Definition example_batch :=
  mrun happy (PublishBatch example_config example_options ["1"; "2"]) publish_mem.

Lemma PublishBatch_prefix_witness :
  match example_batch with
  | Some (out, s', t) =>
      out = Return None /\
      exists k ts t2, t = concat ts ++ t2 /\
        Forall2 (published example_config example_options) (take k ["1"; "2"]) ts /\
        k = 2%nat /\ t2 = []
  | None => False
  end.
Proof.
  assert (Hres : option_map (fun r => r.1.1) example_batch = Some (Return None))
    by (vm_compute; reflexivity).
  destruct example_batch as [[[out s'] t]|] eqn:Hr; [|discriminate].
  injection Hres as Hout. split; [exact Hout|].
  destruct (PublishBatch_prefix example_config example_options ["1"; "2"] t out)
    as (k & ts & t2 & Ht & Hs & Ho).
  { eapply mexec_exec, (mrun_mexec happy rmq_answer happy_sound). exact Hr. }
  exists k, ts, t2. rewrite Hout in Ho.
  split; [exact Ht|]. split; [exact Hs|exact Ho].
Defined.
