(* ===== verification/RmqConsumer.v ===== *)
(** * RmqConsumer: consuming one delivery at a time ([rabbitmq/consumer.go])

    The consume loop on one channel, the processing and settlement of a
    delivery, and the wrapper that restarts the loop after the connection
    was lost. *)

From stdpp Require Import base gmap strings list sets.
From Stdlib Require Import ZArith Lia.
From S2P Require Import Prelude Effects GoChan RmqConfig RmqEvents RmqRun RmqPool.
From S2P Require Import RmqClient RmqTopology.

Open Scope Z_scope.
Open Scope go_scope.

Record ConsumeOptions := MkConsumeOptions {
  co_QueueName : string;
  co_Consumer : string;
  co_AutoAck : bool;
  co_Exclusive : bool;
  co_NoLocal : bool;
  co_NoWait : bool;
  co_Args : option loc;
  co_AutoReconnect : bool
}.

(** The string-valued headers. *)
Definition carrier_of (headers : Table) : gmap string string :=
  omap (fun v => match v with VString s => Some s | _ => None end) headers.

Definition getRetryCount (delivery : Delivery) : Z :=
  match d_Headers delivery !! "x-death" with
  | Some (VList xDeath) => Z.of_nat (length xDeath)
  | _ => 0
  end.

Definition processDelivery (c : Config) (delivery : Delivery) (autoAck : bool)
  : prog rmqE (outcome (option error)) :=
  call (OtelExtract (carrier_of (d_Headers delivery))) ;;;
  let* m := call (JsonUnmarshal (d_Body delivery)) in
  match m with
  | Err err =>
      (if negb autoAck then call (Reject delivery false) else Ret None) ;;;
      Ret (Return (Some (wrap "failed to unmarshal message: " err)))
  | Ok msg =>
      let* h := call (Handle msg delivery) in
      match h with
      | inr v => Ret (Panic v)
      | inl (Some err) =>
          (if negb autoAck then
             if MaxRetries c <=? getRetryCount delivery
             then call (Reject delivery false)
             else call (Nack delivery true)
           else Ret None) ;;;
          Ret (Return (Some (wrap "handler error: " err)))
      | inl None =>
          if negb autoAck then
            let* a := call (Ack delivery) in
            match a with
            | Some err => Ret (Return (Some (wrap "failed to ack: " err)))
            | None => Ret (Return None)
            end
          else Ret (Return None)
      end
  end.

(** The [for { select { ... } }] loop. *)
Fixpoint consume_loop (fuel : nat) (c : Config) (ch : amqpCh) (autoAck : bool)
  : prog rmqE (outcome (option error)) :=
  match fuel with
  | O => Ret OutOfFuel
  | S fuel' =>
      let* ev := call (SelectConsume ch) in
      match ev with
      | CtxDone err => call (ChClose ch) ;;; Ret (Return (Some err))
      | Cancelled (Some reason) =>
          call (ChClose ch) ;;;
          Ret (Return (Some (new_error ("consumer cancelled by broker: " +:+ reason))))
      | Cancelled None =>
          call (ChClose ch) ;;; Ret (Return (Some (new_error "consumer cancelled by broker")))
      | DeliveriesClosed =>
          call (ChClose ch) ;;; Ret (Return (Some (new_error "delivery channel closed")))
      | Delivered delivery =>
          let! _ := processDelivery c delivery autoAck in
          consume_loop fuel' c ch autoAck
      end
  end.

Definition startConsumeLoop (fuel : nat) (c : Config) (opts : ConsumeOptions)
  : prog rmqE (outcome (option error)) :=
  let! r := CreateConsumerChannel in
  match r with
  | Err err => Ret (Return (Some (wrap "failed to create consumer channel: " err)))
  | Ok ch =>
      if PrefetchCount c <=? 0 then
        call (ChClose ch) ;;; Ret (Return (Some (new_error "prefetchCount must be > 0")))
      else
        let* q := call (ChQos ch (PrefetchCount c)) in
        match q with
        | Some err =>
            call (ChClose ch) ;;; Ret (Return (Some (wrap "failed to set QoS: " err)))
        | None =>
            let autoAck := if co_AutoAck opts then true else AutoAck c in
            let* args := read_args (co_Args opts) in
            let* e := call (ChConsume ch (co_QueueName opts) (co_Consumer opts) autoAck
                              (co_Exclusive opts) (co_NoLocal opts) (co_NoWait opts) args) in
            match e with
            | Some err =>
                call (ChClose ch) ;;; Ret (Return (Some (wrap "failed to start consuming: " err)))
            | None =>
                call (ChNotifyCancel ch) ;;;
                consume_loop fuel c ch autoAck
            end
        end
  end.

(** Poll until the client is healthy; [false] when the context is done. *)
Fixpoint waitForReconnect (fuel : nat) : prog rmqE (outcome bool) :=
  match fuel with
  | O => Ret OutOfFuel
  | S fuel' =>
      let* (done : bool) := call DoneOrTick in
      if done then Ret (Return false)
      else
        let* (healthy : bool) := IsHealthy in
        if healthy then Ret (Return true) else waitForReconnect fuel'
  end.

Definition without_reconnect (opts : ConsumeOptions) : ConsumeOptions :=
  MkConsumeOptions (co_QueueName opts) (co_Consumer opts) (co_AutoAck opts) (co_Exclusive opts)
    (co_NoLocal opts) (co_NoWait opts) (co_Args opts) false.

Fixpoint startConsumerWithReconnect (fuel : nat) (c : Config) (opts : ConsumeOptions)
  : prog rmqE (outcome (option error)) :=
  match fuel with
  | O => Ret OutOfFuel
  | S fuel' =>
      let! err := startConsumeLoop fuel' c (without_reconnect opts) in
      match err with
      | None => Ret (Return None)
      | Some e =>
          let* ctxErr := call CtxErr in
          match ctxErr with
          | Some _ => Ret (Return (Some e))
          | None =>
              let! (again : bool) := waitForReconnect fuel' in
              if negb again then let* e' := call CtxErr in Ret (Return e')
              else startConsumerWithReconnect fuel' c opts
          end
      end
  end.

Definition StartConsumer (fuel : nat) (c : Config) (opts : ConsumeOptions)
  : prog rmqE (outcome (option error)) :=
  if co_AutoReconnect opts then startConsumerWithReconnect fuel c opts
  else startConsumeLoop fuel c opts.

Definition ConsumeWithDefaults (fuel : nat) (c : Config) (queueName : string)
  : prog rmqE (outcome (option error)) :=
  StartConsumer fuel c (MkConsumeOptions queueName "" false false false false None false).

(** ** Settlement *)

Inductive settlement := SAck | SNack (requeue : bool) | SReject (requeue : bool).

(** The settlements of a trace, in order. *)
Definition settle1 (o : obs rmqE) : option (Delivery * settlement) :=
  match o with
  | Obs e _ =>
      match e with
      | Ack d => Some (d, SAck)
      | Nack d r => Some (d, SNack r)
      | Reject d r => Some (d, SReject r)
      | _ => None
      end
  end.
Definition settlements (t : list (obs rmqE)) : list (Delivery * settlement) := omap settle1 t.

(** The deliveries received. *)
Definition receive1 (o : obs rmqE) : option Delivery :=
  match o with
  | Obs e x =>
      match e in rmqE X return X -> option Delivery with
      | SelectConsume _ => fun ev => match ev with Delivered d => Some d | _ => None end
      | SelectBatch _ => fun ev => match ev with BatchDelivered d => Some d | _ => None end
      | _ => fun _ => None
      end x
  end.
Definition received (t : list (obs rmqE)) : list Delivery := omap receive1 t.

(** How decoding and handling went. *)
Definition parsed (t : list (obs rmqE)) : list (result Json) :=
  omap (fun o => match o with
                 | Obs e x => match e in rmqE X return X -> option (result Json) with
                              | JsonUnmarshal _ => fun r => Some r
                              | _ => fun _ => None
                              end x
                 end) t.
Definition handled (t : list (obs rmqE)) : list (option error + string) :=
  omap (fun o => match o with
                 | Obs e x => match e in rmqE X return X -> option (option error + string) with
                              | Handle _ _ => fun r => Some r
                              | _ => fun _ => None
                              end x
                 end) t.



(** The policy: an undecodable message is rejected for good, a failed one
    is requeued until it has been dead-lettered [MaxRetries] times and then
    rejected, a handled one is acknowledged. *)
Definition policy (c : Config) (d : Delivery) (p : list (result Json))
    (h : list (option error + string)) : option settlement :=
  match p, h with
  | [Err _], [] => Some (SReject false)
  | [Ok _], [inl (Some _)] =>
      Some (if MaxRetries c <=? getRetryCount d then SReject false else SNack true)
  | [Ok _], [inl None] => Some SAck
  | _, _ => None
  end.

(** The channels opened and the channels closed. *)
Definition opened (t : list (obs rmqE)) : list amqpCh :=
  omap (fun o => match o with
                 | Obs e x => match e in rmqE X return X -> option amqpCh with
                              | ConnChannel _ => fun r =>
                                  match r with Return (Ok ch) => Some ch | _ => None end
                              | _ => fun _ => None
                              end x
                 end) t.
Definition closed (t : list (obs rmqE)) : list amqpCh :=
  omap (fun o => match o with
                 | Obs e _ => match e with ChClose ch => Some ch | _ => None end
                 end) t.

Lemma settlements_app t1 t2 : settlements (t1 ++ t2) = settlements t1 ++ settlements t2.
Proof. apply omap_app. Qed.
Lemma received_app t1 t2 : received (t1 ++ t2) = received t1 ++ received t2.
Proof. apply omap_app. Qed.

Lemma opened_app t1 t2 : opened (t1 ++ t2) = opened t1 ++ opened t2.
Proof. apply omap_app. Qed.
Lemma closed_app t1 t2 : closed (t1 ++ t2) = closed t1 ++ closed t2.
Proof. apply omap_app. Qed.

Lemma processDelivery_exec c d autoAck t out :
  exec (processDelivery c d autoAck) t out ->
  (received t = [] /\ opened t = [] /\ closed t = []) /\
  settlements t = (if autoAck then [] else
    match policy c d (parsed t) (handled t) with Some st => [(d, st)] | None => [] end) /\
  match out with
  | Return None => autoAck = true \/ policy c d (parsed t) (handled t) = Some SAck
  | Return (Some _) => is_Some (policy c d (parsed t) (handled t))
  | Panic _ => policy c d (parsed t) (handled t) = None
  | OutOfFuel => False
  end.
Proof.
  intros (u & t1 & -> & [msg|err] & t2 & -> & Hx).
  - destruct Hx as ([[err|]|v] & t3 & -> & Hx); simpl in Hx.
    + destruct autoAck; simpl in Hx.
      * destruct Hx as [-> ->]. simpl. split_and!; eauto.
      * simpl. destruct (MaxRetries c <=? getRetryCount d) eqn:Hr;
          destruct Hx as (e & t4 & -> & -> & ->); simpl; rewrite ?Hr; split_and!; eauto.
    + destruct autoAck; simpl in Hx.
      * destruct Hx as [-> ->]. simpl. split_and!; eauto.
      * destruct Hx as ([e|] & t4 & -> & -> & ->); simpl; split_and!; eauto.
    + destruct Hx as [-> ->]. by destruct autoAck.
  - destruct autoAck; simpl in Hx.
    + destruct Hx as [-> ->]. simpl. split_and!; eauto.
    + destruct Hx as (e & t4 & -> & -> & ->). simpl. split_and!; eauto.
Qed.




#[local] Opaque processDelivery.

(** What the loop owes: every delivery settled before the next is received,
    except one whose handler panicked. *)
Definition settled_in_order (autoAck : bool) (t : list (obs rmqE)) (out : outcome (option error))
  : Prop :=
  if autoAck then settlements t = []
  else match out with
       | Panic _ => exists ds, received t = (settlements t).*1 ++ ds /\ (length ds <= 1)%nat
       | _ => received t = (settlements t).*1
       end.

Lemma consume_loop_exec fuel c ch autoAck t out :
  exec (consume_loop fuel c ch autoAck) t out ->
  settled_in_order autoAck t out /\ opened t = [] /\
  match out with Return None => False | Return (Some _) => closed t = [ch] | _ => closed t = [] end.
Proof.
  unfold settled_in_order. revert t. induction fuel as [|fuel IH]; intros t; simpl.
  { intros [-> ->]. by destruct autoAck. }
  intros (ev & t1 & -> & Hx).
  destruct ev as [err|[reason|]|d|];
    try (destruct Hx as (u & t2 & -> & -> & ->); by destruct autoAck).
  apply exec_bind in Hx as (r & t2 & t3 & -> & Hp & Hx).
  apply processDelivery_exec in Hp as ((Hr & Ho & Hc) & Hs & Hout).
  change (settlements (Obs (SelectConsume ch) (Delivered d) :: t2 ++ t3))
    with (settlements (t2 ++ t3)).
  change (received (Obs (SelectConsume ch) (Delivered d) :: t2 ++ t3))
    with (d :: received (t2 ++ t3)).
  change (opened (Obs (SelectConsume ch) (Delivered d) :: t2 ++ t3)) with (opened (t2 ++ t3)).
  change (closed (Obs (SelectConsume ch) (Delivered d) :: t2 ++ t3)) with (closed (t2 ++ t3)).
  rewrite settlements_app, received_app, opened_app, closed_app, Hr, Ho, Hc, Hs. simpl.
  destruct r as [r|v|]; simpl in Hx.
  - destruct (IH t3 Hx) as (H1 & H2 & H3). rewrite H2. split_and!; [|done|done].
    destruct autoAck; [done|].
    assert (Hp : exists st, policy c d (parsed t2) (handled t2) = Some st).
    { destruct r as [e|]; [destruct Hout; eauto|]. destruct Hout as [?|?]; [done|eauto]. }
    destruct Hp as [st ->]. simpl. destruct out as [o|v|]; [by rewrite H1| |by rewrite H1].
    destruct H1 as (ds & H1 & Hd). exists ds. by rewrite H1.
  - destruct Hx as [-> ->]. simpl. rewrite Hout. destruct autoAck; [done|]. simpl.
    split_and!; [|done|done]. exists [d]. split; [done|simpl; lia].
  - done.
Qed.
#[local] Opaque consume_loop.

(** Two parts of a run, the first of which did not panic. *)
Lemma settled_app autoAck t1 t2 r out :
  settled_in_order autoAck t1 (Return r) -> settled_in_order autoAck t2 out ->
  settled_in_order autoAck (t1 ++ t2) out.
Proof.
  unfold settled_in_order. rewrite settlements_app, received_app. destruct autoAck; [by intros -> ->|].
  intros -> H2. destruct out as [o|v|]; [by rewrite H2, fmap_app| |by rewrite H2, fmap_app].
  destruct H2 as (ds & -> & Hd). exists ds. by rewrite fmap_app, app_assoc.
Qed.

Lemma settled_quiet autoAck t out :
  settlements t = [] -> received t = [] -> settled_in_order autoAck t out.
Proof.
  unfold settled_in_order. intros -> ->. destruct autoAck; [done|].
  destruct out as [o|v|]; [done| |done]. exists []. split; [done|simpl; lia].
Qed.

(** Nothing is received or settled by a program that makes no such call. *)
Definition no_delivery (X : Type) (e : rmqE X) : bool :=
  match e with
  | SelectConsume _ | SelectBatch _ | Ack _ | Nack _ _ | Reject _ _ => false
  | _ => true
  end.

Lemma no_delivery_exec {A} (p : prog rmqE A) t a :
  only no_delivery p -> exec p t a -> settlements t = [] /\ received t = [].
Proof.
  intros Hp Hx. pose proof (only_exec _ _ _ _ Hp Hx) as H. clear Hp Hx.
  induction H as [|[X e x] t He _ [IH1 IH2]]; [done|]. simpl. by destruct e.
Qed.

Lemma CreateConsumerChannel_trace t r :
  exec CreateConsumerChannel t r ->
  exists st, t = [Obs StateLoad st] \/
    exists conns x, t = [Obs StateLoad st; Obs ReadConns conns; Obs (ConnChannel conns.2) x].
Proof.
  intros (st & t1 & -> & Hx). exists st. simpl in Hx. case_match.
  { destruct Hx as [-> _]. by left. }
  destruct Hx as (conns & t2 & -> & cr & t3 & -> & Hx). right. exists conns, cr.
  by destruct cr as [[ch|err]|v|]; simpl in Hx; destruct Hx as [-> _].
Qed.

Lemma CreateConsumerChannel_exec t r :
  exec CreateConsumerChannel t r ->
  settlements t = [] /\ received t = [] /\ closed t = [] /\
  opened t = match r with Return (Ok ch) => [ch] | _ => [] end.
Proof.
  intros (st & t1 & -> & Hx). simpl in Hx. case_match.
  { by destruct Hx as [-> ->]. }
  destruct Hx as (conns & t2 & -> & Hx). destruct Hx as (cr & t3 & -> & Hx).
  destruct cr as [[ch|err]|v|]; simpl in Hx; by destruct Hx as [-> ->].
Qed.
#[local] Opaque CreateConsumerChannel.

Definition auto_ack (c : Config) (opts : ConsumeOptions) : bool :=
  if co_AutoAck opts then true else AutoAck c.

Lemma startConsumeLoop_exec fuel c opts t out :
  exec (startConsumeLoop fuel c opts) t out ->
  settled_in_order (auto_ack c opts) t out /\
  match out with
  | Return None => False
  | Return (Some _) => closed t = opened t
  | _ => True
  end.
Proof.
  intros (r & t1 & t2 & -> & Hc & Hx)%exec_bind.
  apply CreateConsumerChannel_exec in Hc as (Hs1 & Hr1 & Hc1 & Ho1).
  assert (Hquiet : forall t o, settlements t = [] -> received t = [] ->
    settled_in_order (auto_ack c opts) (t1 ++ t) o).
  { intros t' o Hs Hr. apply settled_quiet; [|by rewrite received_app, Hr1].
    by rewrite settlements_app, Hs1. }
  rewrite closed_app, opened_app, Hc1, Ho1.
  destruct r as [[ch|err]|v|]; simpl in Hx;
    [|by destruct Hx as [-> ->]; split; [apply Hquiet|]..].
  destruct (PrefetchCount c <=? 0).
  { destruct Hx as (u & t3 & -> & -> & ->). split; [by apply Hquiet|done]. }
  destruct Hx as ([err|] & t3 & -> & Hx).
  { destruct Hx as (u & t4 & -> & -> & ->). split; [by apply Hquiet|done]. }
  apply exec_bind in Hx as (args & t4 & t5 & -> & Ha & Hx).
  assert (Hargs : settlements t4 = [] /\ received t4 = [] /\ closed t4 = [] /\ opened t4 = []).
  { destruct (co_Args opts) as [l|]; simpl in Ha;
      [by destruct Ha as (x & t' & -> & -> & ->)|by destruct Ha as [-> ->]]. }
  destruct Hargs as (Hs4 & Hr4 & Hc4 & Ho4).
  destruct Hx as ([err|] & t6 & -> & Hx).
  { destruct Hx as (u & t7 & -> & -> & ->). simpl.
    rewrite closed_app, opened_app, Hc4, Ho4. split; [|done].
    apply Hquiet; simpl; [by rewrite settlements_app, Hs4|by rewrite received_app, Hr4]. }
  destruct Hx as (u & t7 & -> & Hx). apply consume_loop_exec in Hx as (Hl & Ho7 & Hc7).
  simpl. rewrite closed_app, opened_app, Hc4, Ho4. simpl. rewrite Ho7. split.
  - eapply (settled_app _ _ _ None); [by apply settled_quiet|]. simpl.
    eapply (settled_app _ (Obs _ _ :: t4) _ None); [by apply settled_quiet|]. exact Hl.
  - destruct out as [[e|]| |]; [by rewrite Hc7|done..].
Qed.
#[local] Opaque startConsumeLoop.

(** How a consumer that restarts may return: with the error of the last
    consume loop, when the context has an error after it; or with the
    context's error, when the wait for a reconnection has ended because the
    context is done. *)
Definition returns_when_done (c : Config) (opts : ConsumeOptions) (t : list (obs rmqE))
    (r : option error) : Prop :=
  (exists n t0 t1 e ctxErr, t = t0 ++ t1 ++ [Obs CtxErr (Some ctxErr)] /\
     exec (startConsumeLoop n c (without_reconnect opts)) t1 (Return (Some e)) /\ r = Some e) \/
  (exists t0, t = t0 ++ [Obs DoneOrTick true; Obs CtxErr r]).

Lemma returns_when_done_app c opts t t' r :
  returns_when_done c opts t' r -> returns_when_done c opts (t ++ t') r.
Proof.
  intros [(n & t0 & t1 & e & ctxErr & -> & H)|[t0 ->]]; [left|right].
  - exists n, (t ++ t0), t1, e, ctxErr. by rewrite app_assoc.
  - exists (t ++ t0). by rewrite app_assoc.
Qed.

(** The documented law of a context: once [Done] is closed, [Err] is not nil. *)
Definition ctx_law (t : list (obs rmqE)) : Prop :=
  forall t0 t1 x, t = t0 ++ Obs DoneOrTick true :: Obs CtxErr x :: t1 -> x <> None.

Lemma returns_when_done_error c opts t r :
  returns_when_done c opts t r -> ctx_law t -> r <> None.
Proof.
  intros [(n & t0 & t1 & e & ctxErr & _ & _ & ->)|[t0 Ht]] Hlaw; [done|].
  by eapply Hlaw.
Qed.

Lemma waitForReconnect_exec fuel t r :
  exec (waitForReconnect fuel) t r ->
  settlements t = [] /\ received t = [] /\ closed t = [] /\ opened t = [] /\
  (r = Return false -> exists t0, t = t0 ++ [Obs DoneOrTick true]).
Proof.
  revert t. induction fuel as [|fuel IH]; intros t; simpl; [by intros [-> ->]|].
  intros ([] & t1 & -> & Hx).
  - destruct Hx as [-> ->]. split_and!; [done..|]. intros _. by exists [].
  - destruct Hx as (st & t2 & -> & Hx). simpl. case_bool_decide.
    + by destruct Hx as [-> ->].
    + destruct (IH t2 Hx) as (H1 & H2 & H3 & H4 & H5). split_and!; [done..|].
      intros Hr. destruct (H5 Hr) as [t0 ->]. by exists (Obs DoneOrTick false :: Obs StateLoad st :: t0).
Qed.
#[local] Opaque waitForReconnect.

Lemma startConsumerWithReconnect_exec fuel c opts t out :
  exec (startConsumerWithReconnect fuel c opts) t out ->
  settled_in_order (auto_ack c opts) t out /\
  match out with Return r => closed t = opened t /\ returns_when_done c opts t r | _ => True end.
Proof.
  revert t. induction fuel as [|fuel IH]; intros t; simpl.
  { intros [-> ->]. split; [by apply settled_quiet|done]. }
  intros (r & t1 & t2 & -> & Hrun & Hx)%exec_bind.
  pose proof (startConsumeLoop_exec _ _ _ _ _ Hrun) as [Hs1 Ho1].
  change (auto_ack c (without_reconnect opts)) with (auto_ack c opts) in Hs1.
  destruct r as [[e|]|v|]; [|done| |]; simpl in Hx.
  2,3: destruct Hx as [-> ->]; by rewrite app_nil_r.
  rewrite closed_app, opened_app, Ho1.
  destruct Hx as ([ctxErr|] & t3 & -> & Hx).
  { destruct Hx as [-> ->]. split; [by eapply settled_app; [exact Hs1|apply settled_quiet]|].
    split; [done|]. left. by exists fuel, [], t1, e, ctxErr. }
  apply exec_bind in Hx as (w & t4 & t5 & -> & Hw & Hx).
  apply waitForReconnect_exec in Hw as (Hs4 & Hr4 & Hc4 & Ho4 & Hd4).
  assert (Hpre : settled_in_order (auto_ack c opts) (t1 ++ Obs CtxErr None :: t4) (Return (Some e))).
  { eapply settled_app; [exact Hs1|]. by apply settled_quiet. }
  assert (Hstop : forall o, settled_in_order (auto_ack c opts) (t1 ++ Obs CtxErr None :: t4 ++ []) o).
  { intros o. rewrite app_nil_r. eapply settled_app; [exact Hs1|]. by apply settled_quiet. }
  destruct w as [[]|v|]; simpl in Hx.
  - destruct (IH t5 Hx) as [Hs5 Ho5].
    change (t1 ++ Obs CtxErr None :: t4 ++ t5) with (t1 ++ (Obs CtxErr None :: t4) ++ t5). split.
    + rewrite app_assoc. by eapply settled_app.
    + destruct out as [o|v|]; [|done|done]. destruct Ho5 as [Ho5 Hd5]. simpl.
      rewrite closed_app, opened_app, Hc4, Ho4, Ho5. split; [done|].
      apply returns_when_done_app, (returns_when_done_app _ _ (Obs CtxErr None :: t4)), Hd5.
  - destruct Hx as (e' & t6 & -> & -> & ->). simpl.
    rewrite closed_app, opened_app, Hc4, Ho4. split; [|split; [done|]].
    + eapply settled_app; [exact Hs1|]. apply settled_quiet; simpl;
        [by rewrite settlements_app, Hs4|by rewrite received_app, Hr4].
    + destruct (Hd4 eq_refl) as [t0 ->]. right. exists (t1 ++ Obs CtxErr None :: t0).
      by rewrite <- !app_assoc.
  - destruct Hx as [-> ->]. split; [apply Hstop|done].
  - destruct Hx as [-> ->]. split; [apply Hstop|done].
Qed.

(** C32: A consumer settles what it receives and cleans up.  Whatever the
    broker, the handler and the network do: in manual mode the deliveries
    settled are exactly the deliveries received, in order, across all
    restarts (up to the last one if the handler panicked), and none is
    settled in auto-ack mode; when the consumer returns, every channel it
    opened has been closed.  Without [AutoReconnect] it never returns nil.
    With [AutoReconnect] it returns in two ways only: the error of the
    consume loop that ended, when [ctx.Err()] is not nil after it, or the
    answer of [ctx.Err()], when the wait for a reconnection saw the context
    done; so with a context whose [Err] is not nil once [Done] is closed it
    never returns nil either. *)
Theorem StartConsumer_contract fuel c opts t out :
  exec (StartConsumer fuel c opts) t out ->
  settled_in_order (auto_ack c opts) t out /\
  match out with
  | Return r => closed t = opened t /\
      (if co_AutoReconnect opts
       then returns_when_done c opts t r /\ (ctx_law t -> r <> None)
       else r <> None)
  | _ => True
  end.
Proof.
  unfold StartConsumer. destruct (co_AutoReconnect opts).
  - intros [Hs Ho]%startConsumerWithReconnect_exec. split; [done|].
    destruct out as [r| |]; [|done|done]. destruct Ho as [Hc Hr].
    split_and!; [done|done|by eapply returns_when_done_error].
  - intros [Hs Ho]%startConsumeLoop_exec. split; [done|]. by destruct out as [[e|]| |].
Qed.

(** ** Examples *)

Definition consumer_mem : mem :=
  Mem StateConnected false (Some 1%nat) (Some 2%nat) (make_chan 10) false [] [] []
    ∅ ∅ ∅ {[1%nat; 2%nat]} ∅.

(** A failing message that has been dead-lettered three times. *)
Definition tired : Delivery :=
  MkDelivery 4 {["x-death" := VList [VOther "table"; VOther "table"; VOther "table"]]} "bad".

Definition example_deliveries : list consume_event :=
  [Delivered (MkDelivery 1 ∅ "ok"); Delivered (MkDelivery 2 ∅ "bad");
   Delivered (MkDelivery 3 ∅ "?"); Delivered tired; CtxDone (Sentinel context_Canceled)].



(** The scripted environment with a context that has been cancelled. *)
Definition cancelled (X : Type) (e : rmqE X) (s : script) : option (X * script) :=
  match e in rmqE X return option (X * script) with
  | CtxErr => Some (Some (Sentinel context_Canceled), s)
  | e => scripted _ e s
  end.

Definition restarting : ConsumeOptions :=
  MkConsumeOptions "work" "" false false false false None true.

Definition example_consume :=
  mrun cancelled (StartConsumer 7 example_config restarting) (consumer_mem, example_deliveries, []).

Lemma StartConsumer_contract_witness :
  match example_consume with
  | Some (out, _, t) =>
      out = Return (Some (Sentinel context_Canceled)) /\
      (settlements t).*2 = [SAck; SNack true; SReject false; SReject false] /\
      settled_in_order false t out /\
      match out with
      | Return r => closed t = opened t /\ returns_when_done example_config restarting t r /\
                    (ctx_law t -> r <> None)
      | _ => True
      end
  | None => False
  end.
Proof.
  assert (Hres : option_map (fun r => (r.1.1, (settlements r.2).*2)) example_consume
                 = Some (Return (Some (Sentinel context_Canceled)),
                         [SAck; SNack true; SReject false; SReject false]))
    by (vm_compute; reflexivity).
  destruct example_consume as [[[out s'] t]|] eqn:Hr; [|discriminate].
  injection Hres as Hout Hs. split; [exact Hout|]. split; [exact Hs|].
  apply (StartConsumer_contract 7 example_config restarting t out).
  exact (mrun_exec _ _ _ _ _ _ Hr).
Defined.
