(* ===== verification/RmqBatch.v ===== *)
(** * RmqBatch: consuming in batches ([rabbitmq/consumer.go])

    The batch consumer collects decoded deliveries and hands them to its
    handler when the batch is full, when its timer fires, and before it
    ends; it settles a batch as a whole. *)

From stdpp Require Import base gmap strings list sets.
From Stdlib Require Import ZArith Lia.
From S2P Require Import Prelude Effects GoChan RmqConfig RmqEvents RmqRun RmqPool.
From S2P Require Import RmqClient RmqTopology RmqConsumer.

Open Scope Z_scope.
Open Scope go_scope.

Record BatchConsumer := NewBatchConsumer { batchSize : Z; flushTimeout : Z }.

(** The two loops over a batch: [d.Ack(false)] for each delivery after the
    handler succeeded, [d.Nack(false, true)] for each after it failed. *)
Definition settle_call (ok : bool) (d : Delivery) : rmqE (option error) :=
  if ok then Ack d else Nack d true.
Fixpoint settle_all (ok : bool) (ds : list Delivery) : prog rmqE unit :=
  match ds with
  | [] => Ret tt
  | d :: ds' => call (settle_call ok d) ;;; settle_all ok ds'
  end.

(** The [flush] closure.  Whenever it returns, the batch is empty: its
    callers go on with empty lists. *)
Definition flush (batch : list Json) (batchDeliveries : list Delivery)
  : prog rmqE (outcome (option error)) :=
  match batch with
  | [] => Ret (Return None)
  | _ =>
      let* h := call (HandleBatch batch batchDeliveries) in
      match h with
      | inr v => Ret (Panic v)
      | inl (Some err) =>
          settle_all false batchDeliveries ;;;
          Ret (Return (Some (wrap "batch handler error: " err)))
      | inl None =>
          settle_all true batchDeliveries ;;;
          Ret (Return None)
      end
  end.

Fixpoint batch_loop (fuel : nat) (bc : BatchConsumer) (ch : amqpCh) (batch : list Json)
    (batchDeliveries : list Delivery) : prog rmqE (outcome (option error)) :=
  match fuel with
  | O => Ret OutOfFuel
  | S fuel' =>
      let* ev := call (SelectBatch ch) in
      match ev with
      | BatchCtxDone err =>
          let! _ := flush batch batchDeliveries in
          call (ChClose ch) ;;;
          Ret (Return (Some err))
      | FlushTimer =>
          let! _ := flush batch batchDeliveries in
          call (TimerReset (flushTimeout bc)) ;;;
          batch_loop fuel' bc ch [] []
      | BatchDeliveriesClosed =>
          let! _ := flush batch batchDeliveries in
          call (ChClose ch) ;;;
          Ret (Return (Some (new_error "delivery channel closed")))
      | BatchDelivered delivery =>
          call (OtelExtract (carrier_of (d_Headers delivery))) ;;;
          let* m := call (JsonUnmarshal (d_Body delivery)) in
          match m with
          | Err _ =>
              call (Reject delivery false) ;;;
              batch_loop fuel' bc ch batch batchDeliveries
          | Ok msg =>
              let batch' := batch ++ [msg] in
              let batchDeliveries' := batchDeliveries ++ [delivery] in
              if batchSize bc <=? Z.of_nat (length batch') then
                let! _ := flush batch' batchDeliveries' in
                call (TimerReset (flushTimeout bc)) ;;;
                batch_loop fuel' bc ch [] []
              else batch_loop fuel' bc ch batch' batchDeliveries'
          end
      end
  end.

Definition StartBatchConsumer (fuel : nat) (c : Config) (bc : BatchConsumer)
    (opts : ConsumeOptions) : prog rmqE (outcome (option error)) :=
  let! r := CreateConsumerChannel in
  match r with
  | Err err => Ret (Return (Some (wrap "failed to create consumer channel: " err)))
  | Ok ch =>
      let* q := call (ChQos ch (PrefetchCount c)) in
      match q with
      | Some err => call (ChClose ch) ;;; Ret (Return (Some (wrap "failed to set QoS: " err)))
      | None =>
          let* args := read_args (co_Args opts) in
          let* e := call (ChConsume ch (co_QueueName opts) (co_Consumer opts) false
                            (co_Exclusive opts) (co_NoLocal opts) (co_NoWait opts) args) in
          match e with
          | Some err =>
              call (ChClose ch) ;;; Ret (Return (Some (wrap "failed to start consuming: " err)))
          | None =>
              call (NewTimer (flushTimeout bc)) ;;;
              batch_loop fuel bc ch [] []
          end
      end
  end.

(** ** What a batch consumer owes *)

(** The deliveries received, with the outcome of decoding each. *)
Definition incoming (t : list (obs rmqE)) : list (Delivery * result Json) :=
  zip (received t) (parsed t).

Definition good (t : list (obs rmqE)) : list (Json * Delivery) :=
  omap (fun dr => match dr.2 with Ok m => Some (m, dr.1) | Err _ => None end) (incoming t).
Definition bad (t : list (obs rmqE)) : list Delivery :=
  omap (fun dr => match dr.2 with Ok _ => None | Err _ => Some dr.1 end) (incoming t).

(** The batches handed to the handler, with its answers. *)
Definition batch1 (o : obs rmqE) : option (list (Json * Delivery) * (option error + string)) :=
  match o with
  | Obs e x =>
      match e in rmqE X
        return X -> option (list (Json * Delivery) * (option error + string)) with
      | HandleBatch msgs ds => fun r => Some (zip msgs ds, r)
      | _ => fun _ => None
      end x
  end.
Definition batches (t : list (obs rmqE)) := omap batch1 t.

(** How a batch is settled. *)
Definition batch_settlement (b : list (Json * Delivery) * (option error + string))
  : list (Delivery * settlement) :=
  match b.2 with
  | inl None => (fun md => (md.2, SAck)) <$> b.1
  | inl (Some _) => (fun md => (md.2, SNack true)) <$> b.1
  | inr _ => []
  end.

Definition is_reject (ds : Delivery * settlement) : bool :=
  match ds.2 with SReject _ => true | _ => false end.
Definition rejections (t : list (obs rmqE)) := List.filter is_reject (settlements t).
Definition group_settlements (t : list (obs rmqE)) :=
  List.filter (fun x => negb (is_reject x)) (settlements t).

(** The calls that settle a group do nothing else. *)
Definition group_kind (ok : bool) : settlement := if ok then SAck else SNack true.

Lemma settle_all_exec ok ds t u :
  exec (settle_all ok ds) t u ->
  settlements t = (fun d => (d, group_kind ok)) <$> ds /\ received t = [] /\ parsed t = [] /\
  batches t = [] /\ opened t = [] /\ closed t = [].
Proof.
  revert t. induction ds as [|d ds IH]; intros t; simpl; [by intros [-> ->]|].
  intros (x & t1 & -> & Hx). destruct (IH t1 Hx) as (H1 & H2 & H3 & H4 & H5 & H6).
  split_and!; [|by destruct ok..].
  transitivity ((d, group_kind ok) :: settlements t1); [by destruct ok|by rewrite H1].
Qed.

(** A flush of the pending pairs [p]: one batch if there are any. *)
Record flushed (p : list (Json * Delivery)) (t : list (obs rmqE)) (out : outcome (option error))
  : Prop := {
  fl_received : received t = [] /\ parsed t = [];
  fl_channels : opened t = [] /\ closed t = [];
  fl_batches : mjoin (batches t).*1 = p;
  fl_sizes : Forall (fun b => b.1 = p /\ p <> []) (batches t);
  fl_rejections : rejections t = [];
  fl_group : group_settlements t = mjoin (batch_settlement <$> batches t);
  fl_out : out <> OutOfFuel;
  fl_answers : (exists r, out = Return r) -> Forall (fun b => exists e, b.2 = inl e) (batches t)
}.

Lemma group_no_reject (l : list (Json * Delivery)) ok :
  List.filter is_reject ((fun d => (d, group_kind ok)) <$> l.*2) = [] /\
  List.filter (fun x => negb (is_reject x)) ((fun d => (d, group_kind ok)) <$> l.*2)
    = (fun md => (md.2, group_kind ok)) <$> l.
Proof.
  induction l as [|[m d] l [IH1 IH2]]; [done|].
  rewrite !fmap_cons. destruct ok; simpl; split; [exact IH1|by f_equal|exact IH1|by f_equal].
Qed.

(** The handler answered; the group was settled accordingly. *)
Lemma flush_settled p (err : option error) out t u :
  p <> [] -> out <> OutOfFuel ->
  exec (settle_all (negb (bool_decide (is_Some err))) p.*2) t u ->
  flushed p (Obs (HandleBatch p.*1 p.*2) (inl err) :: t) out.
Proof.
  intros Hp Hout (H1 & H2 & H3 & H4 & H5 & H6)%settle_all_exec.
  destruct (group_no_reject p (negb (bool_decide (is_Some err)))) as [Hg1 Hg2].
  assert (Hb : batches (Obs (HandleBatch p.*1 p.*2) (inl err) :: t) = [(p, inl err)]).
  { transitivity ((zip p.*1 p.*2, inl err : option error + string) :: batches t); [done|].
    by rewrite H4, zip_fst_snd. }
  constructor; [done|done|rewrite Hb; simpl; apply app_nil_r| | | |done|].
  - rewrite Hb. by repeat constructor.
  - unfold rejections. change (settlements (Obs _ _ :: t)) with (settlements t). by rewrite H1.
  - unfold group_settlements. change (settlements (Obs _ _ :: t)) with (settlements t).
    rewrite H1, Hg2, Hb. simpl. rewrite app_nil_r. by destruct err.
  - intros _. rewrite Hb. constructor; [by exists err|done].
Qed.

#[local] Opaque settle_all.
Lemma flush_exec p t out : exec (flush p.*1 p.*2) t out -> flushed p t out.
Proof.
  destruct p as [|md p]; simpl; [by intros [-> ->]; constructor|].
  intros (h & t1 & -> & Hx). destruct h as [[err|]|v].
  - apply exec_bind in Hx as (u & t2 & t3 & -> & Hs & [-> ->]). rewrite app_nil_r.
    by apply (flush_settled (md :: p) (Some err) _ _ u).
  - apply exec_bind in Hx as (u & t2 & t3 & -> & Hs & [-> ->]). rewrite app_nil_r.
    by apply (flush_settled (md :: p) None _ _ u).
  - destruct Hx as [-> ->]. constructor; try done; try (by intros [r ?]); unfold batches; simpl;
      rewrite zip_fst_snd; destruct md; [by rewrite app_nil_r|by repeat constructor].
Qed.
#[local] Opaque flush.

(** What is true of a run of the loop from the pending pairs [p]. *)
Record batch_post (bc : BatchConsumer) (ch : amqpCh) (p : list (Json * Delivery))
    (t : list (obs rmqE)) (out : outcome (option error)) : Prop := {
  bp_rest : exists rest, p ++ good t = mjoin (batches t).*1 ++ rest /\
    Z.of_nat (length rest) < Z.max 1 (batchSize bc) /\ (out <> OutOfFuel -> rest = []);
  bp_sizes : Forall (fun b => b.1 <> [] /\ Z.of_nat (length b.1) <= Z.max 1 (batchSize bc))
               (batches t);
  bp_rejections : rejections t = (fun d => (d, SReject false)) <$> bad t;
  bp_group : group_settlements t = mjoin (batch_settlement <$> batches t);
  bp_answers : (exists r, out = Return r) -> Forall (fun b => exists e, b.2 = inl e) (batches t);
  bp_paired : length (received t) = length (parsed t);
  bp_opened : opened t = [];
  bp_closed : match out with
              | Return None => False | Return (Some _) => closed t = [ch] | _ => closed t = []
              end
}.

Lemma batches_app t1 t2 : batches (t1 ++ t2) = batches t1 ++ batches t2.
Proof. apply omap_app. Qed.
Lemma parsed_app t1 t2 : parsed (t1 ++ t2) = parsed t1 ++ parsed t2.
Proof. apply omap_app. Qed.

(** A flush, then the rest from an empty batch. *)
Lemma batch_after_flush bc ch p tf out1 t out :
  Z.of_nat (length p) <= Z.max 1 (batchSize bc) ->
  flushed p tf out1 -> ((exists r, out = Return r) -> exists r, out1 = Return r) ->
  batch_post bc ch [] t out -> batch_post bc ch p (tf ++ t) out.
Proof.
  intros Hp [[Hr Hpa] [Ho Hc] Hb Hs Hrej Hg _ Hans] Hret
    [(rest & Hrest & Hlen & Hout) Hsz Hj Hgr Hans2 Hpair Hop Hcl].
  assert (Hin : incoming (tf ++ t) = incoming t).
  { unfold incoming. by rewrite received_app, parsed_app, Hr, Hpa. }
  constructor.
  - exists rest. unfold good. rewrite Hin, batches_app, fmap_app, join_app, Hb, <- app_assoc.
    by rewrite <- Hrest.
  - rewrite batches_app. apply Forall_app. split; [|done].
    eapply Forall_impl; [exact Hs|]. by intros b [-> ?].
  - unfold rejections, bad in *. rewrite Hin, settlements_app, List.filter_app, Hrej. exact Hj.
  - unfold group_settlements in *.
    by rewrite settlements_app, List.filter_app, Hg, Hgr, batches_app, fmap_app, join_app.
  - intros Hr'. rewrite batches_app. apply Forall_app. split; auto.
  - by rewrite received_app, parsed_app, Hr, Hpa.
  - by rewrite opened_app, Ho, Hop.
  - by rewrite closed_app, Hc.
Qed.

(** Nothing is pending and nothing more happens but closing the channel. *)
Lemma batch_end bc ch err : batch_post bc ch [] [Obs (ChClose ch) tt] (Return (Some err)).
Proof. constructor; try done. exists []. split_and!; [done|simpl; lia|done]. Qed.

Lemma batch_panic bc ch v : batch_post bc ch [] [] (Panic v).
Proof. constructor; try done. exists []. split_and!; [done|simpl; lia|done]. Qed.

(** Calls that concern none of this do not matter. *)
Lemma batch_ext bc ch p t t' out :
  received t' = received t -> parsed t' = parsed t -> batches t' = batches t ->
  settlements t' = settlements t -> opened t' = opened t -> closed t' = closed t ->
  batch_post bc ch p t out -> batch_post bc ch p t' out.
Proof.
  intros H1 H2 H3 H4 H5 H6 [Hr Hs Hj Hg Ha Hl Ho Hc].
  assert (Hin : incoming t' = incoming t) by (unfold incoming; by rewrite H1, H2).
  constructor; unfold rejections, group_settlements, good, bad in *;
    by rewrite ?Hin, ?H1, ?H2, ?H3, ?H4, ?H5, ?H6.
Qed.

(** A delivery that cannot be decoded is rejected. *)
Lemma batch_poison bc ch p d u err x t out :
  batch_post bc ch p t out ->
  batch_post bc ch p
    (Obs (SelectBatch ch) (BatchDelivered d) :: Obs (OtelExtract (carrier_of (d_Headers d))) u ::
     Obs (JsonUnmarshal (d_Body d)) (Err err) :: Obs (Reject d false) x :: t) out.
Proof.
  intros [Hr Hs Hj Hg Ha Hl Ho Hc]. constructor; try done; [|simpl; by rewrite Hl].
  transitivity ((d, SReject false) :: rejections t); [done|by rewrite Hj].
Qed.

(** A decoded delivery joins the pending ones. *)
Lemma batch_pending bc ch p d u m t out :
  batch_post bc ch (p ++ [(m, d)]) t out ->
  batch_post bc ch p
    (Obs (SelectBatch ch) (BatchDelivered d) :: Obs (OtelExtract (carrier_of (d_Headers d))) u ::
     Obs (JsonUnmarshal (d_Body d)) (Ok m) :: t) out.
Proof.
  intros [(rest & Hr & Hlen & Hout) Hs Hj Hg Ha Hl Ho Hc].
  constructor; try done; [|simpl; by rewrite Hl].
  exists rest. split_and!; [|done|done].
  etrans; [|exact Hr]. by rewrite <- app_assoc.
Qed.

(** A flush at the end of the loop. *)
Lemma batch_flush_end bc ch p tf r t2 out err k :
  Z.of_nat (length p) <= Z.max 1 (batchSize bc) -> flushed p tf r ->
  exec (match r with
        | Return _ => k
        | Panic v => Ret (Panic v)
        | OutOfFuel => Ret OutOfFuel
        end) t2 out ->
  k = (call (ChClose ch) ;;; Ret (Return (Some err))) ->
  batch_post bc ch p (tf ++ t2) out.
Proof.
  intros Hp Hf Hx ->. destruct r as [r|v|]; simpl in Hx.
  - destruct Hx as ([] & t3 & -> & -> & ->). eapply batch_after_flush; eauto using batch_end.
  - destruct Hx as [-> ->]. eapply batch_after_flush; eauto using batch_panic.
  - by destruct (fl_out _ _ _ Hf).
Qed.

Lemma batch_loop_exec fuel bc ch p t out :
  Z.of_nat (length p) < Z.max 1 (batchSize bc) ->
  exec (batch_loop fuel bc ch p.*1 p.*2) t out -> batch_post bc ch p t out.
Proof.
  revert p t. induction fuel as [|fuel IH]; intros p t Hp; simpl.
  { intros [-> ->]. constructor; try done. exists p. by rewrite app_nil_r. }
  assert (Hp' : Z.of_nat (length p) <= Z.max 1 (batchSize bc)) by lia.
  assert (Hreset : forall q tf r t2, Z.of_nat (length q) <= Z.max 1 (batchSize bc) ->
    flushed q tf r ->
    exec (match r with
          | Return _ => call (TimerReset (flushTimeout bc)) ;;; batch_loop fuel bc ch [] []
          | Panic v => Ret (Panic v)
          | OutOfFuel => Ret OutOfFuel
          end) t2 out -> batch_post bc ch q (tf ++ t2) out).
  { intros q tf r t2 Hq Hf Hx. destruct r as [r|v|]; simpl in Hx.
    - destruct Hx as (u & t3 & -> & Hx). eapply batch_after_flush; [done|exact Hf|eauto|].
      eapply batch_ext, (IH [] t3); try done. simpl. lia.
    - destruct Hx as [-> ->]. eapply batch_after_flush; eauto using batch_panic.
    - by destruct (fl_out _ _ _ Hf). }
  intros (ev & t1 & -> & Hx). destruct ev as [err| |d|].
  - apply exec_bind in Hx as (r & tf & t2 & -> & Hf%flush_exec & Hx).
    eapply batch_ext, (batch_flush_end bc ch p tf r t2 out err); done.
  - apply exec_bind in Hx as (r & tf & t2 & -> & Hf%flush_exec & Hx).
    eapply batch_ext, Hreset; done.
  - destruct Hx as (u & t2 & -> & [m|err] & t3 & -> & Hx).
    + apply batch_pending.
      change (p.*1 ++ [m]) with (p.*1 ++ [(m, d)].*1) in Hx.
      change (p.*2 ++ [d]) with (p.*2 ++ [(m, d)].*2) in Hx.
      rewrite <- !fmap_app in Hx. rewrite length_fmap in Hx.
      destruct (Z.leb_spec (batchSize bc) (Z.of_nat (length (p ++ [(m, d)])))) as [Hfull|Hroom].
      * apply exec_bind in Hx as (r & tf & t4 & -> & Hf%flush_exec & Hx).
        eapply Hreset; [|exact Hf|exact Hx]. rewrite length_app in *. simpl in *. lia.
      * apply IH; [lia|exact Hx].
    + destruct Hx as (x & t4 & -> & Hx). apply batch_poison. by apply IH.
  - apply exec_bind in Hx as (r & tf & t2 & -> & Hf%flush_exec & Hx).
    eapply batch_ext, (batch_flush_end bc ch p tf r t2 out); done.
Qed.
#[local] Opaque batch_loop CreateConsumerChannel.

(** Every delivery received was decoded or rejected: as many outcomes as
    deliveries are needed for that to be visible in [incoming]. *)
Lemma partition_incoming (l : list (Delivery * result Json)) :
  (omap (fun dr => match dr.2 with Ok _ => None | Err _ => Some dr.1 end) l) ++
  (omap (fun dr => match dr.2 with Ok m => Some (m, dr.1) | Err _ => None end) l).*2 ≡ₚ l.*1.
Proof.
  induction l as [|[d [m|err]] l IH]; [done| |]; csimpl.
  - rewrite <- IH. by rewrite Permutation_middle.
  - by rewrite <- IH.
Qed.

Lemma filter_split {A} (f : A -> bool) (l : list A) :
  l ≡ₚ List.filter f l ++ List.filter (fun x => negb (f x)) l.
Proof.
  induction l as [|x l IH]; [done|]. simpl. destruct (f x); simpl; [by rewrite <- IH|].
  rewrite <- Permutation_middle. by rewrite <- IH.
Qed.

Lemma group_deliveries bs :
  Forall (fun b => exists e, b.2 = inl e) bs ->
  (mjoin (batch_settlement <$> bs)).*1 = (mjoin bs.*1).*2.
Proof.
  induction 1 as [|[p a] bs [e Hb] _ IH]; [done|]. simpl in Hb. subst a. csimpl.
  rewrite !fmap_app, IH. f_equal.
  unfold batch_settlement. destruct e; cbn [fst snd]; by rewrite <- list_fmap_compose.
Qed.

(** The set-up of the consumer receives and settles nothing. *)
Lemma StartBatchConsumer_exec fuel c bc opts t out :
  exec (StartBatchConsumer fuel c bc opts) t out ->
  exists pre t' ch, t = pre ++ t' /\ settlements pre = [] /\ received pre = [] /\ parsed pre = [] /\
    batches pre = [] /\
    ((t' = [] /\ (forall r, out = Return r -> r <> None /\ closed pre = opened pre)) \/
     (closed pre = [] /\ opened pre = [ch] /\ exec (batch_loop fuel bc ch [] []) t' out)).
Proof.
  intros (r & t1 & t2 & -> & Hc & Hx)%exec_bind.
  assert (Hp1 : parsed t1 = [] /\ batches t1 = []).
  { by destruct (CreateConsumerChannel_trace t1 r Hc) as (st & [->|(conns & x & ->)]). }
  destruct Hp1 as [Hp1 Hb1].
  apply CreateConsumerChannel_exec in Hc as (Hs1 & Hr1 & Hc1 & Ho1).
  assert (Hstop : forall rest (e : option error), out = Return e -> e <> None ->
    settlements rest = [] -> received rest = [] -> parsed rest = [] -> batches rest = [] ->
    closed (t1 ++ rest) = opened (t1 ++ rest) -> t2 = rest ->
    exists pre t' ch, t1 ++ t2 = pre ++ t' /\ settlements pre = [] /\ received pre = [] /\
      parsed pre = [] /\ batches pre = [] /\
      ((t' = [] /\ (forall r, out = Return r -> r <> None /\ closed pre = opened pre)) \/
       (closed pre = [] /\ opened pre = [ch] /\ exec (batch_loop fuel bc ch [] []) t' out))).
  { intros rest e -> He H1 H2 H3 H4 H5 ->. exists (t1 ++ rest), [], 0%nat.
    rewrite app_nil_r, settlements_app, received_app, parsed_app, batches_app, Hs1, Hr1, Hp1, Hb1.
    split_and!; [done..|]. left. split; [done|]. by intros r' [= <-]. }
  destruct r as [[ch|err]|v|]; simpl in Hx.
  2: { destruct Hx as [-> ->]. eapply (Hstop []); try done. by rewrite app_nil_r, Hc1, Ho1. }
  2,3: destruct Hx as [-> ->]; exists t1, [], 0%nat; split_and!; [done..|]; left; by split.
  destruct Hx as ([err|] & t3 & -> & Hx).
  { destruct Hx as (u & t4 & -> & -> & ->).
    refine (Hstop _ _ eq_refl _ _ _ _ _ _ eq_refl); try done.
    by rewrite closed_app, opened_app, Hc1, Ho1. }
  apply exec_bind in Hx as (args & t4 & t5 & -> & Ha & Hx).
  assert (Hargs : t4 = [] \/ exists l x, t4 = [Obs (MapRead l) x]).
  { destruct (co_Args opts) as [l|]; simpl in Ha;
      [destruct Ha as (x & t' & -> & -> & _); eauto|by left; destruct Ha as [-> _]]. }
  destruct Hx as ([err|] & t6 & -> & Hx).
  { destruct Hx as (u & t7 & -> & -> & ->).
    destruct Hargs as [->|(l & x & ->)];
      refine (Hstop _ _ eq_refl _ _ _ _ _ _ eq_refl); try done;
      by rewrite closed_app, opened_app, Hc1, Ho1. }
  destruct Hx as (u & t7 & -> & Hx).
  exists (t1 ++ Obs (ChQos ch (PrefetchCount c)) None :: t4 ++
          [Obs (ChConsume ch (co_QueueName opts) (co_Consumer opts) false (co_Exclusive opts)
                  (co_NoLocal opts) (co_NoWait opts) args) None;
           Obs (NewTimer (flushTimeout bc)) u]), t7, ch.
  rewrite settlements_app, received_app, parsed_app, batches_app, closed_app, opened_app,
    Hs1, Hr1, Hp1, Hb1, Hc1, Ho1.
  destruct Hargs as [->|(l & x & ->)]; split_and!; try done; try (by rewrite <- app_assoc); by right.
Qed.
#[local] Opaque StartBatchConsumer.

(** C33: A batch consumer settles every delivery exactly once.  Whatever the
    broker, the handler, the timer and the context do:
    the batches handed to the handler are non-empty and no larger than the
    batch size, and together, in order, they are the decoded deliveries
    (but for fewer than a batch still pending while the loop runs);
    undecodable deliveries are rejected without requeueing, and each batch is
    settled as a whole, acknowledged or requeued as the handler answered;
    when the consumer returns, which it does only with an error, nothing is
    pending, the settled deliveries are exactly the received ones, each once,
    and the channel it opened is closed. *)
Theorem batch_contract fuel c bc opts t out :
  exec (StartBatchConsumer fuel c bc opts) t out ->
  (exists rest, good t = mjoin (batches t).*1 ++ rest /\
     Z.of_nat (length rest) < Z.max 1 (batchSize bc) /\ (out <> OutOfFuel -> rest = [])) /\
  Forall (fun b => b.1 <> [] /\ Z.of_nat (length b.1) <= Z.max 1 (batchSize bc)) (batches t) /\
  rejections t = (fun d => (d, SReject false)) <$> bad t /\
  group_settlements t = mjoin (batch_settlement <$> batches t) /\
  match out with
  | Return r => r <> None /\ (settlements t).*1 ≡ₚ received t /\ closed t = opened t
  | _ => True
  end.
Proof.
  intros (pre & t' & ch & -> & Hs & Hr & Hp & Hb & Hcase)%StartBatchConsumer_exec.
  assert (Hin : incoming (pre ++ t') = incoming t').
  { unfold incoming. by rewrite received_app, parsed_app, Hr, Hp. }
  assert (Hset : settlements (pre ++ t') = settlements t') by by rewrite settlements_app, Hs.
  unfold good, bad, rejections, group_settlements.
  rewrite Hin, Hset, batches_app, Hb, received_app, Hr, closed_app, opened_app. simpl.
  destruct Hcase as [[-> Hend]|(Hc & Ho & Hx)].
  - split_and!; [|by constructor|done|done|].
    + exists []. split_and!; [done|simpl; lia|done].
    + destruct out as [r| |]; [|done|done]. destruct (Hend r eq_refl) as [? Hco].
      split_and!; [done|done|]. by rewrite Hco.
  - apply (batch_loop_exec fuel bc ch []) in Hx; [|simpl; lia].
    destruct Hx as [Hrest Hsz Hj Hg Ha Hl Hop Hcl]. split_and!; [exact Hrest|done|done|done|].
    destruct out as [r| |]; [|done|done].
    destruct r as [e|]; [|done]. rewrite Hc, Ho, Hop, Hcl. split_and!; [done| |done].
    destruct Hrest as (rest & Hgood & _ & Hnil). rewrite (Hnil ltac:(done)), app_nil_r in Hgood.
    rewrite (filter_split is_reject), fmap_app.
    unfold rejections, group_settlements in Hj, Hg.
    rewrite Hj, Hg, group_deliveries by eauto. simpl in Hgood. rewrite <- Hgood.
    rewrite <- list_fmap_compose. unfold compose. simpl. rewrite list_fmap_id.
    transitivity ((incoming t').*1); [apply partition_incoming|].
    unfold incoming. rewrite fst_zip by lia. done.
Qed.

(** ** Examples *)

Definition example_batches : list batch_event :=
  [BatchDelivered (MkDelivery 1 ∅ "a"); BatchDelivered (MkDelivery 2 ∅ "?");
   BatchDelivered (MkDelivery 3 ∅ "b"); BatchDelivered (MkDelivery 4 ∅ "bad"); FlushTimer;
   BatchDelivered (MkDelivery 5 ∅ "c"); BatchCtxDone (Sentinel context_Canceled)].

Definition batch_options : ConsumeOptions :=
  MkConsumeOptions "work" "" false false false false None false.

Definition example_batch_run :=
  mrun scripted (StartBatchConsumer 8 example_config (NewBatchConsumer 2 Second) batch_options)
    (consumer_mem, [], example_batches).

Lemma batch_contract_witness :
  match example_batch_run with
  | Some (out, _, t) =>
      (fun x => (DeliveryTag x.1, x.2)) <$> settlements t
        = [(2, SReject false); (1, SAck); (3, SAck); (4, SNack true); (5, SAck)] /\
      rejections t = (fun d => (d, SReject false)) <$> bad t /\
      match out with
      | Return r => r <> None /\ (settlements t).*1 ≡ₚ received t /\ closed t = opened t
      | _ => True
      end
  | None => False
  end.
Proof.
  assert (Hres : option_map (fun r => (fun x => (DeliveryTag x.1, x.2)) <$> settlements r.2)
                   example_batch_run
                 = Some [(2, SReject false); (1, SAck); (3, SAck); (4, SNack true); (5, SAck)])
    by (vm_compute; reflexivity).
  destruct example_batch_run as [[[out s'] t]|] eqn:Hr; [|discriminate].
  injection Hres as Hs. split; [exact Hs|].
  destruct (batch_contract 8 example_config (NewBatchConsumer 2 Second) batch_options t out)
    as (_ & _ & Hrej & _ & Hout); [exact (mrun_exec _ _ _ _ _ _ Hr)|].
  split; [exact Hrej|exact Hout].
Defined.
