(* ===== verification/KafkaClient.v ===== *)
(** * KafkaClient: configuration and creation of Kafka clients
      ([kafka/config.go], [kafka/client.go])

    The configuration with its builder methods and validation, the list of
    franz-go options it stands for, the creation of a client, and the
    adapter from franz-go's log levels to slog's.  A [*slog.Logger] is only
    tested for nil: the flag says whether one is set. *)

From stdpp Require Import base list strings sets.
From Stdlib Require Import ZArith Lia.
From S2P Require Import Prelude Effects.

Open Scope Z_scope.
Open Scope go_scope.

(** What the package sets of a [tls.Config]. *)
Record tlsConfig := MkTLS { MinVersion : Z }.
Definition VersionTLS12 : Z := 771.

Definition RequiredAcks := Z.
Definition NoAck : RequiredAcks := 0.
Definition LeaderAck : RequiredAcks := 1.
Definition AllISRAcks : RequiredAcks := -1.

Record Config := MkConfig {
  Brokers : list string;
  Topics : list string;
  GroupID : string;
  Logger : bool;
  TLSEnabled : bool;
  TLSConfig : option tlsConfig;
  SASLMechanism : string;
  SASLUsername : string;
  SASLPassword : string;
  RequiredAcks_ : RequiredAcks;
  RecordRetries : Z;
  RequestRetries : Z;
  BatchMaxBytes : Z;
  LingerDuration : Z;
  FetchMaxWait : Z;
  FetchMinBytes : Z;
  FetchMaxBytes : Z;
  SessionTimeout : Z;
  HeartbeatInterval : Z;
  RebalanceTimeout : Z;
  RequestTimeoutOverhead : Z;
  ConnIdleTimeout : Z;
  EnableOTel : bool
}.

Definition DefaultConfig (brokers : list string) (groupID : string) : Config := {|
  Brokers := brokers;
  Topics := [];
  GroupID := groupID;
  Logger := true;
  TLSEnabled := false;
  TLSConfig := None;
  SASLMechanism := "";
  SASLUsername := "";
  SASLPassword := "";
  RequiredAcks_ := AllISRAcks;
  RecordRetries := 10;
  RequestRetries := 3;
  BatchMaxBytes := 1000000;
  LingerDuration := 10 * Millisecond;
  FetchMaxWait := 500 * Millisecond;
  FetchMinBytes := 1;
  FetchMaxBytes := 50 * 1024 * 1024;
  SessionTimeout := 45 * Second;
  HeartbeatInterval := 3 * Second;
  RebalanceTimeout := 60 * Second;
  RequestTimeoutOverhead := 10 * Second;
  ConnIdleTimeout := 60 * Second;
  EnableOTel := true
|}.

(** Assignments to the fields the builder methods set. *)
Definition set_client (c : Config) (topics : list string) (logger tls : bool)
    (tlsc : option tlsConfig) (mech user pass : string) : Config := {|
  Brokers := Brokers c;
  Topics := topics;
  GroupID := GroupID c;
  Logger := logger;
  TLSEnabled := tls;
  TLSConfig := tlsc;
  SASLMechanism := mech;
  SASLUsername := user;
  SASLPassword := pass;
  RequiredAcks_ := RequiredAcks_ c;
  RecordRetries := RecordRetries c;
  RequestRetries := RequestRetries c;
  BatchMaxBytes := BatchMaxBytes c;
  LingerDuration := LingerDuration c;
  FetchMaxWait := FetchMaxWait c;
  FetchMinBytes := FetchMinBytes c;
  FetchMaxBytes := FetchMaxBytes c;
  SessionTimeout := SessionTimeout c;
  HeartbeatInterval := HeartbeatInterval c;
  RebalanceTimeout := RebalanceTimeout c;
  RequestTimeoutOverhead := RequestTimeoutOverhead c;
  ConnIdleTimeout := ConnIdleTimeout c;
  EnableOTel := EnableOTel c
|}.

Definition WithTopics (c : Config) (topics : list string) : Config :=
  set_client c topics (Logger c) (TLSEnabled c) (TLSConfig c)
    (SASLMechanism c) (SASLUsername c) (SASLPassword c).

Definition WithLogger (c : Config) (logger : bool) : Config :=
  set_client c (Topics c) logger (TLSEnabled c) (TLSConfig c)
    (SASLMechanism c) (SASLUsername c) (SASLPassword c).

Definition WithTLS (c : Config) (tls : option tlsConfig) : Config :=
  set_client c (Topics c) (Logger c) true
    (match tls with Some t => Some t | None => Some (MkTLS VersionTLS12) end)
    (SASLMechanism c) (SASLUsername c) (SASLPassword c).

Definition WithSASLPlain (c : Config) (username password : string) : Config :=
  set_client c (Topics c) (Logger c) (TLSEnabled c) (TLSConfig c) "PLAIN" username password.

Definition WithSASLScram (c : Config) (mechanism username password : string) : Config :=
  set_client c (Topics c) (Logger c) (TLSEnabled c) (TLSConfig c) mechanism username password.

Definition valid_mechanism (m : string) : bool :=
  String.eqb m "PLAIN" || String.eqb m "SCRAM-SHA-256" || String.eqb m "SCRAM-SHA-512".

Definition Validate (c : Config) : option error :=
  if (length (Brokers c) =? 0)%nat
  then Some (new_error "kafka: at least one broker is required")
  else if negb (String.eqb (SASLMechanism c) "") &&
          (String.eqb (SASLUsername c) "" || String.eqb (SASLPassword c) "")
  then Some (new_error
    "kafka: SASL username and password are required when SASL is enabled")
  else if negb (String.eqb (SASLMechanism c) "") && negb (valid_mechanism (SASLMechanism c))
  then Some (new_error ("kafka: unsupported SASL mechanism: " +:+ SASLMechanism c))
  else if RecordRetries c <? 0
  then Some (new_error "kafka: record retries must be non-negative")
  else if BatchMaxBytes c <=? 0
  then Some (new_error "kafka: batch max bytes must be positive")
  else if FetchMinBytes c <? 0
  then Some (new_error "kafka: fetch min bytes must be non-negative")
  else if FetchMaxBytes c <=? 0
  then Some (new_error "kafka: fetch max bytes must be positive")
  else None.

(** ** franz-go options *)

Inductive saslMechanism :=
| PlainAuth (user pass : string)
| ScramSha256 (user pass : string)
| ScramSha512 (user pass : string).

Inductive Opt :=
| SeedBrokers (brokers : list string)
| OptRecordRetries (n : Z)
| OptRequestRetries (n : Z)
| RetryBackoffFn (f : Z -> Z)
| SnappyCompression
| ProducerBatchMaxBytes (n : Z)
| ProducerLinger (d : Z)
| OptRequestTimeoutOverhead (d : Z)
| OptConnIdleTimeout (d : Z)
| WithSlogShim
| AcksNone | AcksLeader | AcksAllISR
| ConsumerGroup (group : string)
| ConsumeResetOffsetAtEnd
| DisableAutoCommit
| OptFetchMaxWait (d : Z)
| OptFetchMinBytes (n : Z)
| OptFetchMaxBytes (n : Z)
| OptSessionTimeout (d : Z)
| OptHeartbeatInterval (d : Z)
| OptRebalanceTimeout (d : Z)
| ConsumeTopics (topics : list string)
| DialTLSConfig (c : tlsConfig)
| SASL (m : saslMechanism)
| WithOTelHooks.

(** [time.Duration(tries) * 100 * time.Millisecond] *)
Definition retry_backoff (tries : Z) : Z := wrap64 (wrap64 (tries * 100) * Millisecond).

Definition acks_opt (a : RequiredAcks) : Opt :=
  if a =? NoAck then AcksNone else if a =? LeaderAck then AcksLeader else AcksAllISR.

Definition buildSASLOpt (c : Config) : result Opt :=
  if String.eqb (SASLMechanism c) "PLAIN"
  then Ok (SASL (PlainAuth (SASLUsername c) (SASLPassword c)))
  else if String.eqb (SASLMechanism c) "SCRAM-SHA-256"
  then Ok (SASL (ScramSha256 (SASLUsername c) (SASLPassword c)))
  else if String.eqb (SASLMechanism c) "SCRAM-SHA-512"
  then Ok (SASL (ScramSha512 (SASLUsername c) (SASLPassword c)))
  else Err (new_error ("unsupported SASL mechanism: " +:+ SASLMechanism c)).

(** The options up to TLS. *)
Definition base_opts (c : Config) : list Opt :=
  [SeedBrokers (Brokers c); OptRecordRetries (RecordRetries c);
   OptRequestRetries (RequestRetries c); RetryBackoffFn retry_backoff; SnappyCompression;
   ProducerBatchMaxBytes (BatchMaxBytes c); ProducerLinger (LingerDuration c);
   OptRequestTimeoutOverhead (RequestTimeoutOverhead c); OptConnIdleTimeout (ConnIdleTimeout c);
   WithSlogShim] ++
  [acks_opt (RequiredAcks_ c)] ++
  (if negb (String.eqb (GroupID c) "") then
     [ConsumerGroup (GroupID c); ConsumeResetOffsetAtEnd; DisableAutoCommit;
      OptFetchMaxWait (FetchMaxWait c); OptFetchMinBytes (FetchMinBytes c);
      OptFetchMaxBytes (FetchMaxBytes c); OptSessionTimeout (SessionTimeout c);
      OptHeartbeatInterval (HeartbeatInterval c); OptRebalanceTimeout (RebalanceTimeout c)]
   else []) ++
  (if (0 <? length (Topics c))%nat then [ConsumeTopics (Topics c)] else []) ++
  (match TLSEnabled c, TLSConfig c with true, Some t => [DialTLSConfig t] | _, _ => [] end).

(** [kgo.Client] handles. *)
Definition kgoClient := nat.

Inductive kgoE : Type -> Type :=
| KgoNewClient (opts : list Opt) : kgoE (result kgoClient)
| KgoPing (c : kgoClient) : kgoE (option error)
| KgoClose (c : kgoClient) : kgoE unit.

Definition create (opts : list Opt) : prog kgoE (result kgoClient) :=
  let* r := call (KgoNewClient opts) in
  match r with
  | Err err => Ret (Err err)
  | Ok client =>
      let* e := call (KgoPing client) in
      match e with
      | Some err =>
          call (KgoClose client) ;;;
          Ret (Err (wrap "failed to connect to Kafka: " err))
      | None => Ret (Ok client)
      end
  end.

Definition NewKafkaClientFromConfig (c : Config) : prog kgoE (result kgoClient) :=
  match Validate c with
  | Some err => Ret (Err (wrap "invalid config: " err))
  | None =>
      let otel := if EnableOTel c then [WithOTelHooks] else [] in
      if negb (String.eqb (SASLMechanism c) "") then
        match buildSASLOpt c with
        | Err err => Ret (Err (wrap "failed to configure SASL: " err))
        | Ok saslOpt => create (base_opts c ++ [saslOpt] ++ otel)
        end
      else create (base_opts c ++ otel)
  end.

Definition NewKafkaClient (logger : bool) (brokers topics : list string) (groupID : string)
  : prog kgoE (result kgoClient) :=
  NewKafkaClientFromConfig (WithLogger (WithTopics (DefaultConfig brokers groupID) topics) logger).

(** ** The logging adapter *)

Inductive LogLevel := LogLevelNone | LogLevelError | LogLevelWarn | LogLevelInfo | LogLevelDebug.
Inductive slogLevel := LevelDebug | LevelInfo | LevelWarn | LevelError.

Definition SlogShim_Level : LogLevel := LogLevelInfo.

(** The level the message is logged at; [None] when it is dropped. *)
Definition SlogShim_Log (level : LogLevel) : option slogLevel :=
  match level with
  | LogLevelError => Some LevelError
  | LogLevelWarn => Some LevelWarn
  | LogLevelInfo => Some LevelInfo
  | LogLevelDebug => Some LevelDebug
  | LogLevelNone => None
  end.

(** ** What a created client is configured with *)

(** The SASL mechanisms among the options. *)
Definition sasl_mechs (opts : list Opt) : list saslMechanism :=
  omap (fun o => match o with SASL m => Some m | _ => None end) opts.

(** The mechanism a configuration names. *)
Definition named_mechanism (c : Config) (m : saslMechanism) : Prop :=
  match m with
  | PlainAuth u p => SASLMechanism c = "PLAIN" /\ u = SASLUsername c /\ p = SASLPassword c
  | ScramSha256 u p =>
      SASLMechanism c = "SCRAM-SHA-256" /\ u = SASLUsername c /\ p = SASLPassword c
  | ScramSha512 u p =>
      SASLMechanism c = "SCRAM-SHA-512" /\ u = SASLUsername c /\ p = SASLPassword c
  end.

(** The TLS configurations among the options; without one the client dials
    in plaintext. *)
Definition tls_configs (opts : list Opt) : list tlsConfig :=
  omap (fun o => match o with DialTLSConfig t => Some t | _ => None end) opts.

(** What the options say: commits are manual exactly for group consumers;
    connections are encrypted, with the given TLS configuration, exactly when
    TLS is enabled and a configuration is given, so that TLS enabled without
    one gives a plaintext client; and authentication is the one that is
    named. *)
Definition faithful_opts (c : Config) (opts : list Opt) : Prop :=
  (DisableAutoCommit ∈ opts <-> GroupID c <> "") /\
  (TLSEnabled c = false -> tls_configs opts = []) /\
  (forall t, TLSEnabled c = true -> TLSConfig c = Some t -> tls_configs opts = [t]) /\
  (TLSEnabled c = true -> TLSConfig c = None -> tls_configs opts = []) /\
  (SASLMechanism c = "" -> sasl_mechs opts = []) /\
  (SASLMechanism c <> "" ->
   exists m, sasl_mechs opts = [m] /\ named_mechanism c m /\
     SASLUsername c <> "" /\ SASLPassword c <> "").

Lemma Validate_None c :
  Validate c = None <->
  Brokers c <> [] /\
  (SASLMechanism c <> "" -> SASLUsername c <> "" /\ SASLPassword c <> "" /\
                            valid_mechanism (SASLMechanism c) = true) /\
  0 <= RecordRetries c /\ 0 < BatchMaxBytes c /\ 0 <= FetchMinBytes c /\ 0 < FetchMaxBytes c.
Proof.
  unfold Validate. rewrite !if_error_None, Nat.eqb_neq, length_zero_iff_nil.
  rewrite !Z.ltb_ge, !Z.leb_gt.
  destruct (String.eqb_spec (SASLMechanism c) ""); simpl; [naive_solver|].
  rewrite orb_false_iff, !String.eqb_neq. destruct (valid_mechanism _); simpl; naive_solver.
Qed.

Lemma base_opts_sasl c : sasl_mechs (base_opts c) = [].
Proof.
  unfold base_opts, sasl_mechs, acks_opt. rewrite !omap_app. simpl.
  assert (Ha : omap (fun o => match o with SASL m => Some m | _ => None end)
                 (match TLSEnabled c, TLSConfig c with true, Some t => [DialTLSConfig t] | _, _ => [] end)
               = []) by by destruct (TLSEnabled c), (TLSConfig c).
  rewrite Ha. by repeat case_match.
Qed.

(** Membership in one of the option groups. *)
Ltac in_group H :=
  unfold acks_opt in H; repeat case_match; rewrite ?elem_of_cons, ?elem_of_nil in H;
  repeat match type of H with _ \/ _ => destruct H as [H|H] end; done.

Lemma base_opts_commit c : DisableAutoCommit ∈ base_opts c <-> GroupID c <> "".
Proof.
  rewrite <- String.eqb_neq. unfold base_opts. rewrite !elem_of_app. split.
  - intros [H|[H|[H|[H|H]]]]; [in_group H|in_group H| |in_group H|in_group H].
    destruct (String.eqb (GroupID c) ""); [by apply elem_of_nil in H|done].
  - intros ->. right. right. left. simpl. rewrite !elem_of_cons. auto.
Qed.

Lemma base_opts_tls c :
  tls_configs (base_opts c) =
  match TLSEnabled c, TLSConfig c with true, Some t => [t] | _, _ => [] end.
Proof.
  unfold base_opts, tls_configs, acks_opt. rewrite !omap_app. simpl.
  by destruct (TLSEnabled c), (TLSConfig c); repeat case_match.
Qed.

(** Further options that concern none of the above. *)
Lemma faithful_more c more :
  Validate c = None ->
  (forall o, o ∈ more -> o = WithOTelHooks \/ exists m, o = SASL m) ->
  (SASLMechanism c = "" -> sasl_mechs more = []) ->
  (SASLMechanism c <> "" -> exists m, sasl_mechs more = [m] /\ named_mechanism c m) ->
  faithful_opts c (base_opts c ++ more).
Proof.
  intros Hv Hmore H0 H1. unfold faithful_opts.
  assert (Hin : forall o, o <> WithOTelHooks -> (forall m, o <> SASL m) ->
    o ∈ base_opts c ++ more <-> o ∈ base_opts c).
  { intros o Ho Hm. rewrite elem_of_app. split; [|by left].
    intros [?|H]; [done|]. destruct (Hmore o H) as [->|[m ->]]; [done|by destruct (Hm m)]. }
  assert (Hs : sasl_mechs (base_opts c ++ more) = sasl_mechs more).
  { unfold sasl_mechs at 1. rewrite omap_app. fold (sasl_mechs (base_opts c)).
    by rewrite base_opts_sasl. }
  assert (Ht : tls_configs (base_opts c ++ more) = tls_configs (base_opts c)).
  { unfold tls_configs. rewrite omap_app. fold (tls_configs (base_opts c)).
    enough (Hno : tls_configs more = []) by (unfold tls_configs in Hno; by rewrite Hno, app_nil_r).
    clear -Hmore. induction more as [|o more IH]; [done|].
    destruct (Hmore o) as [->|[m ->]]; [set_solver|apply IH; set_solver..]. }
  rewrite Hs, Ht, base_opts_tls. split_and!.
  - rewrite Hin by done. apply base_opts_commit.
  - by intros ->.
  - by intros t -> ->.
  - by intros -> ->.
  - done.
  - intros Hne. destruct (H1 Hne) as (m & Hm & Hn). exists m.
    apply Validate_None in Hv as (_ & Hv & _). destruct (Hv Hne) as (? & ? & _). done.
Qed.

Lemma buildSASLOpt_valid c :
  valid_mechanism (SASLMechanism c) = true ->
  exists m, buildSASLOpt c = Ok (SASL m) /\ named_mechanism c m.
Proof.
  unfold valid_mechanism, buildSASLOpt.
  destruct (String.eqb_spec (SASLMechanism c) "PLAIN") as [H|_]; [by eexists|].
  destruct (String.eqb_spec (SASLMechanism c) "SCRAM-SHA-256") as [H|_]; [by eexists|].
  by destruct (String.eqb_spec (SASLMechanism c) "SCRAM-SHA-512") as [H|_]; [eexists|].
Qed.

(** C34: Creating a Kafka client.  An invalid configuration is refused
    before anything is contacted.  A valid one always reaches the library
    (the error for an unsupported SASL mechanism cannot occur), with options
    that make commits manual exactly for group consumers, name the
    configured authentication, and encrypt with the given TLS configuration
    exactly when [TLSEnabled] is set and [TLSConfig] is not nil: [TLSEnabled]
    with a nil [TLSConfig] is a valid configuration and gives a plaintext
    client (see [tls_enabled_plaintext]); the client is returned only if the cluster answered the
    ping, and a client whose ping failed has been closed. *)
Theorem kafka_client_contract c t out :
  exec (NewKafkaClientFromConfig c) t out ->
  match Validate c with
  | Some err => t = [] /\ out = Err (wrap "invalid config: " err)
  | None =>
      exists opts, faithful_opts c opts /\
        ((exists err, t = [Obs (KgoNewClient opts) (Err err)] /\ out = Err err) \/
         (exists cl, t = [Obs (KgoNewClient opts) (Ok cl); Obs (KgoPing cl) None] /\ out = Ok cl) \/
         (exists cl err,
            t = [Obs (KgoNewClient opts) (Ok cl); Obs (KgoPing cl) (Some err); Obs (KgoClose cl) tt] /\
            out = Err (wrap "failed to connect to Kafka: " err)))
  end.
Proof.
  assert (Hcreate : forall opts, exec (create opts) t out ->
    (exists err, t = [Obs (KgoNewClient opts) (Err err)] /\ out = Err err) \/
    (exists cl, t = [Obs (KgoNewClient opts) (Ok cl); Obs (KgoPing cl) None] /\ out = Ok cl) \/
    (exists cl err,
       t = [Obs (KgoNewClient opts) (Ok cl); Obs (KgoPing cl) (Some err); Obs (KgoClose cl) tt] /\
       out = Err (wrap "failed to connect to Kafka: " err))).
  { intros opts ([cl|err] & t1 & -> & Hx); [|destruct Hx as [-> ->]; eauto].
    destruct Hx as ([err|] & t2 & -> & Hx); [|destruct Hx as [-> ->]; eauto].
    destruct Hx as ([] & t3 & -> & -> & ->). right. right. eauto. }
  unfold NewKafkaClientFromConfig. destruct (Validate c) as [err|] eqn:Hv; [done|].
  destruct (String.eqb_spec (SASLMechanism c) "") as [Hm|Hm]; simpl.
  - intros Hx. eexists. split; [|apply Hcreate; exact Hx].
    apply faithful_more; [done| |by destruct (EnableOTel c)|done].
    intros o Ho. destruct (EnableOTel c); [|by apply elem_of_nil in Ho].
    apply list_elem_of_singleton in Ho. by left.
  - pose proof Hv as Hv'. apply Validate_None in Hv' as (_ & Hv' & _).
    destruct (Hv' Hm) as (_ & _ & Hok). destruct (buildSASLOpt_valid c Hok) as (m & -> & Hn).
    intros Hx. eexists. split; [|apply Hcreate; exact Hx].
    apply faithful_more; [done| |done|].
    + intros o [->|Ho]%elem_of_cons; [by right; exists m|].
      destruct (EnableOTel c); [|by apply elem_of_nil in Ho].
      apply list_elem_of_singleton in Ho. by left.
    + intros _. exists m. by destruct (EnableOTel c).
Qed.

(** ** Examples *)

Definition example_kafka : Config :=
  WithSASLPlain (DefaultConfig ["localhost:9092"] "group") "user" "secret".

Definition example_kafka_opts : list Opt :=
  base_opts example_kafka ++ [SASL (PlainAuth "user" "secret")] ++ [WithOTelHooks].

Definition unreachable_trace : list (obs kgoE) :=
  [Obs (KgoNewClient example_kafka_opts) (Ok 1%nat);
   Obs (KgoPing 1%nat) (Some (new_error "no broker")); Obs (KgoClose 1%nat) tt].

Lemma kafka_client_contract_witness :
  let out := Err (wrap "failed to connect to Kafka: " (new_error "no broker")) in
  exec (NewKafkaClientFromConfig example_kafka) unreachable_trace out /\
  exists opts, faithful_opts example_kafka opts /\
    ((exists err, unreachable_trace = [Obs (KgoNewClient opts) (Err err)] /\ out = Err err) \/
     (exists cl, unreachable_trace = [Obs (KgoNewClient opts) (Ok cl); Obs (KgoPing cl) None] /\
                 out = Ok cl) \/
     (exists cl err,
        unreachable_trace = [Obs (KgoNewClient opts) (Ok cl); Obs (KgoPing cl) (Some err);
                             Obs (KgoClose cl) tt] /\
        out = Err (wrap "failed to connect to Kafka: " err))).
Proof.
  cbv zeta.
  assert (Hx : exec (NewKafkaClientFromConfig example_kafka) unreachable_trace
                 (Err (wrap "failed to connect to Kafka: " (new_error "no broker")))).
  { exists (Ok 1%nat). eexists. split; [reflexivity|].
    exists (Some (new_error "no broker")). eexists. split; [reflexivity|].
    exists tt. eexists. split; [reflexivity|]. split; reflexivity. }
  split; [exact Hx|].
  exact (kafka_client_contract example_kafka unreachable_trace _ Hx).
Defined.

(** A configuration that enables TLS and has no TLS configuration: it is
    valid, and the client it gives dials in plaintext. *)
Definition tls_unconfigured : Config :=
  set_client (DefaultConfig ["localhost:9092"] "group") [] true true None "" "" "".

Lemma tls_enabled_plaintext :
  TLSEnabled tls_unconfigured = true /\ Validate tls_unconfigured = None /\
  exists opts,
    exec (NewKafkaClientFromConfig tls_unconfigured)
      [Obs (KgoNewClient opts) (Ok 1%nat); Obs (KgoPing 1%nat) None] (Ok 1%nat) /\
    tls_configs opts = [].
Proof.
  split_and!; [done|done|]. eexists. split.
  - exists (Ok 1%nat). eexists. split; [reflexivity|]. exists None. eexists.
    split; [reflexivity|]. split; reflexivity.
  - reflexivity.
Qed.

(** [WithTLS] never leaves a configuration in that state. *)
Lemma WithTLS_encrypts c tls : exists t, tls_configs (base_opts (WithTLS c tls)) = [t].
Proof. rewrite base_opts_tls. destruct tls as [t|]; simpl; eauto. Qed.
