(* ===== verification/KafkaMessaging.v ===== *)
(** * KafkaMessaging: producing, consuming and health
      ([kafka/producer.go], [kafka/consumer.go], [kafka/health.go])

    The producer turns messages into records; the consumer polls, runs the
    handler on each record with retries, sends what keeps failing to the
    dead-letter topic and commits; the health checker judges the cluster's
    metadata. *)

From stdpp Require Import base gmap strings list.
From Stdlib Require Import ZArith Lia.
From S2P Require Import Prelude Effects KafkaClient.

Open Scope Z_scope.
Open Scope go_scope.

(** A [[]byte]: nil, or the bytes it holds.  A nil key or value is Kafka's
    null, which is not the same as an empty one. *)
Definition bytes := option string.

(** [kgo.Record]; header values are never nil here. *)
Record Record_ := MkRecord {
  r_Topic : string;
  r_Key : bytes;
  r_Value : bytes;
  r_Headers : list (string * string);
  r_Partition : Z;
  r_Offset : Z
}.

(** A payload ([any]): a byte slice (it may be nil), or a value for the JSON
    encoder. *)
Inductive Payload := PBytes (b : bytes) | PValue (v : string).

(** [Callback] is nil or the caller's: the flag says which. *)
Record Message := MkMessage {
  m_Topic : string;
  m_Payload : Payload;
  m_Key : string;
  m_Headers : gmap string string;
  m_Callback : bool
}.

Inductive produceE : Type -> Type :=
| JsonMarshal (v : string) : produceE (result string)
| NowRFC3339 : produceE string
| KgoProduce (r : Record_) (custom_callback : bool) : produceE unit.

(** ** Producer *)

Section producer.
(** The order in which Go iterates over a map. *)
Variable range : gmap string string -> list (string * string).

Definition marshalPayload (payload : Payload) : prog produceE (result bytes) :=
  match payload with
  | PBytes b => Ret (Ok b)
  | PValue v =>
      let* r := call (JsonMarshal v) in
      match r with
      | Err err => Ret (Err (wrap "marshal error: " err))
      | Ok data => Ret (Ok (Some data))
      end
  end.

(** The conversion [[]byte(msg.Key)] gives a slice that is not nil, also for
    the empty string. *)
Definition Produce (msg : Message) : prog produceE (option error) :=
  let* r := marshalPayload (m_Payload msg) in
  match r with
  | Err err => Ret (Some err)
  | Ok data =>
      call (KgoProduce (MkRecord (m_Topic msg) (Some (m_Key msg)) data (range (m_Headers msg)) 0 0)
              (m_Callback msg)) ;;;
      Ret None
  end.

Definition SendMessage (topic : string) (payload : Payload) : prog produceE (option error) :=
  Produce (MkMessage topic payload "" ∅ false).



Hypothesis range_perm : forall m, range m ≡ₚ map_to_list m.

End producer.



(** ** Consumer *)

(** The DLQ producer and the callback are set or nil. *)
Record ConsumerOptions := MkConsumerOptions {
  DLQProducer : bool;
  OnDLQPublish : bool;
  MaxRetries : Z;
  RetryBackoff : Z;
  o_Logger : bool
}.

(** One iteration of [NewConsumer]'s loop over its options. *)
Definition apply_options (options o : ConsumerOptions) : ConsumerOptions := {|
  DLQProducer := DLQProducer o;
  OnDLQPublish := OnDLQPublish o;
  MaxRetries := if 0 <? MaxRetries o then MaxRetries o else MaxRetries options;
  RetryBackoff := if 0 <? RetryBackoff o then RetryBackoff o else RetryBackoff options;
  o_Logger := if o_Logger o then o_Logger o else o_Logger options
|}.

Definition NewConsumer (opts : list ConsumerOptions) : ConsumerOptions :=
  fold_left apply_options opts (MkConsumerOptions false false 3 (100 * Millisecond) true).

(** What a poll returns: whether the client is closed, the errors of some
    partitions and the records of others. *)
Record Fetches := MkFetches {
  IsClientClosed : bool;
  Errors : list error;
  Records : list Record_
}.

Inductive consumeE : Type -> Type :=
| CtxErr : consumeE (option error)
| PollFetches : consumeE Fetches
| DoneOrAfter (d : Z) : consumeE bool
| Handler (r : Record_) : consumeE (option error)
| DLQSend (topic : string) (value key : bytes) (err : error) : consumeE (option error)
| OnDLQ (topic : string) (err : error) : consumeE unit
| CommitRecords (r : Record_) : consumeE (option error).

(** The attempts from [attempt] on, [n] of them left: [None] when the context
    ended the processing of the record, otherwise the last error. *)
Fixpoint attempts (o : ConsumerOptions) (r : Record_) (attempt : Z) (lastErr : option error) (n : nat)
  : prog consumeE (option (option error)) :=
  match n with
  | O => Ret (Some lastErr)
  | S n' =>
      let try :=
        let* e := call (Handler r) in
        match e with
        | Some err => attempts o r (attempt + 1) (Some err) n'
        | None => Ret (Some None)
        end in
      if 0 <? attempt then
        let* (done : bool) := call (DoneOrAfter (wrap64 (attempt * RetryBackoff o))) in
        if done then Ret None else try
      else try
  end.

(** The closure given to [EachRecord]. *)
Definition process_record (o : ConsumerOptions) (r : Record_) : prog consumeE unit :=
  let* c := call CtxErr in
  match c with
  | Some _ => Ret tt
  | None =>
      let* res := attempts o r 0 None (Z.to_nat (MaxRetries o + 1)) in
      match res with
      | None => Ret tt
      | Some lastErr =>
          match lastErr with
          | Some err =>
              if DLQProducer o then
                let* e := call (DLQSend (r_Topic r) (r_Value r) (r_Key r) err) in
                match e with
                | Some _ => Ret tt
                | None => if OnDLQPublish o then call (OnDLQ (r_Topic r) err) else Ret tt
                end
              else Ret tt
          | None => Ret tt
          end ;;;
          call (CommitRecords r) ;;;
          Ret tt
      end
  end.

Fixpoint each_record (o : ConsumerOptions) (rs : list Record_) : prog consumeE unit :=
  match rs with
  | [] => Ret tt
  | r :: rs' => process_record o r ;;; each_record o rs'
  end.

Fixpoint Start (fuel : nat) (o : ConsumerOptions) : prog consumeE (outcome (option error)) :=
  match fuel with
  | O => Ret OutOfFuel
  | S fuel' =>
      let* c := call CtxErr in
      match c with
      | Some _ => let* e := call CtxErr in Ret (Return e)
      | None =>
          let* f := call PollFetches in
          if IsClientClosed f then Ret (Return None)
          else if (0 <? length (Errors f))%nat then Start fuel' o
          else each_record o (Records f) ;;; Start fuel' o
      end
  end.

Definition StartConsumer (fuel : nat) (opts : list ConsumerOptions) := Start fuel (NewConsumer opts).
Definition StartConsumerWithDLQ (fuel : nat) (dlqProducer : bool) :=
  StartConsumer fuel [MkConsumerOptions dlqProducer false 3 0 false].

(** ** What the consumer does with a record *)

(** The calls that are neither polls nor checks of the context. *)
Definition is_work (o : obs consumeE) : bool :=
  match o with
  | Obs e _ => match e with CtxErr => false | PollFetches => false | _ => true end
  end.
Definition work (t : list (obs consumeE)) : list (obs consumeE) := List.filter is_work t.

(** The answer of a poll. *)
Definition poll_of (o : obs consumeE) : option Fetches :=
  match o with
  | Obs e x => match e in consumeE X return X -> option Fetches with
               | PollFetches => fun f => Some f
               | _ => fun _ => None
               end x
  end.

(** All records the client delivered, whatever came with them. *)
Definition records_of (take : Fetches -> list Record_) (t : list (obs consumeE)) : list Record_ :=
  concat (map (fun o => from_option take [] (poll_of o)) t).
Definition delivered (t : list (obs consumeE)) : list Record_ := records_of Records t.

(** A poll whose records the loop throws away: the client is closed, or the
    poll also has an error. *)
Definition refused (f : Fetches) : bool := IsClientClosed f || (0 <? length (Errors f))%nat.

(** The records of the other polls: those the loop goes on to process. *)
Definition accepted_records (t : list (obs consumeE)) : list Record_ :=
  records_of (fun f => if refused f then [] else Records f) t.

(** No poll had both records and a reason to throw them away. *)
Definition none_discarded (t : list (obs consumeE)) : Prop :=
  Forall (fun o => forall f, poll_of o = Some f -> refused f = true -> Records f = []) t.

(** What happens up to the next poll, and: after a refused poll nothing is
    handled, dead-lettered or committed before the next poll. *)
Fixpoint before_poll (t : list (obs consumeE)) : list (obs consumeE) :=
  match t with
  | [] => []
  | o :: t' => match poll_of o with Some _ => [] | None => o :: before_poll t' end
  end.
Fixpoint idle_after_refusal (t : list (obs consumeE)) : Prop :=
  match t with
  | [] => True
  | o :: t' =>
      (forall f, poll_of o = Some f -> refused f = true -> work (before_poll t') = []) /\
      idle_after_refusal t'
  end.

(** The records whose commit was asked for. *)
Definition committed (t : list (obs consumeE)) : list Record_ :=
  omap (fun o => match o with
                 | Obs e _ => match e with CommitRecords r => Some r | _ => None end
                 end) t.
Definition polls (t : list (obs consumeE)) : nat :=
  calls (fun o => match o with Obs e _ => match e with PollFetches => true | _ => false end end) t.

(** The context was seen to have ended, or to be still alive. *)
Definition saw_end (o : obs consumeE) : bool :=
  match o with
  | Obs e x => match e in consumeE X return X -> bool with
               | CtxErr => fun x => bool_decide (x <> None)
               | DoneOrAfter _ => fun x => x
               | _ => fun _ => false
               end x
  end.
Definition saw_alive (o : obs consumeE) : bool :=
  match o with
  | Obs e x => match e in consumeE X return X -> bool with
               | CtxErr => fun x => bool_decide (x = None)
               | _ => fun _ => false
               end x
  end.

(** An ended context stays ended. *)
Fixpoint ctx_monotone (t : list (obs consumeE)) : Prop :=
  match t with
  | [] => True
  | o :: t' => (saw_end o = true -> Forall (fun o' => saw_alive o' = false) t') /\ ctx_monotone t'
  end.

Section record_runs.
Variables (o : ConsumerOptions) (r : Record_).

Definition wait_obs (i : nat) (ended : bool) : obs consumeE :=
  Obs (DoneOrAfter (wrap64 (Z.of_nat i * RetryBackoff o))) ended.
Definition attempt_obs (i : nat) (e : option error) : list (obs consumeE) :=
  match i with O => [] | S _ => [wait_obs i false] end ++ [Obs (Handler r) e].
Fixpoint failed_attempts (i : nat) (errs : list error) : list (obs consumeE) :=
  match errs with
  | [] => []
  | e :: es => attempt_obs i (Some e) ++ failed_attempts (S i) es
  end.

(** What is done with a record whose last attempt failed with [err]. *)
Inductive dead_letter (err : error) : list (obs consumeE) -> Prop :=
| dl_none : DLQProducer o = false -> dead_letter err []
| dl_failed e : DLQProducer o = true ->
    dead_letter err [Obs (DLQSend (r_Topic r) (r_Value r) (r_Key r) err) (Some e)]
| dl_sent : DLQProducer o = true -> OnDLQPublish o = false ->
    dead_letter err [Obs (DLQSend (r_Topic r) (r_Value r) (r_Key r) err) None]
| dl_reported : DLQProducer o = true -> OnDLQPublish o = true ->
    dead_letter err [Obs (DLQSend (r_Topic r) (r_Value r) (r_Key r) err) None;
                     Obs (OnDLQ (r_Topic r) err) tt].

(** A record processed to the end, and one the context interrupted. *)
Inductive completed : list (obs consumeE) -> Prop :=
| completed_ok errs c :
    Z.of_nat (length errs) <= MaxRetries o ->
    completed (failed_attempts 0 errs ++ attempt_obs (length errs) None
               ++ [Obs (CommitRecords r) c])
| completed_failed errs err d c :
    Z.of_nat (length errs) = MaxRetries o -> dead_letter err d ->
    completed (failed_attempts 0 (errs ++ [err]) ++ d ++ [Obs (CommitRecords r) c]).
Inductive interrupted : list (obs consumeE) -> Prop :=
| interrupted_intro errs :
    (0 < length errs)%nat -> Z.of_nat (length errs) <= MaxRetries o ->
    interrupted (failed_attempts 0 errs ++ [wait_obs (length errs) true]).
End record_runs.

(** ** Proofs about the consumer *)

Lemma attempts_step o r i lastErr n t out :
  exec (attempts o r (Z.of_nat i) lastErr (S n)) t out ->
  ((0 < i)%nat /\ t = [wait_obs o i true] /\ out = None) \/
  (t = attempt_obs o r i None /\ out = Some None) \/
  (exists e t', t = attempt_obs o r i (Some e) ++ t' /\
     exec (attempts o r (Z.of_nat (S i)) (Some e) n) t' out).
Proof.
  cbn -[Z.of_nat Z.ltb]. unfold attempt_obs, wait_obs.
  replace (Z.of_nat i + 1) with (Z.of_nat (S i)) by lia.
  destruct i as [|i].
  - intros (e & t' & -> & H). destruct e as [e|]; [right; right; eauto|].
    destruct H as [-> ->]. auto.
  - destruct (Z.ltb_spec 0 (Z.of_nat (S i))) as [_|]; [|lia].
    intros (ended & t' & -> & H). destruct ended.
    + destruct H as [-> ->]. left. split; [lia|done].
    + destruct H as (e & t2 & -> & H). destruct e as [e|]; [right; right; eauto|].
      destruct H as [-> ->]. auto.
Qed.

Lemma attempts_spec o r i lastErr n t out :
  exec (attempts o r (Z.of_nat i) lastErr n) t out ->
  exists errs,
    (out = None /\ (length errs < n)%nat /\ (0 < i + length errs)%nat /\
     t = failed_attempts o r i errs ++ [wait_obs o (i + length errs) true]) \/
    (out = Some None /\ (length errs < n)%nat /\
     t = failed_attempts o r i errs ++ attempt_obs o r (i + length errs) None) \/
    (out = Some (from_option Some lastErr (last errs)) /\ length errs = n /\
     t = failed_attempts o r i errs).
Proof.
  revert i lastErr t. induction n as [|n IH]; intros i lastErr t.
  { intros [-> ->]. exists []. auto. }
  intros [(Hi & -> & ->)|[(-> & ->)|(e & t' & -> & H)]]%attempts_step.
  - exists []. left. simpl. rewrite Nat.add_0_r. split_and!; [done|lia|lia|done].
  - exists []. right. left. simpl. rewrite Nat.add_0_r. split_and!; [done|lia|done].
  - destruct (IH _ _ _ H) as (errs & H'). exists (e :: errs). simpl length.
    replace (i + S (length errs))%nat with (S i + length errs)%nat by lia.
    change (failed_attempts o r i (e :: errs))
      with (attempt_obs o r i (Some e) ++ failed_attempts o r (S i) errs).
    rewrite <- !(assoc_L (++)).
    destruct H' as [(-> & ? & ? & ->)|[(-> & ? & ->)|(-> & ? & ->)]].
    + left. split_and!; [done|lia|lia|done].
    + right. left. split_and!; [done|lia|done].
    + right. right. split_and!; [|lia|done]. destruct errs as [|e' es]; [done|].
      rewrite last_cons_cons. by destruct (last (e' :: es)) eqn:Hl; [|apply last_None in Hl].
Qed.

Lemma process_record_spec o r t :
  0 <= MaxRetries o -> exec (process_record o r) t tt ->
  (exists e, t = [Obs CtxErr (Some e)]) \/
  (exists seg, t = Obs CtxErr None :: seg /\ (completed o r seg \/ interrupted o r seg)).
Proof.
  intros Hmax (c & t0 & -> & H). destruct c as [e|].
  { destruct H as [-> _]. left. eauto. }
  right. exists t0. split; [done|]. cbn [prog_bind] in H.
  apply exec_bind in H as (res & t1 & t2 & -> & H1 & H2).
  apply (attempts_spec o r 0) in H1 as (errs & H1). simpl in H1.
  destruct H1 as [(-> & Hn & Hp & ->)|[(-> & Hn & ->)|(-> & Hn & ->)]].
  - destruct H2 as [-> _]. right. rewrite (right_id_L [] (++)). constructor; lia.
  - destruct H2 as (c & t' & -> & -> & _). left. rewrite <- (assoc_L (++)).
    apply completed_ok. lia.
  - left. destruct errs as [|err errs _] using rev_ind; [simpl in Hn; lia|].
    rewrite length_app in Hn. simpl in Hn.
    rewrite last_snoc in H2. simpl in H2.
    apply exec_bind in H2 as (u & d & t3 & -> & Hd & (c & t' & -> & -> & _)).
    apply completed_failed; [lia|]. destruct (DLQProducer o) eqn:Hq.
    + destruct Hd as (e & t4 & -> & Hd). destruct e as [e|].
      { destruct Hd as [-> _]. by constructor. }
      destruct (OnDLQPublish o) eqn:Hcb.
      * destruct Hd as ([] & t5 & -> & -> & _). by constructor.
      * destruct Hd as [-> _]. by constructor.
    + destruct Hd as [-> _]. by constructor.
Qed.

(** *** Projections of traces *)

Lemma work_app t1 t2 : work (t1 ++ t2) = work t1 ++ work t2.
Proof. apply List.filter_app. Qed.
Lemma committed_app t1 t2 : committed (t1 ++ t2) = committed t1 ++ committed t2.
Proof. apply omap_app. Qed.
Lemma accepted_records_app t1 t2 : accepted_records (t1 ++ t2) = accepted_records t1 ++ accepted_records t2.
Proof. unfold accepted_records, records_of. by rewrite map_app, concat_app. Qed.

Lemma none_discarded_delivered t : none_discarded t -> delivered t = accepted_records t.
Proof.
  unfold delivered, accepted_records, records_of.
  induction 1 as [|o t Ho _ IH]; [done|]. simpl. rewrite IH. f_equal.
  destruct (poll_of o) as [f|] eqn:Hp; [simpl|done].
  destruct (refused f) eqn:Hr; [by apply Ho|done].
Qed.

Lemma committed_work t : committed (work t) = committed t.
Proof.
  induction t as [|[X e x] t IH]; [done|].
  destruct e; unfold work in *; simpl; rewrite ?IH; done.
Qed.

Lemma failed_attempts_work o r i errs :
  work (failed_attempts o r i errs) = failed_attempts o r i errs /\
  committed (failed_attempts o r i errs) = [].
Proof.
  revert i. induction errs as [|e errs IH]; intros i; [done|]. simpl.
  rewrite work_app, committed_app. destruct (IH (S i)) as [-> ->]. by destruct i.
Qed.

Lemma completed_work o r seg : completed o r seg -> work seg = seg /\ committed seg = [r].
Proof.
  intros [errs c _|errs err d c _ Hd]; rewrite !work_app, !committed_app;
    destruct (failed_attempts_work o r 0 errs) as [Hw Hc].
  - rewrite Hw, Hc. by destruct (length errs).
  - destruct (failed_attempts_work o r 0 (errs ++ [err])) as [-> ->]. by destruct Hd.
Qed.

Lemma interrupted_work o r seg : interrupted o r seg -> work seg = seg /\ committed seg = [].
Proof.
  intros [errs _ _]. rewrite !work_app, !committed_app.
  by destruct (failed_attempts_work o r 0 errs) as [-> ->].
Qed.

Lemma completed_committed o rs segs :
  Forall2 (completed o) rs segs -> committed (concat segs) = rs.
Proof.
  induction 1 as [|r seg rs segs Hr _ IH]; [done|]. simpl.
  rewrite committed_app, IH. by destruct (completed_work _ _ _ Hr) as [_ ->].
Qed.

(** *** Progress through a list of records *)

Definition ended (t : list (obs consumeE)) : Prop := Exists (fun x => saw_end x = true) t.
Definition dead (t : list (obs consumeE)) : Prop := Forall (fun x => saw_alive x = false) t.

(** The work of [t] is the complete processing of a prefix [done] of [rs], in
    order; what is left over was cut off by the end of the context, at most
    one record in the middle of its attempts. *)
Definition progress (o : ConsumerOptions) (rs : list Record_) (t : list (obs consumeE)) : Prop :=
  exists done rest segs lst,
    rs = done ++ rest /\ work t = concat segs ++ lst /\
    Forall2 (completed o) done segs /\ committed t = done /\
    ((rest = [] /\ lst = []) \/
     (ended t /\ (lst = [] \/ exists r rest', rest = r :: rest' /\ interrupted o r lst))).

Lemma progress_app o rs1 rs2 t1 t2 :
  progress o rs1 t1 -> (ended t1 -> work t2 = []) -> progress o rs2 t2 ->
  progress o (rs1 ++ rs2) (t1 ++ t2).
Proof.
  intros (d1 & r1 & s1 & l1 & -> & Hw1 & Hs1 & Hc1 & H1) Hdead
         (d2 & r2 & s2 & l2 & -> & Hw2 & Hs2 & Hc2 & H2).
  destruct H1 as [(-> & ->)|(Hend & H1)].
  - exists (d1 ++ d2), r2, (s1 ++ s2), l2.
    rewrite work_app, committed_app, Hw1, Hw2, Hc1, Hc2, concat_app, !(right_id_L [] (++)).
    rewrite <- !(assoc_L (++)). split_and!; [done|done|by apply Forall2_app|done|].
    destruct H2 as [?|(He & ?)]; [by left|right]. split; [|done]. apply Exists_app. by right.
  - specialize (Hdead Hend). exists d1, (r1 ++ d2 ++ r2), s1, l1.
    rewrite work_app, committed_app, Hdead, (right_id_L [] (++)), <- !(assoc_L (++)).
    rewrite <- (committed_work t2), Hdead. split_and!; [done|done|done|rewrite Hc1; apply (right_id_L [] (++))|].
    right. split; [apply Exists_app; by left|].
    destruct H1 as [?|(r & rest' & -> & Hi)]; [by left|right]. exists r. eauto.
Qed.

Lemma process_record_progress o r t :
  0 <= MaxRetries o -> exec (process_record o r) t tt -> progress o [r] t.
Proof.
  intros Hm [(e & ->)|(seg & -> & [H|H])]%process_record_spec; [| | |done].
  - exists [], [r], [], []. split_and!; [done..|constructor|done|]. right. split; [|by left].
    by constructor.
  - exists [r], [], [seg], []. destruct (completed_work _ _ _ H) as [Hw Hc].
    simpl. rewrite !(right_id_L [] (++)). split_and!; [done|done|by repeat constructor|done|by left].
  - exists [], [r], [], seg. destruct (interrupted_work _ _ _ H) as [Hw Hc].
    split_and!; [done|done|constructor|done|]. right. split; [|right; eauto].
    destruct H. apply Exists_cons. right. apply Exists_app. right. by constructor.
Qed.

Lemma process_record_dead o r t :
  0 <= MaxRetries o -> dead t -> exec (process_record o r) t tt -> work t = [].
Proof.
  intros Hm Hd [(e & ->)|(seg & -> & _)]%process_record_spec; [done| |done].
  apply Forall_cons in Hd as [Hd _]. done.
Qed.

Lemma ctx_monotone_app t1 t2 :
  ctx_monotone (t1 ++ t2) ->
  ctx_monotone t1 /\ ctx_monotone t2 /\ (ended t1 -> dead t2).
Proof.
  induction t1 as [|x t1 IH]; simpl.
  - intros H. split_and!; [done|done|]. intros He. by apply Exists_nil in He.
  - intros [Hx (H1 & H2 & H3)%IH]. split_and!; [|done|done|].
    + intros Hs. by apply Hx, Forall_app in Hs as [? _].
    + intros [Hs|He]%Exists_cons; [|by apply H3]. by apply Hx, Forall_app in Hs as [_ ?].
Qed.

Lemma each_record_dead o rs t :
  0 <= MaxRetries o -> dead t -> exec (each_record o rs) t tt -> work t = [].
Proof.
  intros Hm. revert t. induction rs as [|r rs IH]; intros t Hd.
  - by intros [-> _].
  - cbn [each_record]. intros ([] & t1 & t2 & -> & H1 & H2)%exec_bind.
    apply Forall_app in Hd as [Hd1 Hd2]. rewrite work_app, (IH t2) by done.
    by rewrite (process_record_dead o r t1).
Qed.

Lemma each_record_progress o rs t :
  0 <= MaxRetries o -> ctx_monotone t -> exec (each_record o rs) t tt -> progress o rs t.
Proof.
  intros Hm. revert t. induction rs as [|r rs IH]; intros t Hc.
  - intros [-> _]. exists [], [], [], []. split_and!; [done..|constructor|done|by left].
  - cbn [each_record]. intros ([] & t1 & t2 & -> & H1 & H2)%exec_bind.
    apply ctx_monotone_app in Hc as (_ & Hc2 & Hd).
    apply (progress_app o [r] rs); [by apply process_record_progress| |by apply IH].
    intros He. eapply each_record_dead; [done|by apply Hd|done].
Qed.

(** Processing records makes no polls. *)
Definition no_poll (X : Type) (e : consumeE X) : bool :=
  match e with PollFetches => false | _ => true end.

Lemma attempts_no_poll o r i lastErr n : only no_poll (attempts o r i lastErr n).
Proof.
  revert i lastErr. induction n as [|n IH]; intros i lastErr; [done|].
  assert (Htry : forall x : option error,
    only no_poll match x with
                 | Some err => attempts o r (i + 1) (Some err) n
                 | None => Ret (Some None)
                 end) by (intros [err|]; [apply IH|done]).
  simpl. destruct (0 <? i); simpl; [|by split].
  split; [done|]. intros [|]; [done|]. simpl. split; done.
Qed.

Lemma each_record_no_poll o rs : only no_poll (each_record o rs).
Proof.
  induction rs as [|r rs IH]; [done|]. apply only_bind; [|done]. simpl.
  split; [done|]. intros [e|]; [done|]. cbn [prog_bind].
  apply only_bind; [apply attempts_no_poll|]. intros [[err|]|]; [|by split|done].
  apply only_bind; [|by split]. destruct (DLQProducer o); [|done].
  split; [done|]. intros [e|]; [done|]. simpl. by destruct (OnDLQPublish o); [split|].
Qed.

Lemma no_poll_accepted t :
  Forall (fun x => match x with Obs e _ => no_poll _ e = true end) t ->
  accepted_records t = [] /\ polls t = 0%nat /\
  (forall t', idle_after_refusal t' -> idle_after_refusal (t ++ t')).
Proof.
  induction 1 as [|[X e x] t He _ IH]; [done|]. unfold accepted_records, records_of, polls, calls in *.
  destruct IH as (IH1 & IH2 & IH3). destruct e; simpl in *; try done;
    (split_and!; [done|done|intros t' Ht'; split; [done|auto]]).
Qed.

(** One turn of the consumer's loop. *)
Lemma Start_turn fuel o t out :
  exec (Start (S fuel) o) t out ->
  (exists e e', t = [Obs CtxErr (Some e); Obs CtxErr e'] /\ out = Return e') \/
  (exists f, t = [Obs CtxErr None; Obs PollFetches f] /\ IsClientClosed f = true /\
     out = Return None) \/
  (exists f t1 t2, t = [Obs CtxErr None; Obs PollFetches f] ++ t1 ++ t2 /\
     exec (each_record o (if refused f then [] else Records f)) t1 tt /\
     exec (Start fuel o) t2 out).
Proof.
  intros (c & t' & -> & H). destruct c as [e|].
  { destruct H as (e' & t2 & -> & -> & ->). left. eauto. }
  destruct H as (f & t2 & -> & H). right. cbn [prog_bind] in H.
  destruct (IsClientClosed f) eqn:Hf; [left; destruct H as [-> ->]; eauto|right].
  exists f. unfold refused. rewrite Hf. destruct (0 <? length (Errors f))%nat; simpl.
  - by exists [], t2.
  - apply exec_bind in H as ([] & t1 & t3 & -> & H1 & H2). by exists t1, t3.
Qed.

Lemma Start_before_poll fuel o t out : exec (Start fuel o) t out -> work (before_poll t) = [].
Proof.
  destruct fuel as [|fuel]; [by intros [-> _]|].
  by intros [(e & e' & -> & _)|[(f & -> & _)|(f & t1 & t2 & -> & _)]]%Start_turn.
Qed.

Lemma Start_idle fuel o t out : exec (Start fuel o) t out -> idle_after_refusal t.
Proof.
  revert t. induction fuel as [|fuel IH]; intros t; [by intros [-> _]|].
  intros [(e & e' & -> & _)|[(f & -> & _)|(f & t1 & t2 & -> & H1 & H2)]]%Start_turn; [done|done|].
  pose proof (only_exec _ _ _ _ (each_record_no_poll o _) H1) as (_ & _ & Hidle)%no_poll_accepted.
  simpl. split_and!; [done| |by eapply Hidle, IH].
  intros f' [= <-] Hr. rewrite Hr in H1. destruct H1 as [-> _]. by eapply Start_before_poll.
Qed.

Lemma Start_dead fuel o t out : dead t -> exec (Start fuel o) t out -> work t = [].
Proof.
  intros Hd. destruct fuel as [|fuel]; [by intros [-> _]|].
  intros [(e & e' & -> & _)|[(f & -> & _)|(f & t1 & t2 & -> & _)]]%Start_turn; [done|done|].
  by apply Forall_cons in Hd as [? _].
Qed.

Lemma progress_nil o t : work t = [] -> progress o [] t.
Proof.
  intros H. exists [], [], [], []. rewrite <- committed_work, H.
  split_and!; [done|done|constructor|done|by left].
Qed.

Lemma Start_progress fuel o t out :
  0 <= MaxRetries o -> ctx_monotone t -> exec (Start fuel o) t out ->
  progress o (accepted_records t) t /\ (out = OutOfFuel -> polls t = fuel).
Proof.
  intros Hm. revert t. induction fuel as [|fuel IH]; intros t Hc.
  { intros [-> ->]. split; [by apply progress_nil|done]. }
  intros [(e & e' & -> & ->)|[(f & -> & Hf & ->)|(f & t1 & t2 & -> & H1 & H2)]]%Start_turn.
  - split; [by apply progress_nil|done].
  - split; [|done]. unfold accepted_records, records_of, refused. simpl. rewrite Hf.
    by apply progress_nil.
  - pose proof (only_exec _ _ _ _ (each_record_no_poll o _) H1) as (Hf1 & Hp1 & _)%no_poll_accepted.
    apply ctx_monotone_app in Hc as (_ & Hc & _).
    apply ctx_monotone_app in Hc as (Hc1 & Hc2 & Hdead).
    destruct (IH t2 Hc2 H2) as [Hp Hout]. split.
    + rewrite !accepted_records_app, Hf1. simpl.
      set (rs := if refused f then [] else Records f) in *.
      replace (accepted_records [Obs CtxErr None; Obs PollFetches f]) with rs
        by (unfold accepted_records, records_of; simpl; by rewrite (right_id_L [] (++))).
      change (progress o ([] ++ rs ++ accepted_records t2)
                ([Obs CtxErr None; Obs PollFetches f] ++ t1 ++ t2)).
      apply progress_app; [by apply progress_nil| |].
      { intros [?|[?|?%Exists_nil]%Exists_cons]%Exists_cons; done. }
      apply progress_app; [by apply each_record_progress| |done].
      intros He. eapply Start_dead; [by apply Hdead|done].
    + intros ->. unfold polls in *. rewrite !calls_app, Hp1, Hout by done. done.
Qed.

Lemma NewConsumer_retries opts : 0 < MaxRetries (NewConsumer opts).
Proof.
  unfold NewConsumer. set (o := MkConsumerOptions _ _ _ _ _).
  assert (H : 0 < MaxRetries o) by (simpl; lia). clearbody o. revert o H.
  induction opts as [|x opts IH]; intros o H; [done|]. apply IH. simpl.
  by destruct (Z.ltb_spec 0 (MaxRetries x)).
Qed.

(** C36: At-least-once consumption of the records of error-free polls.
    However the consumer is configured and whatever the broker, the handler,
    the dead-letter producer and the commits answer, as long as an ended
    context stays ended: the records whose commit was asked for are a prefix
    of the accepted records, those of the polls that came without an error,
    in order, so among these no commit passes over an unprocessed record.
    The work done is, record by record, the complete processing of that
    prefix: failing attempts separated by waits of [1, 2, ...] times the
    backoff, until one succeeds or [MaxRetries + 1] have failed, in which
    case the record is handed to the dead-letter producer, if there is one,
    with the last error; then one commit.  Accepted records left over were
    cut off by the end of the context, at most one of them in the middle of
    its attempts, and it was not committed.  The records of a poll that also
    has an error are thrown away: nothing is handled or committed before the
    next poll (and a later commit may pass over them, see
    [commit_passes_over_discarded]).  Only if no poll had both errors and
    records are the accepted records all that were delivered.  The loop turns
    again only after a poll: [n] polls are enough fuel for [n] turns. *)
Theorem consumer_at_least_once fuel opts t out :
  ctx_monotone t -> exec (StartConsumer fuel opts) t out ->
  let o := NewConsumer opts in
  (exists done rest segs lst,
    accepted_records t = done ++ rest /\ committed t = done /\
    work t = concat segs ++ lst /\ Forall2 (completed o) done segs /\
    ((rest = [] /\ lst = []) \/
     (ended t /\ (lst = [] \/ exists r rest', rest = r :: rest' /\ interrupted o r lst)))) /\
  idle_after_refusal t /\
  (none_discarded t -> delivered t = accepted_records t) /\
  (out = OutOfFuel -> polls t = fuel).
Proof.
  intros Hc H o. pose proof (NewConsumer_retries opts) as Hm.
  destruct (Start_progress fuel o t out) as [(d & r & s & l & ? & ? & ? & ? & ?) Hf];
    [subst o; lia|done|done|].
  split_and!; [exists d, r, s, l; by split_and!|by eapply Start_idle| |done].
  apply none_discarded_delivered.
Qed.

(** Two records arrive: the first fails four times and goes to the
    dead-letter topic, the second succeeds at once; then the client closes. *)
Definition rec_a := MkRecord "orders" (Some "a") (Some "1") [] 0 7.
Definition rec_b := MkRecord "orders" (Some "b") (Some "2") [] 0 8.
Definition boom := new_error "boom".
Definition ms (n : Z) := n * 1000000.
Definition consume_trace : list (obs consumeE) :=
  [Obs CtxErr None; Obs PollFetches (MkFetches false [] [rec_a; rec_b]);
   Obs CtxErr None; Obs (Handler rec_a) (Some boom);
   Obs (DoneOrAfter (ms 100)) false; Obs (Handler rec_a) (Some boom);
   Obs (DoneOrAfter (ms 200)) false; Obs (Handler rec_a) (Some boom);
   Obs (DoneOrAfter (ms 300)) false; Obs (Handler rec_a) (Some boom);
   Obs (DLQSend "orders" (Some "1") (Some "a") boom) None; Obs (CommitRecords rec_a) None;
   Obs CtxErr None; Obs (Handler rec_b) None; Obs (CommitRecords rec_b) None;
   Obs CtxErr None; Obs PollFetches (MkFetches true [] [])].

Lemma consumer_at_least_once_witness :
  let opts := [MkConsumerOptions true false 0 0 false] in
  exec (StartConsumer 2 opts) consume_trace (Return None) /\
  ctx_monotone consume_trace /\
  committed consume_trace = [rec_a; rec_b] /\
  exists done rest segs lst,
    accepted_records consume_trace = done ++ rest /\ committed consume_trace = done /\
    work consume_trace = concat segs ++ lst /\
    Forall2 (completed (NewConsumer opts)) done segs /\
    ((rest = [] /\ lst = []) \/
     (ended consume_trace /\
      (lst = [] \/ exists r rest', rest = r :: rest' /\ interrupted (NewConsumer opts) r lst))).
Proof.
  intros opts.
  assert (Hx : exec (StartConsumer 2 opts) consume_trace (Return None)).
  { repeat (eexists; eexists; split; [reflexivity|]). split; reflexivity. }
  assert (Hc : ctx_monotone consume_trace).
  { simpl. repeat split; intros; discriminate. }
  split; [exact Hx|]. split; [exact Hc|]. split; [reflexivity|].
  apply (consumer_at_least_once 2 opts consume_trace (Return None) Hc Hx).
Defined.

(** One poll delivers record 7 together with an error of another partition,
    the next one delivers record 8 of the same partition as record 7. *)
Definition discard_trace : list (obs consumeE) :=
  [Obs CtxErr None; Obs PollFetches (MkFetches false [boom] [rec_a]);
   Obs CtxErr None; Obs PollFetches (MkFetches false [] [rec_b]);
   Obs CtxErr None; Obs (Handler rec_b) None; Obs (CommitRecords rec_b) None;
   Obs CtxErr None; Obs PollFetches (MkFetches true [] [])].

(** The consumer then commits record 8 although record 7, delivered before
    it, was never handled. *)
Lemma commit_passes_over_discarded :
  exec (StartConsumer 3 []) discard_trace (Return None) /\
  delivered discard_trace = [rec_a; rec_b] /\ committed discard_trace = [rec_b] /\
  r_Partition rec_a = r_Partition rec_b /\ r_Offset rec_a < r_Offset rec_b.
Proof.
  split_and!; [|done..]. repeat (eexists; eexists; split; [reflexivity|]). split; reflexivity.
Qed.

(** ** Health *)

Record ClusterHealth := MkHealth {
  Healthy : bool;
  BrokerCount : Z;
  ControllerID : Z;
  ClusterID : string;
  ResponseTime : Z;
  TopicCount : Z;
  ErrorMessage : string
}.

Record Metadata := MkMetadata {
  md_Cluster : string;
  md_Controller : Z;
  md_Brokers : nat;
  md_Topics : nat
}.

(** The caller's context, or the one with a deadline derived from it. *)
Inductive HealthCtx := CallerCtx | DeadlineCtx (timeout : Z).

Inductive healthE : Type -> Type :=
| Now : healthE Z
| AdminMetadata (ctx : HealthCtx) : healthE (result Metadata)
| CancelCtx (ctx : HealthCtx) : healthE unit.

Definition CheckWithMetadata (ctx : HealthCtx) : prog healthE (result ClusterHealth) :=
  let* start := call Now in
  let* m := call (AdminMetadata ctx) in
  let* now := call Now in
  let elapsed := wrap64 (now - start) in
  match m with
  | Err err =>
      Ret (Ok (MkHealth false 0 0 "" elapsed 0 ("failed to get metadata: " +:+ error_text err)))
  | Ok md =>
      let mk healthy msg :=
        MkHealth healthy (Z.of_nat (md_Brokers md)) (md_Controller md) (md_Cluster md) elapsed
          (Z.of_nat (md_Topics md)) msg in
      if (md_Brokers md =? 0)%nat then Ret (Ok (mk false "no brokers available"))
      else if md_Controller md <? 0 then Ret (Ok (mk false "no controller elected"))
      else Ret (Ok (mk true ""))
  end.

Definition Check (ctx : HealthCtx) : prog healthE (option error) :=
  let* r := CheckWithMetadata ctx in
  match r with
  | Err err => Ret (Some err)
  | Ok h =>
      if negb (Healthy h)
      then Ret (Some (new_error ("kafka cluster unhealthy: " +:+ ErrorMessage h)))
      else Ret None
  end.

(** [context.WithTimeout] with its deferred [cancel]. *)
Definition LivenessCheck : prog healthE (option error) :=
  let ctx := DeadlineCtx (5 * Second) in
  let* r := Check ctx in
  call (CancelCtx ctx) ;;;
  Ret r.

(** The metadata of a cluster that can serve. *)
Definition serving (m : result Metadata) : bool :=
  match m with
  | Ok md => negb (md_Brokers md =? 0)%nat && negb (md_Controller md <? 0)
  | Err _ => false
  end.
Definition asked (o : obs healthE) : option bool :=
  match o with
  | Obs e x => match e in healthE X return X -> option bool with
               | AdminMetadata ctx => fun x => Some (serving x)
               | _ => fun _ => None
               end x
  end.

(** A probe asks the cluster once, with its own deadline, releases that
    deadline, and succeeds exactly when the answer names a broker and a
    controller. *)
Lemma LivenessCheck_probe t out :
  exec LivenessCheck t out ->
  omap asked t = [bool_decide (out = None)] /\
  last t = Some (Obs (CancelCtx (DeadlineCtx (5 * Second))) tt).
Proof.
  intros (start & t1 & -> & m & t2 & -> & now & t3 & -> & H).
  assert (Hc : serving m = bool_decide (out = None) /\
               t3 = [Obs (CancelCtx (DeadlineCtx (5 * Second))) tt]).
  { destruct m as [md|err]; simpl in *.
    - destruct (md_Brokers md =? 0)%nat; simpl in *;
        [|destruct (md_Controller md <? 0); simpl in *];
        destruct H as ([] & t' & -> & -> & ->); done.
    - destruct H as ([] & t' & -> & -> & ->). done. }
  destruct Hc as [Hs ->]. simpl. by rewrite Hs.
Qed.
