(* ===== verification/DbClient.v ===== *)
(** * DbClient: the PostgreSQL client ([db/client.go], [db/postgres.go])

    Connection set-up, query deadlines, transactions and the classification of
    errors.  [database/sql] and the driver are events: queries, transactions,
    contexts with their deadlines, the clock. *)

From stdpp Require Import base gmap strings list.
From Stdlib Require Import ZArith Lia Strings.Ascii.
From S2P Require Import Prelude Effects.

Open Scope Z_scope.
Open Scope go_scope.

Definition ErrDatabaseTimeout : sentinel :=
  MkSentinel "db.ErrDatabaseTimeout" "database operation timed out".
Definition ErrDuplicateKey : sentinel :=
  MkSentinel "db.ErrDuplicateKey" "duplicate key violation".
Definition ErrConnectionFailed : sentinel :=
  MkSentinel "db.ErrConnectionFailed" "database connection failed".

Record ConnectionConfig := MkConnectionConfig {
  MaxOpenConns : Z;
  MaxIdleConns : Z;
  ConnMaxLifetime : Z;
  ConnMaxIdleTime : Z;
  QueryTimeout : Z
}.

(** A context is a handle; [0] is [context.Background()]. *)
Abbreviation Ctx := nat (only parsing).

(** The interface that [*sql.DB], [*sql.Tx] and the client implement; results,
    statements, rows and arguments are opaque. *)
Inductive DBTX : Type -> Type :=
| ExecContext (ctx : Ctx) (query : string) (args : list string) : DBTX (result string)
| PrepareContext (ctx : Ctx) (query : string) : DBTX (result string)
| QueryContext (ctx : Ctx) (query : string) (args : list string) : DBTX (result string)
| QueryRowContext (ctx : Ctx) (query : string) (args : list string) : DBTX string.

(** How a call of the caller's function, or of [WithTransaction], ends. *)
Inductive fn_end := Returns (err : option error) | Panics (v : string).

Section client.
(** What the caller's function does besides using its transaction. *)
Variable U : Type -> Type.

Inductive dbE : Type -> Type :=
| CtxDeadline (ctx : Ctx) : dbE (option Z)
| TimeNow : dbE Z
| WithTimeout (ctx : Ctx) (d : Z) : dbE Ctx
| Cancel (ctx : Ctx) : dbE unit
| SqlOpen (dsn : string) : dbE (option error)
| SetMaxOpenConns (n : Z) : dbE unit
| SetMaxIdleConns (n : Z) : dbE unit
| SetConnMaxLifetime (d : Z) : dbE unit
| SetConnMaxIdleTime (d : Z) : dbE unit
| Ping (ctx : Ctx) : dbE (option error)
| SqlClose : dbE (option error)
| Pool {X} (op : DBTX X) : dbE X
| BeginTx (ctx : Ctx) (isolationLevel : Z) : dbE (result nat)
| Tx (tx : nat) {X} (op : DBTX X) : dbE X
| Commit (tx : nat) : dbE (option error)
| Rollback (tx : nat) : dbE (option error)
| User {X} (u : U X) : dbE X.

Record postgresClient := MkClient { config : ConnectionConfig }.

Definition when_positive (n : Z) (e : dbE unit) : prog dbE unit :=
  if 0 <? n then call e else Ret tt.

Definition NewPostgresClient (dsn : string) (config : ConnectionConfig)
  : prog dbE (result postgresClient) :=
  let* err := call (SqlOpen dsn) in
  match err with
  | Some err => Ret (Err (wrap_sentinel ErrConnectionFailed err))
  | None =>
      when_positive (MaxOpenConns config) (SetMaxOpenConns (MaxOpenConns config)) ;;;
      when_positive (MaxIdleConns config) (SetMaxIdleConns (MaxIdleConns config)) ;;;
      when_positive (ConnMaxLifetime config) (SetConnMaxLifetime (ConnMaxLifetime config)) ;;;
      when_positive (ConnMaxIdleTime config) (SetConnMaxIdleTime (ConnMaxIdleTime config)) ;;;
      let* ctx := call (WithTimeout 0 (5 * Second)) in
      let* err := call (Ping ctx) in
      match err with
      | Some err =>
          call SqlClose ;;;
          call (Cancel ctx) ;;;
          Ret (Err (wrap_sentinel ErrConnectionFailed err))
      | None => call (Cancel ctx) ;;; Ret (Ok (MkClient config))
      end
  end.

(** [time.Until]: the difference saturates at the ends of the range. *)
Definition Until (deadline now : Z) : Z :=
  Z.max (- 2 ^ 63) (Z.min (2 ^ 63 - 1) (deadline - now)).

(** The context to use, and the cancel function that goes with it ([None] is
    the function that does nothing). *)
Definition withQueryTimeout (c : postgresClient) (ctx : Ctx) : prog dbE (Ctx * option Ctx) :=
  if QueryTimeout (config c) <=? 0 then Ret (ctx, None)
  else
    let derive :=
      let* ctx' := call (WithTimeout ctx (QueryTimeout (config c))) in
      Ret (ctx', Some ctx') in
    let* d := call (CtxDeadline ctx) in
    match d with
    | Some deadline =>
        let* now := call TimeNow in
        if Until deadline now <=? QueryTimeout (config c) then Ret (ctx, None) else derive
    | None => derive
    end.

Definition cancel (f : option Ctx) : prog dbE unit :=
  match f with Some ctx => call (Cancel ctx) | None => Ret tt end.

(** The four query methods: the deferred cancel runs when the call returns. *)
Definition with_timeout {X} (c : postgresClient) (ctx : Ctx) (op : Ctx -> DBTX X) : prog dbE X :=
  let* cc := withQueryTimeout c ctx in
  let* x := call (Pool (op cc.1)) in
  cancel cc.2 ;;;
  Ret x.

Definition db_ExecContext c ctx query args :=
  with_timeout c ctx (fun ctx => ExecContext ctx query args).
Definition db_PrepareContext c ctx query :=
  with_timeout c ctx (fun ctx => PrepareContext ctx query).
Definition db_QueryContext c ctx query args :=
  with_timeout c ctx (fun ctx => QueryContext ctx query args).
Definition db_QueryRowContext c ctx query args :=
  with_timeout c ctx (fun ctx => QueryRowContext ctx query args).

(** The caller's function sees its transaction through [DBTX] only. *)
Inductive fnE : Type -> Type :=
| FnOp {X} (op : DBTX X) : fnE X
| FnUser {X} (u : U X) : fnE X.

Definition on_tx (tx : nat) (X : Type) (e : fnE X) : prog dbE X :=
  match e with
  | FnOp op => call (Tx tx op)
  | FnUser u => call (User u)
  end.

Definition WithTransaction (ctx : Ctx) (isolationLevel : Z) (fn : Ctx -> prog fnE fn_end)
  : prog dbE fn_end :=
  let* r := call (BeginTx ctx isolationLevel) in
  match r with
  | Err err => Ret (Returns (Some (wrap "failed to begin transaction: " err)))
  | Ok tx =>
      let* o := interp (on_tx tx) (fn ctx) in
      match o with
      | Panics p => call (Rollback tx) ;;; Ret (Panics p)
      | Returns (Some err) =>
          let* rb := call (Rollback tx) in
          match rb with
          | Some rbErr =>
              Ret (Returns (Some (Errorf ("transaction failed: " +:+ error_text err +:+
                                          ", rollback also failed: " +:+ error_text rbErr)
                                         [rbErr])))
          | None => Ret (Returns (Some err))
          end
      | Returns None =>
          let* err := call (Commit tx) in
          match err with
          | Some err => Ret (Returns (Some (wrap "failed to commit transaction: " err)))
          | None => Ret (Returns None)
          end
      end
  end.

Definition db_Close (c : postgresClient) : prog dbE (option error) := call SqlClose.
Definition db_PingContext (c : postgresClient) (ctx : Ctx) : prog dbE (option error) :=
  call (Ping ctx).
End client.
Arguments CtxDeadline {U} ctx.
Arguments TimeNow {U}.
Arguments WithTimeout {U} ctx d.
Arguments Cancel {U} ctx.
Arguments SqlOpen {U} dsn.
Arguments SetMaxOpenConns {U} n.
Arguments SetMaxIdleConns {U} n.
Arguments SetConnMaxLifetime {U} d.
Arguments SetConnMaxIdleTime {U} d.
Arguments Ping {U} ctx.
Arguments SqlClose {U}.
Arguments Pool {U X} op.
Arguments BeginTx {U} ctx isolationLevel.
Arguments Tx {U} tx {X} op.
Arguments Commit {U} tx.
Arguments Rollback {U} tx.
Arguments User {U X} u.
Arguments FnOp {U X} op.
Arguments FnUser {U X} u.
Arguments on_tx {U} tx X e.
Arguments WithTransaction {U} ctx isolationLevel fn.
Arguments with_timeout {U X} c ctx op.
Arguments withQueryTimeout {U} c ctx.

(** ** Classification of errors *)

(** [strings.ToLower] on ASCII text, and [strings.Contains]. *)
Definition lower (c : ascii) : ascii :=
  let n := nat_of_ascii c in
  if ((65 <=? n) && (n <=? 90))%nat then ascii_of_nat (n + 32) else c.
Fixpoint ToLower (s : string) : string :=
  match s with
  | EmptyString => EmptyString
  | String c s' => String (lower c) (ToLower s')
  end.
Fixpoint Contains (s sub : string) : bool :=
  String.prefix sub s ||
  match s with
  | EmptyString => false
  | String _ s' => Contains s' sub
  end.

Definition mentions (err : error) (keywords : list string) : bool :=
  existsb (Contains (ToLower (error_text err))) keywords.

Definition IsTimeoutError (err : option error) : bool :=
  match err with
  | None => false
  | Some err =>
      errors_Is err context_DeadlineExceeded ||
      match errors_As "*pq.Error" err with
      | Some code => existsb (String.eqb code) ["57014"; "57013"; "57012"; "40001"]
      | None => false
      end ||
      mentions err ["timeout"; "deadline exceeded"; "context deadline"; "connection timed out";
                    "i/o timeout"; "query_canceled"]
  end.

Definition IsDuplicateKeyError (err : option error) : bool :=
  match err with
  | None => false
  | Some err =>
      match errors_As "*pq.Error" err with
      | Some code => String.eqb code "23505"
      | None => mentions err ["duplicate key"; "unique constraint"; "unique violation";
                              "already exists"; "23505"]
      end
  end.

Lemma prefix_spec sub s : String.prefix sub s = true <-> exists b, s = sub +:+ b.
Proof.
  revert s. induction sub as [|c sub IH]; intros [|c' s].
  - split; [by exists ""|done].
  - split; [by exists (String c' s)|done].
  - split; [done|by intros (b & ?)].
  - change (String.prefix (String c sub) (String c' s))
      with (if ascii_dec c c' then String.prefix sub s else false).
    destruct (ascii_dec c c') as [<-|Hc].
    + rewrite IH. split; intros (b & Hb); exists b; [by rewrite Hb|].
      by injection Hb.
    + split; [done|]. intros (b & Hb). by injection Hb.
Qed.

Lemma Contains_spec s sub : Contains s sub = true <-> exists a b, s = a +:+ sub +:+ b.
Proof.
  induction s as [|c s IH]; cbn [Contains]; rewrite orb_true_iff, prefix_spec.
  - split; [intros [(b & Hb)|?]; [by exists "", b|done]|].
    intros ([|? a] & b & Hb); [left; by exists b|done].
  - rewrite IH. split.
    + intros [(b & Hb)|(a & b & Hb)]; [by exists "", b|]. exists (String c a), b. by rewrite Hb.
    + intros ([|c' a] & b & Hb); [left; by exists b|]. right. exists a, b. by injection Hb.
Qed.

(** A driver error keeps its class through any number of [%w] wrappings, such
    as the ones [WithTransaction] adds. *)
Lemma duplicate_key_through_wrap prefix err code :
  errors_As "*pq.Error" err = Some code ->
  IsDuplicateKeyError (Some (wrap prefix err)) = String.eqb code "23505".
Proof. intros H. simpl. by rewrite H. Qed.

(** ** Transactions are atomic

    The database has committed data and, per open transaction, the data that
    transaction sees.  [op_sem] is what the operations of a transaction may do
    and answer; a commit that reports an error may or may not have taken
    effect (the connection can be lost before the answer); a rollback ends the
    transaction in either case. *)

Section atomicity.
Context {U : Type -> Type} {D : Type}.
Variable op_sem : forall X, DBTX X -> D -> X -> D -> Prop.

Record txmem := MkTxMem { data : D; open : gmap nat D }.

Definition tx_answer (X : Type) (e : dbE U X) (m : txmem) : X -> txmem -> Prop :=
  match e in dbE _ X return X -> txmem -> Prop with
  | BeginTx _ _ => fun r m' =>
      (exists tx, r = Ok tx /\ open m !! tx = None /\
         m' = MkTxMem (data m) (<[tx := data m]> (open m))) \/
      (exists err, r = Err err /\ m' = m)
  | Tx tx op => fun x m' =>
      exists p p', open m !! tx = Some p /\ op_sem _ op p x p' /\
        m' = MkTxMem (data m) (<[tx := p']> (open m))
  | Commit tx => fun r m' =>
      exists p, open m !! tx = Some p /\
        match r with
        | None => m' = MkTxMem p (delete tx (open m))
        | Some _ => m' = MkTxMem (data m) (delete tx (open m)) \/
                    m' = MkTxMem p (delete tx (open m))
        end
  | Rollback tx => fun _ m' => m' = MkTxMem (data m) (delete tx (open m))
  | _ => fun _ m' => m' = m
  end.

(** The caller's function on a private copy of the data. *)
Definition fn_answer (X : Type) (e : fnE U X) (p : D) : X -> D -> Prop :=
  match e in fnE _ X return X -> D -> Prop with
  | FnOp op => fun x p' => op_sem _ op p x p'
  | FnUser _ => fun _ p' => p' = p
  end.

(** A call of the caller's function as the client makes it. *)
Definition lift_obs (tx : nat) (o : obs (fnE U)) : obs (dbE U) :=
  match o with
  | Obs e x =>
      match e in fnE _ X return X -> obs (dbE U) with
      | FnOp op => fun x => Obs (Tx tx op) x
      | FnUser u => fun x => Obs (User u) x
      end x
  end.

Lemma on_tx_wp {A} tx (p : prog (fnE U) A) m d :
  open m !! tx = Some d ->
  wp tx_answer (interp (on_tx tx) p) m (fun a m' t =>
    data m' = data m /\
    exists d' tf, t = lift_obs tx <$> tf /\ open m' = <[tx := d']> (open m) /\
      mexec fn_answer p d tf a d').
Proof using.
  revert m d. induction p as [a|X e k IH]; intros m d Hd; simpl.
  - split; [done|]. exists d, []. by rewrite insert_id.
  - apply wp_bind. destruct e as [X op|X u]; simpl.
    + intros x m1 (p0 & p' & Hp & Hop & ->). simplify_eq.
      eapply wp_mono; [|apply (IH x _ p'); apply lookup_insert_eq]. simpl.
      intros a m' t (Hdata & d' & tf & -> & Ho & Hx). split; [done|].
      exists d', (Obs (FnOp op) x :: tf). rewrite Ho, insert_insert_eq.
      split_and!; [done|done|]. eauto 10.
    + intros x m1 ->. eapply wp_mono; [|by apply (IH x m d)]. simpl.
      intros a m' t (Hdata & d' & tf & -> & Ho & Hx). split; [done|].
      exists d', (Obs (FnUser u) x :: tf). split_and!; [done|done|]. eauto 10.
Qed.

(** C37: Transactions are all or nothing.  Whatever the database answers and
    whatever [fn] does with its transaction, [WithTransaction] leaves no
    transaction of its own open.  If the transaction cannot be begun, [fn] does
    not run and the error is returned wrapped.  Otherwise the calls made are
    the begin, the calls of one run of [fn] on that transaction, and one call
    that ends it, a commit or a rollback, and:
    - If [fn] returned nil, the transaction is committed.  If the commit is
      answered without error, nil is returned and the data is what [fn] made
      of the data at the start; if it fails, the commit's error is returned
      wrapped, and the data is the old or the new one, never a mixture.
    - If [fn] failed, the transaction is rolled back and the data is
      unchanged.  If the rollback is answered without error, [fn]'s own error
      is returned; otherwise an error that names both and wraps only the
      rollback's.
    - If [fn] panicked, the transaction is rolled back, the data is unchanged
      and the panic goes on with the same value.
    So nil is returned exactly when [fn] returned nil and the commit was
    answered without error.  (Other clients' transactions are left out: the
    committed data changes only by this transaction's commit.  A rollback
    that reports an error is taken to have ended the transaction.) *)
Theorem WithTransaction_atomic ctx iso fn m t out m' :
  open m = ∅ ->
  mexec tx_answer (WithTransaction ctx iso fn) m t out m' ->
  open m' = ∅ /\
  ((exists err, t = [Obs (BeginTx ctx iso) (Err err)] /\ data m' = data m /\
      out = Returns (Some (wrap "failed to begin transaction: " err))) \/
   (exists tx d tf fe last, mexec fn_answer (fn ctx) (data m) tf fe d /\
      t = Obs (BeginTx ctx iso) (Ok tx) :: (lift_obs tx <$> tf) ++ [last] /\
      match fe with
      | Returns None =>
          (last = Obs (Commit tx) None /\ out = Returns None /\ data m' = d) \/
          (exists err, last = Obs (Commit tx) (Some err) /\
             out = Returns (Some (wrap "failed to commit transaction: " err)) /\
             (data m' = data m \/ data m' = d))
      | Returns (Some err) =>
          data m' = data m /\
          ((last = Obs (Rollback tx) None /\ out = Returns (Some err)) \/
           (exists rbErr, last = Obs (Rollback tx) (Some rbErr) /\
              out = Returns (Some (Errorf ("transaction failed: " +:+ error_text err +:+
                                           ", rollback also failed: " +:+ error_text rbErr)
                                          [rbErr]))))
      | Panics v => data m' = data m /\ out = Panics v /\ exists r, last = Obs (Rollback tx) r
      end)).
Proof using.
  intros Hm Hx. revert t out m' Hx. apply wp_mexec. simpl.
  intros r m1 [(tx & -> & Htx & ->)|(err & -> & ->)]; simpl.
  2: { split; [done|]. left. eauto. }
  apply wp_bind. eapply wp_mono; [|apply (on_tx_wp tx _ _ (data m)); apply lookup_insert_eq].
  simpl. intros fe m2 t2 (Hdata & d & tf & -> & Ho & Hfn). rewrite insert_insert_eq in Ho.
  assert (Hdel : delete tx (open m2) = ∅) by by rewrite Ho, Hm, delete_insert_id.
  destruct fe as [[err|]|v]; simpl.
  - intros rb m3 ->. destruct rb as [rbErr|]; simpl; (split; [done|]); right;
      eexists tx, d, tf, (Returns (Some err)), _; split_and!; eauto.
  - intros rb m3 (p & Hp & Hrb). rewrite Ho, lookup_insert_eq in Hp. simplify_eq.
    destruct rb as [e|]; simpl; [destruct Hrb as [-> | ->]|subst m3]; (split; [done|]); right;
      eexists tx, p, tf, (Returns None), _; split_and!; eauto 10.
  - intros rb m3 ->. split; [done|]. right.
    eexists tx, d, tf, (Panics v), _. split_and!; eauto.
Qed.
End atomicity.

(** A database of rows in which a statement appends itself. *)
Definition append_sem (X : Type) (op : DBTX X) (p : list string) : X -> list string -> Prop :=
  match op in DBTX X return X -> list string -> Prop with
  | ExecContext _ q _ => fun x p' => x = Ok "1 row" /\ p' = p ++ [q]
  | _ => fun _ p' => p' = p
  end.
Definition two_inserts (ctx : nat) : prog (fnE (fun _ => Empty_set)) fn_end :=
  let* r := call (FnOp (ExecContext ctx "insert a" [])) in
  let* r := call (FnOp (ExecContext ctx "insert b" [])) in
  Ret (Returns None).

Lemma WithTransaction_atomic_witness :
  exists t m',
    mexec (tx_answer append_sem) (WithTransaction 1 0 two_inserts)
      (MkTxMem ["old"] ∅) t (Returns None) m' /\
    open m' = ∅ /\ data m' = ["old"; "insert a"; "insert b"].
Proof.
  assert (Hx : mexec (tx_answer append_sem) (WithTransaction 1 0 two_inserts) (MkTxMem ["old"] ∅)
    [Obs (BeginTx 1 0) (Ok 7%nat); Obs (Tx 7 (ExecContext 1 "insert a" [])) (Ok "1 row");
     Obs (Tx 7 (ExecContext 1 "insert b" [])) (Ok "1 row"); Obs (Commit 7) None]
    (Returns None)
    (MkTxMem ["old"; "insert a"; "insert b"]
       (delete 7%nat (<[7%nat := ["old"; "insert a"; "insert b"]]>
          (<[7%nat := ["old"; "insert a"]]> (<[7%nat := ["old"]]> ∅)))))).
  { eexists _, _, _. split; [reflexivity|]. split.
    { left. exists 7%nat. split; [reflexivity|]. split; reflexivity. }
    eexists _, _, _. split; [reflexivity|]. split.
    { exists ["old"], ["old"; "insert a"]. split; [reflexivity|]. repeat split; reflexivity. }
    eexists _, _, _. split; [reflexivity|]. split.
    { exists ["old"; "insert a"], ["old"; "insert a"; "insert b"].
      split; [reflexivity|]. repeat split; reflexivity. }
    eexists _, _, _. split; [reflexivity|]. split.
    { exists ["old"; "insert a"; "insert b"]. split; reflexivity. }
    split; [reflexivity|]. split; reflexivity. }
  eexists _, _. split; [exact Hx|]. split; [|reflexivity].
  refine (proj1 (WithTransaction_atomic append_sem 1 0 two_inserts _ _ _ _ _ Hx)). reflexivity.
Defined.

(** ** Deadlines

    Contexts have deadlines, time passes before every call, and a context
    derived with a timeout has the earlier of its parent's deadline and its
    own. *)

Section deadlines.
Context {U : Type -> Type}.

Record ctxmem := MkCtxMem { time : Z; ctxs : list (option Z); canceled : list nat }.

Definition deadline (m : ctxmem) (c : nat) : option Z := default None (ctxs m !! c).
Definition earlier (d : option Z) (e : Z) : option Z :=
  Some (match d with Some d => Z.min d e | None => e end).

Definition ctx_answer (X : Type) (e : dbE U X) (m : ctxmem) (x : X) (m' : ctxmem) : Prop :=
  time m <= time m' /\
  match e in dbE _ X return X -> Prop with
  | CtxDeadline c => fun r => r = deadline m c /\ m' = MkCtxMem (time m') (ctxs m) (canceled m)
  | TimeNow => fun r => r = time m' /\ m' = MkCtxMem (time m') (ctxs m) (canceled m)
  | WithTimeout c d => fun r =>
      r = length (ctxs m) /\
      m' = MkCtxMem (time m') (ctxs m ++ [earlier (deadline m c) (time m' + d)]) (canceled m)
  | Cancel c => fun _ => m' = MkCtxMem (time m') (ctxs m) (canceled m ++ [c])
  | _ => fun _ => m' = MkCtxMem (time m') (ctxs m) (canceled m)
  end x.

(** What a query is given when its effective deadline is fixed at [tq]. *)
Definition query_deadline (cfg : ConnectionConfig) (d : option Z) (tq : Z) : option Z :=
  if QueryTimeout cfg <=? 0 then d else earlier d (tq + QueryTimeout cfg).

Definition ctx_call (o : obs (dbE U)) : bool :=
  match o with
  | Obs e _ => match e with
               | CtxDeadline _ | TimeNow | WithTimeout _ _ => true
               | _ => false
               end
  end.

(** The context chosen, and what the choice has done. *)
Definition chosen (c : postgresClient) (ctx : nat) (m : ctxmem) (cc : nat * option nat)
    (m1 : ctxmem) (t : list (obs (dbE U))) : Prop :=
  Forall (fun o => ctx_call o = true) t /\ time m <= time m1 /\ canceled m1 = canceled m /\
  (exists tq, time m <= tq <= time m1 /\
     deadline m1 cc.1 = query_deadline (config c) (deadline m ctx) tq) /\
  (cc = (ctx, None) \/ cc = (length (ctxs m), Some (length (ctxs m)))).

Lemma derive_wp c ctx m m0 t0 :
  0 < QueryTimeout (config c) ->
  ctxs m0 = ctxs m -> canceled m0 = canceled m -> time m <= time m0 ->
  Forall (fun o => ctx_call o = true) t0 ->
  wp ctx_answer (let* ctx' := call (WithTimeout ctx (QueryTimeout (config c))) in
                 Ret (ctx', Some ctx')) m0
    (fun cc m1 t => chosen c ctx m cc m1 (t0 ++ t)).
Proof using.
  intros Hz Hc Hcn Ht Hf x m1 (Hle & -> & ->). simpl. unfold chosen, query_deadline. simpl.
  split_and!; [apply Forall_app; split; [done|by repeat constructor]|lia|done| |].
  - exists (time m1). split; [lia|]. destruct (Z.leb_spec (QueryTimeout (config c)) 0); [lia|].
    unfold deadline. simpl. by rewrite Hc, list_lookup_middle by done.
  - right. by rewrite Hc.
Qed.

Lemma withQueryTimeout_spec c ctx m :
  QueryTimeout (config c) < 2 ^ 63 - 1 ->
  wp ctx_answer (withQueryTimeout c ctx) m (chosen c ctx m).
Proof using.
  intros Hq. unfold withQueryTimeout.
  destruct (Z.leb_spec (QueryTimeout (config c)) 0) as [Hz|Hz].
  { unfold chosen, query_deadline. simpl.
    destruct (Z.leb_spec (QueryTimeout (config c)) 0); [|lia].
    split_and!; [constructor|lia|done|exists (time m); split; [lia|done]|by left]. }
  intros d m0 (Hle & -> & ->). destruct (deadline m ctx) as [dl|] eqn:Hdl.
  - intros now m1 (Hle1 & -> & ->). cbn in Hle1. cbn [prog_bind time].
    destruct (Z.leb_spec (Until dl (time m1)) (QueryTimeout (config c))) as [Hu|Hu].
    + unfold Until in Hu. unfold chosen, query_deadline. simpl.
      split_and!; [by repeat constructor|lia|done| |by left].
      exists (time m1). split; [lia|]. destruct (Z.leb_spec (QueryTimeout (config c)) 0); [lia|].
      unfold deadline in *. simpl. rewrite Hdl. unfold earlier. f_equal. lia.
    + refine (derive_wp c ctx m (MkCtxMem (time m1) (ctxs m) (canceled m))
                [Obs (CtxDeadline ctx) (Some dl); Obs TimeNow (time m1)] Hz _ _ _ _);
        [done|done|simpl; lia|by repeat constructor].
  - refine (derive_wp c ctx m (MkCtxMem (time m0) (ctxs m) (canceled m))
              [Obs (CtxDeadline ctx) None] Hz _ _ _ _);
      [done|done|simpl; lia|by repeat constructor].
Qed.

(** C38: Query deadlines.  Every query method sends exactly one query, with a
    context whose deadline is the caller's when no query timeout is set, and
    otherwise the earlier of the caller's deadline and the query timeout
    counted from a moment of the call: the timeout never extends the caller's
    deadline, and the caller's later deadline never weakens the timeout.  No
    context is cancelled but the one derived for the call, which is, right
    after the query, before its result reaches the caller: in particular the
    rows that [QueryContext] returns belong to a context already cancelled
    whenever the timeout applied. *)
Theorem query_deadline_enforced {X} c ctx (op : nat -> DBTX X) m t (x : X) m' :
  QueryTimeout (config c) < 2 ^ 63 - 1 ->
  mexec ctx_answer (with_timeout c ctx op) m t x m' ->
  exists used pre post tq,
    t = pre ++ [Obs (Pool (op used)) x] ++ post /\
    Forall (fun o => ctx_call o = true) pre /\
    time m <= tq <= time m' /\
    deadline m' used = query_deadline (config c) (deadline m ctx) tq /\
    ((used = ctx /\ post = [] /\ canceled m' = canceled m) \/
     (used = length (ctxs m) /\ post = [Obs (Cancel used) tt] /\
      canceled m' = canceled m ++ [used])).
Proof using.
  intros Hq Hx. revert t x m' Hx. apply wp_mexec. apply wp_bind.
  eapply wp_mono; [|by apply withQueryTimeout_spec]. simpl.
  intros cc m1 pre (Hpre & Ht & Hcn & (tq & Htq & Hd) & Hcc) x m2 (Hle2 & ->).
  destruct Hcc as [-> | ->]; simpl in *.
  - exists ctx, pre, [], tq. split_and!; [done|done|lia|lia|done|by left].
  - intros [] m3 (Hle3 & ->). simpl in *.
    exists (length (ctxs m)), pre, [Obs (Cancel (length (ctxs m))) tt], tq.
    split_and!; [done|done|lia|lia|done|]. right. by rewrite Hcn.
Qed.
End deadlines.

Lemma query_deadline_enforced_witness :
  let c := MkClient (MkConnectionConfig 0 0 0 0 (3 * Second)) in
  let m := MkCtxMem 1000 [None; Some (10 * Second)] [] in
  exists t x m',
    mexec ctx_answer (db_QueryContext (fun _ => Empty_set) c 1 "select 1" []) m t x m' /\
    canceled m' = [2%nat] /\ deadline m' 2 = Some (3 * Second + 1200) /\
    exists used pre post tq,
      t = pre ++ [Obs (Pool (QueryContext used "select 1" [])) x] ++ post /\
      Forall (fun o => ctx_call o = true) pre /\
      time m <= tq <= time m' /\
      deadline m' used = query_deadline (config c) (deadline m 1) tq /\
      ((used = 1%nat /\ post = [] /\ canceled m' = canceled m) \/
       (used = length (ctxs m) /\ post = [Obs (Cancel used) tt] /\
        canceled m' = canceled m ++ [used])).
Proof.
  intros c m.
  assert (Hx : mexec ctx_answer (db_QueryContext (fun _ => Empty_set) c 1 "select 1" []) m
    [Obs (CtxDeadline 1) (Some (10 * Second)); Obs TimeNow 1100;
     Obs (WithTimeout 1 (3 * Second)) 2%nat;
     Obs (Pool (QueryContext 2 "select 1" [])) (Ok "rows"); Obs (Cancel 2) tt]
    (Ok "rows") (MkCtxMem 1400 [None; Some (10 * Second); Some (3 * Second + 1200)] [2%nat])).
  { eexists _, (MkCtxMem 1050 [None; Some (10 * Second)] []), _.
    split; [reflexivity|]. split; [split; [simpl; lia|split; reflexivity]|].
    eexists _, (MkCtxMem 1100 [None; Some (10 * Second)] []), _.
    split; [reflexivity|]. split; [split; [simpl; lia|split; reflexivity]|].
    eexists _, (MkCtxMem 1200 [None; Some (10 * Second); Some (3 * Second + 1200)] []), _.
    split; [reflexivity|]. split; [split; [simpl; lia|split; reflexivity]|].
    eexists _, (MkCtxMem 1300 [None; Some (10 * Second); Some (3 * Second + 1200)] []), _.
    split; [reflexivity|]. split; [split; [simpl; lia|reflexivity]|].
    eexists _, (MkCtxMem 1400 [None; Some (10 * Second); Some (3 * Second + 1200)] [2%nat]), _.
    split; [reflexivity|]. split; [split; [simpl; lia|reflexivity]|].
    split; [reflexivity|]. split; reflexivity. }
  eexists _, _, _. split; [exact Hx|]. split; [reflexivity|]. split; [reflexivity|].
  refine (query_deadline_enforced c 1 _ m _ _ _ _ Hx). reflexivity.
Defined.
