(* ===== verification/CryptoUtil.v ===== *)
(** * CryptoUtil: password hashing, key derivation, digests
      ([cryptoutil/client.go], [bcrypt.go], [scrypt.go], [sha.go])

    The bcrypt and scrypt packages are parameters: [GenerateFromPassword] is
    an event, since it draws a salt; comparing and deriving are functions of
    their arguments.  SHA-2 and the hexadecimal encoding are executable. *)

From stdpp Require Import base strings list.
From Stdlib Require Import ZArith Lia.
From S2P Require Import Prelude Effects Encoding Sha2.

Open Scope Z_scope.
Open Scope go_scope.

Definition ErrInvalidCost : sentinel := MkSentinel "cryptoutil.ErrInvalidCost" "bcrypt: invalid cost".
Definition ErrMismatchedHash : sentinel :=
  MkSentinel "cryptoutil.ErrMismatchedHash" "bcrypt: hash and password mismatch".
Definition ErrInvalidParams : sentinel :=
  MkSentinel "cryptoutil.ErrInvalidParams" "scrypt: invalid parameters".
Definition ErrKeyDerivation : sentinel :=
  MkSentinel "cryptoutil.ErrKeyDerivation" "scrypt: key derivation failed".

(** Of [golang.org/x/crypto/bcrypt]. *)
Definition bcrypt_ErrMismatched : sentinel :=
  MkSentinel "bcrypt.ErrMismatchedHashAndPassword"
    "crypto/bcrypt: hashedPassword is not the hash of the given password".
Definition bcrypt_MinCost : Z := 4.
Definition bcrypt_MaxCost : Z := 31.
Definition bcrypt_DefaultCost : Z := 10.

Record BcryptConfig := MkBcryptConfig { Cost : Z }.
Record ScryptConfig := MkScryptConfig { N_ : Z; R_ : Z; P_ : Z; KeyLen : Z }.

#[export] Instance ScryptConfig_eq_dec : EqDecision ScryptConfig.
Proof. solve_decision. Defined.

Definition DefaultScryptConfig : ScryptConfig := MkScryptConfig 32768 8 1 32.
Definition IsMismatchedHash (err : option error) : bool :=
  match err with Some err => errors_Is err ErrMismatchedHash | None => false end.

(** ** bcrypt *)

Record bcrypter := MkBcrypter { cost : Z }.

Definition NewBcrypter (cfg : BcryptConfig) : result bcrypter :=
  let cost := if Cost cfg =? 0 then bcrypt_DefaultCost else Cost cfg in
  if (cost <? bcrypt_MinCost) || (bcrypt_MaxCost <? cost) then Err (Sentinel ErrInvalidCost)
  else Ok (MkBcrypter cost).

Inductive bcryptE : Type -> Type :=
| GenerateFromPassword (password : string) (cost : Z) : bcryptE (result string).

Definition Hash (b : bcrypter) (password : string) : prog bcryptE (result string) :=
  let* r := call (GenerateFromPassword password (cost b)) in
  match r with
  | Err err => Ret (Err err)
  | Ok hash => Ret (Ok hash)
  end.

Section compare.
Variable CompareHashAndPassword : string -> string -> option error.

(** The comparison with [==] is on the identity of the error variable. *)
Definition Compare (b : bcrypter) (password hash : string) : option error :=
  match CompareHashAndPassword hash password with
  | Some (Sentinel v) =>
      if String.eqb (sentinel_var v) (sentinel_var bcrypt_ErrMismatched)
      then Some (Sentinel ErrMismatchedHash)
      else Some (Sentinel v)
  | err => err
  end.
End compare.

(** ** scrypt *)

Record scrypter := MkScrypter { n : Z; r : Z; p : Z; keyLen : Z }.

Definition NewScrypter (cfg : ScryptConfig) : result scrypter :=
  let cfg := if decide (cfg = MkScryptConfig 0 0 0 0) then DefaultScryptConfig else cfg in
  if (N_ cfg <=? 1) || negb (Z.land (N_ cfg) (wrap64 (N_ cfg - 1)) =? 0)
  then Err (Errorf (sentinel_text ErrInvalidParams +:+ ": N must be a power of two > 1")
                   [Sentinel ErrInvalidParams])
  else Ok (MkScrypter (N_ cfg) (R_ cfg) (P_ cfg) (KeyLen cfg)).

Section derive.
Variable scrypt_Key : bytes -> bytes -> Z -> Z -> Z -> Z -> result bytes.

Definition DeriveKey (s : scrypter) (password salt : bytes) : result bytes :=
  match scrypt_Key password salt (n s) (r s) (p s) (keyLen s) with
  | Err err => Err (Errorf (sentinel_text ErrKeyDerivation +:+ ": " +:+ error_text err)
                           [Sentinel ErrKeyDerivation; err])
  | Ok key => Ok key
  end.
End derive.

(** ** Digests *)

Definition SHA256 (data : bytes) : string := hex_EncodeToString (Sum256 data).
Definition SHA512 (data : bytes) : string := hex_EncodeToString (Sum512 data).
Definition SHA256Bytes (data : bytes) : bytes := Sum256 data.
Definition SHA512Bytes (data : bytes) : bytes := Sum512 data.

(** ** Theorems *)

(** Clearing the lowest set bit leaves nothing exactly for powers of two. *)
Lemma power_of_two_trick z : 1 < z -> (Z.land z (z - 1) = 0 <-> z = 2 ^ Z.log2 z).
Proof.
  intros Hz. pose proof (Z.log2_spec z ltac:(lia)) as [Hlo Hhi].
  pose proof (Z.log2_nonneg z) as Hk. split.
  - intros Hl. destruct (decide (z = 2 ^ Z.log2 z)) as [|Hne]; [done|].
    assert (Hlog : Z.log2 (z - 1) = Z.log2 z) by (apply Z.log2_unique; lia).
    apply (f_equal (fun w => Z.testbit w (Z.log2 z))) in Hl.
    rewrite Z.land_spec, Z.bit_log2, <- Hlog, Z.bit_log2, Z.testbit_0_l in Hl; [done|lia|lia].
  - intros Heq. rewrite Heq at 1 2.
    replace (2 ^ Z.log2 z - 1) with (Z.ones (Z.log2 z)) by (rewrite Z.ones_equiv; lia).
    rewrite Z.land_ones by done. apply Z_mod_same_full.
Qed.

(** The parameters in force: the zero value stands for the default. *)
Definition effective (cfg : ScryptConfig) : ScryptConfig :=
  if decide (cfg = MkScryptConfig 0 0 0 0) then DefaultScryptConfig else cfg.

(** [s] derives with the parameters [cfg]: for every implementation of
    [scrypt.Key] it gives the key that [scrypt.Key] gives for them, and an
    error of it is returned as an [ErrKeyDerivation] that also wraps it. *)
Definition derives_with (cfg : ScryptConfig) (s : scrypter) : Prop :=
  forall scrypt_Key password salt,
    match scrypt_Key password salt (N_ cfg) (R_ cfg) (P_ cfg) (KeyLen cfg) with
    | Ok key => DeriveKey scrypt_Key s password salt = Ok key
    | Err err => exists e, DeriveKey scrypt_Key s password salt = Err e /\
        errors_Is e ErrKeyDerivation = true /\
        (forall v, errors_Is err v = true -> errors_Is e v = true)
    end.

Lemma DeriveKey_derives n r p keyLen :
  derives_with (MkScryptConfig n r p keyLen) (MkScrypter n r p keyLen).
Proof.
  intros key password salt. unfold DeriveKey. simpl.
  destruct (key password salt n r p keyLen) as [k|err]; [done|].
  eexists. split_and!; [done|done|]. intros v Hv. simpl. rewrite Hv.
  by rewrite orb_true_r.
Qed.

(** C39: Parameter validation and use of the key derivation.  For every
    configuration a machine can hold, [NewScrypter] succeeds exactly when [N]
    is a power of two greater than one (or the configuration is the zero
    value, which stands for the default), and the scrypter it returns derives
    keys with exactly the configured [N], [R], [P] and key length, whatever
    [scrypt.Key] is, password and salt passed on as they are, its error
    wrapped together with [ErrKeyDerivation]; otherwise the error is an
    [ErrInvalidParams].  The bit trick the code uses neither rejects a power
    of two nor lets anything else through, and its subtraction does not
    overflow. *)
Theorem NewScrypter_power_of_two cfg :
  in_int64 (N_ cfg) ->
  match NewScrypter cfg with
  | Ok s => (exists k, 1 <= k <= 62 /\ N_ (effective cfg) = 2 ^ k) /\ derives_with (effective cfg) s
  | Err err =>
      errors_Is err ErrInvalidParams = true /\ cfg <> MkScryptConfig 0 0 0 0 /\
      forall k, 1 <= k -> N_ cfg <> 2 ^ k
  end.
Proof.
  intros Hint. unfold NewScrypter, effective. case_decide as Hzero.
  { simpl. split; [exists 15; split; [lia|done]|]. apply DeriveKey_derives. }
  destruct (Z.leb_spec (N_ cfg) 1) as [Hle|Hgt]; simpl.
  { split_and!; [done|done|]. intros k Hk Heq.
    pose proof (Z.pow_le_mono_r 2 1 k ltac:(lia) Hk). lia. }
  rewrite wrap64_id by (unfold in_int64 in *; lia).
  pose proof (power_of_two_trick (N_ cfg) Hgt) as Htrick.
  destruct (Z.eqb_spec (Z.land (N_ cfg) (N_ cfg - 1)) 0) as [Hz|Hz]; simpl.
  - apply Htrick in Hz. split; [|destruct cfg; apply DeriveKey_derives].
    exists (Z.log2 (N_ cfg)). split; [|done]. unfold in_int64 in Hint.
    pose proof (Z.log2_lt_pow2 (N_ cfg) 63 ltac:(lia)).
    pose proof (Z.log2_pos (N_ cfg) Hgt). lia.
  - split_and!; [done|done|]. intros k Hk Heq. apply Hz, Htrick. rewrite Heq.
    by rewrite Z.log2_pow2 by lia.
Qed.

Lemma NewScrypter_power_of_two_witness :
  in_int64 65536 /\
  match NewScrypter (MkScryptConfig 65536 8 2 64) with
  | Ok s => (exists k, 1 <= k <= 62 /\ 65536 = 2 ^ k) /\
            derives_with (MkScryptConfig 65536 8 2 64) s
  | Err _ => False
  end.
Proof.
  assert (Hi : in_int64 65536) by (split; [discriminate|reflexivity]).
  split; [exact Hi|].
  exact (NewScrypter_power_of_two (MkScryptConfig 65536 8 2 64) Hi).
Defined.

(** A bcrypter only exists with a cost the package accepts. *)
Lemma NewBcrypter_range cfg :
  match NewBcrypter cfg with
  | Ok b => bcrypt_MinCost <= cost b <= bcrypt_MaxCost /\
            (cost b = Cost cfg \/ (Cost cfg = 0 /\ cost b = bcrypt_DefaultCost))
  | Err err => err = Sentinel ErrInvalidCost /\ Cost cfg <> 0 /\
               (Cost cfg < bcrypt_MinCost \/ bcrypt_MaxCost < Cost cfg)
  end.
Proof.
  unfold NewBcrypter, bcrypt_MinCost, bcrypt_MaxCost, bcrypt_DefaultCost.
  destruct (Z.eqb_spec (Cost cfg) 0); simpl; [lia|].
  destruct (Z.ltb_spec (Cost cfg) 4), (Z.ltb_spec 31 (Cost cfg)); simpl;
    repeat split; try lia; try (by left); auto.
Qed.

(** The text digests are the byte digests in hexadecimal, and can be read back. *)
Lemma SHA_text data :
  hex_Decode (SHA256 data) = Some (SHA256Bytes data) /\
  String.length (SHA256 data) = 64%nat /\
  hex_Decode (SHA512 data) = Some (SHA512Bytes data) /\
  String.length (SHA512 data) = 128%nat.
Proof.
  unfold SHA256, SHA512, SHA256Bytes, SHA512Bytes.
  rewrite !hex_Decode_Encode, !hex_Encode_length, Sum256_length, Sum512_length. done.
Qed.

(** The digest of the empty input, from FIPS 180-4's examples. *)
Example SHA256_empty :
  SHA256 [] = "e3b0c44298fc1c149afbf4c8996fb92427ae41e4649b934ca495991b7852b855".
Proof. vm_compute. reflexivity. Qed.
