(* ===== verification/I18n.v ===== *)
(** * I18n: the translator and its cache of localizers
      ([i18n/i18n.go], [i18n/translator.go])

    The go-i18n bundle, the language parser and the quoting of strings in
    error texts are parameters or events; the cache of localizers and its
    read-write lock are shared by all goroutines that translate. *)

From stdpp Require Import base gmap strings list.
From Stdlib Require Import ZArith Lia.
From S2P Require Import Prelude Effects.

Open Scope go_scope.

Definition ErrLocaleNotFound : sentinel := MkSentinel "i18n.ErrLocaleNotFound" "locale not found".
Definition ErrMessageNotFound : sentinel := MkSentinel "i18n.ErrMessageNotFound" "message not found".
Definition ErrBundleLoad : sentinel := MkSentinel "i18n.ErrBundleLoad" "failed to load message bundle".

Record Config := MkConfig {
  DefaultLocale : string;
  FallbackLocale : string;
  MessageFiles : list string;
  Format : string
}.

(** The fields set once; the cache and its lock are the shared memory. *)
Record translator := MkTranslator {
  locales : list string;
  fallbackLocale : string
}.

(** A localizer is a handle. *)
Inductive i18nE : Type -> Type :=
| NewBundle (defaultLang : string) : i18nE unit
| LoadMessageFile (file : string) : i18nE (result string)
| RLock : i18nE unit
| RUnlock : i18nE unit
| Lock : i18nE unit
| Unlock : i18nE unit
| MapGet (locale : string) : i18nE (option nat)
| MapSet (locale : string) (loc : nat) : i18nE unit
| NewLocalizer (langs : list string) : i18nE nat
| Localize (loc : nat) (messageID : string) (templateData : list (string * string))
    (pluralCount : option Z) : i18nE (result string).

Section translator.
(** [language.Parse] followed by [String], and [%q]. *)
Variable Parse : string -> result string.
Variable quote : string -> string.

(** [fmt.Errorf("%w: ...", v, ...)] *)
Definition failed (v : sentinel) (text : string) : error :=
  Errorf (sentinel_text v +:+ ": " +:+ text) [Sentinel v].

Fixpoint load_files (files : list string) (acc : list string) : prog i18nE (result (list string)) :=
  match files with
  | [] => Ret (Ok acc)
  | file :: files' =>
      let* r := call (LoadMessageFile file) in
      match r with
      | Err err =>
          Ret (Err (failed ErrBundleLoad
                 ("failed to load " +:+ quote file +:+ ": " +:+ error_text err)))
      | Ok tag => load_files files' (acc ++ [tag])
      end
  end.

Definition NewTranslator (cfg : Config) : prog i18nE (result translator) :=
  if String.eqb (DefaultLocale cfg) "" then
    Ret (Err (failed ErrBundleLoad "DefaultLocale is required"))
  else if (length (MessageFiles cfg) =? 0)%nat then
    Ret (Err (failed ErrBundleLoad "at least one MessageFile is required"))
  else
    let format := if String.eqb (Format cfg) "" then "json" else Format cfg in
    if negb (String.eqb format "json") then
      Ret (Err (failed ErrBundleLoad
             ("unsupported format " +:+ quote format +:+ " (only 'json' is supported here)")))
    else
      match Parse (DefaultLocale cfg) with
      | Err err =>
          Ret (Err (failed ErrBundleLoad
                 ("invalid DefaultLocale " +:+ quote (DefaultLocale cfg) +:+ ": " +:+
                  error_text err)))
      | Ok defaultLang =>
          call (NewBundle defaultLang) ;;;
          let* r := load_files (MessageFiles cfg) [] in
          match r with
          | Err err => Ret (Err err)
          | Ok locales => Ret (Ok (MkTranslator locales (FallbackLocale cfg)))
          end
      end.

(** The deferred [Unlock] runs on every return after [Lock]. *)
Definition getLocalizer (t : translator) (locale : string) : prog i18nE (result nat) :=
  call RLock ;;;
  let* loc := call (MapGet locale) in
  call RUnlock ;;;
  match loc with
  | Some loc => Ret (Ok loc)
  | None =>
      call Lock ;;;
      let* loc := call (MapGet locale) in
      match loc with
      | Some loc => call Unlock ;;; Ret (Ok loc)
      | None =>
          match Parse locale with
          | Err err =>
              call Unlock ;;;
              Ret (Err (failed ErrLocaleNotFound
                     ("invalid locale " +:+ quote locale +:+ ": " +:+ error_text err)))
          | Ok lang =>
              let* newLoc :=
                if negb (String.eqb (fallbackLocale t) "") &&
                   negb (String.eqb (fallbackLocale t) locale)
                then call (NewLocalizer [lang; fallbackLocale t])
                else call (NewLocalizer [lang]) in
              call (MapSet locale newLoc) ;;;
              call Unlock ;;;
              Ret (Ok newLoc)
          end
      end
  end.

Definition T (t : translator) (locale messageID : string) (templateData : list (string * string))
    (pluralCount : Z) : prog i18nE (result string) :=
  let* l := getLocalizer t locale in
  match l with
  | Err err => Ret (Err err)
  | Ok localizer =>
      let* r := call (Localize localizer messageID templateData
                        (if (0 <=? pluralCount)%Z then Some pluralCount else None)) in
      match r with
      | Err err =>
          match errors_As "*i18n.MessageNotFoundErr" err with
          | Some _ => Ret (Err (failed ErrMessageNotFound (error_text err)))
          | None => Ret (Err (failed ErrBundleLoad (error_text err)))
          end
      | Ok msg => Ret (Ok msg)
      end
  end.

Definition Locales (t : translator) : list string := locales t.
End translator.

(** ** The shared memory *)

Record imem := MkIMem {
  localizers : gmap string nat;
  readers : gset nat;
  writer : option nat;
  next_localizer : nat
}.

(** What goroutine [i] can be answered. *)
Definition i18n_answer (X : Type) (i : nat) (e : i18nE X) (s : imem) : X -> imem -> Prop :=
  match e in i18nE X return X -> imem -> Prop with
  | RLock => fun _ s' =>
      writer s = None /\
      s' = MkIMem (localizers s) ({[i]} ∪ readers s) (writer s) (next_localizer s)
  | RUnlock => fun _ s' =>
      s' = MkIMem (localizers s) (readers s ∖ {[i]}) (writer s) (next_localizer s)
  | Lock => fun _ s' =>
      writer s = None /\ readers s = ∅ /\
      s' = MkIMem (localizers s) (readers s) (Some i) (next_localizer s)
  | Unlock => fun _ s' => s' = MkIMem (localizers s) (readers s) None (next_localizer s)
  | MapGet locale => fun x s' => x = localizers s !! locale /\ s' = s
  | MapSet locale loc => fun _ s' =>
      s' = MkIMem (<[locale := loc]> (localizers s)) (readers s) (writer s) (next_localizer s)
  | NewLocalizer _ => fun x s' =>
      x = next_localizer s /\
      s' = MkIMem (localizers s) (readers s) (writer s) (S (next_localizer s))
  | _ => fun _ s' => s' = s
  end.

(** ** Where a goroutine is in [getLocalizer] *)

Inductive place :=
| QStart (L : string)
| QReading (L : string)
| QRead (L : string) (x : option nat)
| QWait (L : string)
| QLocked (L : string)
| QMissing (L : string)
| QNew (L : string) (l : nat)
| QHave (L : string) (l : nat)
| QDone (L : string) (l : nat)
| QFail (L : string).

Definition locale_of (q : place) : string :=
  match q with
  | QStart L | QReading L | QRead L _ | QWait L | QLocked L | QMissing L
  | QNew L _ | QHave L _ | QDone L _ | QFail L => L
  end.

Definition delta (X : Type) (q : place) (e : i18nE X) : X -> option place :=
  match e in i18nE X return X -> option place with
  | RLock => fun _ => match q with QStart L => Some (QReading L) | _ => None end
  | RUnlock => fun _ =>
      match q with
      | QRead L (Some l) => Some (QDone L l)
      | QRead L None => Some (QWait L)
      | _ => None
      end
  | Lock => fun _ => match q with QWait L => Some (QLocked L) | _ => None end
  | Unlock => fun _ =>
      match q with
      | QHave L l => Some (QDone L l)
      | QMissing L => Some (QFail L)
      | _ => None
      end
  | MapGet L' => fun x =>
      match q with
      | QReading L => if String.eqb L' L then Some (QRead L x) else None
      | QLocked L =>
          if String.eqb L' L
          then Some (match x with Some l => QHave L l | None => QMissing L end) else None
      | _ => None
      end
  | MapSet L' l' => fun _ =>
      match q with
      | QNew L l => if (String.eqb L' L && (l' =? l)%nat)%bool then Some (QHave L l) else None
      | _ => None
      end
  | NewLocalizer _ => fun l => match q with QMissing L => Some (QNew L l) | _ => None end
  | _ => fun _ => None
  end.

(** ** The invariant of the shared cache *)

Definition reading (q : place) : bool :=
  match q with QReading _ | QRead _ _ => true | _ => false end.
Definition writing (q : place) : bool :=
  match q with QLocked _ | QMissing _ | QNew _ _ | QHave _ _ => true | _ => false end.

(** What a goroutine may rely on about the cache. *)
Definition knows (m : gmap string nat) (q : place) : Prop :=
  match q with
  | QRead L (Some l) | QHave L l | QDone L l => m !! L = Some l
  | QMissing L | QNew L _ => m !! L = None
  | _ => True
  end.

Definition stores (L : string) (o : nat * obs i18nE) : bool :=
  match o.2 with
  | Obs e _ => match e with MapSet L' _ => String.eqb L' L | _ => false end
  end.
Definition stored (L : string) (h : list (nat * obs i18nE)) : nat := length (List.filter (stores L) h).

Lemma stored_snoc L h o : stored L (h ++ [o]) = (stored L h + if stores L o then 1 else 0)%nat.
Proof. unfold stored. rewrite List.filter_app, length_app. simpl. by destruct (stores L o). Qed.

Definition cache_inv (names : list string) (s : imem) (h : list (nat * obs i18nE))
    (qs : list place) : Prop :=
  map locale_of qs = names /\
  (forall i, writer s = Some i <-> exists q, qs !! i = Some q /\ writing q = true) /\
  (forall i, i ∈ readers s <-> exists q, qs !! i = Some q /\ reading q = true) /\
  (writer s <> None -> readers s = ∅) /\
  (forall i q, qs !! i = Some q -> knows (localizers s) q) /\
  (forall L, stored L h = match localizers s !! L with Some _ => 1 | None => 0 end%nat).

(** A goroutine moves without changing who holds the lock. *)
Lemma holders_kept (f : place -> bool) (P : nat -> Prop) (qs : list place) (i : nat) q q' :
  (forall j, P j <-> exists q, qs !! j = Some q /\ f q = true) ->
  qs !! i = Some q -> f q' = f q ->
  forall j, P j <-> exists q, <[i := q']> qs !! j = Some q /\ f q = true.
Proof.
  intros HP Hi Hf j. rewrite HP. destruct (decide (j = i)) as [->|Hne].
  - rewrite list_lookup_insert_eq by (by eapply lookup_lt_Some).
    split; intros (q0 & ? & ?); [exists q'|exists q]; simplify_eq; split; congruence.
  - by rewrite list_lookup_insert_ne.
Qed.

(** Goroutine [i] enters, or leaves, the set of holders. *)
Lemma holders_changed (f : place -> bool) (P P' : nat -> Prop) (qs : list place) (i : nat) q q' :
  (forall j, P j <-> exists q, qs !! j = Some q /\ f q = true) ->
  qs !! i = Some q -> (P' i <-> f q' = true) -> (forall j, j <> i -> P' j <-> P j) ->
  forall j, P' j <-> exists q, <[i := q']> qs !! j = Some q /\ f q = true.
Proof.
  intros HP Hi Hpi Hpj j. destruct (decide (j = i)) as [->|Hne].
  - rewrite list_lookup_insert_eq by (by eapply lookup_lt_Some). rewrite Hpi. naive_solver.
  - rewrite list_lookup_insert_ne by done. rewrite Hpj by done. apply HP.
Qed.

Lemma knows_insert m (qs : list place) (i : nat) q' :
  (forall j q, qs !! j = Some q -> knows m q) -> knows m q' ->
  forall j q, <[i := q']> qs !! j = Some q -> knows m q.
Proof.
  intros Hk Hq j q. rewrite list_lookup_insert_Some. intros [(_ & -> & _)|(_ & ?)]; eauto.
Qed.

Lemma names_insert names (qs : list place) (i : nat) q q' :
  map locale_of qs = names -> qs !! i = Some q -> locale_of q' = locale_of q ->
  map locale_of (<[i := q']> qs) = names.
Proof.
  intros Hn Hi Hq. change (locale_of <$> <[i := q']> qs = names).
  rewrite list_fmap_insert, Hq, list_insert_id; [done|]. by rewrite list_lookup_fmap, Hi.
Qed.

(** A step that is not a store keeps the rest of the invariant, whatever it does
    to the lock. *)
Lemma cache_inv_lock names X i (e : i18nE X) x s s' h (qs : list place) q q' :
  cache_inv names s h qs -> qs !! i = Some q ->
  locale_of q' = locale_of q -> knows (localizers s) q' ->
  (forall L, stores L (i, Obs e x) = false) -> localizers s' = localizers s ->
  (writer s' = Some i <-> writing q' = true) ->
  (forall j, j <> i -> writer s' = Some j <-> writer s = Some j) ->
  (i ∈ readers s' <-> reading q' = true) ->
  (forall j, j <> i -> j ∈ readers s' <-> j ∈ readers s) ->
  (writer s' <> None -> readers s' = ∅) ->
  cache_inv names s' (h ++ [(i, Obs e x)]) (<[i := q']> qs).
Proof.
  intros (Hn & Hw & Hr & Hx & Hk & Hs) Hi HL Hq Hst Hl Hw1 Hw2 Hr1 Hr2 Hx'.
  split_and!; [by eapply names_insert| | |done| |].
  - by eapply (holders_changed writing (fun j => writer s = Some j) (fun j => writer s' = Some j)).
  - by eapply (holders_changed reading (fun j => j ∈ readers s) (fun j => j ∈ readers s')).
  - rewrite Hl. by apply knows_insert.
  - intros L. by rewrite stored_snoc, Hst, Nat.add_0_r, Hl.
Qed.

Lemma cache_inv_quiet names X i (e : i18nE X) x s s' h (qs : list place) q q' :
  cache_inv names s h qs -> qs !! i = Some q ->
  locale_of q' = locale_of q -> knows (localizers s) q' ->
  (forall L, stores L (i, Obs e x) = false) ->
  writing q' = writing q -> reading q' = reading q ->
  localizers s' = localizers s -> readers s' = readers s -> writer s' = writer s ->
  cache_inv names s' (h ++ [(i, Obs e x)]) (<[i := q']> qs).
Proof.
  intros HJ Hi HL Hq Hst Hwq Hrq Hl Hrs Hws. pose proof HJ as (Hn & Hw & Hr & Hx & Hk & Hs).
  eapply cache_inv_lock; try done; rewrite ?Hrs, ?Hws, ?Hwq, ?Hrq; try done.
  - rewrite Hw. naive_solver.
  - rewrite Hr. naive_solver.
Qed.

(** A store: only the writer stores, and only what was missing. *)
Lemma cache_inv_store names i s h (qs : list place) L l :
  cache_inv names s h qs -> qs !! i = Some (QNew L l) ->
  cache_inv names (MkIMem (<[L := l]> (localizers s)) (readers s) (writer s) (next_localizer s))
    (h ++ [(i, Obs (MapSet L l) tt)]) (<[i := QHave L l]> qs).
Proof.
  intros (Hn & Hw & Hr & Hx & Hk & Hs) Hi. pose proof (Hk i _ Hi) as Hmiss. simpl in Hmiss.
  assert (Hme : writer s = Some i) by (apply Hw; eauto).
  split_and!; simpl; [by eapply names_insert| | |done| |].
  - by eapply (holders_kept writing (fun j => writer s = Some j)).
  - by eapply (holders_kept reading (fun j => j ∈ readers s)).
  - intros j q. rewrite list_lookup_insert_Some.
    intros [(_ & <- & _)|(Hne & Hj)]; [simpl; apply lookup_insert_eq|].
    assert (Hnw : writing q = false).
    { destruct (writing q) eqn:Hq; [|done]. assert (writer s = Some j) by (apply Hw; eauto).
      congruence. }
    specialize (Hk j q Hj). destruct q as [L'|L'|L' [l'|]|L'|L'|L'|L' l'|L' l'|L' l'|L']; simpl in *;
      try done; rewrite lookup_insert_ne; congruence.
  - intros L'. rewrite stored_snoc, Hs. unfold stores. simpl.
    destruct (String.eqb_spec L L') as [->|Hne].
    + by rewrite Hmiss, lookup_insert_eq.
    + by rewrite lookup_insert_ne, Nat.add_0_r.
Qed.

Lemma cache_inv_step names X i (e : i18nE X) x s s' h (qs : list place) q q' :
  cache_inv names s h qs -> qs !! i = Some q -> delta X q e x = Some q' ->
  i18n_answer X i e s x s' -> cache_inv names s' (h ++ [(i, Obs e x)]) (<[i := q']> qs).
Proof.
  intros HJ Hi Hd Ha. pose proof HJ as (Hn & Hw & Hr & Hx & Hk & Hs).
  pose proof (Hk i q Hi) as Hq.
  assert (Hwi : writing q = true -> writer s = Some i /\ readers s = ∅).
  { intros Hwq. assert (writer s = Some i) as Hwr by (apply Hw; eauto).
    split; [done|]. apply Hx. by rewrite Hwr. }
  assert (Hri : reading q = true -> i ∈ readers s) by (intros; apply Hr; eauto).
  destruct e as [dl|file| | | | |L1|L1 l1|langs|loc mid td pc]; simpl in Hd; try done.
  - destruct q; simplify_eq. destruct Ha as [Hfree ->].
    eapply cache_inv_lock; simpl; try done; try set_solver.
  - destruct q as [| |L [l|]| | | | | | |]; simplify_eq; simpl in Ha; subst s';
      (eapply cache_inv_lock; simpl; try done; try set_solver);
      (split; [|done]; intros ?%Hw; naive_solver).
  - destruct q; simplify_eq. destruct Ha as (Hfree & Hnone & ->).
    eapply cache_inv_lock; simpl; try done; rewrite ?Hnone; try set_solver.
  - destruct q; simplify_eq; simpl in Ha; subst s'; destruct (Hwi eq_refl) as [Hwr Hrd];
      (eapply cache_inv_lock; simpl; try done; rewrite ?Hrd; try set_solver);
      (intros j Hj; rewrite Hwr; naive_solver).
  - destruct Ha as [-> ->]. destruct q; try done; destruct (String.eqb_spec L1 L); simplify_eq.
    + eapply cache_inv_quiet; try done. simpl. by destruct (localizers s !! L).
    + by eapply cache_inv_quiet; try done; destruct (localizers s !! L) eqn:?.
  - destruct q; try done. destruct (String.eqb_spec L1 L), (Nat.eqb_spec l1 l); simplify_eq.
    simpl in Ha, Hd. simplify_eq. destruct x. by apply cache_inv_store.
  - destruct q; simplify_eq. destruct Ha as [-> ->]. by eapply cache_inv_quiet.
Qed.
(** ** What concurrent translations get *)

Section concurrent.
Variable Parse : string -> result string.

Definition final (q : place) (r : result nat) : Prop :=
  match q, r with
  | QDone _ l, Ok l' => l' = l
  | QFail L, Err e => (exists err, Parse L = Err err) /\ errors_Is e ErrLocaleNotFound = true
  | _, _ => False
  end.

(** The access to the map that a goroutine is about to make: a read
    ([Some false]) or a write ([Some true]). *)
Definition access {A} (p : prog i18nE A) : option bool :=
  match p with
  | Vis e _ => match e with MapGet _ => Some false | MapSet _ _ => Some true | _ => None end
  | Ret _ => None
  end.

Definition is_ret {A} (p : prog i18nE A) : bool :=
  match p with Ret _ => true | Vis _ _ => false end.

Lemma access_holds q (p : prog i18nE (result nat)) :
  conforms delta final q p ->
  (access p = Some true -> writing q = true) /\
  (access p <> None -> writing q = true \/ reading q = true).
Proof using.
  destruct p as [a|X e k]; [done|]. intros Hc.
  destruct e; simpl in *; try (split; [done|by intros []]).
  - specialize (Hc None). destruct q; simpl in *; try done; (split; [done|by auto]).
  - specialize (Hc tt). destruct q; simpl in *; try done; split; by auto.
Qed.

(** A goroutine that holds the lock can go on, and so can any other when the
    lock is free. *)
Lemma holder_can_step q X (e : i18nE X) k i s :
  conforms delta final q (Vis e k) ->
  writing q = true \/ reading q = true \/ (writer s = None /\ readers s = ∅) ->
  exists x s', i18n_answer X i e s x s'.
Proof using.
  intros Hc Hq.
  destruct e; simpl in *;
    try (exists tt; by eauto); try (exists (Ok ""); by eauto); try (eexists _, _; done).
  - specialize (Hc tt). destruct q; simpl in *; try done. exists tt. naive_solver.
  - specialize (Hc tt). destruct q; simpl in *; try done. exists tt. naive_solver.
Qed.

Lemma holder_not_done q a : final q a -> writing q = false /\ reading q = false.
Proof using. by destruct q, a. Qed.


Lemma running_thread (c : Effects.config i18nE imem (result nat)) qs i p :
  Forall2 (conforms delta final) qs (threads c) -> threads c !! i = Some p ->
  exists q, qs !! i = Some q /\ conforms delta final q p.
Proof using. intros Hqs Hi. by apply (Forall2_lookup_r _ _ _ _ _ Hqs). Qed.

(** A goroutine whose turn it can be makes a step. *)
Lemma turn_step (c : Effects.config i18nE imem (result nat)) qs i q :
  Forall2 (conforms delta final) qs (threads c) -> qs !! i = Some q ->
  (exists p, threads c !! i = Some p /\ is_ret p = false) ->
  writing q = true \/ reading q = true \/ (writer (shared c) = None /\ readers (shared c) = ∅) ->
  exists c', pool_step i18n_answer (fun _ _ => False) c c'.
Proof using.
  intros Hqs Hq (p & Hp & Hret) Hor.
  destruct (running_thread c qs i p Hqs Hp) as (q' & Hq' & Hc). simplify_eq.
  destruct p as [a|X e k]; [done|].
  destruct (holder_can_step q X e k i (shared c) Hc Hor) as (x & s' & Ha).
  destruct c as [ps s h]. eexists. by eapply step_call.
Qed.

Lemma holder_running (c : Effects.config i18nE imem (result nat)) qs i q :
  Forall2 (conforms delta final) qs (threads c) -> qs !! i = Some q ->
  writing q = true \/ reading q = true ->
  exists p, threads c !! i = Some p /\ is_ret p = false.
Proof using.
  intros Hqs Hq Hor. destruct (Forall2_lookup_l _ _ _ _ _ Hqs Hq) as (p & Hp & Hc).
  exists p. split; [done|]. destruct p as [a|]; [|done].
  apply holder_not_done in Hc. naive_solver congruence.
Qed.

Variable quote : string -> string.

Lemma getLocalizer_conforms t L : conforms delta final (QStart L) (getLocalizer Parse quote t L).
Proof using.
  unfold getLocalizer. simpl. intros _ x. rewrite String.eqb_refl. intros _.
  destruct x as [l|]; simpl; [done|]. intros _ x. rewrite String.eqb_refl.
  destruct x as [l|]; simpl; [done|].
  destruct (Parse L) as [lang|err] eqn:HP; simpl; [|intros _; split; [eauto|done]].
  destruct (_ && _); simpl; intros l _;
    by rewrite String.eqb_refl, Nat.eqb_refl.
Qed.
Section reachable.
Variables (t : translator) (names : list string) (c : Effects.config i18nE imem (result nat)).
Hypothesis Hreach : rtc (pool_step i18n_answer (fun _ _ => False))
  (Effects.Config (map (getLocalizer Parse quote t) names) (MkIMem ∅ ∅ None 0) []) c.

Lemma reachable_inv : pool_inv delta final (cache_inv names) c.
Proof using Hreach.
  eapply pool_invariant; [| | |exact Hreach].
  - intros. by eapply cache_inv_step.
  - done.
  - exists (QStart <$> names). split; simpl.
    + apply Forall2_fmap, Forall_Forall2_diag, Forall_true. intros L. apply getLocalizer_conforms.
    + assert (Hq : forall i q, (QStart <$> names) !! i = Some q ->
        exists L, q = QStart L).
      { intros i q Hq. apply list_lookup_fmap_Some in Hq as (L & -> & _). eauto. }
      split_and!; simpl; try done.
      * rewrite map_map. apply map_id.
      * intros i. split; [done|]. intros (q & Hi & Hw). by destruct (Hq i q Hi) as [L ->].
      * intros i. split; [set_solver|]. intros (q & Hi & Hw). by destruct (Hq i q Hi) as [L ->].
      * intros i q Hi. by destruct (Hq i q Hi) as [L ->].
Qed.

Lemma reachable_result i L (r : result nat) :
  names !! i = Some L -> threads c !! i = Some (Ret r) ->
  match r with
  | Ok l => localizers (shared c) !! L = Some l
  | Err e => (exists err, Parse L = Err err) /\ errors_Is e ErrLocaleNotFound = true
  end.
Proof using Hreach.
  intros HL Hi. destruct reachable_inv as (qs & Hqs & Hn & _ & _ & _ & Hk & _).
  destruct (running_thread c qs i _ Hqs Hi) as (q & Hq & Hf).
  rewrite <- Hn in HL. apply list_lookup_fmap_Some in HL as (q0 & -> & Hq0).
  assert (q0 = q) as -> by congruence.
  specialize (Hk i q Hq). by destruct q, r; simpl in *; subst.
Qed.

Lemma reachable_exclusive i j p1 p2 :
  i <> j -> threads c !! i = Some p1 -> threads c !! j = Some p2 ->
  access p1 = Some true -> access p2 = None.
Proof using Hreach.
  intros Hne H1 H2 Hw. destruct reachable_inv as (qs & Hqs & _ & Hwr & Hrd & Hx & _ & _).
  destruct (running_thread c qs i _ Hqs H1) as (q1 & Hq1 & Hc1).
  destruct (running_thread c qs j _ Hqs H2) as (q2 & Hq2 & Hc2).
  apply access_holds in Hc1 as [Hc1 _]. apply access_holds in Hc2 as [_ Hc2].
  assert (Hi : writer (shared c) = Some i) by (apply Hwr; eauto).
  destruct (access p2) as [b|]; [|done]. destruct (Hc2 ltac:(done)) as [Hq|Hq].
  - assert (writer (shared c) = Some j) by (apply Hwr; eauto). congruence.
  - assert (Hj : j ∈ readers (shared c)) by (apply Hrd; eauto).
    rewrite Hx in Hj by congruence. set_solver.
Qed.

Lemma reachable_stored L : (stored L (history c) <= 1)%nat.
Proof using Hreach.
  destruct reachable_inv as (qs & _ & _ & _ & _ & _ & _ & Hs). rewrite Hs.
  destruct (localizers (shared c) !! L); lia.
Qed.

Lemma reachable_progress :
  Forall (fun p => is_ret p = true) (threads c) \/
  exists c', pool_step i18n_answer (fun _ _ => False) c c'.
Proof using Hreach.
  destruct reachable_inv as (qs & Hqs & _ & Hwr & Hrd & _).
  destruct (writer (shared c)) as [i|] eqn:Hw.
  { destruct (proj1 (Hwr i) eq_refl) as (q & Hq & Hwq). right.
    eapply turn_step; eauto using holder_running. }
  destruct (set_choose_or_empty (readers (shared c))) as [[i Hi]|Hnone].
  { destruct (proj1 (Hrd i) Hi) as (q & Hq & Hrq). right.
    eapply turn_step; eauto using holder_running. }
  destruct (decide (Forall (fun p => is_ret p = true) (threads c))) as [|Hn]; [by left|right].
  apply not_Forall_Exists, Exists_exists in Hn as (p & Hp & Hret); [|apply _].
  apply list_elem_of_lookup in Hp as [i Hi].
  destruct (running_thread c qs i p Hqs Hi) as (q & Hq & _).
  eapply turn_step; [exact Hqs|exact Hq| |].
  - exists p. split; [done|]. by apply not_true_is_false.
  - right. right. split; [done|]. apply set_eq; set_solver.
Qed.
End reachable.

(** C40: The localizer cache under concurrency.  For any number of goroutines
    that look up any locales, in any interleaving that the read-write lock
    allows, starting from an empty cache:
    - the map is never written while another goroutine is about to read or
      write it (no data race);
    - a locale's localizer is stored at most once, and all lookups of that
      locale that succeed return the same localizer, the one in the cache;
    - a lookup fails only for a locale that does not parse, with
      [ErrLocaleNotFound];
    - no deadlock: while some lookup has not returned, some goroutine can move. *)
Theorem localizer_cache_safe t names c :
  rtc (pool_step i18n_answer (fun _ _ => False))
    (Effects.Config (map (getLocalizer Parse quote t) names) (MkIMem ∅ ∅ None 0) []) c ->
  (forall i j p1 p2, i <> j -> threads c !! i = Some p1 -> threads c !! j = Some p2 ->
     access p1 = Some true -> access p2 = None) /\
  (forall L, (stored L (history c) <= 1)%nat) /\
  (forall i L r, names !! i = Some L -> threads c !! i = Some (Ret r) ->
     match r with
     | Ok l => localizers (shared c) !! L = Some l
     | Err e => (exists err, Parse L = Err err) /\ errors_Is e ErrLocaleNotFound = true
     end) /\
  (Forall (fun p => is_ret p = true) (threads c) \/
   exists c', pool_step i18n_answer (fun _ _ => False) c c').
Proof using.
  intros Hreach. split_and!.
  - by eapply reachable_exclusive.
  - by eapply reachable_stored.
  - by eapply reachable_result.
  - by eapply reachable_progress.
Qed.
End concurrent.

(** ** A schedule, run *)

Definition i18n_do (X : Type) (i : nat) (e : i18nE X) (s : imem) : option (X * imem) :=
  match e in i18nE X return option (X * imem) with
  | RLock =>
      match writer s with
      | None => Some (tt, MkIMem (localizers s) ({[i]} ∪ readers s) (writer s) (next_localizer s))
      | Some _ => None
      end
  | RUnlock => Some (tt, MkIMem (localizers s) (readers s ∖ {[i]}) (writer s) (next_localizer s))
  | Lock =>
      match writer s with
      | None => if decide (readers s = ∅)
                then Some (tt, MkIMem (localizers s) (readers s) (Some i) (next_localizer s))
                else None
      | Some _ => None
      end
  | Unlock => Some (tt, MkIMem (localizers s) (readers s) None (next_localizer s))
  | MapGet locale => Some (localizers s !! locale, s)
  | MapSet locale loc =>
      Some (tt, MkIMem (<[locale := loc]> (localizers s)) (readers s) (writer s) (next_localizer s))
  | NewLocalizer _ =>
      Some (next_localizer s,
            MkIMem (localizers s) (readers s) (writer s) (S (next_localizer s)))
  | _ => None
  end.

Lemma i18n_do_sound X i (e : i18nE X) s x s' :
  i18n_do X i e s = Some (x, s') -> i18n_answer X i e s x s'.
Proof.
  destruct e; simpl; try by intros [= <- <-].
  - by destruct (writer s) eqn:Hw; intros; simplify_eq.
  - destruct (writer s) eqn:Hw; [done|]. case_decide; intros; by simplify_eq.
Qed.

Definition turn (c : Effects.config i18nE imem (result nat)) (i : nat)
  : Effects.config i18nE imem (result nat) :=
  match threads c !! i with
  | Some (Vis e k) =>
      match i18n_do _ i e (shared c) with
      | Some (x, s') =>
          Effects.Config (<[i := k x]> (threads c)) s' (history c ++ [(i, Obs e x)])
      | None => c
      end
  | _ => c
  end.

Lemma turns_reach l c :
  rtc (pool_step i18n_answer (fun _ _ => False)) c (fold_left turn l c).
Proof.
  revert c. induction l as [|i l IH]; intros c; simpl; [done|]. etrans; [|apply IH].
  destruct c as [ps s h]. unfold turn. simpl.
  destruct (ps !! i) as [[a|X e k]|] eqn:Hi; [done| |done].
  destruct (i18n_do X i e s) as [[x s']|] eqn:Hd; [|done].
  apply rtc_once. eapply step_call; [done|by apply i18n_do_sound].
Qed.

(** Both goroutines miss; the first creates the localizer, the second finds it
    on its second look. *)
Lemma localizer_cache_safe_witness :
  let t := MkTranslator ["en"] "" in
  let c := fold_left turn [0; 1; 0; 1; 0; 1; 0; 0; 0; 0; 0; 1; 1; 1]%nat
             (Effects.Config (map (getLocalizer Ok (fun s => s) t) ["en"; "en"])
                (MkIMem ∅ ∅ None 0) []) in
  threads c = [Ret (Ok 0%nat); Ret (Ok 0%nat)] /\ stored "en" (history c) = 1%nat /\
  (forall L, (stored L (history c) <= 1)%nat).
Proof.
  intros t c. split; [vm_compute; reflexivity|]. split; [vm_compute; reflexivity|].
  exact (proj1 (proj2 (localizer_cache_safe Ok (fun s => s) t ["en"; "en"] c (turns_reach _ _)))).
Defined.
