(* ===== verification/AppLog.v ===== *)
(** * AppLog: the application logger ([logger/client.go], [logger/app_logger.go])

    A thin layer over [log/slog]: the environment picks the minimum level, and
    every method forwards its fields, in order, as attributes.  Writing a
    record is an event; values are opaque. *)

From stdpp Require Import base strings list.
From Stdlib Require Import ZArith Lia.
From S2P Require Import Prelude Effects.

Open Scope Z_scope.
Open Scope go_scope.

Record Field := MkField { Key : string; Value : string }.

(** [slog.Level] *)
Definition LevelDebug : Z := -4.
Definition LevelInfo : Z := 0.
Definition LevelWarn : Z := 4.
Definition LevelError : Z := 8.

Record AppLogger := MkAppLogger { handler_level : Z }.

Inductive logE : Type -> Type :=
| WriteRecord (level : Z) (msg : string) (attrs : list (string * string)) : logE unit.

Definition NewLogger (env : string) : AppLogger :=
  MkAppLogger (if String.eqb env "production" then LevelInfo else LevelDebug).

(** [slog.Logger.Log]: a record below the handler's level is dropped. *)
Definition slog_Log (l : AppLogger) (level : Z) (msg : string) (attrs : list (string * string))
  : prog logE unit :=
  if handler_level l <=? level then call (WriteRecord level msg attrs) else Ret tt.

Definition log (l : AppLogger) (level : Z) (msg : string) (fields : list Field) : prog logE unit :=
  slog_Log l level msg (map (fun f => (Key f, Value f)) fields).

Definition Info l msg fields := log l LevelInfo msg fields.
Definition Debug_ l msg fields := log l LevelDebug msg fields.
Definition Warn l msg fields := log l LevelWarn msg fields.
Definition Error_ l msg fields := log l LevelError msg fields.

(** In production, and only there, debug records are dropped; everything else
    is written once with all its fields. *)
Lemma log_written env level msg fields t :
  LevelDebug <= level ->
  exec (log (NewLogger env) level msg fields) t tt ->
  t = if String.eqb env "production" && (level <? LevelInfo) then []
      else [Obs (WriteRecord level msg (map (fun f => (Key f, Value f)) fields)) tt].
Proof.
  intros Hl. unfold log, slog_Log, NewLogger. simpl. unfold LevelDebug, LevelInfo in *.
  destruct (String.eqb env "production"); simpl;
    [destruct (Z.leb_spec 0 level), (Z.ltb_spec level 0)|destruct (Z.leb_spec (-4) level)];
    try lia; simpl.
  1,3: by intros ([] & t' & -> & -> & _).
  by intros [-> _].
Qed.
